(** * FlagAttention: the fused attention kernels of [flag_attn/flash.py]

    A shallow embedding of the launcher [FlashAttention.forward] /
    [FlashAttention.backward] and of the four Triton kernels
    [_fwd_kernel], [_bwd_preprocess], [_bwd_kv_kernel] and [_bwd_q_kernel].

    Numbers.  The kernels compute in float32 on half-precision data.  Here a
    floating-point value is either a finite real number or one of the three
    special values that the kernels themselves create and propagate
    (+inf, -inf, NaN).  Arithmetic on finite values is exact real
    arithmetic: rounding, overflow, signed zeros and the dtype conversions
    [.to(input_dtype)] are idealised away, and the constant [log2e] is the
    real number log2(e) that its literal approximates.  Arithmetic on the
    special values follows IEEE 754.

    Blocks.  A Triton block is modelled as a function of its lane indices;
    a block of shape [BLOCK_M, BLOCK_N] is a function [Z -> Z -> fp] that the
    kernel only ever reads at lanes [0 <= i < BLOCK_M], [0 <= j < BLOCK_N].
    Pointer blocks are functions to element offsets into the storage of the
    tensor they point into.

    Memory.  Each tensor has its own storage, a function from element
    offsets to values, and is addressed through the strides the launcher
    passes.  A kernel instance returns the list of the stores it performs. *)

From Stdlib Require Import ZArith List Bool Lia Reals Lra.
From Stdlib Require Import FunctionalExtensionality FinFun Permutation.
Import ListNotations.

Open Scope Z_scope.

(* ================================================================== *)
(** * Part I: the model                                                 *)
(* ================================================================== *)

(** ** Idealised floating-point values *)

Inductive fp : Type :=
| F (r : R)
| PInf
| NInf
| NaN.

(** [(+-inf) * r] for a finite [r]: the sign of the product, NaN at zero. *)
Definition inf_times (positive : bool) (r : R) : fp :=
  if Rlt_dec 0 r then (if positive then PInf else NInf)
  else if Rlt_dec r 0 then (if positive then NInf else PInf)
  else NaN.

Definition fmul (x y : fp) : fp :=
  match x, y with
  | NaN, _ | _, NaN => NaN
  | F a, F b => F (a * b)
  | PInf, F b | F b, PInf => inf_times true b
  | NInf, F b | F b, NInf => inf_times false b
  | PInf, PInf | NInf, NInf => PInf
  | PInf, NInf | NInf, PInf => NInf
  end.

Definition fadd (x y : fp) : fp :=
  match x, y with
  | NaN, _ | _, NaN => NaN
  | F a, F b => F (a + b)
  | PInf, NInf | NInf, PInf => NaN
  | PInf, _ | _, PInf => PInf
  | NInf, _ | _, NInf => NInf
  end.

Definition fneg (x : fp) : fp :=
  match x with
  | F a => F (- a)
  | PInf => NInf
  | NInf => PInf
  | NaN => NaN
  end.

Definition fsub (x y : fp) : fp := fadd x (fneg y).

(** [1.0 / x].  The only divisor of the kernels is the running sum [l_i],
    which is never negative, so a zero divisor is +0. *)
Definition frecip (x : fp) : fp :=
  match x with
  | F a => if Req_dec_T a 0 then PInf else F (1 / a)
  | PInf | NInf => F 0
  | NaN => NaN
  end.

(** [tl.maximum] / [tl.max]: the hardware maximum, which returns the other
    operand when one of them is NaN. *)
Definition fmax (x y : fp) : fp :=
  match x, y with
  | NaN, _ => y
  | _, NaN => x
  | PInf, _ | _, PInf => PInf
  | NInf, _ => y
  | _, NInf => x
  | F a, F b => F (Rmax a b)
  end.

(** [tl.math.exp2]. *)
Definition fexp2 (x : fp) : fp :=
  match x with
  | F a => F (exp (a * ln 2))
  | PInf => PInf
  | NInf => F 0
  | NaN => NaN
  end.

(** [tl.log], the natural logarithm. *)
Definition flog (x : fp) : fp :=
  match x with
  | F a => if Rlt_dec 0 a then F (ln a)
           else if Rlt_dec a 0 then NaN else NInf
  | PInf => PInf
  | NInf | NaN => NaN
  end.

(** [log2e: tl.constexpr = 1.4426950408889634], i.e. log2(e). *)
Definition log2e : fp := F (1 / ln 2).

(** [x.to(dtype)]: conversions between float32 and the storage dtype. *)
Definition to_dtype (x : fp) : fp := x.

Definition is_finite (x : fp) : bool :=
  match x with F _ => true | _ => false end.

(** ** Blocks, reductions and memory *)

(** [tl.arange(0, n)] *)
Definition arange (n : Z) : list Z := map Z.of_nat (seq 0 (Z.to_nat n)).

(** [triton.cdiv] *)
Definition cdiv (x y : Z) : Z := (x + y - 1) / y.

(** Python's [range(lo, hi, step)] for a positive [step]. *)
Definition py_range (lo hi step : Z) : list Z :=
  map (fun t => lo + t * step) (arange (cdiv (hi - lo) step)).

Definition fsum (l : list fp) : fp := fold_left fadd l (F 0).

Definition fmax_list (l : list fp) : fp :=
  match l with
  | [] => NInf
  | x :: r => fold_left fmax r x
  end.

(** [tl.sum(p, 1)] and [tl.max(s, 1)] on a block with [n] columns. *)
Definition tl_sum1 (n : Z) (p : Z -> Z -> fp) : Z -> fp :=
  fun i => fsum (map (p i) (arange n)).

Definition tl_max1 (n : Z) (s : Z -> Z -> fp) : Z -> fp :=
  fun i => fmax_list (map (s i) (arange n)).

(** [tl.dot(a, b)] with inner dimension [n], accumulated from zero. *)
Definition tl_dot (n : Z) (a b : Z -> Z -> fp) : Z -> Z -> fp :=
  fun i j => fsum (map (fun k => fmul (a i k) (b k j)) (arange n)).

(** [tl.trans] *)
Definition tl_trans {A : Type} (a : Z -> Z -> A) : Z -> Z -> A :=
  fun i j => a j i.

Definition mem : Type := Z -> fp.

(** A mask that may be [None] (no masking). *)
Definition mask1 : Type := option (Z -> bool).

Definition lane_ok (mask : mask1) (i : Z) : bool :=
  match mask with
  | Some f => f i
  | None => true
  end.

(** [tl.load(ptr, mask)] on one lane; a masked-off lane reads as zero. *)
Definition tl_load (M : mem) (ptr : Z) (ok : bool) : fp :=
  if ok then M ptr else F 0.

(** [tl.where] on one lane. *)
Definition tl_where {A : Type} (c : bool) (x y : A) : A := if c then x else y.

(** A store: the element offset written and the value. *)
Definition write : Type := (Z * fp)%type.

(** [tl.store(ptrs, vals, mask)] on a 1-d block of [n] lanes. *)
Definition tl_store1 (n : Z) (ptrs : Z -> Z) (vals : Z -> fp)
    (mask : mask1) : list write :=
  flat_map (fun i => if lane_ok mask i then [(ptrs i, vals i)] else [])
           (arange n).

(** [tl.store(ptrs, vals, mask[:, None])] on a block of [n] rows and [d]
    columns, masked by rows. *)
Definition tl_store2 (n d : Z) (ptrs : Z -> Z -> Z) (vals : Z -> Z -> fp)
    (mask : mask1) : list write :=
  flat_map (fun i =>
              if lane_ok mask i
              then map (fun k => (ptrs i k, vals i k)) (arange d)
              else [])
           (arange n).

Definition apply_write (M : mem) (w : write) : mem :=
  fun a => if a =? fst w then snd w else M a.

Definition apply_writes (M : mem) (ws : list write) : mem :=
  fold_left apply_write ws M.

(** The strides of a 4-d tensor, [t.stride(0..3)]. *)
Record strides : Type := mkStrides {
  s0 : Z; s1 : Z; s2 : Z; s3 : Z
}.

(** ** [_fwd_kernel] *)

Record fwd_state : Type := mkFwd {
  m_i : Z -> fp;
  l_i : Z -> fp;
  acc : Z -> Z -> fp;
  k_ptrs : Z -> Z -> Z;
  v_ptrs : Z -> Z -> Z
}.

Section FwdKernel.
Variables (Q K V : mem) (sm_scale : R).
(* stride_qz, stride_qh, stride_qm, stride_qk and the like *)
Variables (stride_q stride_k stride_v stride_o : strides).
Variables (Z_ H N_CTX P_SEQ : Z).
Variables (BLOCK_M BLOCK_DMODEL BLOCK_N : Z).
Variables (IS_CAUSAL DIVISIBLE_M DIVISIBLE_N : bool).
(* tl.program_id(0), (1), (2) *)
Variables (start_m off_h off_z : Z).

Definition fwd_qk_scale : fp := fmul (F sm_scale) log2e.

Definition fwd_Q_base : Z := off_z * s0 stride_q + off_h * s1 stride_q.
Definition fwd_K_base : Z := off_z * s0 stride_k + off_h * s1 stride_k.
Definition fwd_V_base : Z := off_z * s0 stride_v + off_h * s1 stride_v.
Definition fwd_O_base : Z := off_z * s0 stride_o + off_h * s1 stride_o.
Definition fwd_L_base : Z := (off_z * H + off_h) * N_CTX.

Definition fwd_offs_m (i : Z) : Z := start_m * BLOCK_M + i.

Definition fwd_q_ptrs (i k : Z) : Z :=
  fwd_Q_base + (fwd_offs_m i * s2 stride_q + k * s3 stride_q).
Definition fwd_o_ptrs (i k : Z) : Z :=
  fwd_O_base + (fwd_offs_m i * s2 stride_o + k * s3 stride_o).
Definition fwd_l_ptrs (i : Z) : Z := fwd_L_base + fwd_offs_m i.

(** mask on M is to be applied to last block if not divisible *)
Definition fwd_mask_m : mask1 :=
  if negb DIVISIBLE_M then
    if start_m * BLOCK_M + BLOCK_M >? N_CTX
    then Some (fun i => fwd_offs_m i <? N_CTX)
    else None
  else None.

Definition fwd_q_loaded : Z -> Z -> fp :=
  fun i k => tl_load Q (fwd_q_ptrs i k) (lane_ok fwd_mask_m i).

(** Dot I trick: to place q in registers *)
Definition fwd_I : Z -> Z -> fp :=
  fun a b => tl_where (a =? b) (F 1) (F 0).

Definition fwd_q : Z -> Z -> fp :=
  if BLOCK_DMODEL <? 128
  then fun i k => to_dtype (tl_dot BLOCK_DMODEL fwd_q_loaded fwd_I i k)
  else fwd_q_loaded.

Definition fwd_hi : Z :=
  if IS_CAUSAL then P_SEQ + (start_m + 1) * BLOCK_M else N_CTX + P_SEQ.

(** The pointers into K are built with the strides of V and the pointers
    into V with the strides of K, as the source has them. *)
Definition fwd_k_ptrs_init (d j : Z) : Z :=
  fwd_K_base + (d * s3 stride_v + j * s2 stride_v).
Definition fwd_v_ptrs_init (j d : Z) : Z :=
  fwd_V_base + (j * s2 stride_k + d * s3 stride_k).

Definition fwd_init : fwd_state :=
  {| m_i := fun _ => NInf;
     l_i := fun _ => F 0;
     acc := fun _ _ => F 0;
     k_ptrs := fwd_k_ptrs_init;
     v_ptrs := fwd_v_ptrs_init |}.

Definition fwd_mask_n (start_n : Z) : mask1 :=
  if negb DIVISIBLE_N then
    if start_n + BLOCK_N >? N_CTX + P_SEQ
    then Some (fun j => start_n + j <? N_CTX + P_SEQ)
    else None
  else None.

Definition fwd_causal_mask (start_n : Z) (i j : Z) : bool :=
  P_SEQ + fwd_offs_m i >=? start_n + j.

(** The logits of one tile after masking. *)
Definition fwd_s (st : fwd_state) (start_n : Z) : Z -> Z -> fp :=
  let mask_n := fwd_mask_n start_n in
  let k := fun d j => tl_load K (k_ptrs st d j) (lane_ok mask_n j) in
  let s := fun i j => fadd (F 0) (tl_dot BLOCK_DMODEL fwd_q k i j) in
  let s := match mask_n with
           | Some f => fun i j => tl_where (f j) (s i j) NInf
           | None => s
           end in
  if IS_CAUSAL
  then fun i j => tl_where (fwd_causal_mask start_n i j) (s i j) NInf
  else s.

(** One iteration of [for start_n in range(0, hi, BLOCK_N)]. *)
Definition fwd_body (st : fwd_state) (start_n : Z) : fwd_state :=
  let mask_n := fwd_mask_n start_n in
  let v := fun j d => tl_load V (v_ptrs st j d) (lane_ok mask_n j) in
  let s := fwd_s st start_n in
  let m_i_new := fun i => fmax (m_i st i) (tl_max1 BLOCK_N s i) in
  let alpha := fun i =>
    fexp2 (fmul (fsub (m_i st i) (m_i_new i)) fwd_qk_scale) in
  let p := fun i j =>
    fexp2 (fsub (fmul (s i j) fwd_qk_scale)
                (fmul (m_i_new i) fwd_qk_scale)) in
  let acc1 := fun i d => fmul (acc st i d) (alpha i) in
  let acc2 := fun i d =>
    fadd (acc1 i d) (tl_dot BLOCK_N (fun i j => to_dtype (p i j)) v i d) in
  {| m_i := m_i_new;
     l_i := fun i => fadd (fmul (l_i st i) (alpha i)) (tl_sum1 BLOCK_N p i);
     acc := acc2;
     k_ptrs := fun d j => k_ptrs st d j + BLOCK_N * s2 stride_k;
     v_ptrs := fun j d => v_ptrs st j d + BLOCK_N * s2 stride_v |}.

Definition fwd_loop : fwd_state :=
  fold_left fwd_body (py_range 0 fwd_hi BLOCK_N) fwd_init.

(** write back l & o *)
Definition fwd_acc_out (i d : Z) : fp :=
  fmul (acc fwd_loop i d) (frecip (l_i fwd_loop i)).
Definition fwd_l_out (i : Z) : fp :=
  fadd (fmul (m_i fwd_loop i) (F sm_scale)) (flog (l_i fwd_loop i)).

(** The stores of one instance: those into [L], then those into [O]. *)
Definition _fwd_kernel : list write * list write :=
  (tl_store1 BLOCK_M fwd_l_ptrs fwd_l_out fwd_mask_m,
   tl_store2 BLOCK_M BLOCK_DMODEL fwd_o_ptrs
             (fun i d => to_dtype (fwd_acc_out i d)) fwd_mask_m).
End FwdKernel.

(** ** [_bwd_preprocess] *)

Section BwdPreprocess.
Variables (Out DO : mem).
Variables (stride_o stride_do : strides).
(* stride_dz, stride_dh, stride_dm *)
Variables (stride_dz stride_dh stride_dm : Z).
Variables (M : Z).
Variables (BLOCK_M D_HEAD : Z) (DIVISIBLE_M : bool).
Variables (pid0 off_h off_z : Z).

Definition pre_Out_base : Z := off_z * s0 stride_o + off_h * s1 stride_o.
Definition pre_DO_base : Z := off_z * s0 stride_do + off_h * s1 stride_do.
Definition pre_Delta_base : Z := off_z * stride_dz + off_h * stride_dh.

(** compute (Out * Dout).sum() for vector interpretation *)
Definition pre_off_m_base : Z := pid0 * BLOCK_M.
Definition pre_off_m (i : Z) : Z := pre_off_m_base + i.

Definition pre_o_ptrs (i n : Z) : Z :=
  pre_Out_base + pre_off_m i * s2 stride_o + n * s3 stride_o.
Definition pre_do_ptrs (i n : Z) : Z :=
  pre_DO_base + pre_off_m i * s2 stride_do + n * s3 stride_do.

Definition pre_mask_m : mask1 :=
  if negb DIVISIBLE_M then
    if pre_off_m_base + BLOCK_M >? M
    then Some (fun i => pre_off_m i <? M)
    else None
  else None.

Definition pre_o (i n : Z) : fp :=
  to_dtype (tl_load Out (pre_o_ptrs i n) (lane_ok pre_mask_m i)).
Definition pre_do (i n : Z) : fp :=
  to_dtype (tl_load DO (pre_do_ptrs i n) (lane_ok pre_mask_m i)).

Definition pre_delta : Z -> fp :=
  tl_sum1 D_HEAD (fun i n => fmul (pre_o i n) (pre_do i n)).

Definition pre_d_ptrs (i : Z) : Z := pre_Delta_base + pre_off_m i * stride_dm.

(** The stores of one instance into [Delta]. *)
Definition _bwd_preprocess : list write :=
  tl_store1 BLOCK_M pre_d_ptrs pre_delta pre_mask_m.
End BwdPreprocess.

(** ** [_bwd_kv_kernel] *)

Record kv_state : Type := mkKv {
kv_dk : Z -> Z -> fp;
kv_dv : Z -> Z -> fp;
kv_q_ptrs : Z -> Z -> Z;
kv_do_ptrs : Z -> Z -> Z
}.

Section BwdKvKernel.
Variables (Q K V : mem) (sm_scale : R) (DO : mem).
Variables (L D : mem).
Variables (stride_q stride_k stride_v stride_do stride_dk stride_dv : strides).
Variables (Z_ H N_CTX P_SEQ : Z).
Variables (BLOCK_M BLOCK_DMODEL BLOCK_N : Z).
Variables (CAUSAL DIVISIBLE_M DIVISIBLE_N : bool).
Variables (start_n off_h off_z : Z).

Definition kv_qk_scale : fp := fmul (F sm_scale) log2e.

Definition kv_Q_base : Z := off_z * s0 stride_q + off_h * s1 stride_q.
Definition kv_K_base : Z := off_z * s0 stride_k + off_h * s1 stride_k.
Definition kv_V_base : Z := off_z * s0 stride_v + off_h * s1 stride_v.
Definition kv_DO_base : Z := off_z * s0 stride_do + off_h * s1 stride_do.
Definition kv_DK_base : Z := off_z * s0 stride_dk + off_h * s1 stride_dk.
Definition kv_DV_base : Z := off_z * s0 stride_dv + off_h * s1 stride_dv.
Definition kv_D_base : Z := (off_z * H + off_h) * N_CTX.
Definition kv_L_base : Z := (off_z * H + off_h) * N_CTX.

Definition kv_lo : Z :=
  if CAUSAL
  then (Z.max (start_n * BLOCK_N - P_SEQ) 0 / BLOCK_M) * BLOCK_M
  else 0.

(** The pointer blocks and the sweep are written for an arbitrary first
    query row [lo]; the kernel uses them at [kv_lo]. *)
Definition kv_offs_m_init (lo i : Z) : Z := lo + i.
Definition kv_offs_n (j : Z) : Z := start_n * BLOCK_N + j.

Definition kv_q_ptrs_init (lo i k : Z) : Z :=
  kv_Q_base + (kv_offs_m_init lo i * s2 stride_q + k * s3 stride_q).
Definition kv_k_ptrs (j k : Z) : Z :=
  kv_K_base + (kv_offs_n j * s2 stride_k + k * s3 stride_k).
Definition kv_v_ptrs (j k : Z) : Z :=
  kv_V_base + (kv_offs_n j * s2 stride_v + k * s3 stride_v).
Definition kv_do_ptrs_init (lo i k : Z) : Z :=
  kv_DO_base + (kv_offs_m_init lo i * s2 stride_do + k * s3 stride_do).
Definition kv_dv_ptrs (j k : Z) : Z :=
  kv_DV_base + (kv_offs_n j * s2 stride_dv + k * s3 stride_dv).
Definition kv_dk_ptrs (j k : Z) : Z :=
  kv_DK_base + (kv_offs_n j * s2 stride_dk + k * s3 stride_dk).

(** mask on N is to be applied to last block if not divisible *)
Definition kv_mask_n : mask1 :=
  if negb DIVISIBLE_N then
    if start_n * BLOCK_N + BLOCK_N >? N_CTX + P_SEQ
    then Some (fun j => kv_offs_n j <? N_CTX + P_SEQ)
    else None
  else None.

(** k and v stay in SRAM throughout *)
Definition kv_v (j k : Z) : fp :=
  tl_load V (kv_v_ptrs j k) (lane_ok kv_mask_n j).
Definition kv_k (j k : Z) : fp :=
  tl_load K (kv_k_ptrs j k) (lane_ok kv_mask_n j).

Definition kv_init (lo : Z) : kv_state :=
  {| kv_dk := fun _ _ => F 0;
     kv_dv := fun _ _ => F 0;
     kv_q_ptrs := kv_q_ptrs_init lo;
     kv_do_ptrs := kv_do_ptrs_init lo |}.

Definition kv_offs_m (start_m i : Z) : Z := start_m + i.

Definition kv_causal_mask (start_m : Z) (i j : Z) : bool :=
  P_SEQ + kv_offs_m start_m i >=? kv_offs_n j.

(** mask on M is to be applied to last block if not divisible *)
Definition kv_mask_m (start_m : Z) : mask1 :=
  if negb DIVISIBLE_M then
    if start_m + BLOCK_M >? N_CTX
    then Some (fun i => kv_offs_m start_m i <? N_CTX)
    else None
  else None.

(** [valid_mask]: the row mask on a partial query tile, otherwise the
    column mask [mask_n] (broadcast over rows), which may be [None]. *)
Definition kv_valid_mask (start_m : Z) : option (Z -> Z -> bool) :=
  if negb DIVISIBLE_M then
    if start_m + BLOCK_M >? N_CTX
    then Some (fun i _ => kv_offs_m start_m i <? N_CTX)
    else option_map (fun f => fun (_ j : Z) => f j) kv_mask_n
  else option_map (fun f => fun (_ j : Z) => f j) kv_mask_n.

Definition kv_apply_masks (start_m : Z) (x : Z -> Z -> fp) : Z -> Z -> fp :=
  let x := match kv_valid_mask start_m with
           | Some vm => fun i j => tl_where (vm i j) (x i j) (F 0)
           | None => x
           end in
  if CAUSAL
  then fun i j => tl_where (kv_causal_mask start_m i j) (x i j) (F 0)
  else x.

Definition kv_q (st : kv_state) (start_m : Z) (i k : Z) : fp :=
  tl_load Q (kv_q_ptrs st i k) (lane_ok (kv_mask_m start_m) i).

Definition kv_s (st : kv_state) (start_m : Z) : Z -> Z -> fp :=
  fun i j =>
    fadd (F 0) (tl_dot BLOCK_DMODEL (kv_q st start_m) (tl_trans kv_k) i j).

(** recompute p *)
Definition kv_p (st : kv_state) (start_m : Z) : Z -> Z -> fp :=
  let l := fun i =>
    tl_load L (kv_L_base + kv_offs_m start_m i)
            (lane_ok (kv_mask_m start_m) i) in
  kv_apply_masks start_m
    (fun i j => fexp2 (fsub (fmul (kv_s st start_m i j) kv_qk_scale)
                            (fmul (l i) log2e))).

(** One iteration of [for start_m in range(lo, N_CTX, BLOCK_M)]. *)
Definition kv_body (st : kv_state) (start_m : Z) : kv_state :=
  let mask_m := kv_mask_m start_m in
  let q := kv_q st start_m in
  let p := kv_p st start_m in
  let do := fun i k => tl_load DO (kv_do_ptrs st i k) (lane_ok mask_m i) in
  let dv := fun j k =>
    fadd (kv_dv st j k)
         (tl_dot BLOCK_M (tl_trans (fun i j => to_dtype (p i j))) do j k) in
  let delta := fun i =>
    tl_load D (kv_D_base + kv_offs_m start_m i) (lane_ok mask_m i) in
  let dp := fun i j =>
    fadd (F 0) (tl_dot BLOCK_DMODEL do (tl_trans kv_v) i j) in
  let ds := kv_apply_masks start_m
              (fun i j => fmul (p i j) (fsub (dp i j) (delta i))) in
  let ds := fun i j => to_dtype (ds i j) in
  let dk := fun j k =>
    fadd (kv_dk st j k) (tl_dot BLOCK_M (tl_trans ds) q j k) in
  {| kv_dk := dk;
     kv_dv := dv;
     kv_q_ptrs := fun i k => kv_q_ptrs st i k + BLOCK_M * s2 stride_q;
     kv_do_ptrs := fun i k => kv_do_ptrs st i k + BLOCK_M * s2 stride_do |}.

(** [for start_m in range(lo, N_CTX, BLOCK_M)] from the initial state. *)
Definition kv_sweep (lo : Z) : kv_state :=
  fold_left kv_body (py_range lo N_CTX BLOCK_M) (kv_init lo).

Definition kv_loop : kv_state := kv_sweep kv_lo.

Definition kv_dk_out (j k : Z) : fp :=
  to_dtype (fmul (kv_dk kv_loop j k) (F sm_scale)).
Definition kv_dv_out (j k : Z) : fp := to_dtype (kv_dv kv_loop j k).

(** The stores of one instance: those into [DK], then those into [DV]. *)
Definition _bwd_kv_kernel : list write * list write :=
  (tl_store2 BLOCK_N BLOCK_DMODEL kv_dk_ptrs kv_dk_out kv_mask_n,
   tl_store2 BLOCK_N BLOCK_DMODEL kv_dv_ptrs kv_dv_out kv_mask_n).
End BwdKvKernel.

(** ** [_bwd_q_kernel] *)

Record q_state : Type := mkQ {
  q_dq : Z -> Z -> fp;
  q_k_ptrs : Z -> Z -> Z;
  q_v_ptrs : Z -> Z -> Z
}.

Section BwdQKernel.
Variables (Q K V : mem) (sm_scale : R) (DO : mem).
Variables (L D : mem).
Variables (stride_q stride_k stride_v stride_do stride_dq : strides).
Variables (Z_ H N_CTX P_SEQ : Z).
Variables (BLOCK_M BLOCK_DMODEL BLOCK_N : Z).
Variables (CAUSAL DIVISIBLE_M DIVISIBLE_N : bool).
Variables (start_m off_h off_z : Z).

Definition bq_qk_scale : fp := fmul (F sm_scale) log2e.

Definition bq_Q_base : Z := off_z * s0 stride_q + off_h * s1 stride_q.
Definition bq_K_base : Z := off_z * s0 stride_k + off_h * s1 stride_k.
Definition bq_V_base : Z := off_z * s0 stride_v + off_h * s1 stride_v.
Definition bq_DO_base : Z := off_z * s0 stride_do + off_h * s1 stride_do.
Definition bq_D_base : Z := (off_z * H + off_h) * N_CTX.
Definition bq_L_base : Z := (off_z * H + off_h) * N_CTX.
Definition bq_DQ_base : Z := off_z * s0 stride_dq + off_h * s1 stride_dq.

Definition bq_offs_m (i : Z) : Z := start_m * BLOCK_M + i.

Definition bq_q_ptrs (i k : Z) : Z :=
  bq_Q_base + (bq_offs_m i * s2 stride_q + k * s3 stride_q).
Definition bq_k_ptrs_init (j k : Z) : Z :=
  bq_K_base + (j * s2 stride_k + k * s3 stride_k).
Definition bq_v_ptrs_init (j k : Z) : Z :=
  bq_V_base + (j * s2 stride_v + k * s3 stride_v).
Definition bq_dq_ptrs (i k : Z) : Z :=
  bq_DQ_base + (bq_offs_m i * s2 stride_dq + k * s3 stride_dq).
Definition bq_do_ptrs (i k : Z) : Z :=
  bq_DO_base + (bq_offs_m i * s2 stride_do + k * s3 stride_do).

(** pointer to row-wise quantities in value-like data *)
Definition bq_d_ptrs (i : Z) : Z := bq_D_base + bq_offs_m i.
Definition bq_l_ptrs (i : Z) : Z := bq_L_base + bq_offs_m i.

(** mask on M is to be applied to last block if not divisible; the row
    index is compared with [N_CTX % BLOCK_M]. *)
Definition bq_mask_m : mask1 :=
  if negb DIVISIBLE_M then
    if start_m * BLOCK_M + BLOCK_M >? N_CTX
    then Some (fun i => bq_offs_m i <? N_CTX mod BLOCK_M)
    else None
  else None.

(** load q: it will stay in SRAM throughout *)
Definition bq_q (i k : Z) : fp :=
  tl_load Q (bq_q_ptrs i k) (lane_ok bq_mask_m i).
Definition bq_do (i k : Z) : fp :=
  tl_load DO (bq_do_ptrs i k) (lane_ok bq_mask_m i).
Definition bq_delta (i : Z) : fp :=
  tl_load D (bq_d_ptrs i) (lane_ok bq_mask_m i).
Definition bq_l (i : Z) : fp :=
  tl_load L (bq_l_ptrs i) (lane_ok bq_mask_m i).

Definition bq_init : q_state :=
  {| q_dq := fun _ _ => F 0;
     q_k_ptrs := bq_k_ptrs_init;
     q_v_ptrs := bq_v_ptrs_init |}.

Definition bq_hi : Z :=
  if CAUSAL then P_SEQ + (start_m + 1) * BLOCK_M else N_CTX + P_SEQ.

(** mask on N is to be applied to last block if not divisible; the column
    index is compared with [(N_CTX + P_SEQ) % BLOCK_N].  [valid_mask] is the
    same mask. *)
Definition bq_mask_n (start_n : Z) : mask1 :=
  if negb DIVISIBLE_N then
    if start_n + BLOCK_N >? N_CTX + P_SEQ
    then Some (fun j => start_n + j <? (N_CTX + P_SEQ) mod BLOCK_N)
    else None
  else None.

Definition bq_causal_mask (start_n : Z) (i j : Z) : bool :=
  P_SEQ + bq_offs_m i >=? start_n + j.

Definition bq_k (st : q_state) (start_n : Z) (j k : Z) : fp :=
  tl_load K (q_k_ptrs st j k) (lane_ok (bq_mask_n start_n) j).
Definition bq_v (st : q_state) (start_n : Z) (j k : Z) : fp :=
  tl_load V (q_v_ptrs st j k) (lane_ok (bq_mask_n start_n) j).

Definition bq_p (st : q_state) (start_n : Z) : Z -> Z -> fp :=
  let s := fun i j =>
    fadd (F 0) (tl_dot BLOCK_DMODEL bq_q (tl_trans (bq_k st start_n)) i j) in
  fun i j => fexp2 (fsub (fmul (s i j) bq_qk_scale) (fmul (bq_l i) log2e)).

(** [ds] of one key tile, after the masks. *)
Definition bq_ds (st : q_state) (start_n : Z) : Z -> Z -> fp :=
  let p := bq_p st start_n in
  let dp := fun i j =>
    fadd (F 0)
         (tl_dot BLOCK_DMODEL (fun i k => to_dtype (bq_do i k))
                 (tl_trans (bq_v st start_n)) i j) in
  let ds := fun i j => fmul (p i j) (fsub (dp i j) (bq_delta i)) in
  let ds := match bq_mask_n start_n with
            | Some vm => fun i j => tl_where (vm j) (ds i j) (F 0)
            | None => ds
            end in
  if CAUSAL
  then fun i j => tl_where (bq_causal_mask start_n i j) (ds i j) (F 0)
  else ds.

(** One iteration of [for start_n in range(0, hi, BLOCK_N)]. *)
Definition bq_body (st : q_state) (start_n : Z) : q_state :=
  let ds := bq_ds st start_n in
  {| q_dq := fun i k =>
       fadd (q_dq st i k)
            (tl_dot BLOCK_N (fun i j => to_dtype (ds i j))
                    (bq_k st start_n) i k);
     q_k_ptrs := fun j k => q_k_ptrs st j k + BLOCK_N * s2 stride_k;
     q_v_ptrs := fun j k => q_v_ptrs st j k + BLOCK_N * s2 stride_v |}.

Definition bq_loop : q_state :=
  fold_left bq_body (py_range 0 bq_hi BLOCK_N) bq_init.

Definition bq_dq_out (i k : Z) : fp :=
  to_dtype (fmul (q_dq bq_loop i k) (F sm_scale)).

(** The stores of one instance into [DQ]. *)
Definition _bwd_q_kernel : list write :=
  tl_store2 BLOCK_M BLOCK_DMODEL bq_dq_ptrs bq_dq_out bq_mask_m.
End BwdQKernel.

(** ** The host side: tensors, the heap and the launcher *)

Inductive py_error : Type :=
| AssertionError
| ValueError
| IndexError.

(** A tensor is a view (shape, strides, device) of a storage in the heap. *)
Record tensor : Type := mkTensor {
  t_shape : list Z;
  t_stride : list Z;
  t_device : Z;
  t_storage : nat
}.

Inductive kernel_name : Type :=
| K_fwd
| K_bwd_preprocess
| K_bwd_kv
| K_bwd_q.

Inductive event : Type :=
| EvSetDevice (d : Z)
| EvAlloc (storage : nat) (shape : list Z)
| EvLaunch (k : kernel_name) (grid : Z * Z * Z).

(** The state a call can observe or change: the process-wide current CUDA
    device, the storages, the next fresh storage, and what happened. *)
Record host : Type := mkHost {
  current_device : Z;
  heap : nat -> mem;
  next_storage : nat;
  trace : list event
}.

Definition hostM (A : Type) : Type := host -> host * (py_error + A).

Definition ret {A : Type} (a : A) : hostM A := fun h => (h, inr a).

Definition bind {A B : Type} (c : hostM A) (k : A -> hostM B) : hostM B :=
  fun h =>
    match c h with
    | (h', inl e) => (h', inl e)
    | (h', inr a) => k a h'
    end.

Definition raise {A : Type} (e : py_error) : hostM A := fun h => (h, inl e).

Notation "x <- c ;; k" := (bind c (fun x => k))
  (at level 61, c at next level, right associativity).
Notation "c ;;; k" := (bind c (fun _ => k))
  (at level 61, right associativity).

Definition py_assert (b : bool) : hostM unit :=
  if b then ret tt else raise AssertionError.

Definition of_option {A : Type} (e : py_error) (o : option A) : hostM A :=
  match o with
  | Some a => ret a
  | None => raise e
  end.

(** [torch.cuda.current_device()] and [torch.cuda.set_device(d)] *)
Definition cuda_current_device : hostM Z :=
  fun h => (h, inr (current_device h)).

Definition cuda_set_device (d : Z) : hostM unit :=
  fun h => ({| current_device := d;
               heap := heap h;
               next_storage := next_storage h;
               trace := trace h ++ [EvSetDevice d] |}, inr tt).

(** [t.shape[-1]] and [t.shape[i]] *)
Definition shape_last (t : tensor) : hostM Z :=
  of_option IndexError (nth_error (rev (t_shape t)) 0).

Definition shape_at (t : tensor) (i : nat) : hostM Z :=
  of_option IndexError (nth_error (t_shape t) i).

(** [B, H, M, D = t.shape] *)
Definition unpack4 (t : tensor) : hostM (Z * Z * Z * Z) :=
  match t_shape t with
  | [B; H; M; D] => ret (B, H, M, D)
  | _ => raise ValueError
  end.

(** [t.stride(0), t.stride(1), t.stride(2), t.stride(3)] *)
Definition strides4 (t : tensor) : hostM strides :=
  a <- of_option IndexError (nth_error (t_stride t) 0) ;;
  b <- of_option IndexError (nth_error (t_stride t) 1) ;;
  c <- of_option IndexError (nth_error (t_stride t) 2) ;;
  d <- of_option IndexError (nth_error (t_stride t) 3) ;;
  ret (mkStrides a b c d).

(** A fresh storage with the given contents. *)
Definition alloc (shape stride : list Z) (device : Z) (contents : mem)
  : hostM tensor :=
  fun h =>
    let id := next_storage h in
    ({| current_device := current_device h;
        heap := fun x => if Nat.eqb x id then contents else heap h x;
        next_storage := S id;
        trace := trace h ++ [EvAlloc id shape] |},
     inr (mkTensor shape stride device id)).

(** The strides of a contiguous tensor of the given shape. *)
Fixpoint contiguous_stride (shape : list Z) : list Z :=
  match shape with
  | [] => []
  | _ :: rest => fold_right Z.mul 1 rest :: contiguous_stride rest
  end.

(** [t.is_non_overlapping_and_dense()]: the dimensions of size at least 2,
    taken by increasing stride, have the strides [1, n1, n1 * n2, ...] of a
    dense layout; a dimension of size 0 or 1 may have any stride. *)
Fixpoint insert_by_stride (x : Z * Z) (l : list (Z * Z)) : list (Z * Z) :=
  match l with
  | [] => [x]
  | y :: r => if snd x <=? snd y then x :: l else y :: insert_by_stride x r
  end.

Definition sort_by_stride (l : list (Z * Z)) : list (Z * Z) :=
  fold_right insert_by_stride [] l.

Fixpoint dense_from (require : Z) (l : list (Z * Z)) : bool :=
  match l with
  | [] => true
  | (n, s) :: r => (s =? require) && dense_from (require * n) r
  end.

Definition non_overlapping_and_dense (shape stride : list Z) : bool :=
  dense_from 1 (sort_by_stride
                  (filter (fun p => 2 <=? fst p) (combine shape stride))).

(** The strides of the result of [torch.empty_like(t)] and
    [torch.zeros_like(t)] under [torch.preserve_format], as documented:
    those of [t] when [t] is non-overlapping and dense, the contiguous
    ones otherwise. *)
Definition like_stride (shape stride : list Z) : list Z :=
  if non_overlapping_and_dense shape stride
  then stride else contiguous_stride shape.

(** The four strides of a 4-d tensor, [t.stride(0)] to [t.stride(3)]. *)
Definition strides_of_list (l : list Z) : strides :=
  mkStrides (nth 0 l 0) (nth 1 l 0) (nth 2 l 0) (nth 3 l 0).

(** Apply the stores of a launch to one storage and record the launch. *)
Definition launched (k : kernel_name) (grid : Z * Z * Z)
    (outs : list (nat * list write)) : hostM unit :=
  fun h =>
    ({| current_device := current_device h;
        heap := fold_left
                  (fun hp (o : nat * list write) =>
                     fun x => if Nat.eqb x (fst o)
                              then apply_writes (hp x) (snd o) else hp x)
                  outs (heap h);
        next_storage := next_storage h;
        trace := trace h ++ [EvLaunch k grid] |}, inr tt).

(** The program ids of a launch grid [(g0, g1, g2)]. *)
Definition grid_ids (grid : Z * Z * Z) : list (Z * Z * Z) :=
  let '(g0, g1, g2) := grid in
  flat_map (fun z => flat_map (fun h => map (fun t => (t, h, z)) (arange g0))
                              (arange g1))
           (arange g2).

(** The tile configuration [(BLOCK_M, BLOCK_N, num_stages, num_warps)]. *)
Definition config : Type := (Z * Z * Z * Z)%type.

Definition cap_eqb (c d : Z * Z) : bool :=
  (fst c =? fst d) && (snd c =? snd d).

Definition fwd_config (cap : Z * Z) (causal : bool) (Dk M : Z) : config :=
  if cap_eqb cap (8, 0) then
    if negb causal then
      if Dk <=? 64 then (128, 64, 3, 4)
      else if M <=? 1024 then (128, 32, 3, 4)
      else (128, 128, 3, 8)
    else
      if Dk <=? 64 then (128, 64, 4, 4)
      else if M <=? 1024 then (128, 32, 2, 4)
      else (128, 128, 3, 8)
  else
    if negb causal then
      if Dk <=? 64 then (128, 64, 3, 4)
      else (128, 32, 2, 4)
    else
      if Dk <=? 64 then (64, 64, 3, 4)
      else (128, 32, 2, 4).

Definition bwd_config (cap : Z * Z) (causal : bool) (D : Z) : config :=
  if cap_eqb cap (8, 0) then
    if negb causal then
      ((if D <=? 64 then 128 else 64), 64, 2, 4)
    else
      (64, 64, (if D <=? 64 then 3 else 2), 4)
  else if cap_eqb cap (8, 6) then
    if negb causal then
      if D <=? 64 then (64, 64, 2, 4) else (64, 64, 2, 8)
    else
      if D <=? 64 then (64, 64, 2, 4) else (32, 32, 2, 4)
  else (32, 32, 2, 4).

Definition supported_head_dim (d : Z) : bool :=
  (d =? 16) || (d =? 32) || (d =? 64) || (d =? 128).

(** What [forward] saves on [ctx]. *)
Record context : Type := mkCtx {
  ctx_q : tensor; ctx_k : tensor; ctx_v : tensor;
  ctx_o : tensor; ctx_L : tensor;
  ctx_grid : Z * Z * Z;
  ctx_sm_scale : R;
  ctx_BLOCK_DMODEL : Z;
  ctx_P_SEQ : Z;
  ctx_causal : bool
}.

Section Launcher.
(** [torch.cuda.get_device_capability] and the contents of the storage
    that [torch.empty] / [torch.empty_like] hand out uninitialised. *)
Variable get_device_capability : Z -> Z * Z.
Variable uninit : mem.

(** [torch.empty_like(t)] and [torch.zeros_like(t)], with their default
    [memory_format=torch.preserve_format]; [torch.empty(shape)]. *)
Definition empty_like (t : tensor) : hostM tensor :=
  alloc (t_shape t) (like_stride (t_shape t) (t_stride t)) (t_device t)
        uninit.

Definition zeros_like (t : tensor) : hostM tensor :=
  alloc (t_shape t) (like_stride (t_shape t) (t_stride t)) (t_device t)
        (fun _ => F 0).

Definition empty (shape : list Z) (device : Z) : hostM tensor :=
  alloc shape (contiguous_stride shape) device uninit.

Definition read_heap : hostM (nat -> mem) := fun h => (h, inr (heap h)).

(** The stores of the whole grid of [_fwd_kernel]. *)
Definition fwd_launch (Q K V : mem) (sm_scale : R)
    (sq sk sv so : strides) (B H M P_SEQ BLOCK_M BLOCK_N D : Z)
    (causal divisible_m divisible_n : bool) (grid : Z * Z * Z)
  : list write * list write :=
  let run := fun id : Z * Z * Z =>
    let '(t, h, z) := id in
    _fwd_kernel Q K V sm_scale sq sk sv so H M P_SEQ BLOCK_M D BLOCK_N
                causal divisible_m divisible_n t h z in
  (flat_map (fun id => fst (run id)) (grid_ids grid),
   flat_map (fun id => snd (run id)) (grid_ids grid)).

(** [FlashAttention.forward(ctx, q, k, v, causal, sm_scale)] *)
Definition forward (q k v : tensor) (causal : bool) (sm_scale : option R)
  : hostM (tensor * context) :=
  (* switch device context *)
  orginal_device_index <- cuda_current_device ;;
  let device_index := t_device q in
  cuda_set_device device_index ;;;
  Dq <- shape_last q ;;
  Dk <- shape_last k ;;
  Dv <- shape_last v ;;
  py_assert ((Dq =? Dk) && (Dk =? Dv)) ;;;
  py_assert (supported_head_dim Dk) ;;;
  bhmd <- unpack4 q ;;
  let '(B, H, M, D) := bhmd in
  N <- shape_at k 2 ;;
  let P_SEQ := N - M in
  let '(BLOCK_M, BLOCK_N, num_stages, num_warps) :=
    fwd_config (get_device_capability device_index) causal Dk M in
  let divisible_m := M mod BLOCK_M =? 0 in
  let divisible_n := N mod BLOCK_N =? 0 in
  let sm_scale := match sm_scale with
                  | Some s => s
                  | None => (1 / sqrt (IZR D))%R
                  end in
  let grid := (cdiv M BLOCK_M, H, B) in
  o <- empty_like q ;;
  L <- empty [B; H; M] (t_device q) ;;
  sq <- strides4 q ;;
  sk <- strides4 k ;;
  sv <- strides4 v ;;
  so <- strides4 o ;;
  hp <- read_heap ;;
  let w := fwd_launch (hp (t_storage q)) (hp (t_storage k))
                      (hp (t_storage v)) sm_scale sq sk sv so
                      B H M P_SEQ BLOCK_M BLOCK_N D
                      causal divisible_m divisible_n grid in
  launched K_fwd grid [(t_storage L, fst w); (t_storage o, snd w)] ;;;
  let ctx := mkCtx q k v o L grid sm_scale D P_SEQ causal in
  (* restore device context *)
  cuda_set_device orginal_device_index ;;;
  ret (o, ctx).

(** [t.stride(0), t.stride(1), t.stride(2)] of a 3-d tensor *)
Definition strides3 (t : tensor) : hostM (Z * Z * Z) :=
  a <- of_option IndexError (nth_error (t_stride t) 0) ;;
  b <- of_option IndexError (nth_error (t_stride t) 1) ;;
  c <- of_option IndexError (nth_error (t_stride t) 2) ;;
  ret (a, b, c).

(** The stores of the whole grid of [_bwd_preprocess]. *)
Definition pre_launch (Out DO : mem) (so sdo : strides) (sd : Z * Z * Z)
    (M BLOCK_M D : Z) (divisible_m : bool) (grid : Z * Z * Z) : list write :=
  flat_map (fun id : Z * Z * Z =>
              let '(t, h, z) := id in
              let '(dz, dh, dm) := sd in
              _bwd_preprocess Out DO so sdo dz dh dm M BLOCK_M D divisible_m
                              t h z)
           (grid_ids grid).

(** The stores of the whole grid of [_bwd_kv_kernel]. *)
Definition kv_launch (Q K V : mem) (sm_scale : R) (DO L Dl : mem)
    (sq sk sv sdo sdk sdv : strides) (H M P_SEQ BLOCK_M BLOCK_N D : Z)
    (causal divisible_m divisible_n : bool) (grid : Z * Z * Z)
  : list write * list write :=
  let run := fun id : Z * Z * Z =>
    let '(t, h, z) := id in
    _bwd_kv_kernel Q K V sm_scale DO L Dl sq sk sv sdo sdk sdv
                   H M P_SEQ BLOCK_M D BLOCK_N
                   causal divisible_m divisible_n t h z in
  (flat_map (fun id => fst (run id)) (grid_ids grid),
   flat_map (fun id => snd (run id)) (grid_ids grid)).

(** The stores of the whole grid of [_bwd_q_kernel]. *)
Definition q_launch (Q K V : mem) (sm_scale : R) (DO L Dl : mem)
    (sq sk sv sdo sdq : strides) (H M P_SEQ BLOCK_M BLOCK_N D : Z)
    (causal divisible_m divisible_n : bool) (grid : Z * Z * Z)
  : list write :=
  flat_map (fun id : Z * Z * Z =>
              let '(t, h, z) := id in
              _bwd_q_kernel Q K V sm_scale DO L Dl sq sk sv sdo sdq
                            H M P_SEQ BLOCK_M D BLOCK_N
                            causal divisible_m divisible_n t h z)
           (grid_ids grid).

(** [FlashAttention.backward(ctx, do)] *)
Definition backward (ctx : context) (do : tensor)
  : hostM (tensor * tensor * tensor) :=
  let q := ctx_q ctx in
  let k := ctx_k ctx in
  let v := ctx_v ctx in
  let o := ctx_o ctx in
  let L := ctx_L ctx in
  (* switching device context *)
  orginal_device_index <- cuda_current_device ;;
  let device_index := t_device q in
  cuda_set_device device_index ;;;
  bhmd <- unpack4 q ;;
  let '(B, H, M, D) := bhmd in
  N <- shape_at k 2 ;;
  let P_SEQ := N - M in
  let sm_scale := ctx_sm_scale ctx in
  let causal := ctx_causal ctx in
  let '(BLOCK_M, BLOCK_N, num_stages, num_warps) :=
    bwd_config (get_device_capability device_index) causal D in
  let divisible_m := M mod BLOCK_M =? 0 in
  let divisible_n := N mod BLOCK_N =? 0 in
  delta <- empty_like L ;;
  let grid := (cdiv M BLOCK_M, H, B) in
  so <- strides4 o ;;
  sdo <- strides4 do ;;
  sd <- strides3 delta ;;
  hp <- read_heap ;;
  launched K_bwd_preprocess grid
    [(t_storage delta,
      pre_launch (hp (t_storage o)) (hp (t_storage do)) so sdo sd
                 M BLOCK_M D divisible_m grid)] ;;;
  dk <- empty_like k ;;
  dv <- empty_like v ;;
  let grid := (cdiv N BLOCK_N, H, B) in
  sq <- strides4 q ;;
  sk <- strides4 k ;;
  sv <- strides4 v ;;
  sdo <- strides4 do ;;
  sdk <- strides4 dk ;;
  sdv <- strides4 dv ;;
  hp <- read_heap ;;
  let w := kv_launch (hp (t_storage q)) (hp (t_storage k))
                     (hp (t_storage v)) sm_scale (hp (t_storage do))
                     (hp (t_storage L)) (hp (t_storage delta))
                     sq sk sv sdo sdk sdv H M P_SEQ BLOCK_M BLOCK_N D
                     causal divisible_m divisible_n grid in
  launched K_bwd_kv grid [(t_storage dk, fst w); (t_storage dv, snd w)] ;;;
  dq <- zeros_like q ;;
  let grid := (cdiv M BLOCK_M, H, B) in
  sdq <- strides4 dq ;;
  hp <- read_heap ;;
  launched K_bwd_q grid
    [(t_storage dq,
      q_launch (hp (t_storage q)) (hp (t_storage k)) (hp (t_storage v))
               sm_scale (hp (t_storage do)) (hp (t_storage L))
               (hp (t_storage delta)) sq sk sv sdo sdq
               H M P_SEQ BLOCK_M BLOCK_N D
               causal divisible_m divisible_n grid)] ;;;
  cuda_set_device orginal_device_index ;;;
  ret (dq, dk, dv).
End Launcher.

(** ** Logical indices and element offsets *)

(** The element offset of [t[z, h, m, k]] in a tensor with strides [s]. *)
Definition offset4 (s : strides) (z h m k : Z) : Z :=
  z * s0 s + h * s1 s + m * s2 s + k * s3 s.

(** The element offset of [t[z, h, m]] in a contiguous [(B, H, M)] tensor. *)
Definition offset3 (H M : Z) (z h m : Z) : Z := (z * H + h) * M + m.

(** Distinct in-range indices of a [(B, H, M, D)] tensor with strides [s]
    lie at distinct offsets. *)
Definition layout_injective (s : strides) (B H M D : Z) : Prop :=
  forall z h m k z' h' m' k',
    0 <= z < B -> 0 <= h < H -> 0 <= m < M -> 0 <= k < D ->
    0 <= z' < B -> 0 <= h' < H -> 0 <= m' < M -> 0 <= k' < D ->
    offset4 s z h m k = offset4 s z' h' m' k' ->
    z = z' /\ h = h' /\ m = m' /\ k = k'.

(** A tensor all of whose elements are finite: the storage holds the real
    numbers [f]. *)
Definition finite_mem (f : Z -> R) : mem := fun a => F (f a).

(** The first [n] values of [range(0, _, step)]. *)
Definition tile_starts (step n : Z) : list Z :=
  map (fun t => 0 + t * step) (arange n).

(** ** What the spec asks of the statistics *)

(** [Delta[b,h,m] = sum over d of O[b,h,m,d] * dO[b,h,m,d]] *)
Definition delta_ref (Out DO : mem) (so sdo : strides) (D : Z)
    (z h m : Z) : fp :=
  fsum (map (fun d => fmul (Out (offset4 so z h m d))
                           (DO (offset4 sdo z h m d)))
            (arange D)).

(** ** Example calls *)

(** A contiguous tensor of the given shape on a device, over a storage. *)
Definition contiguous_tensor (shape : list Z) (device : Z) (storage : nat)
  : tensor :=
  mkTensor shape (contiguous_stride shape) device storage.

(** A process whose current device is 0, with three storages full of ones
    for q, k and v. *)
Definition host0 : host :=
  {| current_device := 0;
     heap := fun _ _ => F 1;
     next_storage := 3;
     trace := [] |}.

(** An A100. *)
Definition a100 : Z -> Z * Z := fun _ => (8, 0).

(** What "the call is rejected" means: it raises. *)
Definition rejected {A : Type} (r : host * (py_error + A)) : Prop :=
  exists e, snd r = inl e.

(** What "no partial work" means for a call that starts in [h] and ends in
    [h']: nothing was allocated, launched or written, and the state that
    the caller can observe is as before. *)
Definition no_partial_work (h h' : host) : Prop :=
  current_device h' = current_device h
  /\ next_storage h' = next_storage h
  /\ (forall id, heap h' id = heap h id)
  /\ (forall e, In e (trace h') ->
        In e (trace h) \/ exists d, e = EvSetDevice d).

(** ** Real-valued sums, maxima and softmax weights *)

(** [sum of f n for n in l] *)
Definition rsum (f : Z -> R) (l : list Z) : R :=
  fold_left Rplus (map f l) 0%R.

(** A logit that may be masked; [None] stands for -inf. *)
Definition lift (o : option R) : fp :=
  match o with
  | Some r => F r
  | None => NInf
  end.

Definition omax (a b : option R) : option R :=
  match a, b with
  | Some x, Some y => Some (Rmax x y)
  | Some x, None => Some x
  | None, _ => b
  end.

Definition omax_list (l : list (option R)) : option R :=
  fold_left omax l None.

(** [exp((s - mu) * scale)], the weight of a logit relative to a maximum
    [mu]; a masked logit weighs nothing. *)
Definition ew (scale mu : R) (s : option R) : R :=
  match s with
  | Some x => exp ((x - mu) * scale)
  | None => 0
  end.

(** The running maximum as a real number; 0 while everything is masked. *)
Definition odefault (o : option R) : R :=
  match o with
  | Some r => r
  | None => 0
  end.

(** ** [_fwd_kernel] seen from one query row

    What the loop of one instance reads and accumulates for the row on
    lane [i], as functions of the key column [n] (the column on lane
    [n mod BLOCK_N] of the tile that starts at [n / BLOCK_N * BLOCK_N]).
    The tensors hold the real numbers [Qr], [Kr], [Vr]. *)

Section FwdRow.
Variables (Qr Kr Vr : Z -> R) (sm_scale : R).
Variables (stride_q stride_k stride_v : strides).
Variables (N_CTX P_SEQ BLOCK_M BLOCK_DMODEL BLOCK_N : Z).
Variables (IS_CAUSAL DIVISIBLE_N : bool).
Variables (start_m off_h off_z : Z).

(** The element of K's (of V's) storage that the loop reads for column
    [n] and feature [d]: the initial pointer of the lane, advanced once per
    tile. *)
Definition fwd_k_addr (n d : Z) : Z :=
  fwd_k_ptrs_init stride_k stride_v off_h off_z d (n mod BLOCK_N)
  + n / BLOCK_N * (BLOCK_N * s2 stride_k).
Definition fwd_v_addr (n d : Z) : Z :=
  fwd_v_ptrs_init stride_k stride_v off_h off_z (n mod BLOCK_N) d
  + n / BLOCK_N * (BLOCK_N * s2 stride_v).

(** Column [n] is loaded (not cut off by [mask_n]). *)
Definition fwd_col_loaded (n : Z) : bool :=
  lane_ok (fwd_mask_n N_CTX P_SEQ BLOCK_N DIVISIBLE_N (n / BLOCK_N * BLOCK_N))
          (n mod BLOCK_N).

(** The logit of column [n] survives both [tl.where]. *)
Definition fwd_col_unmasked (i n : Z) : bool :=
  fwd_col_loaded n
  && (if IS_CAUSAL
      then fwd_causal_mask P_SEQ BLOCK_M start_m (n / BLOCK_N * BLOCK_N) i
                           (n mod BLOCK_N)
      else true).

Definition fwd_row_logit (i n : Z) : R :=
  rsum (fun d => Qr (fwd_q_ptrs stride_q BLOCK_M start_m off_h off_z i d)
                 * Kr (fwd_k_addr n d))%R
       (arange BLOCK_DMODEL).

Definition fwd_row_s (i n : Z) : option R :=
  if fwd_col_unmasked i n then Some (fwd_row_logit i n) else None.

Definition fwd_row_v (n d : Z) : R :=
  if fwd_col_loaded n then Vr (fwd_v_addr n d) else 0.

(** The statistics of the row over the columns [0 .. c-1]: the maximum of
    the unmasked logits, the sum of their weights relative to it, and the
    weighted sum of the values. *)
Definition fwd_row_max (i c : Z) : option R :=
  omax_list (map (fwd_row_s i) (arange c)).

Definition fwd_row_sum (i c : Z) : R :=
  rsum (fun n => ew sm_scale (odefault (fwd_row_max i c)) (fwd_row_s i n))
       (arange c).

Definition fwd_row_acc (i c d : Z) : R :=
  rsum (fun n => ew sm_scale (odefault (fwd_row_max i c)) (fwd_row_s i n)
                 * fwd_row_v n d)%R
       (arange c).

(** The loop invariant: the pointer blocks after [t] iterations, and the
    running statistics of the row on lane [i] once the columns
    [0 .. c-1] have been visited. *)
Definition fwd_ptrs_at (t : Z) (st : fwd_state) : Prop :=
  k_ptrs st = (fun d j => fwd_k_ptrs_init stride_k stride_v off_h off_z d j
                          + t * (BLOCK_N * s2 stride_k))
  /\ v_ptrs st = (fun j d => fwd_v_ptrs_init stride_k stride_v off_h off_z j d
                             + t * (BLOCK_N * s2 stride_v)).

Definition fwd_row_inv (i c : Z) (st : fwd_state) : Prop :=
  m_i st i = lift (fwd_row_max i c)
  /\ l_i st i = F (fwd_row_sum i c)
  /\ forall d, acc st i d = F (fwd_row_acc i c d).
End FwdRow.

(** ** What the spec asks of the forward pass

    Scaled dot-product attention over the logical tensors: [q[z,h,m,d]]
    is the element at offset [offset4 sq z h m d] of its storage, and so
    on; [P_SEQ = N - M]. *)

Section Reference.
Variables (Qr Kr Vr : Z -> R) (sq sk sv : strides).
Variables (sm_scale : R) (causal : bool) (M N D : Z).

(** [Q[z,h,m,:] . K[z,h,n,:]] *)
Definition logit (z h m n : Z) : R :=
  rsum (fun d => Qr (offset4 sq z h m d) * Kr (offset4 sk z h n d))%R
       (arange D).

(** Key [n] is masked for query [m] when the mask is causal and
    [n > P_SEQ + m]. *)
Definition visible (m n : Z) : bool :=
  if causal then n <=? (N - M) + m else true.

(** [exp] of the scaled logit, nothing where the logit is -inf. *)
Definition weight (z h m n : Z) : R :=
  if visible m n then exp (logit z h m n * sm_scale) else 0.

(** [softmax over n] of the masked, scaled logits over the [N] keys. *)
Definition softmax (z h m n : Z) : R :=
  (weight z h m n / rsum (weight z h m) (arange N))%R.

(** [O[z,h,m,d] = sum over n of softmax_n * V[z,h,n,d]] *)
Definition attention_ref (z h m d : Z) : R :=
  rsum (fun n => softmax z h m n * Vr (offset4 sv z h n d))%R (arange N).

(** The log-normalizer [ln (sum over n of exp(scaled masked logit))]. *)
Definition lse_ref (z h m : Z) : R :=
  ln (rsum (weight z h m) (arange N)).
End Reference.

(** ** Reasoning about host computations

    [keeps I c Q]: the computation [c] keeps the invariant [I] of the host
    state, whether it returns or raises, and a value it returns satisfies
    [Q]. *)
Definition keeps {A : Type} (I : host -> Prop) (c : hostM A)
    (Q : A -> Prop) : Prop :=
  forall h, I h ->
    I (fst (c h))
    /\ match snd (c h) with
       | inr a => Q a
       | inl _ => True
       end.

(** The storage [id] exists and holds [m]. *)
Definition storage_holds (id : nat) (m : mem) (h : host) : Prop :=
  (id < next_storage h)%nat /\ heap h id = m.

(** Two processes that differ in one element of k only: q, k, v live in the
    storages 0, 1, 2; q and v are full of ones; k is full of zeros in the
    first process, and in the second process the element at offset 16 of
    its storage, which is [k[0,0,1,0]] of a contiguous [(1, 1, 2, 16)]
    tensor, is 1. *)
Definition k_zeros : Z -> R := fun _ => 0%R.
Definition k_perturbed : Z -> R := fun a => if a =? 16 then 1%R else 0%R.

Definition host_with_k (kr : Z -> R) : host :=
  {| current_device := 0;
     heap := fun id => if Nat.eqb id 1 then finite_mem kr
                       else finite_mem (fun _ => 1%R);
     next_storage := 3;
     trace := [] |}.

(** v as [torch.empty(1, 1, 16, 2).transpose(2, 3)]: the shape of k, with
    the last two strides exchanged. *)
Definition v_transposed : tensor :=
  mkTensor [1; 1; 2; 16] [32; 32; 1; 2] 0 2.

(** ** The probabilities of the forward pass and their recomputation *)

Section FwdProbability.
Variables (Q K V : mem) (sm_scale : R).
Variables (stride_q stride_k stride_v : strides).
Variables (N_CTX P_SEQ BLOCK_M BLOCK_DMODEL BLOCK_N : Z).
Variables (IS_CAUSAL DIVISIBLE_M DIVISIBLE_N : bool).
Variables (start_m off_h off_z : Z).

(** The state in which the loop of [_fwd_kernel] enters its iteration [t],
    the one with [start_n = t * BLOCK_N]. *)
Definition fwd_state_at (t : Z) : fwd_state :=
  fold_left (fwd_body Q K V sm_scale stride_q stride_k stride_v N_CTX P_SEQ
                      BLOCK_M BLOCK_DMODEL BLOCK_N IS_CAUSAL DIVISIBLE_M
                      DIVISIBLE_N start_m off_h off_z)
            (tile_starts BLOCK_N t)
            (fwd_init stride_k stride_v off_h off_z).

(** [exp(s . scale - m . scale) / l] for the row on lane [i] and the column
    on lane [j] of tile [t]: [s] is the masked logit of iteration [t], [m]
    and [l] are the running maximum and the running sum when the loop
    ends.  It is written with the operations the kernel uses for [p] and
    for the normalisation of [acc]. *)
Definition fwd_prob (t i j : Z) : fp :=
  let loop := fwd_loop Q K V sm_scale stride_q stride_k stride_v N_CTX P_SEQ
                       BLOCK_M BLOCK_DMODEL BLOCK_N IS_CAUSAL DIVISIBLE_M
                       DIVISIBLE_N start_m off_h off_z in
  let s := fwd_s Q K stride_q N_CTX P_SEQ BLOCK_M BLOCK_DMODEL BLOCK_N
                 IS_CAUSAL DIVISIBLE_M DIVISIBLE_N start_m off_h off_z
                 (fwd_state_at t) (t * BLOCK_N) in
  fmul (fexp2 (fsub (fmul (s i j) (fwd_qk_scale sm_scale))
                    (fmul (m_i loop i) (fwd_qk_scale sm_scale))))
       (frecip (l_i loop i)).
End FwdProbability.

Section BwdKvRecompute.
Variables (Q K V : mem) (sm_scale : R) (DO : mem).
Variables (L D : mem).
Variables (stride_q stride_k stride_v stride_do : strides).
Variables (H N_CTX P_SEQ : Z).
Variables (BLOCK_M BLOCK_DMODEL BLOCK_N : Z).
Variables (CAUSAL DIVISIBLE_M DIVISIBLE_N : bool).
Variables (start_n off_h off_z : Z).

(** The state in which the loop of [_bwd_kv_kernel] enters its iteration
    [t], the one with [start_m = lo + t * BLOCK_M]. *)
Definition kv_state_at (t : Z) : kv_state :=
  let lo := kv_lo P_SEQ BLOCK_M BLOCK_N CAUSAL start_n in
  fold_left (kv_body Q K V sm_scale DO L D stride_q stride_k stride_v
                     stride_do H N_CTX P_SEQ BLOCK_M BLOCK_DMODEL BLOCK_N
                     CAUSAL DIVISIBLE_M DIVISIBLE_N start_n off_h off_z)
            (map (fun t => lo + t * BLOCK_M) (arange t))
            (kv_init stride_q stride_do off_h off_z lo).

(** The block [p] that iteration [t] recomputes. *)
Definition kv_p_at (t : Z) : Z -> Z -> fp :=
  let lo := kv_lo P_SEQ BLOCK_M BLOCK_N CAUSAL start_n in
  kv_p Q K sm_scale L stride_k H N_CTX P_SEQ BLOCK_M BLOCK_DMODEL
       BLOCK_N CAUSAL DIVISIBLE_M DIVISIBLE_N start_n off_h off_z
       (kv_state_at t) (lo + t * BLOCK_M).
End BwdKvRecompute.

(** A context as [forward] leaves it for contiguous q, k, v of shapes
    [(1, 1, 100, 16)], [(1, 1, 130, 16)], [(1, 1, 130, 16)] in the storages
    0, 1, 2, with o and L in the storages 3 and 4, and a process in which
    these five storages and the storage 5 of a [do] exist. *)
Definition ctx_example : context :=
  mkCtx (contiguous_tensor [1; 1; 100; 16] 0 0)
        (contiguous_tensor [1; 1; 130; 16] 0 1)
        (contiguous_tensor [1; 1; 130; 16] 0 2)
        (contiguous_tensor [1; 1; 100; 16] 0 3)
        (contiguous_tensor [1; 1; 100] 0 4)
        (1, 1, 1) 1 16 30 true.

Definition host_example : host :=
  {| current_device := 0;
     heap := fun _ _ => F 1;
     next_storage := 6;
     trace := [] |}.

(** ** What the backward kernels add up

    The sums that the loops of [_bwd_kv_kernel] and [_bwd_q_kernel]
    accumulate tile by tile, written over the logical tensors.  [Lr] and
    [Dr] are the contents of L and of delta, contiguous [(B, H, M)]
    tensors. *)

Section BackwardReference.
Variables (Qr Kr Vr DOr Lr Dr : Z -> R) (sq sk sv sdo : strides).
Variables (sm_scale : R) (causal : bool) (H M N D : Z).

(** [p[m,n] = exp(q[m] . k[n] * sm_scale - L[m])] on a visible position,
    [0] on a masked one. *)
Definition p_ref (z h m n : Z) : R :=
  if visible causal M N m n
  then exp (logit Qr Kr sq sk D z h m n * sm_scale - Lr (offset3 H M z h m))
  else 0.

(** [dp[m,n] = do[m] . v[n]] *)
Definition dp_ref (z h m n : Z) : R :=
  rsum (fun d => DOr (offset4 sdo z h m d) * Vr (offset4 sv z h n d))%R
       (arange D).

(** [ds[m,n] = p[m,n] * (dp[m,n] - delta[m])] *)
Definition ds_ref (z h m n : Z) : R :=
  (p_ref z h m n * (dp_ref z h m n - Dr (offset3 H M z h m)))%R.

(** [dv[n,:] = sum over m of p[m,n] * do[m,:]] *)
Definition dv_ref (z h n d : Z) : R :=
  rsum (fun m => p_ref z h m n * DOr (offset4 sdo z h m d))%R (arange M).

(** [dk[n,:] = (sum over m of ds[m,n] * q[m,:]) * sm_scale] *)
Definition dk_ref (z h n d : Z) : R :=
  (rsum (fun m => ds_ref z h m n * Qr (offset4 sq z h m d))%R (arange M)
   * sm_scale)%R.

(** [dq[m,:] = (sum over n of ds[m,n] * k[n,:]) * sm_scale] *)
Definition dq_ref (z h m d : Z) : R :=
  (rsum (fun n => ds_ref z h m n * Kr (offset4 sk z h n d))%R (arange N)
   * sm_scale)%R.
End BackwardReference.

(** ** [_bwd_q_kernel]: the rows and columns its masks let through *)

Section BwdQKept.
Variables (Qr Kr Vr DOr Lr Dr : Z -> R) (sq sk sv sdo : strides).
Variables (sm_scale : R) (causal : bool) (H M N D : Z).
Variables (BLOCK_M BLOCK_N : Z).

(** The lane of row [m] in the row mask of its query tile, and the lane of
    column [n] in the column mask of its key tile, with the flags as
    [backward] computes them. *)
Definition bq_row_kept (m : Z) : bool :=
  lane_ok (bq_mask_m M BLOCK_M (M mod BLOCK_M =? 0) (m / BLOCK_M))
          (m mod BLOCK_M).

Definition bq_col_kept (n : Z) : bool :=
  lane_ok (bq_mask_n M (N - M) BLOCK_N (N mod BLOCK_N =? 0)
                     (n / BLOCK_N * BLOCK_N))
          (n mod BLOCK_N).

(** [dq[m,:]] over the columns that the column mask lets through. *)
Definition dq_kept_ref (z h m d : Z) : R :=
  (rsum (fun n => if bq_col_kept n
                  then ds_ref Qr Kr Vr DOr Lr Dr sq sk sv sdo sm_scale causal
                              H M N D z h m n
                       * Kr (offset4 sk z h n d)
                  else 0)%R
        (arange N)
   * sm_scale)%R.
End BwdQKept.

Section BwdQStates.
Variables (Q K V : mem) (sm_scale : R) (DO : mem).
Variables (L D : mem).
Variables (stride_q stride_k stride_v stride_do : strides).
Variables (H N_CTX P_SEQ : Z).
Variables (BLOCK_M BLOCK_DMODEL BLOCK_N : Z).
Variables (CAUSAL DIVISIBLE_M DIVISIBLE_N : bool).
Variables (start_m off_h off_z : Z).

(** The state in which the loop of [_bwd_q_kernel] enters its iteration
    [t], the one with [start_n = t * BLOCK_N]. *)
Definition bq_state_at (t : Z) : q_state :=
  fold_left (bq_body Q K V sm_scale DO L D stride_q stride_k stride_v
                     stride_do H N_CTX P_SEQ BLOCK_M BLOCK_DMODEL BLOCK_N
                     CAUSAL DIVISIBLE_M DIVISIBLE_N start_m off_h off_z)
            (tile_starts BLOCK_N t)
            (bq_init stride_k stride_v off_h off_z).
End BwdQStates.

(** ** The gradients of attention

    What [backward] is to leave in dv, dk and dq when L and o come from
    [forward]: the sums of the backward kernels, with the softmax of the
    forward pass for [p] and [delta[m] = o[m] . do[m]]. *)

Section GradientReference.
Variables (Qr Kr Vr DOr : Z -> R) (sq sk sv sdo : strides).
Variables (sm_scale : R) (causal : bool) (M N D : Z).

(** [delta[m] = sum over d of o[m,d] * do[m,d]] *)
Definition delta_attn (z h m : Z) : R :=
  rsum (fun d => attention_ref Qr Kr Vr sq sk sv sm_scale causal M N D
                               z h m d
                 * DOr (offset4 sdo z h m d))%R
       (arange D).

(** [ds[m,n] = p[m,n] * (do[m] . v[n] - delta[m])] *)
Definition ds_attn (z h m n : Z) : R :=
  (softmax Qr Kr sq sk sm_scale causal M N D z h m n
   * (dp_ref Vr DOr sv sdo D z h m n - delta_attn z h m))%R.

(** [dv[n,:] = sum over m of p[m,n] * do[m,:]] *)
Definition dv_attn (z h n d : Z) : R :=
  rsum (fun m => softmax Qr Kr sq sk sm_scale causal M N D z h m n
                 * DOr (offset4 sdo z h m d))%R
       (arange M).

(** [dk[n,:] = (sum over m of ds[m,n] * q[m,:]) * sm_scale] *)
Definition dk_attn (z h n d : Z) : R :=
  (rsum (fun m => ds_attn z h m n * Qr (offset4 sq z h m d))%R (arange M)
   * sm_scale)%R.

(** [dq[m,:] = (sum over n of ds[m,n] * k[n,:]) * sm_scale] *)
Definition dq_attn (z h m d : Z) : R :=
  (rsum (fun n => ds_attn z h m n * Kr (offset4 sk z h n d))%R (arange N)
   * sm_scale)%R.
End GradientReference.

(** The finite number that an element of a storage holds; 0 where it holds
    none. *)
Definition value_of (x : fp) : R :=
  match x with
  | F r => r
  | _ => 0%R
  end.

(* ================================================================== *)
(** * Part II: properties                                               *)
(* ================================================================== *)

(** ** Lanes and ranges *)

Lemma In_arange (n x : Z) : In x (arange n) <-> 0 <= x < n.
Proof.
  unfold arange. rewrite in_map_iff. split.
  - intros (k & <- & Hk). apply in_seq in Hk. lia.
  - intros Hx. exists (Z.to_nat x). split; [lia|]. apply in_seq. lia.
Qed.

Lemma NoDup_arange (n : Z) : NoDup (arange n).
Proof.
  unfold arange. apply NoDup_map_inv with (f := Z.to_nat).
  rewrite map_map.
  rewrite map_ext with (g := fun x => x) by (intros; lia).
  rewrite map_id. apply seq_NoDup.
Qed.

Lemma arange_nonpos (n : Z) : n <= 0 -> arange n = [].
Proof.
  intros Hn. unfold arange. replace (Z.to_nat n) with 0%nat by lia. reflexivity.
Qed.

Lemma arange_succ (n : Z) : 0 <= n -> arange (n + 1) = arange n ++ [n].
Proof.
  intros Hn. unfold arange.
  replace (Z.to_nat (n + 1)) with (Z.to_nat n + 1)%nat by lia.
  rewrite seq_app, map_app. simpl. f_equal. f_equal. lia.
Qed.

Lemma arange_app (a b : Z) :
  0 <= a -> 0 <= b ->
  arange (a + b) = arange a ++ map (fun x => a + x) (arange b).
Proof.
  intros Ha Hb. unfold arange.
  replace (Z.to_nat (a + b)) with (Z.to_nat a + Z.to_nat b)%nat by lia.
  rewrite seq_app, map_app. f_equal.
  rewrite map_map. simpl.
  rewrite <- (Nat.add_0_l (Z.to_nat a)) at 1.
  generalize 0%nat as s. induction (Z.to_nat b) as [|k IH]; intros s; simpl.
  - reflexivity.
  - f_equal; [lia | apply (IH (S s))].
Qed.
(** ** Arithmetic on [fp] *)

Lemma fadd_0_r (x : fp) : fadd x (F 0) = x.
Proof. destruct x; simpl; try reflexivity. f_equal. lra. Qed.

Lemma fadd_0_l (x : fp) : fadd (F 0) x = x.
Proof. destruct x; simpl; try reflexivity. f_equal. lra. Qed.

Lemma fmul_0_l_finite (b : R) : fmul (F 0) (F b) = F 0.
Proof. simpl. f_equal. lra. Qed.

Lemma fmul_0_r_finite (a : R) : fmul (F a) (F 0) = F 0.
Proof. simpl. f_equal. lra. Qed.

Lemma fold_fadd_zeros (l : list fp) (x : fp) :
  (forall y, In y l -> y = F 0) -> fold_left fadd l x = x.
Proof.
  revert x. induction l as [|y l IH]; intros x Hl; simpl; [reflexivity|].
  rewrite (Hl y (or_introl eq_refl)), fadd_0_r.
  apply IH. intros z Hz. apply Hl. now right.
Qed.

Lemma fsum_zeros (l : list fp) :
  (forall y, In y l -> y = F 0) -> fsum l = F 0.
Proof. apply fold_fadd_zeros. Qed.

Lemma tl_dot_zero_l (n : Z) (a b : Z -> Z -> fp) (i j : Z) :
  (forall k, 0 <= k < n -> a i k = F 0) ->
  (forall k, 0 <= k < n -> is_finite (b k j) = true) ->
  tl_dot n a b i j = F 0.
Proof.
  intros Ha Hb. unfold tl_dot. apply fsum_zeros.
  intros y Hy. apply in_map_iff in Hy as (k & <- & Hk).
  apply In_arange in Hk. rewrite (Ha k Hk).
  specialize (Hb k Hk). destruct (b k j); try discriminate.
  apply fmul_0_l_finite.
Qed.


(** ** Blocks and stores that agree lane by lane *)

Lemma tl_dot_ext (n : Z) (a a' b b' : Z -> Z -> fp) (i j : Z) :
  (forall k, 0 <= k < n -> a i k = a' i k) ->
  (forall k, 0 <= k < n -> b k j = b' k j) ->
  tl_dot n a b i j = tl_dot n a' b' i j.
Proof.
  intros Ha Hb. unfold tl_dot. f_equal. apply map_ext_in.
  intros k Hk. apply In_arange in Hk. now rewrite Ha, Hb.
Qed.

Lemma tl_max1_ext (n : Z) (s s' : Z -> Z -> fp) (i : Z) :
  (forall j, 0 <= j < n -> s i j = s' i j) ->
  tl_max1 n s i = tl_max1 n s' i.
Proof.
  intros Hs. unfold tl_max1. f_equal. apply map_ext_in.
  intros j Hj. apply In_arange in Hj. now apply Hs.
Qed.

Lemma tl_sum1_ext (n : Z) (p p' : Z -> Z -> fp) (i : Z) :
  (forall j, 0 <= j < n -> p i j = p' i j) ->
  tl_sum1 n p i = tl_sum1 n p' i.
Proof.
  intros Hp. unfold tl_sum1. f_equal. apply map_ext_in.
  intros j Hj. apply In_arange in Hj. now apply Hp.
Qed.

Lemma flat_map_ext_in {A B : Type} (f g : A -> list B) (l : list A) :
  (forall a, In a l -> f a = g a) -> flat_map f l = flat_map g l.
Proof.
  intros E. rewrite !flat_map_concat_map. f_equal. now apply map_ext_in.
Qed.

Lemma tl_store1_vals_ext (n : Z) (ptrs : Z -> Z) (vals vals' : Z -> fp)
    (mask : mask1) :
  (forall i, 0 <= i < n -> lane_ok mask i = true -> vals i = vals' i) ->
  tl_store1 n ptrs vals mask = tl_store1 n ptrs vals' mask.
Proof.
  intros E. unfold tl_store1. apply flat_map_ext_in.
  intros i Hi. apply In_arange in Hi.
  destruct (lane_ok mask i) eqn:Hok; [|reflexivity]. now rewrite E.
Qed.

Lemma tl_store2_vals_ext (n d : Z) (ptrs : Z -> Z -> Z)
    (vals vals' : Z -> Z -> fp) (mask : mask1) :
  (forall i k, 0 <= i < n -> lane_ok mask i = true -> 0 <= k < d ->
     vals i k = vals' i k) ->
  tl_store2 n d ptrs vals mask = tl_store2 n d ptrs vals' mask.
Proof.
  intros E. unfold tl_store2. apply flat_map_ext_in.
  intros i Hi. apply In_arange in Hi.
  destruct (lane_ok mask i) eqn:Hok; [|reflexivity].
  apply map_ext_in. intros k Hk. apply In_arange in Hk. now rewrite E.
Qed.

(** ** Stores and launches *)

Lemma In_tl_store1 (n : Z) ptrs vals mask (w : write) :
  In w (tl_store1 n ptrs vals mask) <->
  exists i, 0 <= i < n /\ lane_ok mask i = true /\ w = (ptrs i, vals i).
Proof.
  unfold tl_store1. rewrite in_flat_map. split.
  - intros (i & Hi & Hw). apply In_arange in Hi.
    destruct (lane_ok mask i) eqn:E; simpl in Hw; [|contradiction].
    destruct Hw as [<-|[]]. eauto.
  - intros (i & Hi & Hm & ->). exists i. split; [now apply In_arange|].
    rewrite Hm. now left.
Qed.

Lemma In_tl_store2 (n d : Z) ptrs vals mask (w : write) :
  In w (tl_store2 n d ptrs vals mask) <->
  exists i k, 0 <= i < n /\ lane_ok mask i = true /\ 0 <= k < d /\
              w = (ptrs i k, vals i k).
Proof.
  unfold tl_store2. rewrite in_flat_map. split.
  - intros (i & Hi & Hw). apply In_arange in Hi.
    destruct (lane_ok mask i) eqn:E; simpl in Hw; [|contradiction].
    apply in_map_iff in Hw as (k & <- & Hk). apply In_arange in Hk.
    exists i, k. auto.
  - intros (i & k & Hi & Hm & Hk & ->). exists i.
    split; [now apply In_arange|]. rewrite Hm.
    apply in_map_iff. exists k. split; [reflexivity | now apply In_arange].
Qed.

Lemma tl_store2_all_masked (n d : Z) ptrs vals (mask : mask1) :
  (forall i, 0 <= i < n -> lane_ok mask i = false) ->
  tl_store2 n d ptrs vals mask = [].
Proof.
  intros Hf.
  destruct (tl_store2 n d ptrs vals mask) as [|w l] eqn:E; [reflexivity|].
  assert (Hw : In w (tl_store2 n d ptrs vals mask)) by (rewrite E; now left).
  apply In_tl_store2 in Hw as (i & k & Hi & Hm & _).
  rewrite (Hf i Hi) in Hm. discriminate.
Qed.

Lemma In_grid_ids (g0 g1 g2 t h z : Z) :
  In (t, h, z) (grid_ids (g0, g1, g2)) <->
  0 <= t < g0 /\ 0 <= h < g1 /\ 0 <= z < g2.
Proof.
  unfold grid_ids. rewrite in_flat_map. split.
  - intros (z' & Hz & H1). apply in_flat_map in H1 as (h' & Hh & H2).
    apply in_map_iff in H2 as (t' & Heq & Ht).
    inversion Heq; subst. rewrite !In_arange in *. auto.
  - intros (Ht & Hh & Hz). exists z. split; [now apply In_arange|].
    apply in_flat_map. exists h. split; [now apply In_arange|].
    apply in_map_iff. exists t. split; [reflexivity | now apply In_arange].
Qed.

Lemma apply_writes_notin (ws : list write) (M : mem) (a : Z) :
  ~ In a (map fst ws) -> apply_writes M ws a = M a.
Proof.
  unfold apply_writes. revert M.
  induction ws as [|w ws IH]; intros M Hn; simpl; [reflexivity|].
  rewrite IH by (intros Hin; apply Hn; now right).
  unfold apply_write. destruct (Z.eqb_spec a (fst w)) as [->|]; [|reflexivity].
  exfalso. apply Hn. now left.
Qed.

Section BwdQRows.
Variables (Q K V : mem) (sm_scale : R) (DO L D : mem).
Variables (sq sk sv sdo sdq : strides).
Variables (B H N_CTX P_SEQ BLOCK_M BLOCK_DMODEL BLOCK_N : Z).
Variables (CAUSAL DIVISIBLE_N : bool).

(** [DIVISIBLE_M] as the launcher computes it. *)
Local Abbreviation DIVISIBLE_M := (N_CTX mod BLOCK_M =? 0).
Local Abbreviation mask_m t := (bq_mask_m N_CTX BLOCK_M DIVISIBLE_M t).
Local Abbreviation kernel t h z :=
  (_bwd_q_kernel Q K V sm_scale DO L D sq sk sv sdo sdq H N_CTX P_SEQ
                 BLOCK_M BLOCK_DMODEL BLOCK_N CAUSAL DIVISIBLE_M DIVISIBLE_N
                 t h z).
Local Abbreviation launch :=
  (q_launch Q K V sm_scale DO L D sq sk sv sdo sdq H N_CTX P_SEQ
            BLOCK_M BLOCK_N BLOCK_DMODEL CAUSAL DIVISIBLE_M DIVISIBLE_N
            (cdiv N_CTX BLOCK_M, H, B)).

Hypothesis BLOCK_M_pos : 0 < BLOCK_M.
Hypothesis M_indivisible : N_CTX mod BLOCK_M <> 0.
Hypothesis M_nonneg : 0 <= N_CTX.

(** The last query tile. *)
Local Abbreviation last := (N_CTX / BLOCK_M).

Lemma bq_last_tile_bounds :
  last * BLOCK_M < N_CTX < last * BLOCK_M + BLOCK_M /\ cdiv N_CTX BLOCK_M = last + 1.
Proof.
  pose proof (Z.div_mod N_CTX BLOCK_M ltac:(lia)) as E.
  pose proof (Z.mod_pos_bound N_CTX BLOCK_M BLOCK_M_pos) as Hb.
  split; [nia|].
  unfold cdiv.
  replace (N_CTX + BLOCK_M - 1) with ((N_CTX mod BLOCK_M - 1) + (last + 1) * BLOCK_M) by nia.
  rewrite Z.div_add by lia. rewrite Z.div_small by lia. lia.
Qed.

Lemma bq_mask_m_last :
  mask_m last = Some (fun i => last * BLOCK_M + i <? N_CTX mod BLOCK_M).
Proof.
  destruct bq_last_tile_bounds as [Hb _].
  unfold bq_mask_m, bq_offs_m.
  destruct (Z.eqb_spec (N_CTX mod BLOCK_M) 0) as [E|_]; [contradiction|].
  simpl. destruct (Z.gtb_spec (last * BLOCK_M + BLOCK_M) N_CTX); [reflexivity|lia].
Qed.

Lemma bq_mask_m_earlier (t : Z) : 0 <= t < last -> mask_m t = None.
Proof.
  intros Ht. destruct bq_last_tile_bounds as [Hb _].
  unfold bq_mask_m.
  destruct (Z.eqb_spec (N_CTX mod BLOCK_M) 0) as [E|_]; [contradiction|].
  simpl. destruct (Z.gtb_spec (t * BLOCK_M + BLOCK_M) N_CTX); [nia|reflexivity].
Qed.

Lemma bq_last_lane_masked (i : Z) :
  0 < last -> 0 <= i < BLOCK_M -> lane_ok (mask_m last) i = false.
Proof.
  intros Hl Hi. rewrite bq_mask_m_last. simpl.
  pose proof (Z.mod_pos_bound N_CTX BLOCK_M BLOCK_M_pos).
  apply Z.ltb_ge. nia.
Qed.


(** C4.  In [_bwd_q_kernel], when M is not divisible by BLOCK_M the row
    mask of the last query tile compares the global row index with
    [M mod BLOCK_M] (the forward kernel compares it with [M]).  Whenever
    that last, partial tile starts at a nonzero row, the mask is false on
    every row of the tile, the loads of q, do, delta and L read no element,
    the instance stores nothing, and after the launch the rows of the tile
    still hold the zeros that [dq] was initialised with. *)
Theorem bwd_q_last_partial_query_tile_dropped :
  0 < last ->
  mask_m last = Some (fun i => last * BLOCK_M + i <? N_CTX mod BLOCK_M)
  /\ fwd_mask_m N_CTX BLOCK_M DIVISIBLE_M last
     = Some (fun i => last * BLOCK_M + i <? N_CTX)
  /\ (forall i, 0 <= i < BLOCK_M -> lane_ok (mask_m last) i = false)
  /\ (forall i k, 0 <= i < BLOCK_M ->
        bq_q Q sq N_CTX BLOCK_M DIVISIBLE_M last 0 0 i k = F 0
        /\ bq_do DO sdo N_CTX BLOCK_M DIVISIBLE_M last 0 0 i k = F 0
        /\ bq_delta D H N_CTX BLOCK_M DIVISIBLE_M last 0 0 i = F 0
        /\ bq_l L H N_CTX BLOCK_M DIVISIBLE_M last 0 0 i = F 0)
  /\ (forall h z, kernel last h z = [])
  /\ (layout_injective sdq B H N_CTX BLOCK_DMODEL ->
      forall z h m k,
        0 <= z < B -> 0 <= h < H -> last * BLOCK_M <= m < N_CTX ->
        0 <= k < BLOCK_DMODEL ->
        apply_writes (fun _ => F 0) launch (offset4 sdq z h m k) = F 0).
Proof.
  intros Hl. destruct bq_last_tile_bounds as [Hb Hc].
  split; [apply bq_mask_m_last|].
  split.
  { unfold fwd_mask_m, fwd_offs_m.
    destruct (Z.eqb_spec (N_CTX mod BLOCK_M) 0) as [E|_]; [contradiction|].
    simpl. destruct (Z.gtb_spec (last * BLOCK_M + BLOCK_M) N_CTX);
      [reflexivity|lia]. }
  split; [intros i Hi; now apply bq_last_lane_masked|].
  split.
  { intros i k Hi. unfold bq_q, bq_do, bq_delta, bq_l.
    rewrite (bq_last_lane_masked i Hl Hi). simpl. auto. }
  split.
  { intros h z. unfold _bwd_q_kernel. apply tl_store2_all_masked.
    intros i Hi. now apply bq_last_lane_masked. }
  intros Hinj z h m k Hz Hh Hm Hk.
  rewrite apply_writes_notin; [reflexivity|].
  intros Hin. apply in_map_iff in Hin as ([a v] & Ha & Hw). simpl in Ha. subst a.
  unfold q_launch in Hw. apply in_flat_map in Hw as ([[t h'] z'] & Hg & Hw).
  apply In_grid_ids in Hg as (Ht & Hh' & Hz'). rewrite Hc in Ht.
  destruct (Z.eq_dec t last) as [->|Hne].
  - unfold _bwd_q_kernel in Hw.
    rewrite tl_store2_all_masked in Hw; [contradiction|].
    intros i Hi. now apply bq_last_lane_masked.
  - unfold _bwd_q_kernel in Hw.
    apply In_tl_store2 in Hw as (i & k' & Hi & _ & Hk' & Hw).
    inversion Hw as [[Ha Hv]]. clear Hw Hv.
    unfold bq_dq_ptrs, bq_DQ_base, bq_offs_m in Ha.
    specialize (Hinj z h m k z' h' (t * BLOCK_M + i) k').
    unfold offset4 in *.
    assert (t * BLOCK_M + i < last * BLOCK_M) by nia.
    destruct Hinj as (_ & _ & Hmm & _); lia.
Qed.

End BwdQRows.


Lemma c4_layout : layout_injective (mkStrides 1600 1600 16 1) 1 1 100 16.
Proof. unfold layout_injective, offset4. simpl. intros. lia. Qed.

Lemma bwd_q_last_partial_query_tile_dropped_witness :
    apply_writes (fun _ => F 0)
      (q_launch (fun _ => F 1) (fun _ => F 1) (fun _ => F 1) 1
                (fun _ => F 1) (fun _ => F 0) (fun _ => F 0)
                (mkStrides 1600 1600 16 1) (mkStrides 1600 1600 16 1)
                (mkStrides 1600 1600 16 1) (mkStrides 1600 1600 16 1)
                (mkStrides 1600 1600 16 1)
                1 100 0 64 64 16 false (100 mod 64 =? 0) false
                (cdiv 100 64, 1, 1))
      (offset4 (mkStrides 1600 1600 16 1) 0 0 99 15) = F 0.
Proof.
  refine (proj2 (proj2 (proj2 (proj2 (proj2
    (bwd_q_last_partial_query_tile_dropped
       (fun _ => F 1) (fun _ => F 1) (fun _ => F 1) 1
       (fun _ => F 1) (fun _ => F 0) (fun _ => F 0)
       (mkStrides 1600 1600 16 1) (mkStrides 1600 1600 16 1)
       (mkStrides 1600 1600 16 1) (mkStrides 1600 1600 16 1)
       (mkStrides 1600 1600 16 1)
       1 1 100 0 64 16 64 false false _ _ _ _)))))
    c4_layout 0 0 99 15 _ _ _ _).
  - lia.
  - discriminate.
  - lia.
  - reflexivity.
  - lia.
  - lia.
  - change (100 / 64) with 1. lia.
  - lia.
Defined.

Lemma cdiv_gt (x y t : Z) : 0 < y -> (t < cdiv x y <-> t * y < x).
Proof.
  intros Hy. unfold cdiv.
  pose proof (Z.div_mod (x + y - 1) y ltac:(lia)) as E.
  pose proof (Z.mod_pos_bound (x + y - 1) y Hy) as Hb.
  split; intros Ht; nia.
Qed.

Lemma In_py_range (lo hi step x : Z) :
  0 < step ->
  In x (py_range lo hi step) <->
  exists t, 0 <= t /\ x = lo + t * step /\ x < hi.
Proof.
  intros Hs. unfold py_range. rewrite in_map_iff. split.
  - intros (t & <- & Ht). apply In_arange in Ht. exists t.
    destruct Ht as [Ht0 Ht]. apply cdiv_gt in Ht; [|assumption].
    repeat split; lia.
  - intros (t & Ht0 & -> & Hx). exists t. split; [reflexivity|].
    apply In_arange. split; [assumption|]. apply cdiv_gt; lia.
Qed.

Section BwdQCols.
Variables (Q K V : mem) (sm_scale : R) (DO L D : mem).
Variables (sq sk sv sdo : strides).
Variables (H N_CTX P_SEQ BLOCK_M BLOCK_DMODEL BLOCK_N : Z).
Variables (CAUSAL DIVISIBLE_M : bool).
Variables (start_m off_h off_z : Z).

(** [N], and [DIVISIBLE_N] as the launcher computes it. *)
Local Abbreviation N := (N_CTX + P_SEQ).
Local Abbreviation DIVISIBLE_N := (N mod BLOCK_N =? 0).
Local Abbreviation mask_n s := (bq_mask_n N_CTX P_SEQ BLOCK_N DIVISIBLE_N s).
Local Abbreviation ds st s :=
  (bq_ds Q K V sm_scale DO L D sq sdo H N_CTX P_SEQ BLOCK_M BLOCK_DMODEL
         BLOCK_N CAUSAL DIVISIBLE_M DIVISIBLE_N start_m off_h off_z st s).
Local Abbreviation body st s :=
  (bq_body Q K V sm_scale DO L D sq sk sv sdo H N_CTX P_SEQ BLOCK_M
           BLOCK_DMODEL BLOCK_N CAUSAL DIVISIBLE_M DIVISIBLE_N
           start_m off_h off_z st s).

Hypothesis BLOCK_N_pos : 0 < BLOCK_N.
Hypothesis N_indivisible : N mod BLOCK_N <> 0.

(** The first column of the last key tile. *)
Local Abbreviation last := (N / BLOCK_N * BLOCK_N).

Lemma bq_last_key_tile_bounds : last < N < last + BLOCK_N.
Proof.
  pose proof (Z.div_mod N BLOCK_N ltac:(lia)) as E.
  pose proof (Z.mod_pos_bound N BLOCK_N BLOCK_N_pos) as Hb.
  nia.
Qed.

Lemma bq_mask_n_last :
  mask_n last = Some (fun j => last + j <? N mod BLOCK_N).
Proof.
  pose proof bq_last_key_tile_bounds as Hb.
  unfold bq_mask_n.
  destruct (Z.eqb_spec (N mod BLOCK_N) 0) as [E|_]; [contradiction|].
  simpl. destruct (Z.gtb_spec (last + BLOCK_N) N); [reflexivity|lia].
Qed.

Lemma bq_last_col_masked (j : Z) :
  0 < N / BLOCK_N -> 0 <= j < BLOCK_N -> lane_ok (mask_n last) j = false.
Proof.
  intros Hl Hj. rewrite bq_mask_n_last. simpl.
  pose proof (Z.mod_pos_bound N BLOCK_N BLOCK_N_pos).
  apply Z.ltb_ge. nia.
Qed.

(** C5.  In [_bwd_q_kernel], when N is not divisible by BLOCK_N the column
    mask of the last key tile compares the global column index with
    [N mod BLOCK_N].  Whenever that last, partial tile starts at a nonzero
    column (N > BLOCK_N), the mask is false on every column of the tile,
    the keys and values of the tile are not read, [ds] is zero on the whole
    tile and the iteration leaves [dq] as it was: the in-range keys of the
    last tile contribute nothing to dQ.  Without causal masking the loop
    does reach that tile. *)
Theorem bwd_q_last_partial_key_tile_dropped :
  0 < N / BLOCK_N ->
  mask_n last = Some (fun j => last + j <? N mod BLOCK_N)
  /\ (forall j, 0 <= j < BLOCK_N -> lane_ok (mask_n last) j = false)
  /\ (forall st j k, 0 <= j < BLOCK_N ->
        bq_k K N_CTX P_SEQ BLOCK_N DIVISIBLE_N st last j k = F 0
        /\ bq_v V N_CTX P_SEQ BLOCK_N DIVISIBLE_N st last j k = F 0)
  /\ (forall st i j, 0 <= j < BLOCK_N -> ds st last i j = F 0)
  /\ (forall st i k, q_dq (body st last) i k = q_dq st i k)
  /\ (CAUSAL = false ->
      In last (py_range 0 (bq_hi N_CTX P_SEQ BLOCK_M CAUSAL start_m) BLOCK_N)).
Proof.
  intros Hl. pose proof bq_last_key_tile_bounds as Hb.
  assert (Hds : forall st i j, 0 <= j < BLOCK_N -> ds st last i j = F 0).
  { intros st i j Hj. unfold bq_ds. rewrite bq_mask_n_last.
    pose proof (bq_last_col_masked j Hl Hj) as Hm.
    rewrite bq_mask_n_last in Hm. simpl in Hm.
    destruct CAUSAL; unfold tl_where; rewrite Hm;
      [destruct (bq_causal_mask _ _ _ _ _ _)|]; reflexivity. }
  assert (Hk : forall st j k, 0 <= j < BLOCK_N ->
             bq_k K N_CTX P_SEQ BLOCK_N DIVISIBLE_N st last j k = F 0).
  { intros st j k Hj. unfold bq_k. now rewrite (bq_last_col_masked j Hl Hj). }
  split; [apply bq_mask_n_last|].
  split; [intros j Hj; now apply bq_last_col_masked|].
  split.
  { intros st j k Hj. split; [now apply Hk|].
    unfold bq_v. now rewrite (bq_last_col_masked j Hl Hj). }
  split; [exact Hds|].
  split.
  { intros st i k. unfold bq_body. cbn [q_dq].
    rewrite tl_dot_zero_l; [apply fadd_0_r| |].
    - intros j Hj. unfold to_dtype. now apply Hds.
    - intros j Hj. now rewrite Hk. }
  intros ->. unfold bq_hi. apply In_py_range; [assumption|].
  exists (N / BLOCK_N). lia.
Qed.

End BwdQCols.

Lemma bwd_q_last_partial_key_tile_dropped_witness :
  q_dq (bq_body (fun _ => F 1) (fun _ => F 1) (fun _ => F 1) 1
                (fun _ => F 1) (fun _ => F 0) (fun _ => F 0)
                (mkStrides 1600 1600 16 1) (mkStrides 1600 1600 16 1)
                (mkStrides 1600 1600 16 1) (mkStrides 1600 1600 16 1)
                1 100 0 64 16 64 false false (100 mod 64 =? 0) 0 0 0
                (mkQ (fun _ _ => F 5) (fun _ _ => 0) (fun _ _ => 0))
                (100 / 64 * 64)) 0 0
  = F 5.
Proof.
  refine (proj1 (proj2 (proj2 (proj2 (proj2
    (bwd_q_last_partial_key_tile_dropped
       (fun _ => F 1) (fun _ => F 1) (fun _ => F 1) 1
       (fun _ => F 1) (fun _ => F 0) (fun _ => F 0)
       (mkStrides 1600 1600 16 1) (mkStrides 1600 1600 16 1)
       (mkStrides 1600 1600 16 1) (mkStrides 1600 1600 16 1)
       1 100 0 64 16 64 false false 0 0 0 _ _ _)))))
    (mkQ (fun _ _ => F 5) (fun _ _ => 0) (fun _ _ => 0)) 0 0).
  - lia.
  - discriminate.
  - reflexivity.
Defined.

(** ** The causal lower bound of the [_bwd_kv_kernel] sweep *)

Section BwdKvSweep.
(** q and do hold finite numbers in the rows below [lo]; k, v, L and Delta
    are arbitrary. *)
Variables (Q K V : mem) (sm_scale : R) (DO : mem).
Variables (L D : mem).
Variables (sq sk sv sdo sdk sdv : strides).
Variables (H N_CTX P_SEQ BLOCK_M BLOCK_DMODEL BLOCK_N : Z).
Variables (DIVISIBLE_M DIVISIBLE_N : bool).
Variables (start_n off_h off_z : Z).

Local Abbreviation body :=
  (kv_body Q K V sm_scale DO L D sq sk sv sdo H N_CTX P_SEQ
           BLOCK_M BLOCK_DMODEL BLOCK_N true DIVISIBLE_M DIVISIBLE_N
           start_n off_h off_z).
Local Abbreviation sweep :=
  (kv_sweep Q K V sm_scale DO L D sq sk sv sdo H N_CTX P_SEQ
            BLOCK_M BLOCK_DMODEL BLOCK_N true DIVISIBLE_M DIVISIBLE_N
            start_n off_h off_z).
Local Abbreviation init := (kv_init sq sdo off_h off_z).
Local Abbreviation lo := (kv_lo P_SEQ BLOCK_M BLOCK_N true start_n).

Hypothesis BLOCK_M_pos : 0 < BLOCK_M.
Hypothesis Q_skipped : forall m d, 0 <= m < lo -> 0 <= d < BLOCK_DMODEL ->
  is_finite (Q (offset4 sq off_z off_h m d)) = true.
Hypothesis DO_skipped : forall m d, 0 <= m < lo -> 0 <= d < BLOCK_DMODEL ->
  is_finite (DO (offset4 sdo off_z off_h m d)) = true.

Lemma kv_lo_spec :
  lo = Z.max (start_n * BLOCK_N - P_SEQ) 0 / BLOCK_M * BLOCK_M
  /\ 0 <= lo / BLOCK_M /\ lo = lo / BLOCK_M * BLOCK_M.
Proof.
  unfold kv_lo. split; [reflexivity|].
  rewrite Z.div_mul by lia.
  split; [apply Z.div_pos; lia | reflexivity].
Qed.

Lemma kv_below_lo_masked (m n : Z) :
  0 <= m < lo -> start_n * BLOCK_N <= n -> P_SEQ + m < n.
Proof.
  unfold kv_lo. intros Hm Hn.
  pose proof (Z.mul_div_le (Z.max (start_n * BLOCK_N - P_SEQ) 0) BLOCK_M
                BLOCK_M_pos).
  lia.
Qed.

(** Two states with the same pointers step alike, lane by lane. *)
Lemma kv_body_congr (st st' : kv_state) (s j k : Z) :
  kv_q_ptrs st = kv_q_ptrs st' -> kv_do_ptrs st = kv_do_ptrs st' ->
  kv_dk st j k = kv_dk st' j k -> kv_dv st j k = kv_dv st' j k ->
  kv_q_ptrs (body st s) = kv_q_ptrs (body st' s)
  /\ kv_do_ptrs (body st s) = kv_do_ptrs (body st' s)
  /\ kv_dk (body st s) j k = kv_dk (body st' s) j k
  /\ kv_dv (body st s) j k = kv_dv (body st' s) j k.
Proof.
  destruct st as [dk dv qp dp], st' as [dk' dv' qp' dp']. simpl.
  intros -> -> Hk Hv. unfold kv_body. simpl.
  rewrite Hk, Hv. repeat split; reflexivity.
Qed.

Lemma kv_fold_congr (l : list Z) (st st' : kv_state) (j k : Z) :
  kv_q_ptrs st = kv_q_ptrs st' -> kv_do_ptrs st = kv_do_ptrs st' ->
  kv_dk st j k = kv_dk st' j k -> kv_dv st j k = kv_dv st' j k ->
  kv_dk (fold_left body l st) j k = kv_dk (fold_left body l st') j k
  /\ kv_dv (fold_left body l st) j k = kv_dv (fold_left body l st') j k.
Proof.
  revert st st'. induction l as [|s l IH]; intros st st' Hq Hd Hk Hv; simpl.
  - auto.
  - destruct (kv_body_congr st st' s j k Hq Hd Hk Hv) as (Hq' & Hd' & Hk' & Hv').
    now apply IH.
Qed.

(** A query tile that lies below [lo] adds nothing to dk and dv: its
    blocks [p] and [ds] are zero under the causal mask, and the rows of q
    and of do that they multiply are finite. *)
Lemma kv_body_skipped (st : kv_state) (s j k : Z) :
  0 <= s -> s + BLOCK_M <= lo -> 0 <= j -> 0 <= k < BLOCK_DMODEL ->
  kv_q_ptrs st = kv_q_ptrs_init sq off_h off_z s ->
  kv_do_ptrs st = kv_do_ptrs_init sdo off_h off_z s ->
  kv_dk (body st s) j k = kv_dk st j k
  /\ kv_dv (body st s) j k = kv_dv st j k.
Proof.
  intros Hs0 Hs Hj Hk Hq Hd.
  assert (Hmask : forall i x, 0 <= i < BLOCK_M ->
            kv_apply_masks N_CTX P_SEQ BLOCK_M BLOCK_N true DIVISIBLE_M
                           DIVISIBLE_N start_n s x i j = F 0).
  { intros i x Hi. unfold kv_apply_masks, tl_where.
    replace (kv_causal_mask P_SEQ BLOCK_N start_n s i j) with false;
      [reflexivity|].
    symmetry. unfold kv_causal_mask, kv_offs_m, kv_offs_n.
    pose proof (kv_below_lo_masked (s + i) (start_n * BLOCK_N + j)).
    rewrite Z.geb_leb. apply Z.leb_gt. lia. }
  unfold kv_body. cbn [kv_dk kv_dv]. split.
  - rewrite tl_dot_zero_l; [apply fadd_0_r| |].
    + intros i Hi. unfold tl_trans, to_dtype. now apply Hmask.
    + intros i Hi. unfold kv_q, tl_load. rewrite Hq.
      destruct (lane_ok _ i); [|reflexivity].
      replace (kv_q_ptrs_init sq off_h off_z s i k)
        with (offset4 sq off_z off_h (s + i) k)
        by (unfold kv_q_ptrs_init, kv_Q_base, kv_offs_m_init, offset4; lia).
      apply Q_skipped; lia.
  - rewrite tl_dot_zero_l; [apply fadd_0_r| |].
    + intros i Hi. unfold tl_trans, to_dtype, kv_p. now apply Hmask.
    + intros i Hi. unfold tl_load. rewrite Hd.
      destruct (lane_ok _ i); [|reflexivity].
      replace (kv_do_ptrs_init sdo off_h off_z s i k)
        with (offset4 sdo off_z off_h (s + i) k)
        by (unfold kv_do_ptrs_init, kv_DO_base, kv_offs_m_init, offset4;
            lia).
      apply DO_skipped; lia.
Qed.

Local Abbreviation kv_tiles n := (tile_starts BLOCK_M n).

Lemma kv_prefix (n : nat) (j k : Z) :
  Z.of_nat n * BLOCK_M <= lo -> 0 <= j -> 0 <= k < BLOCK_DMODEL ->
  kv_q_ptrs (fold_left body (kv_tiles (Z.of_nat n)) (init 0))
  = kv_q_ptrs (init (Z.of_nat n * BLOCK_M))
  /\ kv_do_ptrs (fold_left body (kv_tiles (Z.of_nat n)) (init 0))
     = kv_do_ptrs (init (Z.of_nat n * BLOCK_M))
  /\ kv_dk (fold_left body (kv_tiles (Z.of_nat n)) (init 0)) j k = F 0
  /\ kv_dv (fold_left body (kv_tiles (Z.of_nat n)) (init 0)) j k = F 0.
Proof.
  intros Hn Hj Hk. induction n as [|n IH].
  - simpl. auto.
  - replace (Z.of_nat (S n)) with (Z.of_nat n + 1) in * by lia.
    unfold tile_starts. rewrite arange_succ by lia.
    rewrite map_app, fold_left_app.
    fold (tile_starts BLOCK_M (Z.of_nat n)).
    destruct IH as (Hq & Hd & Hdk & Hdv); [lia|].
    set (st := fold_left body (kv_tiles (Z.of_nat n)) (init 0)) in *.
    cbn [map fold_left].
    destruct (kv_body_skipped st (0 + Z.of_nat n * BLOCK_M) j k) as [Ek Ev];
      [lia | lia | assumption | assumption | | |].
    { rewrite Hq. cbn [kv_q_ptrs kv_init]. f_equal; lia. }
    { rewrite Hd. cbn [kv_do_ptrs kv_init]. f_equal; lia. }
    rewrite Ek, Ev. repeat split; try assumption.
    + unfold kv_body. cbn [kv_q_ptrs]. rewrite Hq. cbn [kv_q_ptrs kv_init].
      extensionality i. extensionality c.
      unfold kv_q_ptrs_init, kv_offs_m_init. lia.
    + unfold kv_body. cbn [kv_do_ptrs]. rewrite Hd. cbn [kv_do_ptrs kv_init].
      extensionality i. extensionality c.
      unfold kv_do_ptrs_init, kv_offs_m_init. lia.
Qed.

(** The loop of the kernel, which starts at [lo], ends with the dk and dv
    of the sweep from query tile 0. *)
Lemma kv_loop_from_zero (j k : Z) :
  0 <= j -> 0 <= k < BLOCK_DMODEL ->
  kv_dk (sweep lo) j k = kv_dk (sweep 0) j k
  /\ kv_dv (sweep lo) j k = kv_dv (sweep 0) j k.
Proof.
  destruct kv_lo_spec as (Elo & Hc & Em).
  intros Hj Hk. unfold kv_sweep.
  set (c := lo / BLOCK_M) in *. set (T := cdiv N_CTX BLOCK_M).
  assert (Hrest : py_range lo N_CTX BLOCK_M
                  = map (fun t => lo + t * BLOCK_M) (arange (T - c))).
  { unfold py_range. f_equal. f_equal. unfold T, cdiv.
    rewrite Em at 1.
    replace (N_CTX - c * BLOCK_M + BLOCK_M - 1)
      with (N_CTX + BLOCK_M - 1 + (- c) * BLOCK_M) by lia.
    rewrite Z.div_add by lia. lia. }
  assert (Hall : py_range 0 N_CTX BLOCK_M = kv_tiles T).
  { unfold py_range, tile_starts. now rewrite Z.sub_0_r. }
  rewrite Hall, Hrest.
  destruct (Z_le_gt_dec c T) as [Hle|Hgt].
  - assert (Hsplit : kv_tiles T
              = kv_tiles c ++ map (fun t => lo + t * BLOCK_M) (arange (T - c))).
    { unfold tile_starts. replace T with (c + (T - c)) at 1 by lia.
      rewrite arange_app by lia. rewrite map_app, map_map. f_equal.
      apply map_ext. intros; lia. }
    rewrite Hsplit, fold_left_app.
    destruct (kv_prefix (Z.to_nat c) j k) as (Hq & Hd & Hdk & Hdv);
      [lia | assumption | assumption |].
    rewrite Z2Nat.id in Hq, Hd, Hdk, Hdv by lia.
    rewrite <- Em in Hq, Hd.
    apply kv_fold_congr; try (symmetry; assumption).
  - rewrite (arange_nonpos (T - c)) by lia. simpl.
    destruct (Z_le_gt_dec 0 T) as [HT|HT].
    + destruct (kv_prefix (Z.to_nat T) j k) as (_ & _ & Hdk & Hdv);
        [nia | assumption | assumption |].
      rewrite Z2Nat.id in Hdk, Hdv by lia. now rewrite Hdk, Hdv.
    + unfold tile_starts. rewrite (arange_nonpos T) by lia. simpl. auto.
Qed.

(** C9, as the code has it.  In the causal [_bwd_kv_kernel] the sweep over
    the query tiles starts at
    [lo = floor(max(key_tile_start - P_SEQ, 0) / BLOCK_M) * BLOCK_M]: the
    loop runs over [range(lo, N_CTX, BLOCK_M)] from the pointers of row
    [lo].  Every row [m] below [lo] is masked against every column [n] of
    the key tile ([P_SEQ + m < n]).  When q and do hold finite numbers in
    the rows
    below [lo], the loop of the kernel ends with the dk and dv of the sweep
    from query tile 0, and the kernel stores into dk and dv what that
    sweep gives. *)
Theorem bwd_kv_sweep_from_lo :
  kv_lo P_SEQ BLOCK_M BLOCK_N true start_n
  = Z.max (start_n * BLOCK_N - P_SEQ) 0 / BLOCK_M * BLOCK_M
  /\ kv_loop Q K V sm_scale DO L D sq sk sv sdo H N_CTX P_SEQ BLOCK_M
             BLOCK_DMODEL BLOCK_N true DIVISIBLE_M DIVISIBLE_N
             start_n off_h off_z
     = fold_left body (py_range lo N_CTX BLOCK_M) (init lo)
  /\ (forall m n, 0 <= m < lo -> start_n * BLOCK_N <= n -> P_SEQ + m < n)
  /\ (forall j k, 0 <= j -> 0 <= k < BLOCK_DMODEL ->
        kv_dk (kv_loop Q K V sm_scale DO L D sq sk sv sdo H N_CTX P_SEQ
                       BLOCK_M BLOCK_DMODEL BLOCK_N true DIVISIBLE_M
                       DIVISIBLE_N start_n off_h off_z) j k
        = kv_dk (sweep 0) j k
        /\ kv_dv (kv_loop Q K V sm_scale DO L D sq sk sv sdo H N_CTX P_SEQ
                          BLOCK_M BLOCK_DMODEL BLOCK_N true DIVISIBLE_M
                          DIVISIBLE_N start_n off_h off_z) j k
           = kv_dv (sweep 0) j k)
  /\ _bwd_kv_kernel Q K V sm_scale DO L D sq sk sv sdo sdk sdv H N_CTX P_SEQ
                    BLOCK_M BLOCK_DMODEL BLOCK_N true DIVISIBLE_M
                    DIVISIBLE_N start_n off_h off_z
     = (tl_store2 BLOCK_N BLOCK_DMODEL
                  (kv_dk_ptrs sdk BLOCK_N start_n off_h off_z)
                  (fun j k =>
                     to_dtype (fmul (kv_dk (sweep 0) j k) (F sm_scale)))
                  (kv_mask_n N_CTX P_SEQ BLOCK_N DIVISIBLE_N start_n),
        tl_store2 BLOCK_N BLOCK_DMODEL
                  (kv_dv_ptrs sdv BLOCK_N start_n off_h off_z)
                  (fun j k => to_dtype (kv_dv (sweep 0) j k))
                  (kv_mask_n N_CTX P_SEQ BLOCK_N DIVISIBLE_N start_n)).
Proof.
  destruct kv_lo_spec as (Elo & _ & _).
  split; [exact Elo|]. split; [reflexivity|].
  split; [exact kv_below_lo_masked|]. split.
  - intros j k Hj Hk. unfold kv_loop. now apply kv_loop_from_zero.
  - unfold _bwd_kv_kernel. f_equal.
    + apply tl_store2_vals_ext. intros j k Hj _ Hk.
      unfold kv_dk_out, kv_loop.
      destruct (kv_loop_from_zero j k) as [-> _]; [lia|assumption|].
      reflexivity.
    + apply tl_store2_vals_ext. intros j k Hj _ Hk.
      unfold kv_dv_out, kv_loop.
      destruct (kv_loop_from_zero j k) as [_ ->]; [lia|assumption|].
      reflexivity.
Qed.

End BwdKvSweep.

Lemma bwd_kv_sweep_from_lo_witness :
  _bwd_kv_kernel (finite_mem (fun _ => 1%R)) (finite_mem (fun _ => 1%R))
                 (finite_mem (fun _ => 1%R)) 1 (finite_mem (fun _ => 1%R))
                 (fun _ => F 0) (fun _ => F 0)
                 (mkStrides 3200 3200 16 1) (mkStrides 3200 3200 16 1)
                 (mkStrides 3200 3200 16 1) (mkStrides 3200 3200 16 1)
                 (mkStrides 3200 3200 16 1) (mkStrides 3200 3200 16 1)
                 1 200 0 64 16 64 true false false 2 0 0
  = (tl_store2 64 16 (kv_dk_ptrs (mkStrides 3200 3200 16 1) 64 2 0 0)
       (fun j k =>
          to_dtype
            (fmul (kv_dk (kv_sweep (finite_mem (fun _ => 1%R))
                                   (finite_mem (fun _ => 1%R))
                                   (finite_mem (fun _ => 1%R)) 1
                                   (finite_mem (fun _ => 1%R))
                                   (fun _ => F 0) (fun _ => F 0)
                                   (mkStrides 3200 3200 16 1)
                                   (mkStrides 3200 3200 16 1)
                                   (mkStrides 3200 3200 16 1)
                                   (mkStrides 3200 3200 16 1)
                                   1 200 0 64 16 64 true false false 2 0 0
                                   0) j k) (F 1)))
       (kv_mask_n 200 0 64 false 2),
     tl_store2 64 16 (kv_dv_ptrs (mkStrides 3200 3200 16 1) 64 2 0 0)
       (fun j k =>
          to_dtype
            (kv_dv (kv_sweep (finite_mem (fun _ => 1%R))
                             (finite_mem (fun _ => 1%R))
                             (finite_mem (fun _ => 1%R)) 1
                             (finite_mem (fun _ => 1%R))
                             (fun _ => F 0) (fun _ => F 0)
                             (mkStrides 3200 3200 16 1)
                             (mkStrides 3200 3200 16 1)
                             (mkStrides 3200 3200 16 1)
                             (mkStrides 3200 3200 16 1)
                             1 200 0 64 16 64 true false false 2 0 0
                             0) j k))
       (kv_mask_n 200 0 64 false 2)).
Proof.
  refine (proj2 (proj2 (proj2 (proj2
    (bwd_kv_sweep_from_lo
       (finite_mem (fun _ => 1%R)) (finite_mem (fun _ => 1%R))
       (finite_mem (fun _ => 1%R)) 1 (finite_mem (fun _ => 1%R))
       (fun _ => F 0) (fun _ => F 0)
       (mkStrides 3200 3200 16 1) (mkStrides 3200 3200 16 1)
       (mkStrides 3200 3200 16 1) (mkStrides 3200 3200 16 1)
       (mkStrides 3200 3200 16 1) (mkStrides 3200 3200 16 1)
       1 200 0 64 16 64 false false 2 0 0 _ _ _))))).
  - lia.
  - reflexivity.
  - reflexivity.
Defined.

(** ** Row-wise stores of a launch into a contiguous [(B, H, M)] tensor *)

Lemma NoDup_flat_map {A B : Type} (f : A -> list B) (l : list A) :
  NoDup l ->
  (forall x, In x l -> NoDup (f x)) ->
  (forall x y b, In x l -> In y l -> In b (f x) -> In b (f y) -> x = y) ->
  NoDup (flat_map f l).
Proof.
  induction l as [|a l IH]; intros Hl Hf Hd; simpl; [constructor|].
  inversion Hl as [|? ? Ha Hl']; subst.
  apply NoDup_app.
  - apply Hf. now left.
  - apply IH; [assumption | intros x Hx; apply Hf; right; exact Hx |].
    intros x y b Hx Hy. apply Hd; right; assumption.
  - intros b Hb Hin. apply in_flat_map in Hin as (y & Hy & Hby).
    assert (a = y) by (apply (Hd a y b); auto; [now left | now right]).
    subst. contradiction.
Qed.

Lemma map_flat_map {A B C : Type} (g : B -> C) (f : A -> list B) (l : list A) :
  map g (flat_map f l) = flat_map (fun x => map g (f x)) l.
Proof.
  induction l as [|a l IH]; simpl; [reflexivity|].
  now rewrite map_app, IH.
Qed.

Lemma NoDup_grid_ids (g : Z * Z * Z) : NoDup (grid_ids g).
Proof.
  destruct g as [[g0 g1] g2]. unfold grid_ids.
  apply NoDup_flat_map; [apply NoDup_arange | |].
  - intros z _. apply NoDup_flat_map; [apply NoDup_arange | |].
    + intros h _. apply Injective_map_NoDup; [|apply NoDup_arange].
      intros a b E. now inversion E.
    + intros h h' b _ _ Hb Hb'.
      apply in_map_iff in Hb as (t & <- & _).
      apply in_map_iff in Hb' as (t' & E & _). now inversion E.
  - intros z z' b _ _ Hb Hb'.
    apply in_flat_map in Hb as (h & _ & Hb).
    apply in_map_iff in Hb as (t & <- & _).
    apply in_flat_map in Hb' as (h' & _ & Hb').
    apply in_map_iff in Hb' as (t' & E & _). now inversion E.
Qed.

Lemma tl_store1_ext (n : Z) (p p' : Z -> Z) (v v' : Z -> fp) (mask : mask1) :
  (forall i, 0 <= i < n -> p i = p' i /\ v i = v' i) ->
  tl_store1 n p v mask = tl_store1 n p' v' mask.
Proof.
  intros E. unfold tl_store1.
  assert (Hin : forall i, In i (arange n) -> 0 <= i < n)
    by (intros i; apply In_arange).
  induction (arange n) as [|i l IH]; simpl; [reflexivity|].
  destruct (E i (Hin i (or_introl eq_refl))) as [-> ->].
  f_equal. apply IH. intros j Hj. apply Hin. now right.
Qed.

Lemma offset3_inj (H M z h m z' h' m' : Z) :
  0 <= h < H -> 0 <= m < M -> 0 <= h' < H -> 0 <= m' < M ->
  offset3 H M z h m = offset3 H M z' h' m' ->
  z = z' /\ h = h' /\ m = m'.
Proof.
  unfold offset3. intros Hh Hm Hh' Hm' E.
  assert (E1 : z * H + h = z' * H + h') by nia.
  assert (m = m') by nia.
  assert (z = z') by nia.
  repeat split; nia.
Qed.

Section RowStores.
Variables (B H M BLOCK_M : Z).
(** The value stored by the instance of tile [t], head [h], batch [z] on
    lane [i]. *)
Variable vals : Z -> Z -> Z -> Z -> fp.
Hypothesis BLOCK_M_pos : 0 < BLOCK_M.

Local Abbreviation mask t := (fwd_mask_m M BLOCK_M (M mod BLOCK_M =? 0) t).
Local Abbreviation inst id :=
  (tl_store1 BLOCK_M
             (fun i => offset3 H M (snd id) (snd (fst id))
                                (fst (fst id) * BLOCK_M + i))
             (vals (fst (fst id)) (snd (fst id)) (snd id))
             (mask (fst (fst id)))).
Local Abbreviation log :=
  (flat_map (fun id : Z * Z * Z => inst id) (grid_ids (cdiv M BLOCK_M, H, B))).

Lemma row_lane_ok (t i : Z) :
  0 <= t < cdiv M BLOCK_M -> 0 <= i < BLOCK_M ->
  (lane_ok (mask t) i = true <-> t * BLOCK_M + i < M).
Proof.
  intros [Ht0 Ht] Hi. apply cdiv_gt in Ht; [|assumption].
  unfold fwd_mask_m, fwd_offs_m.
  destruct (Z.eqb_spec (M mod BLOCK_M) 0) as [E|E]; simpl.
  - split; [intros _|reflexivity].
    apply Z.mod_divide in E; [|lia]. destruct E as [q ->].
    assert (t < q) by nia. nia.
  - destruct (Z.gtb_spec (t * BLOCK_M + BLOCK_M) M); simpl.
    + apply Z.ltb_lt.
    + split; [lia|reflexivity].
Qed.

Lemma In_row_log (w : write) :
  In w log <->
  exists z h m, 0 <= z < B /\ 0 <= h < H /\ 0 <= m < M /\
    w = (offset3 H M z h m, vals (m / BLOCK_M) h z (m mod BLOCK_M)).
Proof.
  rewrite in_flat_map. split.
  - intros ([[t h] z] & Hg & Hw). apply In_grid_ids in Hg as (Ht & Hh & Hz).
    apply In_tl_store1 in Hw as (i & Hi & Hok & ->). simpl in *.
    apply row_lane_ok in Hok; [|assumption..].
    exists z, h, (t * BLOCK_M + i). repeat split; try lia.
    replace ((t * BLOCK_M + i) / BLOCK_M) with t.
    2:{ rewrite Z.add_comm, Z.div_add by lia. rewrite Z.div_small; lia. }
    replace ((t * BLOCK_M + i) mod BLOCK_M) with i.
    2:{ rewrite Z.add_comm, Z.mod_add by lia. rewrite Z.mod_small; lia. }
    reflexivity.
  - intros (z & h & m & Hz & Hh & Hm & ->).
    pose proof (Z.div_mod m BLOCK_M ltac:(lia)) as E.
    pose proof (Z.mod_pos_bound m BLOCK_M BLOCK_M_pos) as Hb.
    assert (Ht : 0 <= m / BLOCK_M < cdiv M BLOCK_M).
    { split; [apply Z.div_pos; lia|]. apply cdiv_gt; [assumption|]. nia. }
    exists (m / BLOCK_M, h, z). split.
    + apply In_grid_ids. auto.
    + apply In_tl_store1. exists (m mod BLOCK_M). simpl.
      split; [assumption|]. split.
      * apply row_lane_ok; [assumption..|]. lia.
      * f_equal. f_equal. lia.
Qed.

Lemma NoDup_row_log : NoDup (map fst log).
Proof.
  rewrite map_flat_map. apply NoDup_flat_map; [apply NoDup_grid_ids | |].
  - intros [[t h] z] _. unfold tl_store1. rewrite map_flat_map.
    apply NoDup_flat_map; [apply NoDup_arange | |].
    + intros i _. destruct (lane_ok _ i); simpl; repeat constructor. intros [].
    + intros i i' a _ _ Ha Ha'.
      destruct (lane_ok _ i); simpl in Ha; [|contradiction].
      destruct (lane_ok _ i'); simpl in Ha'; [|contradiction].
      destruct Ha as [<-|[]]. destruct Ha' as [E|[]].
      unfold offset3 in E. lia.
  - intros [[t h] z] [[t' h'] z'] a Hg Hg' Ha Ha'.
    apply In_grid_ids in Hg as (Ht & Hh & Hz).
    apply In_grid_ids in Hg' as (Ht' & Hh' & Hz').
    apply in_map_iff in Ha as (w & <- & Hw).
    apply in_map_iff in Ha' as (w' & E & Hw').
    apply In_tl_store1 in Hw as (i & Hi & Hok & ->).
    apply In_tl_store1 in Hw' as (i' & Hi' & Hok' & ->).
    simpl in *.
    apply row_lane_ok in Hok; [|assumption..].
    apply row_lane_ok in Hok'; [|assumption..].
    apply offset3_inj in E as (-> & -> & Em); try lia.
    assert (t = t') by nia. now subst.
Qed.

Lemma row_log_once (z h m : Z) :
  0 <= z < B -> 0 <= h < H -> 0 <= m < M ->
  count_occ Z.eq_dec (map fst log) (offset3 H M z h m) = 1%nat.
Proof.
  intros Hz Hh Hm.
  apply (proj1 (NoDup_count_occ' Z.eq_dec _) NoDup_row_log).
  apply in_map_iff.
  exists (offset3 H M z h m, vals (m / BLOCK_M) h z (m mod BLOCK_M)).
  split; [reflexivity|]. apply In_row_log. exists z, h, m. auto.
Qed.

End RowStores.

Lemma apply_writes_in_nodup (ws : list write) (M : mem) (a : Z) (v : fp) :
  NoDup (map fst ws) -> In (a, v) ws -> apply_writes M ws a = v.
Proof.
  unfold apply_writes. revert M.
  induction ws as [|w ws IH]; intros M Hnd Hin; [contradiction|].
  simpl in *. inversion Hnd as [|? ? Hn Hnd']; subst.
  destruct Hin as [->|Hin].
  - fold (apply_writes (apply_write M (a, v)) ws).
    rewrite apply_writes_notin by assumption.
    unfold apply_write. simpl. now rewrite Z.eqb_refl.
  - now apply IH.
Qed.

(** ** [_bwd_preprocess] *)

Section Preprocess.
Variables (Out DO : mem) (so sdo : strides).
Variables (B H M BLOCK_M D_HEAD : Z).
Hypothesis BLOCK_M_pos : 0 < BLOCK_M.

(** The launch as [backward] makes it: [delta] is contiguous. *)
Local Abbreviation log :=
  (pre_launch Out DO so sdo (H * M, M, 1) M BLOCK_M D_HEAD
              (M mod BLOCK_M =? 0) (cdiv M BLOCK_M, H, B)).
Local Abbreviation vals :=
  (fun t h z => pre_delta Out DO so sdo M BLOCK_M D_HEAD
                          (M mod BLOCK_M =? 0) t h z).

Lemma pre_launch_rows :
  log = flat_map (fun id : Z * Z * Z =>
                    tl_store1 BLOCK_M
                      (fun i => offset3 H M (snd id) (snd (fst id))
                                        (fst (fst id) * BLOCK_M + i))
                      (vals (fst (fst id)) (snd (fst id)) (snd id))
                      (fwd_mask_m M BLOCK_M (M mod BLOCK_M =? 0)
                                  (fst (fst id))))
                 (grid_ids (cdiv M BLOCK_M, H, B)).
Proof.
  unfold pre_launch. apply flat_map_ext. intros [[t h] z]. simpl.
  unfold _bwd_preprocess.
  change (pre_mask_m M BLOCK_M (M mod BLOCK_M =? 0) t)
    with (fwd_mask_m M BLOCK_M (M mod BLOCK_M =? 0) t).
  apply tl_store1_ext. intros i Hi. split; [|reflexivity].
  unfold pre_d_ptrs, pre_Delta_base, pre_off_m, pre_off_m_base, offset3. lia.
Qed.

Lemma pre_delta_row (z h m : Z) :
  0 <= m < M ->
  vals (m / BLOCK_M) h z (m mod BLOCK_M)
  = delta_ref Out DO so sdo D_HEAD z h m.
Proof.
  intros Hm.
  pose proof (Z.div_mod m BLOCK_M ltac:(lia)) as E.
  pose proof (Z.mod_pos_bound m BLOCK_M BLOCK_M_pos) as Hb.
  assert (Ht : 0 <= m / BLOCK_M < cdiv M BLOCK_M).
  { split; [apply Z.div_pos; lia|]. apply cdiv_gt; [assumption|]. nia. }
  assert (Hok : lane_ok (pre_mask_m M BLOCK_M (M mod BLOCK_M =? 0)
                                    (m / BLOCK_M)) (m mod BLOCK_M) = true).
  { apply (row_lane_ok M BLOCK_M BLOCK_M_pos); [assumption..|]. lia. }
  unfold pre_delta, tl_sum1, delta_ref. f_equal. apply map_ext. intros d.
  unfold pre_o, pre_do, to_dtype, tl_load. rewrite Hok.
  unfold pre_o_ptrs, pre_do_ptrs, pre_Out_base, pre_DO_base, pre_off_m,
    pre_off_m_base, offset4.
  f_equal; f_equal; nia.
Qed.

(** C10.  For every batch, head and row [m < M] the launch of
    [_bwd_preprocess] stores [Delta[b,h,m] = sum_d O[b,h,m,d] * dO[b,h,m,d]],
    it stores to that element exactly once, so that the element holds this
    sum after the launch, and every store of the launch is such a store:
    nothing is written for the out-of-range rows of a partial last tile. *)
Theorem bwd_preprocess_delta :
  (forall z h m, 0 <= z < B -> 0 <= h < H -> 0 <= m < M ->
     In (offset3 H M z h m, delta_ref Out DO so sdo D_HEAD z h m) log
     /\ count_occ Z.eq_dec (map fst log) (offset3 H M z h m) = 1%nat
     /\ forall init : mem,
          apply_writes init log (offset3 H M z h m)
          = delta_ref Out DO so sdo D_HEAD z h m)
  /\ (forall w, In w log ->
        exists z h m, 0 <= z < B /\ 0 <= h < H /\ 0 <= m < M /\
          w = (offset3 H M z h m, delta_ref Out DO so sdo D_HEAD z h m)).
Proof.
  pose proof (In_row_log B H M BLOCK_M vals BLOCK_M_pos) as HIn.
  pose proof (NoDup_row_log B H M BLOCK_M vals BLOCK_M_pos) as Hnd.
  pose proof (row_log_once B H M BLOCK_M vals BLOCK_M_pos) as Hone.
  cbv beta in HIn, Hnd, Hone.
  rewrite <- pre_launch_rows in HIn, Hnd, Hone. split.
  - intros z h m Hz Hh Hm.
    assert (Hin : In (offset3 H M z h m, delta_ref Out DO so sdo D_HEAD z h m)
                     log).
    { apply HIn. exists z, h, m. repeat split; try lia.
      now rewrite pre_delta_row. }
    split; [exact Hin|]. split.
    + now apply Hone.
    + intros init. now apply apply_writes_in_nodup.
  - intros w Hw.
    apply HIn in Hw as (z & h & m & Hz & Hh & Hm & ->).
    exists z, h, m. repeat split; try lia. now rewrite pre_delta_row.
Qed.

End Preprocess.

Lemma bwd_preprocess_delta_witness :
  apply_writes (fun _ => NaN)
    (pre_launch (fun _ => F 1) (fun _ => F 1)
                (mkStrides 1600 1600 16 1) (mkStrides 1600 1600 16 1)
                (1 * 100, 100, 1) 100 64 16 (100 mod 64 =? 0)
                (cdiv 100 64, 1, 1))
    (offset3 1 100 0 0 99)
  = delta_ref (fun _ => F 1) (fun _ => F 1)
              (mkStrides 1600 1600 16 1) (mkStrides 1600 1600 16 1) 16 0 0 99.
Proof.
  refine (proj2 (proj2 (proj1
    (bwd_preprocess_delta (fun _ => F 1) (fun _ => F 1)
       (mkStrides 1600 1600 16 1) (mkStrides 1600 1600 16 1)
       1 1 100 64 16 _) 0 0 99 _ _ _)) (fun _ => NaN)); lia.
Defined.

(** ** The launcher [forward] *)

(** [torch.empty_like] hands a 4-d tensor four strides. *)
Lemma like_stride_four (B H M D a b c d : Z) :
  let so := strides_of_list (like_stride [B; H; M; D] [a; b; c; d]) in
  like_stride [B; H; M; D] [a; b; c; d] = [s0 so; s1 so; s2 so; s3 so].
Proof.
  cbv zeta. unfold like_stride.
  destruct (non_overlapping_and_dense _ _); reflexivity.
Qed.

(** ... and a 3-d tensor three. *)
Lemma like_stride_three (A B C a b c : Z) :
  exists d0 d1 d2, like_stride [A; B; C] [a; b; c] = [d0; d1; d2].
Proof.
  unfold like_stride.
  destruct (non_overlapping_and_dense _ _); do 3 eexists; reflexivity.
Qed.

Lemma strides_of_list_eta (s : strides) :
  strides_of_list [s0 s; s1 s; s2 s; s3 s] = s.
Proof. now destruct s. Qed.

(** On a non-overlapping and dense tensor [torch.empty_like] keeps the
    strides. *)
Lemma like_stride_dense (shape stride : list Z) :
  non_overlapping_and_dense shape stride = true ->
  like_stride shape stride = stride.
Proof. intros E. unfold like_stride. now rewrite E. Qed.

(** ** The strides of [torch.empty_like] put elements at distinct offsets *)

Lemma radix_digit (n i i' X X' : Z) :
  0 <= i < n -> 0 <= i' < n -> i + n * X = i' + n * X' ->
  i = i' /\ X = X'.
Proof. intros Hi Hi' E. assert (X = X') by nia. subst. lia. Qed.

Lemma insert_by_stride_perm (x : Z * Z) (l : list (Z * Z)) :
  Permutation (insert_by_stride x l) (x :: l).
Proof.
  induction l as [|y r IH]; [reflexivity|]. cbn [insert_by_stride].
  destruct (snd x <=? snd y); [reflexivity|].
  rewrite IH. apply perm_swap.
Qed.

Lemma sort_by_stride_perm (l : list (Z * Z)) :
  Permutation (sort_by_stride l) l.
Proof.
  induction l as [|x l IH]; [reflexivity|].
  unfold sort_by_stride in *. cbn [fold_right].
  rewrite insert_by_stride_perm. now constructor.
Qed.

(** The offset of an index through a list of (size, stride) pairs, each
    with an index. *)
Lemma offset_sum_perm (f : Z * Z * (Z * Z) -> Z)
    (l l' : list (Z * Z * (Z * Z))) :
  Permutation l l' ->
  fold_right Z.add 0 (map f l) = fold_right Z.add 0 (map f l').
Proof. induction 1; cbn [map fold_right] in *; lia. Qed.

(** A dense list of dimensions is a mixed radix: the offset determines
    the digits. *)
Lemma dense_from_digits (l : list (Z * Z * (Z * Z))) (r : Z) :
  dense_from r (map fst l) = true ->
  Forall (fun q => 0 <= fst (snd q) < fst (fst q)
                   /\ 0 <= snd (snd q) < fst (fst q)) l ->
  exists X X',
    fold_right Z.add 0 (map (fun q => fst (snd q) * snd (fst q)) l) = r * X
    /\ fold_right Z.add 0 (map (fun q => snd (snd q) * snd (fst q)) l)
       = r * X'
    /\ (X = X' -> Forall (fun q => fst (snd q) = snd (snd q)) l).
Proof.
  revert r. induction l as [|[[n s] [i i']] l IH]; intros r Hd Hr.
  - exists 0, 0. cbn. repeat split; try lia. constructor.
  - cbn [map fst dense_from] in Hd.
    apply andb_true_iff in Hd as [Hs Hd]. apply Z.eqb_eq in Hs. subst s.
    inversion Hr as [|? ? [Hi Hi'] Hr']; subst. cbn [fst snd] in Hi, Hi'.
    destruct (IH (r * n) Hd Hr') as (Y & Y' & E & E' & Heq).
    exists (i + n * Y), (i' + n * Y'). cbn [map fold_right fst snd].
    rewrite E, E'. repeat split; try ring.
    intros EX. destruct (radix_digit n i i' Y Y' Hi Hi' EX) as [-> EY].
    constructor; [reflexivity|auto].
Qed.

Lemma filter_map_fst (l : list (Z * Z * (Z * Z))) :
  map fst (filter (fun q => 2 <=? fst (fst q)) l)
  = filter (fun p => 2 <=? fst p) (map fst l).
Proof.
  induction l as [|q l IH]; [reflexivity|]. cbn [filter map].
  destruct (2 <=? fst (fst q)); cbn [map]; now rewrite IH.
Qed.

Lemma small_dims_offset (f : Z * Z -> Z) (l : list (Z * Z * (Z * Z))) :
  Forall (fun q => 0 <= f (snd q) < fst (fst q)) l ->
  fold_right Z.add 0
    (map (fun q => f (snd q) * snd (fst q))
         (filter (fun q => 2 <=? fst (fst q)) l))
  = fold_right Z.add 0 (map (fun q => f (snd q) * snd (fst q)) l).
Proof.
  induction 1 as [|q l Hq _ IH]; [reflexivity|]. cbn [filter].
  destruct (Z.leb_spec 2 (fst (fst q))); cbn [map fold_right];
    rewrite IH; [reflexivity|].
  replace (f (snd q)) with 0 by lia. lia.
Qed.

Lemma small_dims_digits (l : list (Z * Z * (Z * Z))) :
  Forall (fun q => 0 <= fst (snd q) < fst (fst q)
                   /\ 0 <= snd (snd q) < fst (fst q)) l ->
  Forall (fun q => fst (snd q) = snd (snd q))
         (filter (fun q => 2 <=? fst (fst q)) l) ->
  Forall (fun q => fst (snd q) = snd (snd q)) l.
Proof.
  induction 1 as [|q l Hq _ IH]; [constructor|]. cbn [filter].
  destruct (Z.leb_spec 2 (fst (fst q))); intros Hf.
  - inversion Hf; subst. constructor; auto.
  - constructor; [lia|auto].
Qed.

Lemma dense_layout_digits (l : list (Z * Z * (Z * Z))) :
  dense_from 1 (sort_by_stride
                  (filter (fun p => 2 <=? fst p) (map fst l))) = true ->
  Forall (fun q => 0 <= fst (snd q) < fst (fst q)
                   /\ 0 <= snd (snd q) < fst (fst q)) l ->
  fold_right Z.add 0 (map (fun q => fst (snd q) * snd (fst q)) l)
  = fold_right Z.add 0 (map (fun q => snd (snd q) * snd (fst q)) l) ->
  Forall (fun q => fst (snd q) = snd (snd q)) l.
Proof.
  intros Hd Hr E. apply small_dims_digits; [exact Hr|].
  rewrite <- filter_map_fst in Hd.
  set (l0 := filter (fun q => 2 <=? fst (fst q)) l) in *.
  destruct (Permutation_map_inv fst l0 (sort_by_stride_perm (map fst l0)))
    as (l1 & E1 & P1).
  rewrite E1 in Hd.
  assert (Hr0 : Forall (fun q => 0 <= fst (snd q) < fst (fst q)
                                 /\ 0 <= snd (snd q) < fst (fst q)) l0).
  { apply Forall_forall. intros q Hq. apply filter_In in Hq as [Hq _].
    revert q Hq. now apply Forall_forall. }
  assert (Hr1 := Permutation_Forall P1 Hr0).
  destruct (dense_from_digits l1 1 Hd Hr1) as (X & X' & S1 & S2 & Heq).
  apply (Permutation_Forall (Permutation_sym P1)). apply Heq.
  rewrite <- (offset_sum_perm _ _ _ P1) in S1.
  rewrite <- (offset_sum_perm _ _ _ P1) in S2.
  unfold l0 in S1, S2.
  rewrite (small_dims_offset fst) in S1
    by (eapply Forall_impl; [|exact Hr]; cbv beta; intros; tauto).
  rewrite (small_dims_offset snd) in S2
    by (eapply Forall_impl; [|exact Hr]; cbv beta; intros; tauto).
  lia.
Qed.

Lemma contiguous_layout_injective (B H M D : Z) :
  layout_injective
    (strides_of_list (contiguous_stride [B; H; M; D])) B H M D.
Proof.
  unfold layout_injective, offset4, strides_of_list.
  cbn [contiguous_stride fold_right nth s0 s1 s2 s3].
  intros z h m k z' h' m' k' Hz Hh Hm Hk Hz' Hh' Hm' Hk' E.
  destruct (radix_digit D k k' (m + M * (h + H * z)) (m' + M * (h' + H * z'))
              Hk Hk' ltac:(lia)) as [-> E1].
  destruct (radix_digit M m m' (h + H * z) (h' + H * z') Hm Hm' E1)
    as [-> E2].
  destruct (radix_digit H h h' z z' Hh Hh' E2) as [-> ->].
  auto.
Qed.

(** The result of [torch.empty_like] and of [torch.zeros_like] holds the
    elements of a 4-d tensor at distinct offsets. *)
Lemma like_stride_injective (B H M D a b c d : Z) :
  layout_injective
    (strides_of_list (like_stride [B; H; M; D] [a; b; c; d])) B H M D.
Proof.
  unfold like_stride.
  destruct (non_overlapping_and_dense [B; H; M; D] [a; b; c; d]) eqn:Hd;
    [|apply contiguous_layout_injective].
  unfold layout_injective, offset4, strides_of_list.
  cbn [nth s0 s1 s2 s3].
  intros z h m k z' h' m' k' Hz Hh Hm Hk Hz' Hh' Hm' Hk' E.
  pose proof (dense_layout_digits
                [((B, a), (z, z')); ((H, b), (h, h'));
                 ((M, c), (m, m')); ((D, d), (k, k'))] Hd) as HL.
  cbn [map fold_right fst snd] in HL.
  assert (HF : Forall (fun q => fst (snd q) = snd (snd q))
                 [((B, a), (z, z')); ((H, b), (h, h'));
                  ((M, c), (m, m')); ((D, d), (k, k'))]).
  { apply HL; [|lia]. repeat constructor; cbn [fst snd]; lia. }
  inversion HF as [|? ? Ez HF1]; subst.
  inversion HF1 as [|? ? Eh HF2]; subst.
  inversion HF2 as [|? ? Em HF3]; subst.
  inversion HF3 as [|? ? Ek _]; subst.
  cbn [fst snd] in *. auto.
Qed.

Section ForwardHost.
Variable get_device_capability : Z -> Z * Z.
Variable uninit : mem.

Local Abbreviation fwd := (forward get_device_capability uninit).

(** A failed head-dimension assertion: the call stops right after the
    device switch. *)
Lemma forward_head_dim_rejected (q k v : tensor) (causal : bool)
    (sm_scale : option R) (h : host) (Dq Dk Dv : Z) :
  nth_error (rev (t_shape q)) 0 = Some Dq ->
  nth_error (rev (t_shape k)) 0 = Some Dk ->
  nth_error (rev (t_shape v)) 0 = Some Dv ->
  (Dq =? Dk) && (Dk =? Dv) && supported_head_dim Dk = false ->
  fwd q k v causal sm_scale h
  = ({| current_device := t_device q;
        heap := heap h;
        next_storage := next_storage h;
        trace := trace h ++ [EvSetDevice (t_device q)] |},
     inl AssertionError).
Proof.
  intros Hq Hk Hv Hbad.
  unfold forward, bind, cuda_current_device, cuda_set_device,
    shape_last, of_option, ret.
  rewrite Hq, Hk, Hv. cbn [fst snd].
  unfold py_assert.
  destruct ((Dq =? Dk) && (Dk =? Dv)) eqn:E1; simpl in Hbad.
  - unfold ret. cbn. rewrite Hbad. reflexivity.
  - reflexivity.
Qed.


(** A call whose head dimensions pass the assertions runs to the end,
    whatever [M], [N] and [causal] are: it allocates [o] and [L], launches
    [_fwd_kernel] once and restores the device. *)
Lemma forward_runs (q k v : tensor) (causal : bool)
    (sm_scale : option R) (h : host)
    (B H M D Bk Hk N Bv Hv Nv : Z) (sq sk sv : strides) :
  t_shape q = [B; H; M; D] ->
  t_shape k = [Bk; Hk; N; D] ->
  t_shape v = [Bv; Hv; Nv; D] ->
  t_stride q = [s0 sq; s1 sq; s2 sq; s3 sq] ->
  t_stride k = [s0 sk; s1 sk; s2 sk; s3 sk] ->
  t_stride v = [s0 sv; s1 sv; s2 sv; s3 sv] ->
  supported_head_dim D = true ->
  (t_storage q < next_storage h)%nat ->
  (t_storage k < next_storage h)%nat ->
  (t_storage v < next_storage h)%nat ->
  exists (o : tensor) (ctx : context) (hp : nat -> mem),
    fwd q k v causal sm_scale h
    = ({| current_device := current_device h;
          heap := hp;
          next_storage := S (S (next_storage h));
          trace := trace h ++
                   [EvSetDevice (t_device q);
                    EvAlloc (next_storage h) [B; H; M; D];
                    EvAlloc (S (next_storage h)) [B; H; M];
                    EvLaunch K_fwd (ctx_grid ctx);
                    EvSetDevice (current_device h)] |},
       inr (o, ctx))
    /\ ctx_P_SEQ ctx = N - M
    /\ ctx_causal ctx = causal
    /\ ctx_o ctx = o
    /\ t_storage o = next_storage h
    /\ t_stride o = like_stride [B; H; M; D] (t_stride q)
    /\ t_storage (ctx_L ctx) = S (next_storage h)
    /\ ctx_sm_scale ctx = match sm_scale with
                          | Some s => s
                          | None => (1 / sqrt (IZR D))%R
                          end
    /\ (forall id, (id < next_storage h)%nat -> hp id = heap h id)
    /\ forall BLOCK_M BLOCK_N num_stages num_warps,
         fwd_config (get_device_capability (t_device q)) causal D M
         = (BLOCK_M, BLOCK_N, num_stages, num_warps) ->
         let so := strides_of_list
                     (like_stride [B; H; M; D] (t_stride q)) in
         let w := fwd_launch (heap h (t_storage q)) (heap h (t_storage k))
                    (heap h (t_storage v)) (ctx_sm_scale ctx) sq sk sv so
                    B H M (N - M) BLOCK_M BLOCK_N D causal
                    (M mod BLOCK_M =? 0) (N mod BLOCK_N =? 0)
                    (cdiv M BLOCK_M, H, B) in
         ctx_grid ctx = (cdiv M BLOCK_M, H, B)
         /\ hp (S (next_storage h)) = apply_writes uninit (fst w)
         /\ hp (next_storage h) = apply_writes uninit (snd w).
Proof.
  intros Eq Ek Ev Sq Sk Sv HD Lq Lk Lv.
  destruct sq as [q0 q1 q2 q3], sk as [k0 k1 k2 k3], sv as [v0 v1 v2 v3].
  cbn [s0 s1 s2 s3] in *.
  unfold forward, bind, cuda_current_device, cuda_set_device,
    shape_last, shape_at, unpack4, of_option, ret.
  rewrite Eq, Ek, Ev. cbn [rev app nth_error fst snd].
  rewrite !Z.eqb_refl. cbn [andb py_assert]. unfold py_assert, ret.
  rewrite HD.
  destruct (fwd_config (get_device_capability (t_device q)) causal D M)
    as [[[BLOCK_M BLOCK_N] num_stages] num_warps].
  unfold empty_like, empty, alloc, strides4, read_heap, launched, bind,
    of_option, ret.
  cbn [t_shape t_stride t_device t_storage current_device heap next_storage
       trace fst snd nth_error contiguous_stride].
  rewrite Sq, Sk, Sv, Eq.
  rewrite (like_stride_four B H M D q0 q1 q2 q3). cbn [nth_error].
  cbn [t_shape t_stride t_device t_storage current_device heap next_storage
       trace fst snd nth_error fold_left].
  assert (Hne : forall a b : nat, (a < b)%nat -> Nat.eqb a b = false)
    by (intros a b Hab; apply Nat.eqb_neq; lia).
  rewrite !(Hne (t_storage q) (S (next_storage h))),
          !(Hne (t_storage k) (S (next_storage h))),
          !(Hne (t_storage v) (S (next_storage h))),
          !(Hne (t_storage q) (next_storage h)),
          !(Hne (t_storage k) (next_storage h)),
          !(Hne (t_storage v) (next_storage h)) by lia.
  rewrite <- !app_assoc. cbn [app].
  eexists _, _, _.
  split; [refine (f_equal2 pair _ eq_refl); reflexivity|].
  repeat split; try reflexivity.
  - intros id Hid. cbn beta.
    rewrite (Hne id (next_storage h)), (Hne id (S (next_storage h))) by lia.
    reflexivity.
  - inversion H0; subst. reflexivity.
  - inversion H0; subst. cbn beta. rewrite Nat.eqb_refl.
    replace (Nat.eqb (S (next_storage h)) (next_storage h)) with false
      by (symmetry; apply Nat.eqb_neq; lia).
    reflexivity.
  - inversion H0; subst. cbn beta. rewrite Nat.eqb_refl.
    rewrite (Hne (next_storage h) (S (next_storage h))) by lia.
    reflexivity.
Qed.

End ForwardHost.

(** C7 (the code departs from it).  A call whose head dimension is not
    in {16, 32, 64, 128} is made on device 1 while the current device is 0:
    the call raises [AssertionError] before anything is allocated or
    launched and without touching the heap, but it has already switched
    the process-wide current device to 1 and does not switch it back. *)
Theorem forward_rejection_leaves_device_switched :
  let q := contiguous_tensor [1; 1; 4; 8] 1 0 in
  let k := contiguous_tensor [1; 1; 4; 8] 1 1 in
  let v := contiguous_tensor [1; 1; 4; 8] 1 2 in
  forward a100 (fun _ => F 0) q k v false None host0
  = ({| current_device := 1;
        heap := heap host0;
        next_storage := 3;
        trace := [EvSetDevice 1] |},
     inl AssertionError)
  /\ ~ no_partial_work host0
         (fst (forward a100 (fun _ => F 0) q k v false None host0)).
Proof.
  intros q k v.
  assert (E : forward a100 (fun _ => F 0) q k v false None host0
              = ({| current_device := 1;
                    heap := heap host0;
                    next_storage := 3;
                    trace := [EvSetDevice 1] |},
                 inl AssertionError)).
  { apply (forward_head_dim_rejected a100 (fun _ => F 0) q k v false None
             host0 8 8 8); reflexivity. }
  split; [exact E|].
  rewrite E. intros (Hdev & _). simpl in Hdev. discriminate.
Qed.

(** C6, as the code has it.  A causal call with [N < M] whose head
    dimensions pass the two assertions is not rejected: [forward] allocates
    [o] and [L], launches [_fwd_kernel] once with the negative prefix
    [P_SEQ = N - M] and returns [o]. *)
Theorem forward_negative_prefix_runs (cap : Z -> Z * Z) (uninit : mem)
    (q k v : tensor) (sm_scale : option R) (h : host)
    (B H M D Bk Hk N Bv Hv Nv : Z) (sq sk sv : strides) :
  t_shape q = [B; H; M; D] ->
  t_shape k = [Bk; Hk; N; D] ->
  t_shape v = [Bv; Hv; Nv; D] ->
  t_stride q = [s0 sq; s1 sq; s2 sq; s3 sq] ->
  t_stride k = [s0 sk; s1 sk; s2 sk; s3 sk] ->
  t_stride v = [s0 sv; s1 sv; s2 sv; s3 sv] ->
  supported_head_dim D = true ->
  (t_storage q < next_storage h)%nat ->
  (t_storage k < next_storage h)%nat ->
  (t_storage v < next_storage h)%nat ->
  N < M ->
  exists (o : tensor) (ctx : context) (h' : host),
    forward cap uninit q k v true sm_scale h = (h', inr (o, ctx))
    /\ ~ rejected (forward cap uninit q k v true sm_scale h)
    /\ ctx_P_SEQ ctx = N - M /\ ctx_P_SEQ ctx < 0
    /\ trace h' = trace h ++
                  [EvSetDevice (t_device q);
                   EvAlloc (t_storage o) [B; H; M; D];
                   EvAlloc (t_storage (ctx_L ctx)) [B; H; M];
                   EvLaunch K_fwd (ctx_grid ctx);
                   EvSetDevice (current_device h)].
Proof.
  intros Eq Ek Ev Sq Sk Sv HD Lq Lk Lv HNM.
  destruct (forward_runs cap uninit q k v true sm_scale h
              B H M D Bk Hk N Bv Hv Nv sq sk sv Eq Ek Ev Sq Sk Sv HD
              Lq Lk Lv)
    as (o & ctx & hp & E & HP & _ & _ & Ho & _ & HL & _).
  exists o, ctx. eexists. split; [exact E|].
  split; [|split; [exact HP|split; [lia|]]].
  - rewrite E. intros (e & He). discriminate.
  - cbn [trace]. now rewrite Ho, HL.
Qed.

Lemma forward_negative_prefix_runs_witness :
  exists (o : tensor) (ctx : context) (h' : host),
    forward a100 (fun _ => F 0)
            (contiguous_tensor [1; 1; 2; 16] 0 0)
            (contiguous_tensor [1; 1; 1; 16] 0 1)
            (contiguous_tensor [1; 1; 1; 16] 0 2) true None host0
    = (h', inr (o, ctx))
    /\ ~ rejected (forward a100 (fun _ => F 0)
                     (contiguous_tensor [1; 1; 2; 16] 0 0)
                     (contiguous_tensor [1; 1; 1; 16] 0 1)
                     (contiguous_tensor [1; 1; 1; 16] 0 2) true None host0)
    /\ ctx_P_SEQ ctx = 1 - 2 /\ ctx_P_SEQ ctx < 0
    /\ trace h' = trace host0 ++
                  [EvSetDevice 0;
                   EvAlloc (t_storage o) [1; 1; 2; 16];
                   EvAlloc (t_storage (ctx_L ctx)) [1; 1; 2];
                   EvLaunch K_fwd (ctx_grid ctx);
                   EvSetDevice (current_device host0)].
Proof.
  apply (forward_negative_prefix_runs a100 (fun _ => F 0)
           (contiguous_tensor [1; 1; 2; 16] 0 0)
           (contiguous_tensor [1; 1; 1; 16] 0 1)
           (contiguous_tensor [1; 1; 1; 16] 0 2) None host0
           1 1 2 16 1 1 1 1 1 1
           (mkStrides 32 32 16 1) (mkStrides 16 16 16 1)
           (mkStrides 16 16 16 1));
    try reflexivity; simpl; lia.
Defined.

(** C6 as the spec states it fails: this causal call with [M = 2] and
    [N = 1] is not rejected. *)
Lemma forward_negative_prefix_counterexample :
  ~ rejected (forward a100 (fun _ => F 0)
                (contiguous_tensor [1; 1; 2; 16] 0 0)
                (contiguous_tensor [1; 1; 1; 16] 0 1)
                (contiguous_tensor [1; 1; 1; 16] 0 2) true None host0).
Proof.
  destruct (forward_runs a100 (fun _ => F 0)
              (contiguous_tensor [1; 1; 2; 16] 0 0)
              (contiguous_tensor [1; 1; 1; 16] 0 1)
              (contiguous_tensor [1; 1; 1; 16] 0 2) true None host0
              1 1 2 16 1 1 1 1 1 1
              (mkStrides 32 32 16 1) (mkStrides 16 16 16 1)
              (mkStrides 16 16 16 1))
    as (o & ctx & hp & E & _); try reflexivity; try (simpl; lia).
  rewrite E. intros (e & He). discriminate.
Qed.

(** ** Sums and maxima of finite values *)

Lemma fold_Rplus_acc (l : list R) (a : R) :
  (fold_left Rplus l a = a + fold_left Rplus l 0)%R.
Proof.
  revert a. induction l as [|x l IH]; intros a; simpl; [lra|].
  rewrite (IH (a + x)%R), (IH (0 + x)%R). lra.
Qed.

Lemma rsum_nil (f : Z -> R) : rsum f [] = 0%R.
Proof. reflexivity. Qed.

Lemma rsum_cons (f : Z -> R) (x : Z) (l : list Z) :
  rsum f (x :: l) = (f x + rsum f l)%R.
Proof. unfold rsum. simpl. rewrite fold_Rplus_acc. lra. Qed.

Lemma rsum_app (f : Z -> R) (l1 l2 : list Z) :
  rsum f (l1 ++ l2) = (rsum f l1 + rsum f l2)%R.
Proof.
  induction l1 as [|x l1 IH]; simpl.
  - rewrite rsum_nil. lra.
  - rewrite !rsum_cons, IH. lra.
Qed.

Lemma rsum_ext (f g : Z -> R) (l : list Z) :
  (forall x, In x l -> f x = g x) -> rsum f l = rsum g l.
Proof.
  induction l as [|x l IH]; intros E; [reflexivity|].
  rewrite !rsum_cons, (E x (or_introl eq_refl)), IH; [reflexivity|].
  intros y Hy. apply E. now right.
Qed.

Lemma rsum_map (f : Z -> R) (g : Z -> Z) (l : list Z) :
  rsum f (map g l) = rsum (fun x => f (g x)) l.
Proof. unfold rsum. now rewrite map_map. Qed.

Lemma rsum_scale (c : R) (f : Z -> R) (l : list Z) :
  rsum (fun x => c * f x)%R l = (c * rsum f l)%R.
Proof.
  induction l as [|x l IH]; [rewrite !rsum_nil; lra|].
  rewrite !rsum_cons, IH. lra.
Qed.

Lemma rsum_zero (f : Z -> R) (l : list Z) :
  (forall x, In x l -> f x = 0%R) -> rsum f l = 0%R.
Proof.
  induction l as [|x l IH]; intros E; [reflexivity|].
  rewrite rsum_cons, (E x (or_introl eq_refl)), IH; [lra|].
  intros y Hy. apply E. now right.
Qed.

Lemma rsum_nonneg (f : Z -> R) (l : list Z) :
  (forall x, In x l -> 0 <= f x)%R -> (0 <= rsum f l)%R.
Proof.
  induction l as [|x l IH]; intros E; [rewrite rsum_nil; lra|].
  rewrite rsum_cons.
  pose proof (E x (or_introl eq_refl)).
  assert (0 <= rsum f l)%R by (apply IH; intros y Hy; apply E; now right).
  lra.
Qed.

Lemma rsum_pos (f : Z -> R) (l : list Z) (x : Z) :
  (forall y, In y l -> 0 <= f y)%R -> In x l -> (0 < f x)%R ->
  (0 < rsum f l)%R.
Proof.
  induction l as [|y l IH]; intros E Hx Hp; [contradiction|].
  rewrite rsum_cons.
  assert (0 <= rsum f l)%R by (apply rsum_nonneg; intros z Hz; apply E; now right).
  destruct Hx as [->|Hx].
  - lra.
  - pose proof (E y (or_introl eq_refl)).
    assert (0 < rsum f l)%R by (apply IH; auto; intros z Hz; apply E; now right).
    lra.
Qed.

(** A sum over lanes whose only nonzero term sits on lane [x]. *)
Lemma rsum_single (f : Z -> R) (n x : Z) :
  0 <= x < n -> (forall y, 0 <= y < n -> y <> x -> f y = 0%R) ->
  rsum f (arange n) = f x.
Proof.
  intros Hx E.
  replace n with (x + (1 + (n - x - 1))) by lia.
  rewrite arange_app, rsum_app by lia.
  rewrite rsum_map.
  rewrite (arange_app 1 (n - x - 1)) by lia.
  rewrite rsum_app, rsum_map.
  rewrite (rsum_zero f (arange x)).
  2:{ intros y Hy. apply In_arange in Hy. apply E; lia. }
  rewrite (rsum_zero _ (arange (n - x - 1))).
  2:{ intros y Hy. apply In_arange in Hy. apply E; lia. }
  change (arange 1) with [0]. rewrite rsum_cons, rsum_nil.
  replace (x + 0) with x by lia. lra.
Qed.

(** Extending a sum by lanes on which the summand vanishes. *)
Lemma rsum_arange_extend (f : Z -> R) (a b : Z) :
  0 <= a <= b -> (forall n, a <= n < b -> f n = 0%R) ->
  rsum f (arange b) = rsum f (arange a).
Proof.
  intros Hab E. replace b with (a + (b - a)) by lia.
  rewrite arange_app, rsum_app, rsum_map by lia.
  rewrite (rsum_zero _ (arange (b - a))); [lra|].
  intros y Hy. apply In_arange in Hy. apply E. lia.
Qed.

Lemma fold_fadd_F (l : list R) (a : R) :
  fold_left fadd (map F l) (F a) = F (fold_left Rplus l a).
Proof.
  revert a. induction l as [|x l IH]; intros a; simpl; [reflexivity|].
  apply IH.
Qed.

Lemma fsum_F (f : Z -> R) (l : list Z) :
  fsum (map (fun n => F (f n)) l) = F (rsum f l).
Proof.
  unfold fsum, rsum. rewrite <- fold_fadd_F, map_map. reflexivity.
Qed.

Lemma fsum_F_in (g : Z -> fp) (f : Z -> R) (l : list Z) :
  (forall n, In n l -> g n = F (f n)) -> fsum (map g l) = F (rsum f l).
Proof.
  intros E. rewrite <- fsum_F. f_equal. now apply map_ext_in.
Qed.

Lemma fmax_lift (a b : option R) : fmax (lift a) (lift b) = lift (omax a b).
Proof. destruct a, b; reflexivity. Qed.

Lemma fold_fmax_lift (l : list (option R)) (a : option R) :
  fold_left fmax (map lift l) (lift a) = lift (fold_left omax l a).
Proof.
  revert a. induction l as [|x l IH]; intros a; simpl; [reflexivity|].
  rewrite fmax_lift. apply IH.
Qed.

Lemma fmax_list_lift (l : list (option R)) :
  fmax_list (map lift l) = lift (omax_list l).
Proof.
  destruct l as [|x l]; [reflexivity|].
  unfold fmax_list, omax_list. simpl. apply fold_fmax_lift.
Qed.

Lemma fold_omax_acc (l : list (option R)) (a : option R) :
  fold_left omax l a = omax a (fold_left omax l None).
Proof.
  revert a. induction l as [|x l IH]; intros a; simpl.
  - destruct a; reflexivity.
  - rewrite (IH (omax a x)), (IH x).
    destruct a as [a|], x as [x|], (fold_left omax l None) as [y|]; simpl;
      try reflexivity.
    f_equal. unfold Rmax.
    repeat (destruct (Rle_dec _ _)); lra.
Qed.

Lemma omax_list_app (l1 l2 : list (option R)) :
  omax_list (l1 ++ l2) = omax (omax_list l1) (omax_list l2).
Proof.
  unfold omax_list. rewrite fold_left_app. apply fold_omax_acc.
Qed.

(** Every entry is below the maximum. *)
Lemma omax_list_ge (l : list (option R)) (mu x : R) :
  omax_list l = Some mu -> In (Some x) l -> (x <= mu)%R.
Proof.
  revert mu. induction l as [|y l IH] using rev_ind; intros mu E Hin;
    [contradiction|].
  rewrite omax_list_app in E. apply in_app_or in Hin.
  unfold omax_list at 2 in E. simpl in E.
  destruct (omax_list l) as [m|] eqn:El, y as [y|]; simpl in E;
    inversion E; subst; clear E.
  - destruct Hin as [Hin|[Hin|[]]].
    + pose proof (IH m eq_refl Hin). pose proof (Rmax_l m y). lra.
    + inversion Hin; subst. apply Rmax_r.
  - destruct Hin as [Hin|[Hin|[]]]; [now apply IH | discriminate].
  - destruct Hin as [Hin|[Hin|[]]].
    + exfalso. clear IH. induction l as [|z l IHl] using rev_ind;
        [contradiction|].
      rewrite omax_list_app in El. unfold omax_list at 2 in El. simpl in El.
      apply in_app_or in Hin.
      destruct (omax_list l), z; simpl in El; try discriminate.
      destruct Hin as [Hin|[Hin|[]]]; [now apply IHl | discriminate].
    + inversion Hin; subst. lra.
Qed.

Lemma omax_list_none (l : list (option R)) :
  omax_list l = None <-> forall x, In x l -> x = None.
Proof.
  induction l as [|y l IH] using rev_ind.
  - split; [intros _ x []|reflexivity].
  - rewrite omax_list_app. unfold omax_list at 2. simpl. split.
    + intros E x Hx. apply in_app_or in Hx.
      destruct (omax_list l), y; simpl in E; try discriminate.
      destruct Hx as [Hx|[<-|[]]]; [|reflexivity]. now apply IH.
    + intros E. rewrite (proj2 IH).
      * rewrite (E y); [reflexivity|]. apply in_or_app. right. now left.
      * intros x Hx. apply E. apply in_or_app. now left.
Qed.

(** ** One step of the streaming softmax *)

Lemma ln2_pos : (0 < ln 2)%R.
Proof. rewrite <- ln_1. apply ln_increasing; lra. Qed.

Section StreamingStep.
Variable scale : R.
Hypothesis scale_pos : (0 < scale)%R.

(** [qk_scale = sm_scale * log2e] *)
Local Abbreviation c := (fmul (F scale) log2e).

Lemma qk_scale_pos : (0 < scale * (1 / ln 2))%R.
Proof.
  pose proof ln2_pos. apply Rmult_lt_0_compat; [assumption|].
  apply Rdiv_lt_0_compat; lra.
Qed.

(** [p = exp2(s * qk_scale - m_new * qk_scale)] *)
Lemma p_finite (s : option R) (mu : R) :
  fexp2 (fsub (fmul (lift s) c) (fmul (F mu) c)) = F (ew scale mu s).
Proof.
  pose proof ln2_pos. pose proof qk_scale_pos.
  destruct s as [x|]; simpl.
  - f_equal. f_equal. field. lra.
  - unfold inf_times.
    destruct (Rlt_dec 0 (scale * (1 / ln 2))); [reflexivity|contradiction].
Qed.

(** [alpha = exp2((m - m_new) * qk_scale)] *)
Lemma alpha_finite (m : option R) (mu : R) :
  fexp2 (fmul (fsub (lift m) (F mu)) c) = F (ew scale mu m).
Proof.
  pose proof ln2_pos. pose proof qk_scale_pos.
  destruct m as [x|]; simpl.
  - f_equal. f_equal. field. lra.
  - unfold inf_times.
    destruct (Rlt_dec 0 (scale * (1 / ln 2))); [reflexivity|contradiction].
Qed.

Variable sl : Z -> option R.

(** Moving the reference maximum of a sum of weights from the running
    maximum to a new one is a multiplication by [alpha]. *)
Lemma ew_rebase (g : Z -> R) (cols : list Z) (mu : R) :
  rsum (fun n => ew scale mu (sl n) * g n)%R cols
  = (rsum (fun n => ew scale (odefault (omax_list (map sl cols))) (sl n)
                    * g n)%R cols
     * ew scale mu (omax_list (map sl cols)))%R.
Proof.
  destruct (omax_list (map sl cols)) as [m0|] eqn:E; simpl.
  - rewrite Rmult_comm, <- rsum_scale. apply rsum_ext. intros n _.
    destruct (sl n) as [x|]; simpl; [|lra].
    rewrite <- Rmult_assoc, <- exp_plus. f_equal. f_equal. lra.
  - rewrite Rmult_0_r. apply rsum_zero. intros n Hn.
    rewrite (proj1 (omax_list_none _) E (sl n)); [simpl; lra|].
    now apply in_map.
Qed.

Variables (cols tile : list Z) (mu : R).
Hypothesis max_new : omax_list (map sl (cols ++ tile)) = Some mu.

Local Abbreviation m_old := (lift (omax_list (map sl cols))).
Local Abbreviation mu_old := (odefault (omax_list (map sl cols))).
Local Abbreviation m_new :=
  (fmax m_old (fmax_list (map (fun n => lift (sl n)) tile))).

Lemma step_max : m_new = F mu.
Proof.
  rewrite <- (map_map sl lift), fmax_list_lift, fmax_lift.
  rewrite <- omax_list_app, <- map_app, max_new. reflexivity.
Qed.

Lemma step_sum :
  fadd (fmul (F (rsum (fun n => ew scale mu_old (sl n)) cols))
             (fexp2 (fmul (fsub m_old m_new) c)))
       (fsum (map (fun n => fexp2 (fsub (fmul (lift (sl n)) c)
                                        (fmul m_new c))) tile))
  = F (rsum (fun n => ew scale mu (sl n)) (cols ++ tile)).
Proof.
  rewrite step_max, alpha_finite.
  rewrite (fsum_F_in _ (fun n => ew scale mu (sl n)))
    by (intros n _; apply p_finite).
  simpl. f_equal. rewrite rsum_app. f_equal.
  pose proof (ew_rebase (fun _ => 1%R) cols mu) as E.
  rewrite (rsum_ext _ (fun n => ew scale mu (sl n))) in E
    by (intros; lra).
  rewrite E. f_equal. apply rsum_ext. intros; lra.
Qed.

Lemma step_acc (g : Z -> R) :
  fadd (fmul (F (rsum (fun n => ew scale mu_old (sl n) * g n)%R cols))
             (fexp2 (fmul (fsub m_old m_new) c)))
       (fsum (map (fun n =>
                     fmul (fexp2 (fsub (fmul (lift (sl n)) c)
                                       (fmul m_new c)))
                          (F (g n))) tile))
  = F (rsum (fun n => ew scale mu (sl n) * g n)%R (cols ++ tile)).
Proof.
  rewrite step_max, alpha_finite.
  rewrite (fsum_F_in _ (fun n => ew scale mu (sl n) * g n)%R)
    by (intros n _; rewrite p_finite; reflexivity).
  simpl. f_equal. rewrite rsum_app. f_equal.
  symmetry. apply ew_rebase.
Qed.

End StreamingStep.

(** ** The loop of [_fwd_kernel], row by row *)

(** The streaming step in the shape the kernel has it: the tile holds the
    columns [c0 .. c0 + BN - 1] on its lanes. *)
Lemma tile_step (scale : R) (sl : Z -> option R) (c0 BN : Z) (mu : R)
    (sfun : Z -> fp) (m l : fp) :
  (0 < scale)%R -> 0 <= c0 -> 0 <= BN ->
  omax_list (map sl (arange (c0 + BN))) = Some mu ->
  m = lift (omax_list (map sl (arange c0))) ->
  l = F (rsum (fun n => ew scale (odefault (omax_list (map sl (arange c0))))
                           (sl n)) (arange c0)) ->
  (forall j, 0 <= j < BN -> sfun j = lift (sl (c0 + j))) ->
  let c := fmul (F scale) log2e in
  let m' := fmax m (fmax_list (map sfun (arange BN))) in
  let alpha := fexp2 (fmul (fsub m m') c) in
  let p := fun j => fexp2 (fsub (fmul (sfun j) c) (fmul m' c)) in
  m' = F mu
  /\ fadd (fmul l alpha) (fsum (map p (arange BN)))
     = F (rsum (fun n => ew scale mu (sl n)) (arange (c0 + BN)))
  /\ forall (a : fp) (vfun : Z -> fp) (g : Z -> R),
       a = F (rsum (fun n => ew scale
                               (odefault (omax_list (map sl (arange c0))))
                               (sl n) * g n)%R (arange c0)) ->
       (forall j, 0 <= j < BN -> vfun j = F (g (c0 + j))) ->
       fadd (fmul a alpha)
            (fsum (map (fun j => fmul (to_dtype (p j)) (vfun j)) (arange BN)))
       = F (rsum (fun n => ew scale mu (sl n) * g n)%R (arange (c0 + BN))).
Proof.
  intros Hs Hc0 HBN Hmax -> -> Hsf c m' alpha p.
  set (tile := map (fun j => c0 + j) (arange BN)).
  assert (Happ : arange (c0 + BN) = arange c0 ++ tile)
    by (apply arange_app; assumption).
  rewrite Happ in Hmax |- *.
  assert (Hm : map sfun (arange BN) = map (fun n => lift (sl n)) tile).
  { unfold tile. rewrite map_map. apply map_ext_in.
    intros j Hj. apply Hsf. now apply In_arange. }
  assert (Em : m' = F mu).
  { unfold m'. rewrite Hm. now apply step_max. }
  split; [exact Em|]. split.
  - unfold alpha, p, c. rewrite Em, alpha_finite by assumption.
    rewrite (fsum_F_in _ (fun j => ew scale mu (sl (c0 + j)))).
    2:{ intros j Hj. apply In_arange in Hj. rewrite Hsf by assumption.
        now apply p_finite. }
    simpl. f_equal. unfold tile. rewrite rsum_app, rsum_map. f_equal.
    pose proof (ew_rebase scale sl (fun _ => 1%R) (arange c0) mu) as E.
    rewrite (rsum_ext _ (fun n => ew scale mu (sl n))) in E
      by (intros; lra).
    rewrite E. f_equal. apply rsum_ext. intros; lra.
  - intros a vfun g -> Hv.
    unfold alpha, p, c, to_dtype. rewrite Em, alpha_finite by assumption.
    rewrite (fsum_F_in _ (fun j => (ew scale mu (sl (c0 + j)%Z)
                                    * g (c0 + j)%Z)%R)).
    2:{ intros j Hj. apply In_arange in Hj.
        rewrite Hsf, Hv, p_finite by assumption. reflexivity. }
    simpl. f_equal. unfold tile. rewrite rsum_app, rsum_map. f_equal.
    symmetry. apply ew_rebase.
Qed.

Lemma fold_omax_some_in (l : list (option R)) (a : option R) (mu : R) :
  fold_left omax l a = Some mu -> a <> None \/ exists y, In (Some y) l.
Proof.
  revert a. induction l as [|x l IH]; intros a E; simpl in E.
  - left. now rewrite E.
  - destruct (IH _ E) as [Hn|(y & Hy)].
    + destruct a as [a|]; [left; discriminate|].
      destruct x as [x|]; [|contradiction].
      right. exists x. now left.
    + right. exists y. now right.
Qed.

Lemma omax_list_some_in (l : list (option R)) (mu : R) :
  omax_list l = Some mu -> exists y, In (Some y) l.
Proof.
  intros E. destruct (fold_omax_some_in l None mu E) as [Hn|H]; [|exact H].
  contradiction.
Qed.

Section FwdLoop.
Variables (Qr Kr Vr : Z -> R) (sm_scale : R).
Variables (sq sk sv : strides).
Variables (N_CTX P_SEQ BLOCK_M BLOCK_DMODEL BLOCK_N : Z).
Variables (IS_CAUSAL DIVISIBLE_M DIVISIBLE_N : bool).
Variables (start_m off_h off_z : Z).

Local Abbreviation Q := (finite_mem Qr).
Local Abbreviation K := (finite_mem Kr).
Local Abbreviation V := (finite_mem Vr).
Local Abbreviation body :=
  (fwd_body Q K V sm_scale sq sk sv N_CTX P_SEQ BLOCK_M BLOCK_DMODEL BLOCK_N
            IS_CAUSAL DIVISIBLE_M DIVISIBLE_N start_m off_h off_z).
Local Abbreviation init := (fwd_init sk sv off_h off_z).
Local Abbreviation mask_n := (fwd_mask_n N_CTX P_SEQ BLOCK_N DIVISIBLE_N).
Local Abbreviation row_logit :=
  (fwd_row_logit Qr Kr sq sk sv BLOCK_M BLOCK_DMODEL BLOCK_N
                 start_m off_h off_z).
Local Abbreviation row_s :=
  (fwd_row_s Qr Kr sq sk sv N_CTX P_SEQ BLOCK_M BLOCK_DMODEL BLOCK_N
             IS_CAUSAL DIVISIBLE_N start_m off_h off_z).
Local Abbreviation row_v :=
  (fwd_row_v Vr sk sv N_CTX P_SEQ BLOCK_N DIVISIBLE_N off_h off_z).
Local Abbreviation row_max :=
  (fwd_row_max Qr Kr sq sk sv N_CTX P_SEQ BLOCK_M BLOCK_DMODEL BLOCK_N
               IS_CAUSAL DIVISIBLE_N start_m off_h off_z).
Local Abbreviation row_sum :=
  (fwd_row_sum Qr Kr sm_scale sq sk sv N_CTX P_SEQ BLOCK_M BLOCK_DMODEL
               BLOCK_N IS_CAUSAL DIVISIBLE_N start_m off_h off_z).
Local Abbreviation row_acc :=
  (fwd_row_acc Qr Kr Vr sm_scale sq sk sv N_CTX P_SEQ BLOCK_M BLOCK_DMODEL
               BLOCK_N IS_CAUSAL DIVISIBLE_N start_m off_h off_z).

Hypothesis scale_pos : (0 < sm_scale)%R.
Hypothesis BLOCK_N_pos : 0 < BLOCK_N.

(** A lane whose query row is loaded. *)
Variable i : Z.
Hypothesis row_loaded :
  lane_ok (fwd_mask_m N_CTX BLOCK_M DIVISIBLE_M start_m) i = true.

(** The "Dot I trick" leaves the query row as it was loaded. *)
Lemma fwd_q_row (d : Z) :
  0 <= d < BLOCK_DMODEL ->
  fwd_q Q sq N_CTX BLOCK_M BLOCK_DMODEL DIVISIBLE_M start_m off_h off_z i d
  = F (Qr (fwd_q_ptrs sq BLOCK_M start_m off_h off_z i d)).
Proof.
  intros Hd. unfold fwd_q. destruct (BLOCK_DMODEL <? 128).
  - unfold to_dtype, tl_dot.
    rewrite (fsum_F_in _
               (fun k => (Qr (fwd_q_ptrs sq BLOCK_M start_m off_h off_z i k)
                          * (if k =? d then 1 else 0))%R)).
    + f_equal. rewrite (rsum_single _ BLOCK_DMODEL d Hd).
      * rewrite Z.eqb_refl. lra.
      * intros y _ Hne. destruct (Z.eqb_spec y d); [contradiction|lra].
    + intros k _. unfold fwd_q_loaded, tl_load, fwd_I, tl_where, finite_mem.
      rewrite row_loaded. destruct (k =? d); reflexivity.
  - unfold fwd_q_loaded, tl_load. now rewrite row_loaded.
Qed.

Local Abbreviation ptrs_at := (fwd_ptrs_at sk sv BLOCK_N off_h off_z).
Local Abbreviation row_inv :=
  (fwd_row_inv Qr Kr Vr sm_scale sq sk sv N_CTX P_SEQ BLOCK_M BLOCK_DMODEL
               BLOCK_N IS_CAUSAL DIVISIBLE_N start_m off_h off_z).

Lemma tile_div_mod (t j : Z) :
  0 <= j < BLOCK_N ->
  (t * BLOCK_N + j) / BLOCK_N = t /\ (t * BLOCK_N + j) mod BLOCK_N = j.
Proof.
  intros Hj. split.
  - rewrite Z.add_comm, Z.div_add by lia. rewrite Z.div_small; lia.
  - rewrite Z.add_comm, Z.mod_add by lia. apply Z.mod_small; lia.
Qed.

(** The masked logits of the tile that starts at [t * BLOCK_N]. *)
Lemma fwd_s_row (st : fwd_state) (t j : Z) :
  ptrs_at t st -> 0 <= j < BLOCK_N ->
  fwd_s Q K sq N_CTX P_SEQ BLOCK_M BLOCK_DMODEL BLOCK_N IS_CAUSAL DIVISIBLE_M
        DIVISIBLE_N start_m off_h off_z st (t * BLOCK_N) i j
  = lift (row_s i (t * BLOCK_N + j)).
Proof.
  intros [Hk _] Hj. destruct (tile_div_mod t j Hj) as [Ed Em].
  unfold fwd_row_s, fwd_col_unmasked, fwd_col_loaded. rewrite Ed, Em.
  assert (Hdot : lane_ok (mask_n (t * BLOCK_N)) j = true ->
    fadd (F 0)
      (tl_dot BLOCK_DMODEL
         (fwd_q Q sq N_CTX BLOCK_M BLOCK_DMODEL DIVISIBLE_M start_m
                off_h off_z)
         (fun d j => tl_load K (k_ptrs st d j)
                             (lane_ok (mask_n (t * BLOCK_N)) j)) i j)
    = F (row_logit i (t * BLOCK_N + j))).
  { intros Hok. rewrite fadd_0_l. unfold tl_dot, fwd_row_logit.
    apply fsum_F_in. intros d Hd. apply In_arange in Hd.
    rewrite fwd_q_row by assumption. rewrite Hok, Hk.
    unfold tl_load, finite_mem, fwd_k_addr. rewrite Ed, Em. reflexivity. }
  unfold fwd_s. cbv zeta.
  destruct (mask_n (t * BLOCK_N)) as [f|] eqn:Emask; cbn [lane_ok] in *.
  - destruct IS_CAUSAL; unfold tl_where.
    + destruct (f j) eqn:Ef; cbv iota; cbn [andb].
      * destruct (fwd_causal_mask _ _ _ _ _ _); [|reflexivity].
        exact (Hdot eq_refl).
      * destruct (fwd_causal_mask _ _ _ _ _ _); reflexivity.
    + destruct (f j) eqn:Ef; cbv iota; cbn [andb]; [|reflexivity].
      exact (Hdot eq_refl).
  - destruct IS_CAUSAL; unfold tl_where; cbn [andb].
    + destruct (fwd_causal_mask _ _ _ _ _ _); [|reflexivity].
      exact (Hdot eq_refl).
    + exact (Hdot eq_refl).
Qed.

(** The values of the tile that starts at [t * BLOCK_N]. *)
Lemma fwd_v_row (st : fwd_state) (t j d : Z) :
  ptrs_at t st -> 0 <= j < BLOCK_N ->
  tl_load V (v_ptrs st j d) (lane_ok (mask_n (t * BLOCK_N)) j)
  = F (row_v (t * BLOCK_N + j) d).
Proof.
  intros [_ Hv] Hj. destruct (tile_div_mod t j Hj) as [Ed Em].
  unfold fwd_row_v, fwd_col_loaded. rewrite Ed, Em.
  destruct (lane_ok _ j); [|reflexivity].
  unfold tl_load, finite_mem, fwd_v_addr. rewrite Hv, Ed, Em. reflexivity.
Qed.


(** One iteration keeps the invariant, as long as some column seen so far
    is unmasked for the row. *)
Lemma fwd_body_row (st : fwd_state) (t : Z) (mu : R) :
  0 <= t -> ptrs_at t st -> row_inv i (t * BLOCK_N) st ->
  row_max i (t * BLOCK_N + BLOCK_N) = Some mu ->
  ptrs_at (t + 1) (body st (t * BLOCK_N))
  /\ row_inv i (t * BLOCK_N + BLOCK_N) (body st (t * BLOCK_N)).
Proof.
  intros Ht Hp (Hm & Hl & Ha) Hmax.
  pose proof (tile_step sm_scale (row_s i) (t * BLOCK_N) BLOCK_N mu
                (fwd_s Q K sq N_CTX P_SEQ BLOCK_M BLOCK_DMODEL BLOCK_N
                       IS_CAUSAL DIVISIBLE_M DIVISIBLE_N start_m off_h off_z
                       st (t * BLOCK_N) i)
                (m_i st i) (l_i st i) scale_pos ltac:(nia) ltac:(lia)
                Hmax Hm Hl (fun j Hj => fwd_s_row st t j Hp Hj))
    as (Em & Es & Eacc).
  split.
  - destruct Hp as [Hk Hv]. unfold fwd_ptrs_at, fwd_body.
    cbn [k_ptrs v_ptrs]. rewrite Hk, Hv.
    split; extensionality a; extensionality b; lia.
  - unfold fwd_row_inv, fwd_row_sum, fwd_row_acc. rewrite Hmax.
    cbn [odefault]. unfold fwd_body. cbn [m_i l_i acc].
    split; [exact Em|]. split; [exact Es|].
    intros d. apply (Eacc _ _ (fun n => row_v n d)); [apply Ha|].
    intros j Hj. now apply fwd_v_row.
Qed.

Lemma row_max_grows (c c' : Z) :
  0 <= c <= c' -> row_max i c <> None -> row_max i c' <> None.
Proof.
  intros Hc Hn. unfold fwd_row_max in *.
  replace c' with (c + (c' - c)) by lia.
  rewrite arange_app, map_app, omax_list_app by lia.
  destruct (omax_list (map (row_s i) (arange c))); [|contradiction].
  simpl. destruct (omax_list _); discriminate.
Qed.

(** The loop after [t] iterations. *)
Lemma fwd_loop_row (t : nat) :
  row_max i BLOCK_N <> None ->
  ptrs_at (Z.of_nat t)
          (fold_left body (tile_starts BLOCK_N (Z.of_nat t)) init)
  /\ row_inv i (Z.of_nat t * BLOCK_N)
             (fold_left body (tile_starts BLOCK_N (Z.of_nat t)) init).
Proof.
  intros Hfirst. induction t as [|t IH].
  - simpl. split.
    + split; extensionality a; extensionality b; simpl; lia.
    + repeat split.
  - replace (Z.of_nat (S t)) with (Z.of_nat t + 1) by lia.
    unfold tile_starts. rewrite arange_succ by lia.
    rewrite map_app, fold_left_app.
    fold (tile_starts BLOCK_N (Z.of_nat t)).
    cbn [map fold_left]. rewrite Z.add_0_l.
    destruct IH as [Hp Hi].
    destruct (row_max i (Z.of_nat t * BLOCK_N + BLOCK_N)) as [mu|] eqn:E.
    + replace ((Z.of_nat t + 1) * BLOCK_N)
        with (Z.of_nat t * BLOCK_N + BLOCK_N) by lia.
      apply (fwd_body_row _ _ mu); auto. lia.
    + exfalso. revert E. apply (row_max_grows BLOCK_N); [nia|assumption].
Qed.

(** What one instance computes for a loaded row, in terms of what its loop
    reads: if the loop runs at least once and some column of the first tile
    is unmasked for the row, the running maximum is the maximum [mu] of the
    unmasked logits of all visited columns, the running sum is the sum of
    their weights [exp((s - mu) * sm_scale)], and the values written back
    are the weighted mean of the values and [mu * sm_scale + ln(sum)]. *)
Lemma fwd_row_result :
  let T := cdiv (fwd_hi N_CTX P_SEQ BLOCK_M IS_CAUSAL start_m) BLOCK_N in
  let loop := fwd_loop Q K V sm_scale sq sk sv N_CTX P_SEQ BLOCK_M
                       BLOCK_DMODEL BLOCK_N IS_CAUSAL DIVISIBLE_M
                       DIVISIBLE_N start_m off_h off_z in
  0 < T -> row_max i BLOCK_N <> None ->
  exists mu,
    row_max i (T * BLOCK_N) = Some mu
    /\ (0 < row_sum i (T * BLOCK_N))%R
    /\ m_i loop i = F mu
    /\ l_i loop i = F (row_sum i (T * BLOCK_N))
    /\ (forall d,
          fwd_acc_out Q K V sm_scale sq sk sv N_CTX P_SEQ BLOCK_M
                      BLOCK_DMODEL BLOCK_N IS_CAUSAL DIVISIBLE_M DIVISIBLE_N
                      start_m off_h off_z i d
          = F (row_acc i (T * BLOCK_N) d / row_sum i (T * BLOCK_N)))
    /\ fwd_l_out Q K V sm_scale sq sk sv N_CTX P_SEQ BLOCK_M
                 BLOCK_DMODEL BLOCK_N IS_CAUSAL DIVISIBLE_M DIVISIBLE_N
                 start_m off_h off_z i
       = F (mu * sm_scale + ln (row_sum i (T * BLOCK_N))).
Proof.
  intros T loop HT Hfirst.
  destruct (fwd_loop_row (Z.to_nat T) Hfirst) as [_ (Hm & Hl & Ha)].
  rewrite Z2Nat.id in Hm, Hl, Ha by lia.
  assert (Eloop : loop = fold_left body (tile_starts BLOCK_N T) init).
  { unfold loop, fwd_loop, py_range, tile_starts. now rewrite Z.sub_0_r. }
  rewrite <- Eloop in Hm, Hl, Ha.
  destruct (row_max i (T * BLOCK_N)) as [mu|] eqn:E.
  2:{ exfalso. revert E. apply (row_max_grows BLOCK_N); [nia|assumption]. }
  assert (Hpos : (0 < row_sum i (T * BLOCK_N))%R).
  { unfold fwd_row_sum. fold row_max. rewrite E. cbn [odefault].
    destruct (omax_list_some_in _ _ E) as (y & Hy).
    apply in_map_iff in Hy as (x & Hx & Hin).
    apply (rsum_pos _ _ x); [|assumption|].
    - intros n _. destruct (row_s i n); simpl; [|lra].
      left. apply exp_pos.
    - rewrite Hx. simpl. apply exp_pos. }
  exists mu. split; [reflexivity|]. split; [exact Hpos|].
  split; [exact Hm|]. split; [exact Hl|]. split.
  - intros d. unfold fwd_acc_out. fold loop. rewrite Ha, Hl.
    unfold frecip. destruct (Req_dec_T _ 0) as [E0|_]; [lra|].
    simpl. f_equal. field. lra.
  - unfold fwd_l_out. fold loop. rewrite Hm, Hl.
    unfold flog. destruct (Rlt_dec 0 _); [|contradiction]. reflexivity.
Qed.

End FwdLoop.

(** ** [_fwd_kernel] against the reference, when K and V share their strides *)

Lemma cdiv_mul_ge (x y : Z) : 0 < y -> x <= cdiv x y * y.
Proof.
  intros Hy. unfold cdiv.
  pose proof (Z.div_mod (x + y - 1) y ltac:(lia)) as E.
  pose proof (Z.mod_pos_bound (x + y - 1) y Hy) as Hb. nia.
Qed.

Lemma cdiv_divisible (x y : Z) : 0 < y -> x mod y = 0 -> cdiv x y * y = x.
Proof.
  intros Hy E. apply Z.mod_divide in E; [|lia]. destruct E as [q ->].
  unfold cdiv. replace (q * y + y - 1) with ((y - 1) + q * y) by lia.
  rewrite Z.div_add by lia. rewrite Z.div_small by lia. lia.
Qed.

Section FwdReference.
Variables (Qr Kr Vr : Z -> R) (sm_scale : R).
Variables (sq sk sv : strides).
Variables (M N BLOCK_M BLOCK_DMODEL BLOCK_N : Z).
Variables (causal : bool).
Variables (start_m off_h off_z : Z).

(** The launcher's arguments: [N_CTX = M], [P_SEQ = N - M] and the two
    divisibility flags. *)
Local Abbreviation P_SEQ := (N - M).
Local Abbreviation DIVISIBLE_M := (M mod BLOCK_M =? 0).
Local Abbreviation DIVISIBLE_N := (N mod BLOCK_N =? 0).
Local Abbreviation Q := (finite_mem Qr).
Local Abbreviation K := (finite_mem Kr).
Local Abbreviation V := (finite_mem Vr).
Local Abbreviation hi := (fwd_hi M P_SEQ BLOCK_M causal start_m).
Local Abbreviation T := (cdiv hi BLOCK_N).
Local Abbreviation row_s :=
  (fwd_row_s Qr Kr sq sk sv M P_SEQ BLOCK_M BLOCK_DMODEL BLOCK_N
             causal DIVISIBLE_N start_m off_h off_z).
Local Abbreviation row_v :=
  (fwd_row_v Vr sk sv M P_SEQ BLOCK_N DIVISIBLE_N off_h off_z).
Local Abbreviation row_max :=
  (fwd_row_max Qr Kr sq sk sv M P_SEQ BLOCK_M BLOCK_DMODEL BLOCK_N
               causal DIVISIBLE_N start_m off_h off_z).
Local Abbreviation row_sum :=
  (fwd_row_sum Qr Kr sm_scale sq sk sv M P_SEQ BLOCK_M BLOCK_DMODEL
               BLOCK_N causal DIVISIBLE_N start_m off_h off_z).
Local Abbreviation row_acc :=
  (fwd_row_acc Qr Kr Vr sm_scale sq sk sv M P_SEQ BLOCK_M BLOCK_DMODEL
               BLOCK_N causal DIVISIBLE_N start_m off_h off_z).
Local Abbreviation w :=
  (weight Qr Kr sq sk sm_scale causal M N BLOCK_DMODEL off_z off_h).

Hypothesis scale_pos : (0 < sm_scale)%R.
Hypothesis BLOCK_M_pos : 0 < BLOCK_M.
Hypothesis BLOCK_N_pos : 0 < BLOCK_N.
Hypothesis prefix_nonneg : M <= N.
Hypothesis same_row_stride : s2 sk = s2 sv.
Hypothesis same_col_stride : s3 sk = s3 sv.

(** The row [m = start_m * BLOCK_M + i] of the instance is a row of q. *)
Variable i : Z.
Hypothesis tile_nonneg : 0 <= start_m.
Hypothesis lane : 0 <= i < BLOCK_M.
Hypothesis row_in_range : start_m * BLOCK_M + i < M.
Local Abbreviation m := (start_m * BLOCK_M + i).

Lemma ref_row_loaded :
  lane_ok (fwd_mask_m M BLOCK_M DIVISIBLE_M start_m) i = true.
Proof.
  unfold fwd_mask_m, fwd_offs_m.
  destruct (negb DIVISIBLE_M); [|reflexivity].
  destruct (_ >? _); [|reflexivity]. simpl. apply Z.ltb_lt. lia.
Qed.

Lemma ref_q_ptr (d : Z) :
  fwd_q_ptrs sq BLOCK_M start_m off_h off_z i d = offset4 sq off_z off_h m d.
Proof. unfold fwd_q_ptrs, fwd_Q_base, fwd_offs_m, offset4. lia. Qed.

Lemma ref_k_addr (n d : Z) :
  fwd_k_addr sk sv BLOCK_N off_h off_z n d = offset4 sk off_z off_h n d.
Proof.
  unfold fwd_k_addr, fwd_k_ptrs_init, fwd_K_base, offset4.
  rewrite <- same_row_stride, <- same_col_stride.
  pose proof (Z.div_mod n BLOCK_N ltac:(lia)). nia.
Qed.

Lemma ref_v_addr (n d : Z) :
  fwd_v_addr sk sv BLOCK_N off_h off_z n d = offset4 sv off_z off_h n d.
Proof.
  unfold fwd_v_addr, fwd_v_ptrs_init, fwd_V_base, offset4.
  rewrite same_row_stride, same_col_stride.
  pose proof (Z.div_mod n BLOCK_N ltac:(lia)). nia.
Qed.

Lemma ref_logit (n : Z) :
  fwd_row_logit Qr Kr sq sk sv BLOCK_M BLOCK_DMODEL BLOCK_N
                start_m off_h off_z i n
  = logit Qr Kr sq sk BLOCK_DMODEL off_z off_h m n.
Proof.
  unfold fwd_row_logit, logit. apply rsum_ext. intros d _.
  now rewrite ref_q_ptr, ref_k_addr.
Qed.

Lemma ref_hi_bounds : 0 < T /\ hi <= T * BLOCK_N /\ (causal = false -> T * BLOCK_N < N + BLOCK_N).
Proof.
  assert (Hhi : 0 < hi).
  { unfold fwd_hi. destruct causal; nia. }
  split; [apply cdiv_gt; lia|].
  split; [now apply cdiv_mul_ge|].
  intros ->. unfold fwd_hi, cdiv.
  pose proof (Z.div_mod (M + (N - M) + BLOCK_N - 1) BLOCK_N ltac:(lia)) as E.
  pose proof (Z.mod_pos_bound (M + (N - M) + BLOCK_N - 1) BLOCK_N BLOCK_N_pos).
  nia.
Qed.

(** A visited column is loaded exactly when it is a column of k. *)
Lemma ref_col_loaded (n : Z) :
  0 <= n -> (N mod BLOCK_N = 0 -> n < N) ->
  fwd_col_loaded M P_SEQ BLOCK_N DIVISIBLE_N n = (n <? N).
Proof.
  intros Hn Hdiv. unfold fwd_col_loaded, fwd_mask_n.
  pose proof (Z.div_mod n BLOCK_N ltac:(lia)) as E.
  pose proof (Z.mod_pos_bound n BLOCK_N BLOCK_N_pos) as Hb.
  destruct (Z.eqb_spec (N mod BLOCK_N) 0) as [E0|E0]; simpl.
  - symmetry. apply Z.ltb_lt. auto.
  - destruct (Z.gtb_spec (n / BLOCK_N * BLOCK_N + BLOCK_N) (M + (N - M)));
      simpl.
    + f_equal; lia.
    + symmetry. apply Z.ltb_lt. nia.
Qed.

(** The logit of a visited column survives exactly when the column is a
    column of k that the causal mask lets the row see. *)
Lemma ref_col_unmasked (n : Z) :
  0 <= n < T * BLOCK_N ->
  fwd_col_unmasked M P_SEQ BLOCK_M BLOCK_N causal DIVISIBLE_N start_m i n
  = (n <? N) && visible causal M N m n.
Proof.
  intros Hn. unfold fwd_col_unmasked, visible.
  destruct ref_hi_bounds as (_ & _ & Hnc).
  pose proof (Z.div_mod n BLOCK_N ltac:(lia)) as E.
  destruct causal.
  - unfold fwd_causal_mask, fwd_offs_m.
    replace (n / BLOCK_N * BLOCK_N + n mod BLOCK_N) with n by lia.
    rewrite Z.geb_leb.
    destruct (Z.leb_spec n (N - M + m)) as [Hv|Hv].
    + rewrite !andb_true_r. apply ref_col_loaded; lia.
    + now rewrite !andb_false_r.
  - rewrite !andb_true_r. apply ref_col_loaded; [lia|].
    intros E0. specialize (Hnc eq_refl).
    assert (cdiv (fwd_hi M P_SEQ BLOCK_M false start_m) BLOCK_N * BLOCK_N
            = N); [|lia].
    unfold fwd_hi. replace (M + (N - M)) with N by lia.
    now apply cdiv_divisible.
Qed.


Lemma ref_row_s (n : Z) :
  0 <= n < T * BLOCK_N ->
  row_s i n = if (n <? N) && visible causal M N m n
              then Some (logit Qr Kr sq sk BLOCK_DMODEL off_z off_h m n)
              else None.
Proof.
  intros Hn. unfold fwd_row_s. now rewrite ref_col_unmasked, ref_logit.
Qed.

Lemma ref_first_unmasked : row_max i BLOCK_N <> None.
Proof.
  destruct ref_hi_bounds as (HT & _ & _).
  assert (E0 : row_s i 0
               = Some (logit Qr Kr sq sk BLOCK_DMODEL off_z off_h m 0)).
  { rewrite ref_row_s by nia.
    replace (0 <? N) with true by (symmetry; apply Z.ltb_lt; nia).
    unfold visible. destruct causal; [|reflexivity].
    replace (0 <=? N - M + m) with true; [reflexivity|].
    symmetry. apply Z.leb_le. nia. }
  intros Hnone. unfold fwd_row_max in Hnone.
  pose proof (proj1 (omax_list_none _) Hnone (row_s i 0)) as Hc.
  rewrite E0 in Hc. discriminate Hc.
  rewrite <- E0. apply in_map. apply In_arange. lia.
Qed.

(** The weight of column [n] in the sum over all visited columns. *)
Local Abbreviation W := (fun n => if n <? N then w m n else 0%R).

Lemma ref_ew (mu : R) (n : Z) :
  0 <= n < T * BLOCK_N ->
  ew sm_scale mu (row_s i n) = (exp (- mu * sm_scale) * W n)%R.
Proof.
  intros Hn. rewrite ref_row_s by assumption. unfold weight.
  destruct (n <? N); simpl; [|lra].
  destruct (visible causal M N m n); simpl; [|lra].
  rewrite <- exp_plus. f_equal. lra.
Qed.

Lemma ref_sum_W (g : Z -> R) :
  rsum (fun n => W n * g n)%R (arange (T * BLOCK_N))
  = rsum (fun n => w m n * g n)%R (arange N).
Proof.
  destruct ref_hi_bounds as (HT & Hhi & Hnc).
  rewrite <- (rsum_arange_extend _ (T * BLOCK_N)
                                   (Z.max (T * BLOCK_N) N)).
  - rewrite (rsum_arange_extend _ N (Z.max (T * BLOCK_N) N)).
    + apply rsum_ext. intros n Hn. apply In_arange in Hn.
      replace (n <? N) with true; [reflexivity|].
      symmetry. apply Z.ltb_lt. lia.
    + nia.
    + intros n Hn. replace (n <? N) with false; [lra|].
      symmetry. apply Z.ltb_ge. lia.
  - nia.
  - intros n Hn. destruct (Z.ltb_spec n N) as [HnN|HnN]; [|lra].
    unfold weight, visible. destruct causal.
    + replace (n <=? N - M + m) with false; [lra|].
      symmetry. apply Z.leb_gt.
      pose proof (eq_refl : fwd_hi M P_SEQ BLOCK_M true start_m
                            = N - M + (start_m + 1) * BLOCK_M) as Ehi.
      nia.
    + pose proof (eq_refl : fwd_hi M P_SEQ BLOCK_M false start_m
                            = M + (N - M)) as Ehi.
      lia.
Qed.

(** The statistics of the row when the loop ends: the running maximum is
    a finite [mu] and the running sum is the reference's sum of weights,
    rescaled by [exp(- mu * sm_scale)]. *)
Lemma ref_row_stats :
  let loop := fwd_loop Q K V sm_scale sq sk sv M P_SEQ BLOCK_M BLOCK_DMODEL
                       BLOCK_N causal DIVISIBLE_M DIVISIBLE_N
                       start_m off_h off_z in
  exists mu,
    m_i loop i = F mu
    /\ l_i loop i = F (exp (- mu * sm_scale) * rsum (w m) (arange N))
    /\ (0 < rsum (w m) (arange N))%R.
Proof.
  intros loop. destruct ref_hi_bounds as (HT & Hhi & Hnc).
  destruct (fwd_row_result Qr Kr Vr sm_scale sq sk sv M P_SEQ BLOCK_M
              BLOCK_DMODEL BLOCK_N causal DIVISIBLE_M DIVISIBLE_N
              start_m off_h off_z scale_pos BLOCK_N_pos i ref_row_loaded
              HT ref_first_unmasked)
    as (mu & Emax & Hpos & Hm & Hl & _ & _).
  set (Zs := rsum (w m) (arange N)).
  assert (Esum : row_sum i (T * BLOCK_N) = (exp (- mu * sm_scale) * Zs)%R).
  { unfold fwd_row_sum. fold row_max. rewrite Emax. cbn [odefault].
    rewrite (rsum_ext _ (fun n => exp (- mu * sm_scale) * W n)%R)
      by (intros n Hn; apply In_arange in Hn; now apply ref_ew).
    rewrite rsum_scale. f_equal.
    pose proof (ref_sum_W (fun _ => 1%R)) as E.
    rewrite (rsum_ext _ (fun n => W n)) in E by (intros; lra).
    rewrite E. apply rsum_ext. intros; lra. }
  exists mu. split; [exact Hm|]. split; [rewrite <- Esum; exact Hl|].
  pose proof (exp_pos (- mu * sm_scale)). rewrite Esum in Hpos.
  destruct (Rle_or_lt Zs 0) as [Hle|Hlt]; [|exact Hlt].
  exfalso. nra.
Qed.

(** The normalized probability that the loop gives to the column on lane
    [j] of its tile [t]: the reference's softmax on a column of k, nothing
    on a lane past the last column. *)
Lemma fwd_prob_row (t j : Z) :
  0 <= t < T -> 0 <= j < BLOCK_N ->
  fwd_prob Q K V sm_scale sq sk sv M P_SEQ BLOCK_M BLOCK_DMODEL BLOCK_N
           causal DIVISIBLE_M DIVISIBLE_N start_m off_h off_z t i j
  = F (if t * BLOCK_N + j <? N
       then softmax Qr Kr sq sk sm_scale causal M N BLOCK_DMODEL off_z off_h
                    m (t * BLOCK_N + j)
       else 0).
Proof.
  intros Ht Hj. unfold fwd_prob. cbv zeta.
  destruct ref_row_stats as (mu & Hm & Hl & HZ). cbv zeta in Hm, Hl.
  rewrite Hm, Hl.
  destruct (fwd_loop_row Qr Kr Vr sm_scale sq sk sv M P_SEQ BLOCK_M
              BLOCK_DMODEL BLOCK_N causal DIVISIBLE_M DIVISIBLE_N
              start_m off_h off_z scale_pos BLOCK_N_pos i ref_row_loaded
              (Z.to_nat t) ref_first_unmasked) as [Hp _].
  rewrite Z2Nat.id in Hp by lia.
  unfold fwd_state_at.
  rewrite (fwd_s_row Qr Kr sq sk sv M P_SEQ BLOCK_M BLOCK_DMODEL BLOCK_N
             causal DIVISIBLE_M DIVISIBLE_N start_m off_h off_z BLOCK_N_pos
             i ref_row_loaded _ t j Hp Hj).
  rewrite ref_row_s by nia.
  unfold fwd_qk_scale. rewrite (p_finite sm_scale scale_pos).
  pose proof (exp_pos (- mu * sm_scale)) as He.
  unfold frecip.
  destruct (Req_dec_T _ 0) as [E0|_].
  { exfalso. apply Rmult_integral in E0. destruct E0; lra. }
  cbn [fmul]. f_equal. unfold softmax.
  set (Zs := rsum (w m) (arange N)) in *. unfold weight.
  destruct (t * BLOCK_N + j <? N); cbn [andb ew]; [|lra].
  destruct (visible causal M N m (t * BLOCK_N + j)); cbn [ew].
  - replace ((logit Qr Kr sq sk BLOCK_DMODEL off_z off_h m (t * BLOCK_N + j)
              - mu) * sm_scale)%R
      with (logit Qr Kr sq sk BLOCK_DMODEL off_z off_h m (t * BLOCK_N + j)
            * sm_scale + - mu * sm_scale)%R by ring.
    rewrite exp_plus. field. lra.
  - field. lra.
Qed.

(** C1, as the code has it at the level of one instance.  When the scale
    is positive and K and V share their sequence and feature strides, the
    row [m] of an instance holds, when the loop ends, the attention output
    and the log-normalizer of the reference. *)
Lemma fwd_row_attention :
  (forall d,
     fwd_acc_out Q K V sm_scale sq sk sv M P_SEQ BLOCK_M BLOCK_DMODEL
                 BLOCK_N causal DIVISIBLE_M DIVISIBLE_N start_m off_h off_z
                 i d
     = F (attention_ref Qr Kr Vr sq sk sv sm_scale causal M N BLOCK_DMODEL
                        off_z off_h m d))
  /\ fwd_l_out Q K V sm_scale sq sk sv M P_SEQ BLOCK_M BLOCK_DMODEL
               BLOCK_N causal DIVISIBLE_M DIVISIBLE_N start_m off_h off_z i
     = F (lse_ref Qr Kr sq sk sm_scale causal M N BLOCK_DMODEL
                  off_z off_h m)
  /\ (0 < rsum (w m) (arange N))%R.
Proof.
  destruct ref_hi_bounds as (HT & Hhi & Hnc).
  destruct (fwd_row_result Qr Kr Vr sm_scale sq sk sv M P_SEQ BLOCK_M
              BLOCK_DMODEL BLOCK_N causal DIVISIBLE_M DIVISIBLE_N
              start_m off_h off_z scale_pos BLOCK_N_pos i ref_row_loaded
              HT ref_first_unmasked)
    as (mu & Emax & Hpos & _ & _ & Hacc & Hl).
  set (Zs := rsum (w m) (arange N)).
  assert (Esum : row_sum i (T * BLOCK_N) = (exp (- mu * sm_scale) * Zs)%R).
  { unfold fwd_row_sum. fold row_max. rewrite Emax. cbn [odefault].
    rewrite (rsum_ext _ (fun n => exp (- mu * sm_scale) * W n)%R)
      by (intros n Hn; apply In_arange in Hn; now apply ref_ew).
    rewrite rsum_scale. f_equal.
    pose proof (ref_sum_W (fun _ => 1%R)) as E.
    rewrite (rsum_ext _ (fun n => W n)) in E by (intros; lra).
    rewrite E. apply rsum_ext. intros; lra. }
  assert (HZ : (0 < Zs)%R).
  { pose proof (exp_pos (- mu * sm_scale)). rewrite Esum in Hpos.
    destruct (Rle_or_lt Zs 0) as [Hle|Hlt]; [|exact Hlt].
    exfalso. nra. }
  assert (Eacc : forall d, row_acc i (T * BLOCK_N) d
           = (exp (- mu * sm_scale)
              * rsum (fun n => w m n * Vr (offset4 sv off_z off_h n d))%R
                     (arange N))%R).
  { intros d. unfold fwd_row_acc. fold row_max. rewrite Emax.
    cbn [odefault].
    rewrite <- ref_sum_W, <- rsum_scale. apply rsum_ext.
    intros n Hn. apply In_arange in Hn. rewrite ref_ew by assumption.
    unfold fwd_row_v.
    destruct (Z.ltb_spec n N) as [HnN|HnN]; [|lra].
    rewrite ref_col_loaded by lia.
    replace (n <? N) with true by (symmetry; apply Z.ltb_lt; lia).
    rewrite ref_v_addr. lra. }
  split; [|split; [|exact HZ]].
  - intros d.
    assert (Eref : attention_ref Qr Kr Vr sq sk sv sm_scale causal M N
                     BLOCK_DMODEL off_z off_h m d
                   = (/ Zs * rsum (fun n => w m n
                                    * Vr (offset4 sv off_z off_h n d))%R
                                  (arange N))%R).
    { unfold attention_ref, softmax. fold Zs. rewrite <- rsum_scale.
      apply rsum_ext. intros; unfold Rdiv; ring. }
    rewrite Hacc, Eacc, Esum, Eref. f_equal.
    pose proof (exp_pos (- mu * sm_scale)). field. lra.
  - rewrite Hl, Esum. f_equal. unfold lse_ref. fold Zs.
    rewrite ln_mult by (try apply exp_pos; assumption).
    rewrite ln_exp. lra.
Qed.

End FwdReference.

(** ** A frame rule for the launcher: [backward] leaves old storages alone *)

Section Keeps.
Variable I : host -> Prop.

Lemma keeps_ret {A : Type} (a : A) (Q : A -> Prop) :
  Q a -> keeps I (ret a) Q.
Proof. intros Ha h Hh. simpl. auto. Qed.

Lemma keeps_raise {A : Type} (e : py_error) (Q : A -> Prop) :
  keeps I (raise e) Q.
Proof. intros h Hh. simpl. auto. Qed.

Lemma keeps_bind {A B : Type} (c : hostM A) (k : A -> hostM B)
    (Q : A -> Prop) (R : B -> Prop) :
  keeps I c Q -> (forall a, Q a -> keeps I (k a) R) ->
  keeps I (bind c k) R.
Proof.
  intros Hc Hk h Hh. unfold bind.
  destruct (Hc h Hh) as [Hi Hq].
  destruct (c h) as [h' [e|a]]; simpl in *.
  - auto.
  - now apply Hk.
Qed.

Lemma keeps_weaken {A : Type} (c : hostM A) (Q R : A -> Prop) :
  keeps I c Q -> (forall a, Q a -> R a) -> keeps I c R.
Proof.
  intros Hc HQR h Hh. destruct (Hc h Hh) as [Hi Hq]. split; [exact Hi|].
  destruct (snd (c h)); auto.
Qed.

Lemma keeps_of_option {A : Type} (e : py_error) (o : option A) :
  keeps I (of_option e o) (fun _ => True).
Proof. destruct o; [now apply keeps_ret | apply keeps_raise]. Qed.

Lemma keeps_py_assert (b : bool) : keeps I (py_assert b) (fun _ => True).
Proof. destruct b; [now apply keeps_ret | apply keeps_raise]. Qed.

Lemma keeps_unpack4 (t : tensor) : keeps I (unpack4 t) (fun _ => True).
Proof.
  unfold unpack4.
  destruct (t_shape t) as [|a [|b [|c [|d [|e l]]]]];
    try apply keeps_raise. now apply keeps_ret.
Qed.

Lemma keeps_strides4 (t : tensor) : keeps I (strides4 t) (fun _ => True).
Proof.
  unfold strides4.
  repeat (eapply keeps_bind; [apply keeps_of_option | intros ? _]).
  now apply keeps_ret.
Qed.

Lemma keeps_strides3 (t : tensor) : keeps I (strides3 t) (fun _ => True).
Proof.
  unfold strides3.
  repeat (eapply keeps_bind; [apply keeps_of_option | intros ? _]).
  now apply keeps_ret.
Qed.

End Keeps.

Section Frame.
Variables (id : nat) (m : mem).
Local Abbreviation I := (storage_holds id m).

Lemma keeps_current_device : keeps I cuda_current_device (fun _ => True).
Proof. intros h Hh. simpl. auto. Qed.

Lemma keeps_set_device (d : Z) : keeps I (cuda_set_device d) (fun _ => True).
Proof. intros h Hh. simpl. auto. Qed.

Lemma keeps_read_heap : keeps I read_heap (fun _ => True).
Proof. intros h Hh. simpl. auto. Qed.

(** A fresh storage is not [id]. *)
Lemma keeps_alloc (shape stride : list Z) (device : Z) (contents : mem) :
  keeps I (alloc shape stride device contents)
        (fun t => t_storage t <> id).
Proof.
  intros h [Hlt Hm]. unfold alloc, storage_holds. simpl.
  repeat split; try lia.
  replace (Nat.eqb id (next_storage h)) with false; [assumption|].
  symmetry. apply Nat.eqb_neq. lia.
Qed.

(** A launch that stores into other storages only. *)
Lemma keeps_launched (k : kernel_name) (grid : Z * Z * Z)
    (outs : list (nat * list write)) :
  (forall o, In o outs -> fst o <> id) ->
  keeps I (launched k grid outs) (fun _ => True).
Proof.
  intros Hout h [Hlt Hm]. unfold launched, storage_holds. simpl.
  repeat split; try lia.
  rewrite <- Hm. clear Hm. generalize (heap h) as hp.
  induction outs as [|o outs IH]; intros hp; simpl; [reflexivity|].
  rewrite IH by (intros o' Ho'; apply Hout; now right).
  replace (Nat.eqb id (fst o)) with false; [reflexivity|].
  symmetry. apply Nat.eqb_neq. intros E. apply (Hout o); [now left|auto].
Qed.


Ltac keeps_step :=
  eapply keeps_bind;
  [ first [ apply keeps_current_device | apply keeps_set_device
          | apply keeps_unpack4 | apply keeps_of_option
          | apply keeps_strides4 | apply keeps_strides3
          | apply keeps_read_heap | apply keeps_alloc ]
  | ].

(** [backward] allocates its own outputs and stores into them only. *)
Lemma backward_keeps (cap : Z -> Z * Z) (uninit : mem)
    (ctx : context) (do : tensor) :
  keeps I (backward cap uninit ctx do) (fun _ => True).
Proof.
  unfold backward, shape_at, empty_like, zeros_like.
  keeps_step. intros orig _.
  keeps_step. intros _ _.
  keeps_step. intros [[[B H] M] D] _.
  keeps_step. intros N _.
  destruct (bwd_config _ _ _) as [[[BLOCK_M BLOCK_N] num_stages] num_warps].
  keeps_step. intros delta Hdelta.
  do 4 (keeps_step; intros ? _).
  eapply keeps_bind.
  { apply keeps_launched. intros o [<-|[]]. exact Hdelta. }
  intros _ _.
  keeps_step. intros dk Hdk.
  keeps_step. intros dv Hdv.
  do 7 (keeps_step; intros ? _).
  eapply keeps_bind.
  { apply keeps_launched. intros o [<-|[<-|[]]]; assumption. }
  intros _ _.
  keeps_step. intros dq Hdq.
  do 2 (keeps_step; intros ? _).
  eapply keeps_bind.
  { apply keeps_launched. intros o [<-|[]]. exact Hdq. }
  intros _ _.
  keeps_step. intros _ _.
  now apply keeps_ret.
Qed.

End Frame.

(** [backward] never changes a storage that existed before the call, in
    particular not the storage of [L]. *)
Lemma backward_frame (cap : Z -> Z * Z) (uninit : mem)
    (ctx : context) (do : tensor) (h : host) (id : nat) :
  (id < next_storage h)%nat ->
  heap (fst (backward cap uninit ctx do h)) id = heap h id.
Proof.
  intros Hid.
  destruct (backward_keeps id (heap h id) cap uninit ctx do h) as [[_ E] _].
  - split; [assumption|reflexivity].
  - exact E.
Qed.

(** ** The launch of [_fwd_kernel]: the stores into [L] *)

Section FwdLaunchL.
Variables (Qr Kr Vr : Z -> R) (sm_scale : R).
Variables (sq sk sv so : strides).
Variables (B H M N BLOCK_M BLOCK_DMODEL BLOCK_N : Z).
Variables (causal : bool).

Local Abbreviation Q := (finite_mem Qr).
Local Abbreviation K := (finite_mem Kr).
Local Abbreviation V := (finite_mem Vr).
Local Abbreviation P_SEQ := (N - M).
Local Abbreviation DIVISIBLE_M := (M mod BLOCK_M =? 0).
Local Abbreviation DIVISIBLE_N := (N mod BLOCK_N =? 0).
(** The launch as [forward] makes it. *)
Local Abbreviation launch :=
  (fwd_launch Q K V sm_scale sq sk sv so B H M P_SEQ BLOCK_M BLOCK_N
              BLOCK_DMODEL causal DIVISIBLE_M DIVISIBLE_N
              (cdiv M BLOCK_M, H, B)).
Local Abbreviation loop t h z :=
  (fwd_loop Q K V sm_scale sq sk sv M P_SEQ BLOCK_M BLOCK_DMODEL BLOCK_N
            causal DIVISIBLE_M DIVISIBLE_N t h z).
Local Abbreviation l_out :=
  (fun t h z => fwd_l_out Q K V sm_scale sq sk sv M P_SEQ BLOCK_M
                          BLOCK_DMODEL BLOCK_N causal DIVISIBLE_M
                          DIVISIBLE_N t h z).

Hypothesis BLOCK_M_pos : 0 < BLOCK_M.

Lemma fwd_launch_L_rows :
  fst launch
  = flat_map (fun id : Z * Z * Z =>
                tl_store1 BLOCK_M
                  (fun i => offset3 H M (snd id) (snd (fst id))
                                    (fst (fst id) * BLOCK_M + i))
                  (l_out (fst (fst id)) (snd (fst id)) (snd id))
                  (fwd_mask_m M BLOCK_M DIVISIBLE_M (fst (fst id))))
             (grid_ids (cdiv M BLOCK_M, H, B)).
Proof.
  unfold fwd_launch. cbn [fst]. apply flat_map_ext. intros [[t h] z].
  reflexivity.
Qed.

(** On storages that are finite throughout, for every batch, head and
    row [m < M] the launch stores [L = m_i * sm_scale + log(l_i)] of the
    row's loop, once, and nothing else into [L]; with a positive scale and
    an unmasked column in the first tile, [m_i] and [l_i] are the maximum
    and the sum of the weights of the unmasked logits of all visited
    columns. *)
Lemma fwd_launch_L_finite :
  (forall z h m, 0 <= z < B -> 0 <= h < H -> 0 <= m < M ->
     let st := loop (m / BLOCK_M) h z in
     let i := m mod BLOCK_M in
     let v := fadd (fmul (m_i st i) (F sm_scale)) (flog (l_i st i)) in
     In (offset3 H M z h m, v) (fst launch)
     /\ count_occ Z.eq_dec (map fst (fst launch)) (offset3 H M z h m) = 1%nat
     /\ (forall init : mem,
           apply_writes init (fst launch) (offset3 H M z h m) = v)
     /\ ((0 < sm_scale)%R -> 0 < BLOCK_N ->
         let T := cdiv (fwd_hi M P_SEQ BLOCK_M causal (m / BLOCK_M))
                       BLOCK_N in
         0 < T ->
         fwd_row_max Qr Kr sq sk sv M P_SEQ BLOCK_M BLOCK_DMODEL BLOCK_N
                     causal DIVISIBLE_N (m / BLOCK_M) h z i BLOCK_N
         <> None ->
         exists mu,
           fwd_row_max Qr Kr sq sk sv M P_SEQ BLOCK_M BLOCK_DMODEL BLOCK_N
                       causal DIVISIBLE_N (m / BLOCK_M) h z i (T * BLOCK_N)
           = Some mu
           /\ m_i st i = F mu
           /\ l_i st i
              = F (fwd_row_sum Qr Kr sm_scale sq sk sv M P_SEQ BLOCK_M
                               BLOCK_DMODEL BLOCK_N causal DIVISIBLE_N
                               (m / BLOCK_M) h z i (T * BLOCK_N))))
  /\ (forall w, In w (fst launch) ->
        exists z h m, 0 <= z < B /\ 0 <= h < H /\ 0 <= m < M /\
          w = (offset3 H M z h m,
               fadd (fmul (m_i (loop (m / BLOCK_M) h z) (m mod BLOCK_M))
                          (F sm_scale))
                    (flog (l_i (loop (m / BLOCK_M) h z) (m mod BLOCK_M)))))
  /\ (forall (cap : Z -> Z * Z) (uninit : mem) (ctx : context)
             (do : tensor) (h : host),
        (t_storage (ctx_L ctx) < next_storage h)%nat ->
        heap (fst (backward cap uninit ctx do h)) (t_storage (ctx_L ctx))
        = heap h (t_storage (ctx_L ctx))).
Proof.
  pose proof (In_row_log B H M BLOCK_M l_out BLOCK_M_pos) as HIn.
  pose proof (NoDup_row_log B H M BLOCK_M l_out BLOCK_M_pos) as Hnd.
  pose proof (row_log_once B H M BLOCK_M l_out BLOCK_M_pos) as Hone.
  cbv beta in HIn, Hnd, Hone.
  rewrite <- fwd_launch_L_rows in HIn, Hnd, Hone.
  split; [|split].
  - intros z h m Hz Hh Hm st i v.
    assert (Hin : In (offset3 H M z h m, v) (fst launch)).
    { apply HIn. exists z, h, m. repeat split; try lia. }
    split; [exact Hin|]. split; [now apply Hone|]. split.
    + intros init. now apply apply_writes_in_nodup.
    + intros Hs HBN T HT Hfirst.
      assert (Hok : lane_ok (fwd_mask_m M BLOCK_M DIVISIBLE_M (m / BLOCK_M))
                            i = true).
      { pose proof (Z.div_mod m BLOCK_M ltac:(lia)) as E.
        pose proof (Z.mod_pos_bound m BLOCK_M BLOCK_M_pos) as Hb.
        apply (row_lane_ok M BLOCK_M BLOCK_M_pos); [|assumption|unfold i; lia].
        split; [apply Z.div_pos; lia|]. apply cdiv_gt; [assumption|]. nia. }
      destruct (fwd_row_result Qr Kr Vr sm_scale sq sk sv M P_SEQ BLOCK_M
                  BLOCK_DMODEL BLOCK_N causal DIVISIBLE_M DIVISIBLE_N
                  (m / BLOCK_M) h z Hs HBN i Hok HT Hfirst)
        as (mu & Emax & _ & Em & El & _).
      exists mu. auto.
  - intros w Hw. apply HIn in Hw as (z & h & m & Hz & Hh & Hm & ->).
    exists z, h, m. repeat split; try lia.
  - intros cap uninit ctx do h Hid. now apply backward_frame.
Qed.

End FwdLaunchL.

(** ** The launch of [_fwd_kernel]: the stores into [O] *)

Lemma apply_writes_determined (ws : list write) (M : mem) (a : Z) (v : fp) :
  In a (map fst ws) ->
  (forall w, In w ws -> fst w = a -> snd w = v) ->
  apply_writes M ws a = v.
Proof.
  unfold apply_writes.
  induction ws as [|w ws IH] using rev_ind; intros Hin Hall; [contradiction|].
  rewrite fold_left_app. simpl. unfold apply_write at 1.
  destruct (Z.eqb_spec a (fst w)) as [E|E].
  - apply Hall; [apply in_or_app; right; now left | auto].
  - apply IH.
    + rewrite map_app in Hin. apply in_app_or in Hin.
      destruct Hin as [Hin|[Hin|[]]]; [assumption|]. simpl in Hin. congruence.
    + intros w' Hw'. apply Hall. apply in_or_app. now left.
Qed.

Lemma fwd_config_pos (cap : Z * Z) (causal : bool) (Dk M : Z) :
  0 < fst (fst (fst (fwd_config cap causal Dk M)))
  /\ 0 < snd (fst (fst (fwd_config cap causal Dk M))).
Proof.
  unfold fwd_config.
  destruct (cap_eqb _ _), (negb causal), (Dk <=? 64), (M <=? 1024);
    simpl; lia.
Qed.

Lemma default_scale_pos (D : Z) :
  supported_head_dim D = true -> (0 < 1 / sqrt (IZR D))%R.
Proof.
  intros HD. assert (0 < D).
  { unfold supported_head_dim in HD.
    repeat (apply orb_prop in HD; destruct HD as [HD|HD]);
      apply Z.eqb_eq in HD; lia. }
  apply Rdiv_lt_0_compat; [lra|]. apply sqrt_lt_R0. now apply IZR_lt.
Qed.

Section FwdLaunchO.
Variables (Q K V : mem) (sm_scale : R).
Variables (sq sk sv so : strides).
Variables (B H M N BLOCK_M BLOCK_DMODEL BLOCK_N : Z).
Variables (causal : bool).

Local Abbreviation P_SEQ := (N - M).
Local Abbreviation DIVISIBLE_M := (M mod BLOCK_M =? 0).
Local Abbreviation DIVISIBLE_N := (N mod BLOCK_N =? 0).
Local Abbreviation launch :=
  (fwd_launch Q K V sm_scale sq sk sv so B H M P_SEQ BLOCK_M BLOCK_N
              BLOCK_DMODEL causal DIVISIBLE_M DIVISIBLE_N
              (cdiv M BLOCK_M, H, B)).
Local Abbreviation acc_out :=
  (fun t h z => fwd_acc_out Q K V sm_scale sq sk sv M P_SEQ BLOCK_M
                            BLOCK_DMODEL BLOCK_N causal DIVISIBLE_M
                            DIVISIBLE_N t h z).

Hypothesis BLOCK_M_pos : 0 < BLOCK_M.

(** The stores into [O]: one per element of every row [m < M]. *)
Lemma fwd_launch_O_rows (w : write) :
  In w (snd launch) <->
  exists z h m d, 0 <= z < B /\ 0 <= h < H /\ 0 <= m < M
    /\ 0 <= d < BLOCK_DMODEL
    /\ w = (offset4 so z h m d,
            acc_out (m / BLOCK_M) h z (m mod BLOCK_M) d).
Proof.
  unfold fwd_launch. cbn [snd]. rewrite in_flat_map. split.
  - intros ([[t h] z] & Hg & Hw). apply In_grid_ids in Hg as (Ht & Hh & Hz).
    unfold _fwd_kernel in Hw. cbn [snd] in Hw.
    apply In_tl_store2 in Hw as (i & d & Hi & Hok & Hd & ->).
    apply (row_lane_ok M BLOCK_M BLOCK_M_pos) in Hok; [|assumption..].
    exists z, h, (t * BLOCK_M + i), d. repeat split; try lia.
    replace ((t * BLOCK_M + i) / BLOCK_M) with t.
    2:{ rewrite Z.add_comm, Z.div_add by lia. rewrite Z.div_small; lia. }
    replace ((t * BLOCK_M + i) mod BLOCK_M) with i.
    2:{ rewrite Z.add_comm, Z.mod_add by lia. rewrite Z.mod_small; lia. }
    unfold to_dtype. f_equal.
    unfold fwd_o_ptrs, fwd_O_base, fwd_offs_m, offset4. lia.
  - intros (z & h & m & d & Hz & Hh & Hm & Hd & ->).
    pose proof (Z.div_mod m BLOCK_M ltac:(lia)) as E.
    pose proof (Z.mod_pos_bound m BLOCK_M BLOCK_M_pos) as Hb.
    assert (Ht : 0 <= m / BLOCK_M < cdiv M BLOCK_M).
    { split; [apply Z.div_pos; lia|]. apply cdiv_gt; [assumption|]. nia. }
    exists (m / BLOCK_M, h, z). split; [apply In_grid_ids; auto|].
    unfold _fwd_kernel. cbn [snd]. apply In_tl_store2.
    exists (m mod BLOCK_M), d. repeat split; try lia.
    + apply (row_lane_ok M BLOCK_M BLOCK_M_pos); [assumption..|]. lia.
    + unfold to_dtype. f_equal.
      unfold fwd_o_ptrs, fwd_O_base, fwd_offs_m, offset4. nia.
Qed.

(** If every row's value is [val], the launch leaves [val] in [O]. *)
Lemma fwd_launch_O_mem (val : Z -> Z -> Z -> Z -> fp) (init : mem) :
  layout_injective so B H M BLOCK_DMODEL ->
  (forall z h m d, 0 <= z < B -> 0 <= h < H -> 0 <= m < M ->
     0 <= d < BLOCK_DMODEL ->
     acc_out (m / BLOCK_M) h z (m mod BLOCK_M) d = val z h m d) ->
  forall z h m d, 0 <= z < B -> 0 <= h < H -> 0 <= m < M ->
    0 <= d < BLOCK_DMODEL ->
    apply_writes init (snd launch) (offset4 so z h m d) = val z h m d.
Proof.
  intros Hinj Hval z h m d Hz Hh Hm Hd.
  apply apply_writes_determined.
  - apply in_map_iff.
    exists (offset4 so z h m d, acc_out (m / BLOCK_M) h z (m mod BLOCK_M) d).
    split; [reflexivity|]. apply fwd_launch_O_rows.
    exists z, h, m, d. auto.
  - intros w Hw Ew.
    apply fwd_launch_O_rows in Hw
      as (z' & h' & m' & d' & Hz' & Hh' & Hm' & Hd' & ->).
    cbn [fst snd] in *.
    destruct (Hinj z' h' m' d' z h m d) as (-> & -> & -> & ->); auto.
Qed.

End FwdLaunchO.

Section FwdMask.
Variables (Qr Kr Vr : Z -> R) (sm_scale : R).
Variables (sq sk sv : strides).
Variables (M N BLOCK_M BLOCK_DMODEL BLOCK_N : Z).
Variables (causal : bool).
Variables (start_m off_h off_z : Z).

Hypothesis scale_pos : (0 < sm_scale)%R.
Hypothesis BLOCK_M_pos : 0 < BLOCK_M.
Hypothesis BLOCK_N_pos : 0 < BLOCK_N.
Hypothesis prefix_nonneg : M <= N.
Hypothesis same_row_stride : s2 sk = s2 sv.
Hypothesis same_col_stride : s3 sk = s3 sv.
Variable i : Z.
Hypothesis tile_nonneg : 0 <= start_m.
Hypothesis lane : 0 <= i < BLOCK_M.
Hypothesis row_in_range : start_m * BLOCK_M + i < M.

(** The logits that the loop uses in its iteration [t]: the logit of
    column [n] is forced to -inf exactly when [n] is out of range or the
    mask is causal and [n > P_SEQ + m]. *)
Lemma fwd_mask_exact (t j : Z) :
  0 <= t < cdiv (fwd_hi M (N - M) BLOCK_M causal start_m) BLOCK_N ->
  0 <= j < BLOCK_N ->
  fwd_s (finite_mem Qr) (finite_mem Kr) sq M (N - M) BLOCK_M BLOCK_DMODEL
        BLOCK_N causal (M mod BLOCK_M =? 0) (N mod BLOCK_N =? 0)
        start_m off_h off_z
        (fold_left (fwd_body (finite_mem Qr) (finite_mem Kr) (finite_mem Vr)
                             sm_scale sq sk sv M (N - M) BLOCK_M
                             BLOCK_DMODEL BLOCK_N causal
                             (M mod BLOCK_M =? 0) (N mod BLOCK_N =? 0)
                             start_m off_h off_z)
                   (tile_starts BLOCK_N t) (fwd_init sk sv off_h off_z))
        (t * BLOCK_N) i j
  = if (t * BLOCK_N + j <? N)
       && visible causal M N (start_m * BLOCK_M + i) (t * BLOCK_N + j)
    then F (logit Qr Kr sq sk BLOCK_DMODEL off_z off_h
                  (start_m * BLOCK_M + i) (t * BLOCK_N + j))
    else NInf.
Proof.
  intros Ht Hj.
  pose proof (ref_row_loaded M BLOCK_M start_m i row_in_range) as Hok.
  pose proof (ref_first_unmasked Qr Kr sq sk sv M N BLOCK_M BLOCK_DMODEL
                BLOCK_N causal start_m off_h off_z BLOCK_M_pos BLOCK_N_pos
                prefix_nonneg same_row_stride same_col_stride i tile_nonneg
                lane row_in_range) as Hfirst.
  destruct (fwd_loop_row Qr Kr Vr sm_scale sq sk sv M (N - M) BLOCK_M
              BLOCK_DMODEL BLOCK_N causal (M mod BLOCK_M =? 0)
              (N mod BLOCK_N =? 0) start_m off_h off_z scale_pos BLOCK_N_pos
              i Hok (Z.to_nat t) Hfirst) as [Hp _].
  rewrite Z2Nat.id in Hp by lia.
  rewrite (fwd_s_row Qr Kr sq sk sv M (N - M) BLOCK_M BLOCK_DMODEL BLOCK_N
             causal (M mod BLOCK_M =? 0) (N mod BLOCK_N =? 0)
             start_m off_h off_z BLOCK_N_pos i Hok _ t j Hp Hj).
  rewrite (ref_row_s Qr Kr sq sk sv M N BLOCK_M BLOCK_DMODEL BLOCK_N causal
             start_m off_h off_z BLOCK_M_pos BLOCK_N_pos prefix_nonneg
             same_row_stride same_col_stride i tile_nonneg lane
             row_in_range) by nia.
  destruct (_ && _); reflexivity.
Qed.

End FwdMask.

Lemma c1_layout : layout_injective (mkStrides 32 32 16 1) 1 1 2 16.
Proof. unfold layout_injective, offset4. simpl. intros. lia. Qed.


(** ** A scale that is not positive *)

Lemma fmul_NaN_l (x : fp) : fmul NaN x = NaN.
Proof. destruct x; reflexivity. Qed.

Lemma fadd_NaN_l (x : fp) : fadd NaN x = NaN.
Proof. destruct x; reflexivity. Qed.

(** The first rescaling of the zero accumulator: [0 * exp2((-inf - m) * c)]
    is NaN when [c <= 0]. *)
Lemma first_rescale_nan (x : fp) (c : R) :
  (c <= 0)%R -> fmul (F 0) (fexp2 (fmul (fsub NInf x) (F c))) = NaN.
Proof.
  intros Hc.
  assert (E : fmul (F 0) (fexp2 (inf_times false c)) = NaN).
  { unfold inf_times.
    destruct (Rlt_dec 0 c); [lra|].
    destruct (Rlt_dec c 0); simpl; [|reflexivity].
    unfold inf_times.
    destruct (Rlt_dec 0 0); [lra|]. reflexivity. }
  destruct x; simpl; try exact E; reflexivity.
Qed.

Section NonPositiveScale.
Variables (Q K V : mem) (sm_scale : R).
Variables (sq sk sv : strides).
Variables (N_CTX P_SEQ BLOCK_M BLOCK_DMODEL BLOCK_N : Z).
Variables (IS_CAUSAL DIVISIBLE_M DIVISIBLE_N : bool).
Variables (start_m off_h off_z : Z).

Local Abbreviation body :=
  (fwd_body Q K V sm_scale sq sk sv N_CTX P_SEQ BLOCK_M BLOCK_DMODEL BLOCK_N
            IS_CAUSAL DIVISIBLE_M DIVISIBLE_N start_m off_h off_z).

Hypothesis scale_nonpos : (sm_scale <= 0)%R.

Lemma fwd_acc_nan_stays (l : list Z) (st : fwd_state) (i d : Z) :
  acc st i d = NaN -> acc (fold_left body l st) i d = NaN.
Proof.
  revert st. induction l as [|s l IH]; intros st E; [exact E|].
  simpl. apply IH. unfold fwd_body. cbn [acc].
  now rewrite E, fmul_NaN_l, fadd_NaN_l.
Qed.

(** With a scale that is not positive every element that an instance
    writes back is NaN, as soon as its loop runs once. *)
Lemma fwd_acc_out_nan (i d : Z) :
  0 < fwd_hi N_CTX P_SEQ BLOCK_M IS_CAUSAL start_m -> 0 < BLOCK_N ->
  fwd_acc_out Q K V sm_scale sq sk sv N_CTX P_SEQ BLOCK_M BLOCK_DMODEL
              BLOCK_N IS_CAUSAL DIVISIBLE_M DIVISIBLE_N start_m off_h off_z
              i d
  = NaN.
Proof.
  intros Hhi HBN. unfold fwd_acc_out, fwd_loop, py_range.
  assert (HT : 0 < cdiv (fwd_hi N_CTX P_SEQ BLOCK_M IS_CAUSAL start_m - 0)
                        BLOCK_N) by (apply cdiv_gt; lia).
  replace (cdiv (fwd_hi N_CTX P_SEQ BLOCK_M IS_CAUSAL start_m - 0) BLOCK_N)
    with (1 + (cdiv (fwd_hi N_CTX P_SEQ BLOCK_M IS_CAUSAL start_m - 0)
                    BLOCK_N - 1)) by lia.
  rewrite arange_app by lia. change (arange 1) with [0].
  cbn [map app fold_left].
  rewrite fwd_acc_nan_stays; [apply fmul_NaN_l|].
  unfold fwd_body, fwd_init. cbn [acc m_i].
  unfold fwd_qk_scale, log2e.
  change (fmul (F sm_scale) (F (1 / ln 2)))
    with (F (sm_scale * (1 / ln 2))).
  rewrite first_rescale_nan; [apply fadd_NaN_l|].
  pose proof ln2_pos.
  assert (0 < 1 / ln 2)%R by (apply Rdiv_lt_0_compat; lra).
  nra.
Qed.

End NonPositiveScale.

(** With a scale that is not positive [forward] returns an [o] full of
    NaN. *)
Lemma forward_nonpositive_scale (cap : Z -> Z * Z) (uninit : mem)
    (q k v : tensor) (causal : bool) (s : R) (h : host)
    (B H M N D : Z) (sq sk sv so : strides) :
  t_shape q = [B; H; M; D] ->
  t_shape k = [B; H; N; D] ->
  t_shape v = [B; H; N; D] ->
  t_stride q = [s0 sq; s1 sq; s2 sq; s3 sq] ->
  t_stride k = [s0 sk; s1 sk; s2 sk; s3 sk] ->
  t_stride v = [s0 sv; s1 sv; s2 sv; s3 sv] ->
  supported_head_dim D = true ->
  (t_storage q < next_storage h)%nat ->
  (t_storage k < next_storage h)%nat ->
  (t_storage v < next_storage h)%nat ->
  like_stride [B; H; M; D] (t_stride q) = [s0 so; s1 so; s2 so; s3 so] ->
  layout_injective so B H M D ->
  M <= N ->
  (s <= 0)%R ->
  exists (o : tensor) (ctx : context) (h' : host),
    forward cap uninit q k v causal (Some s) h = (h', inr (o, ctx))
    /\ forall z hd m d,
         0 <= z < B -> 0 <= hd < H -> 0 <= m < M -> 0 <= d < D ->
         heap h' (t_storage o) (offset4 so z hd m d) = NaN.
Proof.
  intros Eq Ek Ev Sq Sk Sv HD Lq Lk Lv Hso Hinj HMN Hs.
  destruct (forward_runs cap uninit q k v causal (Some s) h
              B H M D B H N B H N sq sk sv Eq Ek Ev Sq Sk Sv HD Lq Lk Lv)
    as (o & ctx & hp & E & _ & _ & _ & Ho & So & _ & Esc & _ & Hcfg).
  pose proof (fwd_config_pos (cap (t_device q)) causal D M) as [HBM HBN].
  destruct (fwd_config (cap (t_device q)) causal D M)
    as [[[BLOCK_M BLOCK_N] num_stages] num_warps] eqn:Ecfg.
  cbn [fst snd] in HBM, HBN.
  destruct (Hcfg _ _ _ _ eq_refl) as (_ & _ & HO).
  rewrite Esc, Hso, strides_of_list_eta in HO.
  eexists o, ctx, _. split; [exact E|].
  intros z hd m d Hz Hh Hm Hd. cbn [heap]. rewrite Ho, HO.
  apply (fwd_launch_O_mem _ _ _ _ _ _ _ _ _ _ _ _ _ _ _ _ HBM
           (fun _ _ _ _ => NaN)); auto.
  clear z hd m d Hz Hh Hm Hd. intros z hd m d Hz Hh Hm Hd.
  apply fwd_acc_out_nan; [assumption| |assumption].
  assert (0 <= m / BLOCK_M) by (apply Z.div_pos; lia).
  unfold fwd_hi. destruct causal; nia.
Qed.

(** C1 as the spec states it fails: with the scale -1 the element
    [o[0,0,0,0]] is NaN, not the attention output. *)
Lemma forward_attention_counterexample :
  ~ (exists (o : tensor) (ctx : context) (h' : host),
       forward a100 (fun _ => F 0)
               (contiguous_tensor [1; 1; 2; 16] 0 0)
               (contiguous_tensor [1; 1; 2; 16] 0 1)
               (contiguous_tensor [1; 1; 2; 16] 0 2) false (Some (-1)%R)
               host0
       = (h', inr (o, ctx))
       /\ heap h' (t_storage o) (offset4 (mkStrides 32 32 16 1) 0 0 0 0)
          = F (attention_ref (fun _ => 1%R) (fun _ => 1%R) (fun _ => 1%R)
                 (mkStrides 32 32 16 1) (mkStrides 32 32 16 1)
                 (mkStrides 32 32 16 1) (-1) false 2 2 16 0 0 0 0)).
Proof.
  intros (o & ctx & h' & E & Hv).
  destruct (forward_nonpositive_scale a100 (fun _ => F 0)
              (contiguous_tensor [1; 1; 2; 16] 0 0)
              (contiguous_tensor [1; 1; 2; 16] 0 1)
              (contiguous_tensor [1; 1; 2; 16] 0 2) false (-1)%R host0
              1 1 2 2 16
              (mkStrides 32 32 16 1) (mkStrides 32 32 16 1)
              (mkStrides 32 32 16 1) (mkStrides 32 32 16 1))
    as (o' & ctx' & h'' & E' & Hnan);
    try reflexivity; try (simpl; lia); try exact c1_layout; try lra.
  rewrite E' in E. inversion E; subst.
  rewrite Hnan in Hv by lia. discriminate.
Qed.

(** ** Causal masking and the strides of k and v *)

(** A row that sees column 0 only. *)
Lemma single_column_stats (scale s : R) (sl : Z -> option R) (C : Z) :
  0 < C -> sl 0 = Some s -> (forall n, 0 < n < C -> sl n = None) ->
  omax_list (map sl (arange C)) = Some s
  /\ rsum (fun n => ew scale s (sl n)) (arange C) = 1%R.
Proof.
  intros HC E0 En. split.
  - replace C with (1 + (C - 1)) by lia.
    rewrite arange_app, map_app, omax_list_app by lia.
    change (arange 1) with [0]. unfold omax_list at 1.
    cbn [map fold_left omax]. rewrite E0.
    rewrite (proj2 (omax_list_none _)); [reflexivity|].
    intros x Hx. rewrite map_map in Hx.
    apply in_map_iff in Hx as (n & <- & Hn). apply In_arange in Hn.
    apply En. lia.
  - rewrite (rsum_single _ C 0) by
      (try lia; intros y Hy Hne; rewrite En by lia; reflexivity).
    rewrite E0. simpl. replace ((s - s) * scale)%R with 0%R by lra.
    apply exp_0.
Qed.

Section MixedStrides.
(** The call: q and k contiguous, v transposed in memory, causal, scale 1,
    on an A100, where the tiles are 128 x 64. *)
Variable kr : Z -> R.

Local Abbreviation sq := (mkStrides 32 32 16 1).
Local Abbreviation sk := (mkStrides 32 32 16 1).
Local Abbreviation sv := (mkStrides 32 32 1 2).
Local Abbreviation ones := (fun _ : Z => 1%R).
Local Abbreviation row_s :=
  (fwd_row_s ones kr sq sk sv 2 (2 - 2) 128 16 64 true (2 mod 64 =? 0)
             0 0 0 0).

(** What the loop takes for the logit of row 0 and column 0. *)
Local Abbreviation logit0 :=
  (fwd_row_logit ones kr sq sk sv 128 16 64 0 0 0 0 0).

Lemma mixed_row_s_0 : row_s 0 = Some logit0.
Proof. reflexivity. Qed.

Lemma mixed_row_s_masked (n : Z) : 0 < n < 128 -> row_s n = None.
Proof.
  intros Hn. unfold fwd_row_s, fwd_col_unmasked, fwd_causal_mask, fwd_offs_m.
  pose proof (Z.div_mod n 64 ltac:(lia)) as E.
  replace (2 - 2 + (0 * 128 + 0) >=? n / 64 * 64 + n mod 64) with false.
  - now rewrite andb_false_r.
  - symmetry. rewrite Z.geb_leb. apply Z.leb_gt. lia.
Qed.

(** The log-normalizer that the call leaves in [L[0,0,0]]. *)
Lemma mixed_L_row0 :
  heap (fst (forward a100 (fun _ => F 0)
                     (contiguous_tensor [1; 1; 2; 16] 0 0)
                     (contiguous_tensor [1; 1; 2; 16] 0 1)
                     v_transposed true (Some 1%R) (host_with_k kr)))
       4%nat (offset3 1 2 0 0 0)
  = F logit0.
Proof.
  destruct (forward_runs a100 (fun _ => F 0)
              (contiguous_tensor [1; 1; 2; 16] 0 0)
              (contiguous_tensor [1; 1; 2; 16] 0 1)
              v_transposed true (Some 1%R) (host_with_k kr)
              1 1 2 16 1 1 2 1 1 2 sq sk sv)
    as (o & ctx & hp & E & _ & _ & _ & _ & _ & _ & Esc & _ & Hcfg);
    try reflexivity; try (simpl; lia).
  destruct (Hcfg 128 64 4 4 eq_refl) as (_ & HL & _).
  rewrite E. cbn [fst heap]. cbn [next_storage host_with_k] in HL.
  rewrite HL, Esc.
  change (heap (host_with_k kr)
               (t_storage (contiguous_tensor [1; 1; 2; 16] 0 0)))
    with (finite_mem ones).
  change (heap (host_with_k kr)
               (t_storage (contiguous_tensor [1; 1; 2; 16] 0 1)))
    with (finite_mem kr).
  change (heap (host_with_k kr) (t_storage v_transposed))
    with (finite_mem ones).
  destruct (fwd_launch_L_finite ones kr ones 1 sq sk sv sq 1 1 2 2
              128 16 64 true ltac:(lia)) as (Hrow & _).
  destruct (Hrow 0 0 0 ltac:(lia) ltac:(lia) ltac:(lia))
    as (_ & _ & Hmem & Hstat).
  rewrite Hmem.
  destruct (single_column_stats 1 logit0 row_s 128 ltac:(lia)
              mixed_row_s_0 mixed_row_s_masked) as [Emax Esum].
  destruct Hstat as (mu & Emu & Em & El); try lra; try lia.
  - reflexivity.
  - change (fwd_row_max ones kr sq sk sv 2 (2 - 2) 128 16 64 true
                        (2 mod 64 =? 0) (0 / 128) 0 0 (0 mod 128) 64)
      with (omax_list (map row_s (arange 64))).
    intros Hnone.
    assert (Hin : In (row_s 0) (map row_s (arange 64)))
      by (apply in_map, In_arange; lia).
    pose proof (proj1 (omax_list_none _) Hnone (row_s 0) Hin) as Hc.
    rewrite mixed_row_s_0 in Hc. discriminate Hc.
  - change (cdiv (fwd_hi 2 (2 - 2) 128 true (0 / 128)) 64 * 64) with 128
      in Emu, El.
    change (fwd_row_max ones kr sq sk sv 2 (2 - 2) 128 16 64 true
                        (2 mod 64 =? 0) (0 / 128) 0 0 (0 mod 128) 128)
      with (omax_list (map row_s (arange 128))) in Emu.
    rewrite Emax in Emu. inversion Emu; subst mu.
    rewrite Em, El. unfold fwd_row_sum.
    change (fwd_row_max ones kr sq sk sv 2 (2 - 2) 128 16 64 true
                        (2 mod 64 =? 0) (0 / 128) 0 0 (0 mod 128) 128)
      with (omax_list (map row_s (arange 128))).
    rewrite Emax. cbn [odefault].
    change (fwd_row_s ones kr sq sk sv 2 (2 - 2) 128 16 64 true
                      (2 mod 64 =? 0) (0 / 128) 0 0 (0 mod 128))
      with row_s.
    rewrite Esum. simpl. destruct (Rlt_dec 0 1); [|lra].
    f_equal. rewrite ln_1. lra.
Qed.

End MixedStrides.

Lemma mixed_k_addr (d : Z) :
  fwd_k_addr (mkStrides 32 32 16 1) (mkStrides 32 32 1 2) 64 0 0 0 d = 2 * d.
Proof.
  unfold fwd_k_addr, fwd_k_ptrs_init, fwd_K_base. cbn [s0 s1 s2 s3].
  change (0 mod 64) with 0. change (0 / 64) with 0. lia.
Qed.

Lemma mixed_logit_zeros :
  fwd_row_logit (fun _ => 1%R) k_zeros (mkStrides 32 32 16 1)
                (mkStrides 32 32 16 1) (mkStrides 32 32 1 2)
                128 16 64 0 0 0 0 0 = 0%R.
Proof.
  unfold fwd_row_logit. apply rsum_zero. intros d _. unfold k_zeros. lra.
Qed.

Lemma mixed_logit_perturbed :
  fwd_row_logit (fun _ => 1%R) k_perturbed (mkStrides 32 32 16 1)
                (mkStrides 32 32 16 1) (mkStrides 32 32 1 2)
                128 16 64 0 0 0 0 0 = 1%R.
Proof.
  unfold fwd_row_logit. rewrite (rsum_single _ 16 8).
  - rewrite mixed_k_addr. unfold k_perturbed. simpl. lra.
  - lia.
  - intros y Hy Hne. rewrite mixed_k_addr. unfold k_perturbed.
    destruct (Z.eqb_spec (2 * y) 16); [lia|lra].
Qed.

(** C3 (the code departs from it).  q and k contiguous of shape
    (1, 1, 2, 16), v of the same shape but transposed in memory, causal,
    P_SEQ = 0.  Key column 1 is masked for query row 0.  The two runs
    differ only in [k[0,0,1,0]], yet [L[0,0,0]] is 0 in the first run and 1
    in the second: the loop reads k through the strides of v, so that the
    logit of the visible column 0 is computed from elements of the masked
    key row. *)
Theorem forward_causal_leak_mixed_strides :
  visible true 2 2 0 1 = false
  /\ (forall a, a <> offset4 (mkStrides 32 32 16 1) 0 0 1 0 ->
        k_zeros a = k_perturbed a)
  /\ heap (fst (forward a100 (fun _ => F 0)
                        (contiguous_tensor [1; 1; 2; 16] 0 0)
                        (contiguous_tensor [1; 1; 2; 16] 0 1)
                        v_transposed true (Some 1%R) (host_with_k k_zeros)))
          4%nat (offset3 1 2 0 0 0)
     = F 0
  /\ heap (fst (forward a100 (fun _ => F 0)
                        (contiguous_tensor [1; 1; 2; 16] 0 0)
                        (contiguous_tensor [1; 1; 2; 16] 0 1)
                        v_transposed true (Some 1%R)
                        (host_with_k k_perturbed)))
          4%nat (offset3 1 2 0 0 0)
     = F 1.
Proof.
  split; [reflexivity|]. split.
  - intros a Ha. unfold k_zeros, k_perturbed.
    destruct (Z.eqb_spec a 16) as [->|_]; [|reflexivity].
    exfalso. apply Ha. reflexivity.
  - rewrite !mixed_L_row0, mixed_logit_zeros, mixed_logit_perturbed. auto.
Qed.

(** ** Causal masking when k and v share their strides *)

(** The reference reads k and v on the visible columns only. *)
Lemma reference_masked_column (Qr Kr Vr Kr' Vr' : Z -> R)
    (sq sk sv : strides) (sm_scale : R) (M N D z h m c : Z) :
  N - M + m < c ->
  (forall n d, 0 <= n < N -> n <> c -> 0 <= d < D ->
     Kr (offset4 sk z h n d) = Kr' (offset4 sk z h n d)
     /\ Vr (offset4 sv z h n d) = Vr' (offset4 sv z h n d)) ->
  (forall d, 0 <= d < D ->
     attention_ref Qr Kr Vr sq sk sv sm_scale true M N D z h m d
     = attention_ref Qr Kr' Vr' sq sk sv sm_scale true M N D z h m d)
  /\ lse_ref Qr Kr sq sk sm_scale true M N D z h m
     = lse_ref Qr Kr' sq sk sm_scale true M N D z h m.
Proof.
  intros Hc Hagree.
  assert (Ew : forall n, 0 <= n < N ->
            weight Qr Kr sq sk sm_scale true M N D z h m n
            = weight Qr Kr' sq sk sm_scale true M N D z h m n).
  { intros n Hn. unfold weight, visible.
    destruct (Z.leb_spec n (N - M + m)) as [Hv|Hv]; [|reflexivity].
    f_equal. f_equal. unfold logit. apply rsum_ext. intros d Hd.
    apply In_arange in Hd.
    destruct (Hagree n d Hn ltac:(lia) Hd) as [-> _]. reflexivity. }
  assert (Es : rsum (weight Qr Kr sq sk sm_scale true M N D z h m) (arange N)
               = rsum (weight Qr Kr' sq sk sm_scale true M N D z h m)
                      (arange N)).
  { apply rsum_ext. intros n Hn. apply In_arange in Hn. now apply Ew. }
  split.
  - intros d Hd. unfold attention_ref, softmax. rewrite <- Es.
    apply rsum_ext. intros n Hn. apply In_arange in Hn.
    rewrite <- (Ew n Hn).
    destruct (Z.eq_dec n c) as [->|Hne].
    + unfold weight, visible.
      replace (c <=? N - M + m) with false
        by (symmetry; apply Z.leb_gt; lia).
      unfold Rdiv. ring.
    + destruct (Hagree n d Hn Hne Hd) as [_ ->]. reflexivity.
  - unfold lse_ref. now rewrite Es.
Qed.

(** X11.  With a positive scale, [M <= N] and k and v sharing their
    sequence and feature strides, what an instance of the causal
    [_fwd_kernel] writes back for a row [m], into o and into L, does not
    depend on the row [c] of k and of v when [c > P_SEQ + m] (q, k and v
    finite). *)
Lemma fwd_causal_noninterference (Qr Kr Vr Kr' Vr' : Z -> R) (sm_scale : R)
    (sq sk sv : strides) (M N BLOCK_M BLOCK_DMODEL BLOCK_N : Z)
    (start_m off_h off_z i c : Z) :
  (0 < sm_scale)%R -> 0 < BLOCK_M -> 0 < BLOCK_N -> M <= N ->
  s2 sk = s2 sv -> s3 sk = s3 sv ->
  0 <= start_m -> 0 <= i < BLOCK_M -> start_m * BLOCK_M + i < M ->
  N - M + (start_m * BLOCK_M + i) < c ->
  (forall n d, 0 <= n < N -> n <> c -> 0 <= d < BLOCK_DMODEL ->
     Kr (offset4 sk off_z off_h n d) = Kr' (offset4 sk off_z off_h n d)
     /\ Vr (offset4 sv off_z off_h n d) = Vr' (offset4 sv off_z off_h n d)) ->
  (forall d, 0 <= d < BLOCK_DMODEL ->
     fwd_acc_out (finite_mem Qr) (finite_mem Kr) (finite_mem Vr) sm_scale
                 sq sk sv M (N - M) BLOCK_M BLOCK_DMODEL BLOCK_N true
                 (M mod BLOCK_M =? 0) (N mod BLOCK_N =? 0)
                 start_m off_h off_z i d
     = fwd_acc_out (finite_mem Qr) (finite_mem Kr') (finite_mem Vr') sm_scale
                   sq sk sv M (N - M) BLOCK_M BLOCK_DMODEL BLOCK_N true
                   (M mod BLOCK_M =? 0) (N mod BLOCK_N =? 0)
                   start_m off_h off_z i d)
  /\ fwd_l_out (finite_mem Qr) (finite_mem Kr) (finite_mem Vr) sm_scale
               sq sk sv M (N - M) BLOCK_M BLOCK_DMODEL BLOCK_N true
               (M mod BLOCK_M =? 0) (N mod BLOCK_N =? 0)
               start_m off_h off_z i
     = fwd_l_out (finite_mem Qr) (finite_mem Kr') (finite_mem Vr') sm_scale
                 sq sk sv M (N - M) BLOCK_M BLOCK_DMODEL BLOCK_N true
                 (M mod BLOCK_M =? 0) (N mod BLOCK_N =? 0)
                 start_m off_h off_z i.
Proof.
  intros Hs HBM HBN HMN Hs2 Hs3 Ht Hi Hm Hc Hagree.
  destruct (fwd_row_attention Qr Kr Vr sm_scale sq sk sv M N BLOCK_M
              BLOCK_DMODEL BLOCK_N true start_m off_h off_z Hs HBM HBN HMN
              Hs2 Hs3 i Ht Hi Hm) as (Ho & Hl & _).
  destruct (fwd_row_attention Qr Kr' Vr' sm_scale sq sk sv M N BLOCK_M
              BLOCK_DMODEL BLOCK_N true start_m off_h off_z Hs HBM HBN HMN
              Hs2 Hs3 i Ht Hi Hm) as (Ho' & Hl' & _).
  destruct (reference_masked_column Qr Kr Vr Kr' Vr' sq sk sv sm_scale M N
              BLOCK_DMODEL off_z off_h (start_m * BLOCK_M + i) c Hc Hagree)
    as [Ea El].
  split.
  - intros d Hd. now rewrite Ho, Ho', (Ea d Hd).
  - now rewrite Hl, Hl', El.
Qed.

(** ** The probabilities recomputed by [_bwd_kv_kernel] *)

(** [fwd_state_at] and [kv_state_at] are the states of the two loops:
    each iteration steps from one to the next, and the last one is the
    state in which the loop ends. *)
Lemma fwd_state_next (Q K V : mem) (sm_scale : R) (sq sk sv : strides)
    (N_CTX P_SEQ BLOCK_M BLOCK_DMODEL BLOCK_N : Z)
    (IS_CAUSAL DIVISIBLE_M DIVISIBLE_N : bool)
    (start_m off_h off_z t : Z) :
  0 <= t ->
  fwd_state_at Q K V sm_scale sq sk sv N_CTX P_SEQ BLOCK_M BLOCK_DMODEL
               BLOCK_N IS_CAUSAL DIVISIBLE_M DIVISIBLE_N start_m off_h off_z
               (t + 1)
  = fwd_body Q K V sm_scale sq sk sv N_CTX P_SEQ BLOCK_M BLOCK_DMODEL
             BLOCK_N IS_CAUSAL DIVISIBLE_M DIVISIBLE_N start_m off_h off_z
             (fwd_state_at Q K V sm_scale sq sk sv N_CTX P_SEQ BLOCK_M
                           BLOCK_DMODEL BLOCK_N IS_CAUSAL DIVISIBLE_M
                           DIVISIBLE_N start_m off_h off_z t)
             (t * BLOCK_N).
Proof.
  intros Ht. unfold fwd_state_at, tile_starts.
  rewrite arange_succ by lia. now rewrite map_app, fold_left_app.
Qed.

Lemma fwd_state_last (Q K V : mem) (sm_scale : R) (sq sk sv : strides)
    (N_CTX P_SEQ BLOCK_M BLOCK_DMODEL BLOCK_N : Z)
    (IS_CAUSAL DIVISIBLE_M DIVISIBLE_N : bool) (start_m off_h off_z : Z) :
  fwd_loop Q K V sm_scale sq sk sv N_CTX P_SEQ BLOCK_M BLOCK_DMODEL BLOCK_N
           IS_CAUSAL DIVISIBLE_M DIVISIBLE_N start_m off_h off_z
  = fwd_state_at Q K V sm_scale sq sk sv N_CTX P_SEQ BLOCK_M BLOCK_DMODEL
                 BLOCK_N IS_CAUSAL DIVISIBLE_M DIVISIBLE_N start_m off_h
                 off_z
                 (cdiv (fwd_hi N_CTX P_SEQ BLOCK_M IS_CAUSAL start_m)
                       BLOCK_N).
Proof.
  unfold fwd_loop, fwd_state_at, py_range, tile_starts.
  now rewrite Z.sub_0_r.
Qed.

Lemma kv_state_next (Q K V : mem) (sm_scale : R) (DO L D : mem)
    (sq sk sv sdo : strides)
    (H N_CTX P_SEQ BLOCK_M BLOCK_DMODEL BLOCK_N : Z)
    (CAUSAL DIVISIBLE_M DIVISIBLE_N : bool) (start_n off_h off_z t : Z) :
  0 <= t ->
  kv_state_at Q K V sm_scale DO L D sq sk sv sdo H N_CTX P_SEQ BLOCK_M
              BLOCK_DMODEL BLOCK_N CAUSAL DIVISIBLE_M DIVISIBLE_N
              start_n off_h off_z (t + 1)
  = kv_body Q K V sm_scale DO L D sq sk sv sdo H N_CTX P_SEQ BLOCK_M
            BLOCK_DMODEL BLOCK_N CAUSAL DIVISIBLE_M DIVISIBLE_N
            start_n off_h off_z
            (kv_state_at Q K V sm_scale DO L D sq sk sv sdo H N_CTX P_SEQ
                         BLOCK_M BLOCK_DMODEL BLOCK_N CAUSAL DIVISIBLE_M
                         DIVISIBLE_N start_n off_h off_z t)
            (kv_lo P_SEQ BLOCK_M BLOCK_N CAUSAL start_n + t * BLOCK_M).
Proof.
  intros Ht. unfold kv_state_at. cbv zeta.
  rewrite arange_succ by lia. now rewrite map_app, fold_left_app.
Qed.

Lemma kv_state_last (Q K V : mem) (sm_scale : R) (DO L D : mem)
    (sq sk sv sdo : strides)
    (H N_CTX P_SEQ BLOCK_M BLOCK_DMODEL BLOCK_N : Z)
    (CAUSAL DIVISIBLE_M DIVISIBLE_N : bool) (start_n off_h off_z : Z) :
  kv_loop Q K V sm_scale DO L D sq sk sv sdo H N_CTX P_SEQ BLOCK_M
          BLOCK_DMODEL BLOCK_N CAUSAL DIVISIBLE_M DIVISIBLE_N
          start_n off_h off_z
  = kv_state_at Q K V sm_scale DO L D sq sk sv sdo H N_CTX P_SEQ BLOCK_M
                BLOCK_DMODEL BLOCK_N CAUSAL DIVISIBLE_M DIVISIBLE_N
                start_n off_h off_z
                (cdiv (N_CTX - kv_lo P_SEQ BLOCK_M BLOCK_N CAUSAL start_n)
                      BLOCK_M).
Proof. reflexivity. Qed.

Section KvRecompute.
(** q, k, v and do hold finite numbers; L and Delta are arbitrary. *)
Variables (Qr Kr Vr : Z -> R) (sm_scale : R) (DOr : Z -> R).
Variables (L D : mem).
Variables (sq sk sv sdo : strides).
Variables (H M N BLOCK_M BLOCK_DMODEL BLOCK_N : Z).
Variables (causal DIVISIBLE_M DIVISIBLE_N : bool).
Variables (start_n off_h off_z : Z).

Local Abbreviation P_SEQ := (N - M).
Local Abbreviation lo := (kv_lo P_SEQ BLOCK_M BLOCK_N causal start_n).
Local Abbreviation state_at :=
  (kv_state_at (finite_mem Qr) (finite_mem Kr) (finite_mem Vr) sm_scale
               (finite_mem DOr) L D sq sk sv sdo H M P_SEQ BLOCK_M
               BLOCK_DMODEL BLOCK_N causal DIVISIBLE_M DIVISIBLE_N
               start_n off_h off_z).

(** The pointers into q after [t] iterations. *)
Lemma kv_ptrs_at (t : nat) :
  kv_q_ptrs (state_at (Z.of_nat t))
  = fun i k => kv_q_ptrs_init sq off_h off_z lo i k
               + Z.of_nat t * (BLOCK_M * s2 sq).
Proof.
  induction t as [|t IH].
  - unfold kv_state_at. simpl. extensionality i. extensionality k. lia.
  - replace (Z.of_nat (S t)) with (Z.of_nat t + 1) by lia.
    unfold kv_state_at in *. cbv zeta in *.
    rewrite arange_succ by lia. rewrite map_app, fold_left_app.
    cbn [map fold_left]. unfold kv_body at 1. cbn [kv_q_ptrs].
    rewrite IH. extensionality i. extensionality k. lia.
Qed.

(** The block [p] of iteration [t] on the lanes of a row [m] of q and of a
    column [n] of k, when [L[m]] holds the finite number [lse]. *)
Lemma kv_p_row (t i j : Z) (lse : R) :
  0 <= t -> 
  lo + t * BLOCK_M + i < M ->
  start_n * BLOCK_N + j < N ->
  L (offset3 H M off_z off_h (lo + t * BLOCK_M + i)) = F lse ->
  kv_p_at (finite_mem Qr) (finite_mem Kr) (finite_mem Vr) sm_scale
          (finite_mem DOr) L D sq sk sv sdo H M P_SEQ BLOCK_M
          BLOCK_DMODEL BLOCK_N causal DIVISIBLE_M DIVISIBLE_N
          start_n off_h off_z t i j
  = F (if visible causal M N (lo + t * BLOCK_M + i) (start_n * BLOCK_N + j)
       then exp (logit Qr Kr sq sk BLOCK_DMODEL off_z off_h
                       (lo + t * BLOCK_M + i) (start_n * BLOCK_N + j)
                 * sm_scale - lse)
       else 0).
Proof.
  intros Ht Hm Hn HL.
  set (m := lo + t * BLOCK_M + i) in *.
  set (n := start_n * BLOCK_N + j) in *.
  unfold kv_p_at. cbv zeta.
  pose proof (kv_ptrs_at (Z.to_nat t)) as Hq.
  rewrite Z2Nat.id in Hq by lia.
  set (st := state_at t) in *.
  assert (Hrow : lane_ok (kv_mask_m M BLOCK_M DIVISIBLE_M (lo + t * BLOCK_M))
                         i = true).
  { unfold kv_mask_m, kv_offs_m. destruct (negb DIVISIBLE_M); [|reflexivity].
    destruct (_ >? _); [|reflexivity]. simpl. apply Z.ltb_lt. exact Hm. }
  assert (Hcol : lane_ok (kv_mask_n M P_SEQ BLOCK_N DIVISIBLE_N start_n) j
                 = true).
  { unfold kv_mask_n, kv_offs_n. destruct (negb DIVISIBLE_N); [|reflexivity].
    destruct (_ >? _); [|reflexivity]. simpl. apply Z.ltb_lt. unfold n in Hn.
    lia. }
  assert (Hs : kv_s (finite_mem Qr) (finite_mem Kr) sk M P_SEQ BLOCK_M
                    BLOCK_DMODEL BLOCK_N DIVISIBLE_M DIVISIBLE_N start_n
                    off_h off_z st (lo + t * BLOCK_M) i j
               = F (logit Qr Kr sq sk BLOCK_DMODEL off_z off_h m n)).
  { unfold kv_s. rewrite fadd_0_l. unfold tl_dot, logit.
    apply fsum_F_in. intros d _. unfold tl_trans, kv_q, kv_k.
    rewrite Hrow, Hcol, Hq. unfold tl_load, finite_mem. cbn [fmul].
    f_equal. f_equal; f_equal.
    - unfold kv_q_ptrs_init, kv_Q_base, kv_offs_m_init, offset4, m. lia.
    - unfold kv_k_ptrs, kv_K_base, kv_offs_n, offset4, n. lia. }
  assert (Hl : tl_load L (kv_L_base H M off_h off_z
                          + kv_offs_m (lo + t * BLOCK_M) i)
                       (lane_ok (kv_mask_m M BLOCK_M DIVISIBLE_M
                                           (lo + t * BLOCK_M)) i)
               = F lse).
  { rewrite Hrow. unfold tl_load. rewrite <- HL. reflexivity. }
  assert (Hp : fexp2 (fsub (fmul (F (logit Qr Kr sq sk BLOCK_DMODEL off_z
                                           off_h m n))
                                 (kv_qk_scale sm_scale))
                           (fmul (F lse) log2e))
               = F (exp (logit Qr Kr sq sk BLOCK_DMODEL off_z off_h m n
                         * sm_scale - lse))).
  { unfold kv_qk_scale, log2e. simpl. f_equal. f_equal.
    pose proof ln2_pos. field. lra. }
  assert (Hvalid : forall vm,
            kv_valid_mask M P_SEQ BLOCK_M BLOCK_N DIVISIBLE_M DIVISIBLE_N
                          start_n (lo + t * BLOCK_M) = Some vm ->
            vm i j = true).
  { unfold kv_valid_mask, kv_mask_n, kv_offs_m, kv_offs_n. intros vm.
    assert (Hm' : (lo + t * BLOCK_M + i <? M) = true)
      by (apply Z.ltb_lt; exact Hm).
    assert (Hn' : (start_n * BLOCK_N + j <? M + (N - M)) = true)
      by (apply Z.ltb_lt; unfold n in Hn; lia).
    destruct (negb DIVISIBLE_M), (negb DIVISIBLE_N);
      repeat (destruct (_ >? _)); cbn [option_map];
      intros E; inversion E; subst; auto. }
  unfold kv_p, kv_apply_masks. cbv beta zeta.
  assert (Hc : kv_causal_mask P_SEQ BLOCK_N start_n (lo + t * BLOCK_M) i j
               = (n <=? N - M + m)).
  { unfold kv_causal_mask, kv_offs_m, kv_offs_n. rewrite Z.geb_leb.
    unfold m, n. f_equal. }
  unfold visible.
  destruct (kv_valid_mask _ _ _ _ _ _ _ _) as [vm|] eqn:Evm.
  - destruct causal; cbv beta; rewrite (Hvalid vm eq_refl), Hs, Hl, Hp;
      unfold tl_where; [rewrite Hc; destruct (_ <=? _)|]; reflexivity.
  - destruct causal; cbv beta; rewrite Hs, Hl, Hp;
      unfold tl_where; [rewrite Hc; destruct (_ <=? _)|]; reflexivity.
Qed.

End KvRecompute.

Section Recompute.
Variables (Qr Kr Vr DOr : Z -> R) (sm_scale : R).
Variables (D uninit : mem).
Variables (sq sk sv so sdo : strides).
Variables (B H M N BLOCK_DMODEL : Z).
Variable causal : bool.
(** The block sizes of the forward launch and of the backward launch. *)
Variables (FWD_M FWD_N BLOCK_M BLOCK_N : Z).

Local Abbreviation Q := (finite_mem Qr).
Local Abbreviation K := (finite_mem Kr).
Local Abbreviation V := (finite_mem Vr).
Local Abbreviation P_SEQ := (N - M).
(** What the launch of [_fwd_kernel] leaves in L. *)
Local Abbreviation saved_L :=
  (apply_writes uninit
     (fst (fwd_launch Q K V sm_scale sq sk sv so B H M P_SEQ FWD_M FWD_N
                      BLOCK_DMODEL causal (M mod FWD_M =? 0)
                      (N mod FWD_N =? 0) (cdiv M FWD_M, H, B)))).

Hypothesis scale_pos : (0 < sm_scale)%R.
Hypothesis FWD_M_pos : 0 < FWD_M.
Hypothesis FWD_N_pos : 0 < FWD_N.
Hypothesis BLOCK_M_pos : 0 < BLOCK_M.
Hypothesis prefix_nonneg : M <= N.
Hypothesis same_row_stride : s2 sk = s2 sv.
Hypothesis same_col_stride : s3 sk = s3 sv.

Lemma fwd_saved_L (z h m : Z) :
  0 <= z < B -> 0 <= h < H -> 0 <= m < M ->
  saved_L (offset3 H M z h m)
  = F (lse_ref Qr Kr sq sk sm_scale causal M N BLOCK_DMODEL z h m)
  /\ (0 < rsum (weight Qr Kr sq sk sm_scale causal M N BLOCK_DMODEL z h m)
               (arange N))%R.
Proof.
  intros Hz Hh Hm.
  pose (l_out := fun t h z =>
          fwd_l_out Q K V sm_scale sq sk sv M P_SEQ FWD_M BLOCK_DMODEL FWD_N
                    causal (M mod FWD_M =? 0) (N mod FWD_N =? 0) t h z).
  pose proof (In_row_log B H M FWD_M l_out FWD_M_pos) as HIn.
  pose proof (NoDup_row_log B H M FWD_M l_out FWD_M_pos) as Hnd.
  unfold l_out in HIn, Hnd. cbv beta in HIn, Hnd.
  rewrite <- (fwd_launch_L_rows Qr Kr Vr sm_scale sq sk sv so B H M N FWD_M
                BLOCK_DMODEL FWD_N causal) in HIn, Hnd.
  pose proof (Z.div_mod m FWD_M ltac:(lia)) as E.
  pose proof (Z.mod_pos_bound m FWD_M FWD_M_pos) as Hb.
  assert (Em : m / FWD_M * FWD_M + m mod FWD_M = m) by lia.
  destruct (fwd_row_attention Qr Kr Vr sm_scale sq sk sv M N FWD_M
              BLOCK_DMODEL FWD_N causal (m / FWD_M) h z scale_pos FWD_M_pos
              FWD_N_pos prefix_nonneg same_row_stride same_col_stride
              (m mod FWD_M))
    as (_ & Hl & HZ); [apply Z.div_pos; lia | lia | lia |].
  rewrite Em in Hl, HZ. split; [|exact HZ].
  rewrite <- Hl. apply apply_writes_in_nodup; [exact Hnd|].
  apply HIn. exists z, h, m. repeat split; lia.
Qed.

(** On storages that are finite throughout: in [_bwd_kv_kernel], on the
    lanes of a row [m < M] of q and of a column [n < N] of k, the block
    [p] of every iteration, after the two [tl.where] that zero it, is the
    softmax of the reference; it is [exp(s . scale - m . scale) / l] of
    the forward loop on a column that this loop visits, and 0 on a column
    that it never visits. *)
Lemma kv_recomputes_finite (z h start_n t i j : Z) :
  let lo := kv_lo P_SEQ BLOCK_M BLOCK_N causal start_n in
  let m := lo + t * BLOCK_M + i in
  let n := start_n * BLOCK_N + j in
  let p := kv_p_at Q K V sm_scale (finite_mem DOr) saved_L D sq sk sv sdo
                   H M P_SEQ BLOCK_M BLOCK_DMODEL BLOCK_N causal
                   (M mod BLOCK_M =? 0) (N mod BLOCK_N =? 0)
                   start_n h z t i j in
  let T := cdiv (fwd_hi M P_SEQ FWD_M causal (m / FWD_M)) FWD_N in
  0 <= z < B -> 0 <= h < H -> 0 <= t -> 0 <= i -> m < M -> 0 <= n < N ->
  p = F (softmax Qr Kr sq sk sm_scale causal M N BLOCK_DMODEL z h m n)
  /\ (n / FWD_N < T ->
      p = fwd_prob Q K V sm_scale sq sk sv M P_SEQ FWD_M BLOCK_DMODEL FWD_N
                   causal (M mod FWD_M =? 0) (N mod FWD_N =? 0)
                   (m / FWD_M) h z (n / FWD_N) (m mod FWD_M) (n mod FWD_N))
  /\ (T <= n / FWD_N -> p = F 0).
Proof.
  intros lo m n p T Hz Hh Ht Hi Hm Hn.
  assert (Hlo : 0 <= lo).
  { unfold lo, kv_lo. destruct causal; [|lia].
    apply Z.mul_nonneg_nonneg; [|lia]. apply Z.div_pos; lia. }
  assert (Hm0 : 0 <= m) by (unfold m; nia).
  destruct (fwd_saved_L z h m Hz Hh ltac:(lia)) as [HL HZ].
  assert (Ep : p = F (softmax Qr Kr sq sk sm_scale causal M N BLOCK_DMODEL
                              z h m n)).
  { unfold p. fold lo.
    rewrite (kv_p_row Qr Kr Vr sm_scale DOr saved_L D sq sk sv sdo H M N
               BLOCK_M BLOCK_DMODEL BLOCK_N causal _ _ start_n h z
               t i j _ Ht Hm (proj2 Hn) HL).
    fold lo. fold m. fold n. f_equal. unfold softmax, weight, lse_ref.
    destruct (visible causal M N m n).
    - unfold Rminus. rewrite exp_plus, exp_Ropp, exp_ln by exact HZ.
      reflexivity.
    - unfold Rdiv. ring. }
  pose proof (Z.div_mod m FWD_M ltac:(lia)) as Edm.
  pose proof (Z.mod_pos_bound m FWD_M FWD_M_pos) as Hbm.
  pose proof (Z.div_mod n FWD_N ltac:(lia)) as Edn.
  pose proof (Z.mod_pos_bound n FWD_N FWD_N_pos) as Hbn.
  assert (Em : m / FWD_M * FWD_M + m mod FWD_M = m) by lia.
  assert (En : n / FWD_N * FWD_N + n mod FWD_N = n) by lia.
  assert (Htm : 0 <= m / FWD_M) by (apply Z.div_pos; lia).
  assert (Htn : 0 <= n / FWD_N) by (apply Z.div_pos; lia).
  split; [exact Ep|]. split.
  - intros HT. rewrite Ep.
    rewrite (fwd_prob_row Qr Kr Vr sm_scale sq sk sv M N FWD_M BLOCK_DMODEL
               FWD_N causal (m / FWD_M) h z scale_pos FWD_M_pos FWD_N_pos
               prefix_nonneg same_row_stride same_col_stride (m mod FWD_M)
               Htm ltac:(lia) ltac:(lia) (n / FWD_N) (n mod FWD_N)
               ltac:(fold T; lia) Hbn).
    rewrite Em, En.
    replace (n <? N) with true by (symmetry; apply Z.ltb_lt; lia).
    reflexivity.
  - intros HT. rewrite Ep. f_equal. unfold softmax, weight.
    replace (visible causal M N m n) with false; [unfold Rdiv; ring|].
    symmetry. unfold visible.
    destruct (ref_hi_bounds M N FWD_M FWD_N causal (m / FWD_M) FWD_M_pos
                FWD_N_pos prefix_nonneg (m mod FWD_M) Htm ltac:(lia)
                ltac:(lia)) as (_ & Hhi & Hnc).
    fold T in Hhi, Hnc. destruct causal.
    + apply Z.leb_gt.
      pose proof (eq_refl : fwd_hi M P_SEQ FWD_M true (m / FWD_M)
                            = N - M + (m / FWD_M + 1) * FWD_M) as Ehi.
      nia.
    + exfalso.
      pose proof (eq_refl : fwd_hi M P_SEQ FWD_M false (m / FWD_M)
                            = M + (N - M)) as Ehi.
      nia.
Qed.

End Recompute.

(** ** Where the recomputation and the forward pass part *)

Lemma fmul_NaN_r (x : fp) : fmul x NaN = NaN.
Proof. destruct x; reflexivity. Qed.

Section NonPositiveScaleSum.
Variables (Q K V : mem) (sm_scale : R).
Variables (sq sk sv : strides).
Variables (N_CTX P_SEQ BLOCK_M BLOCK_DMODEL BLOCK_N : Z).
Variables (IS_CAUSAL DIVISIBLE_M DIVISIBLE_N : bool).
Variables (start_m off_h off_z : Z).

Local Abbreviation body :=
  (fwd_body Q K V sm_scale sq sk sv N_CTX P_SEQ BLOCK_M BLOCK_DMODEL BLOCK_N
            IS_CAUSAL DIVISIBLE_M DIVISIBLE_N start_m off_h off_z).

Hypothesis scale_nonpos : (sm_scale <= 0)%R.

Lemma fwd_l_nan_stays (l : list Z) (st : fwd_state) (i : Z) :
  l_i st i = NaN -> l_i (fold_left body l st) i = NaN.
Proof.
  revert st. induction l as [|s l IH]; intros st E; [exact E|].
  simpl. apply IH. unfold fwd_body. cbn [l_i].
  now rewrite E, fmul_NaN_l, fadd_NaN_l.
Qed.

(** With a scale that is not positive the running sum is NaN as soon as
    the loop runs once, and so is every normalized probability. *)
Lemma fwd_l_nan (i : Z) :
  0 < fwd_hi N_CTX P_SEQ BLOCK_M IS_CAUSAL start_m -> 0 < BLOCK_N ->
  l_i (fwd_loop Q K V sm_scale sq sk sv N_CTX P_SEQ BLOCK_M BLOCK_DMODEL
                BLOCK_N IS_CAUSAL DIVISIBLE_M DIVISIBLE_N start_m off_h
                off_z) i
  = NaN.
Proof.
  intros Hhi HBN. unfold fwd_loop, py_range.
  assert (HT : 0 < cdiv (fwd_hi N_CTX P_SEQ BLOCK_M IS_CAUSAL start_m - 0)
                        BLOCK_N) by (apply cdiv_gt; lia).
  replace (cdiv (fwd_hi N_CTX P_SEQ BLOCK_M IS_CAUSAL start_m - 0) BLOCK_N)
    with (1 + (cdiv (fwd_hi N_CTX P_SEQ BLOCK_M IS_CAUSAL start_m - 0)
                    BLOCK_N - 1)) by lia.
  rewrite arange_app by lia. change (arange 1) with [0].
  cbn [map app fold_left].
  apply fwd_l_nan_stays.
  unfold fwd_body, fwd_init. cbn [l_i m_i].
  unfold fwd_qk_scale, log2e.
  change (fmul (F sm_scale) (F (1 / ln 2)))
    with (F (sm_scale * (1 / ln 2))).
  rewrite first_rescale_nan; [apply fadd_NaN_l|].
  pose proof ln2_pos.
  assert (0 < 1 / ln 2)%R by (apply Rdiv_lt_0_compat; lra).
  nra.
Qed.

Lemma fwd_prob_nan (t i j : Z) :
  0 < fwd_hi N_CTX P_SEQ BLOCK_M IS_CAUSAL start_m -> 0 < BLOCK_N ->
  fwd_prob Q K V sm_scale sq sk sv N_CTX P_SEQ BLOCK_M BLOCK_DMODEL BLOCK_N
           IS_CAUSAL DIVISIBLE_M DIVISIBLE_N start_m off_h off_z t i j
  = NaN.
Proof.
  intros Hhi HBN. unfold fwd_prob. cbv zeta.
  rewrite fwd_l_nan by assumption. apply fmul_NaN_r.
Qed.

End NonPositiveScaleSum.

(** Whatever L holds, the causal [tl.where] of [_bwd_kv_kernel] zeroes [p]
    on a masked position. *)
Lemma kv_p_masked (Q K V : mem) (sm_scale : R) (DO L D : mem)
    (sq sk sv sdo : strides)
    (H N_CTX P_SEQ BLOCK_M BLOCK_DMODEL BLOCK_N : Z)
    (DIVISIBLE_M DIVISIBLE_N : bool) (start_n off_h off_z t i j : Z) :
  P_SEQ + (kv_lo P_SEQ BLOCK_M BLOCK_N true start_n + t * BLOCK_M + i)
  < start_n * BLOCK_N + j ->
  kv_p_at Q K V sm_scale DO L D sq sk sv sdo H N_CTX P_SEQ BLOCK_M
          BLOCK_DMODEL BLOCK_N true DIVISIBLE_M DIVISIBLE_N
          start_n off_h off_z t i j
  = F 0.
Proof.
  intros Hmask. unfold kv_p_at, kv_p, kv_apply_masks. cbv zeta.
  replace (kv_causal_mask P_SEQ BLOCK_N start_n
             (kv_lo P_SEQ BLOCK_M BLOCK_N true start_n + t * BLOCK_M) i j)
    with false; [reflexivity|].
  symmetry. unfold kv_causal_mask, kv_offs_m, kv_offs_n.
  rewrite Z.geb_leb. apply Z.leb_gt. lia.
Qed.


(** C2 as the spec states it fails: forward accepts the scale -1, and then
    on the masked position (row 0, column 1) of a causal call the
    recomputed probability is 0 while [exp(s . scale - m . scale) / l] of
    the forward loop is NaN. *)
Lemma bwd_kv_recomputes_forward_probabilities_counterexample :
  (exists (o : tensor) (ctx : context) (h' : host),
     forward a100 (fun _ => F 0)
             (contiguous_tensor [1; 1; 2; 16] 0 0)
             (contiguous_tensor [1; 1; 2; 16] 0 1)
             (contiguous_tensor [1; 1; 2; 16] 0 2) true (Some (-1)%R) host0
     = (h', inr (o, ctx)))
  /\
  kv_p_at (finite_mem (fun _ => 1%R)) (finite_mem (fun _ => 1%R))
          (finite_mem (fun _ => 1%R)) (-1) (finite_mem (fun _ => 1%R))
          (apply_writes (fun _ => F 0)
             (fst (fwd_launch (finite_mem (fun _ => 1%R))
                              (finite_mem (fun _ => 1%R))
                              (finite_mem (fun _ => 1%R)) (-1)
                              (mkStrides 32 32 16 1) (mkStrides 32 32 16 1)
                              (mkStrides 32 32 16 1) (mkStrides 32 32 16 1)
                              1 1 2 (2 - 2) 128 64 16 true
                              (2 mod 128 =? 0) (2 mod 64 =? 0)
                              (cdiv 2 128, 1, 1))))
          (fun _ => F 0)
          (mkStrides 32 32 16 1) (mkStrides 32 32 16 1)
          (mkStrides 32 32 16 1) (mkStrides 32 32 16 1)
          1 2 (2 - 2) 64 16 64 true (2 mod 64 =? 0) (2 mod 64 =? 0)
          0 0 0 0 0 1
  <> fwd_prob (finite_mem (fun _ => 1%R)) (finite_mem (fun _ => 1%R))
              (finite_mem (fun _ => 1%R)) (-1)
              (mkStrides 32 32 16 1) (mkStrides 32 32 16 1)
              (mkStrides 32 32 16 1)
              2 (2 - 2) 128 16 64 true (2 mod 128 =? 0) (2 mod 64 =? 0)
              0 0 0 0 0 1.
Proof.
  split.
  - destruct (forward_nonpositive_scale a100 (fun _ => F 0)
                (contiguous_tensor [1; 1; 2; 16] 0 0)
                (contiguous_tensor [1; 1; 2; 16] 0 1)
                (contiguous_tensor [1; 1; 2; 16] 0 2) true (-1)%R host0
                1 1 2 2 16
                (mkStrides 32 32 16 1) (mkStrides 32 32 16 1)
                (mkStrides 32 32 16 1) (mkStrides 32 32 16 1))
      as (o & ctx & h' & E & _);
      try reflexivity; try (simpl; lia); try exact c1_layout; try lra.
    now exists o, ctx, h'.
  - rewrite kv_p_masked by (cbv; reflexivity).
    rewrite fwd_prob_nan; [discriminate | lra | reflexivity | reflexivity].
Qed.

(** * Part III: more of the launcher and of the kernels *)

(** ** [forward]: what a call that passes the assertions does *)

(** X1.  [forward] compares the head dimensions only: whatever the batch,
    head and sequence sizes of k and v are, a call with equal, supported
    head dimensions returns.  It returns an [o] with the shape and the
    device of q in a fresh storage, with the strides that
    [torch.empty_like] gives it (those of q when q is non-overlapping and
    dense, the contiguous ones otherwise), saves q, k, v, o and a
    contiguous [L] of shape [(B, H, M)] on [ctx], allocates nothing else,
    launches [_fwd_kernel] once on the grid [(cdiv(M, BLOCK_M), H, B)],
    leaves the current device as it found it, and leaves every storage that
    existed before the call (those of q, k and v among them) unchanged. *)
Theorem forward_effects (cap : Z -> Z * Z) (uninit : mem)
    (q k v : tensor) (causal : bool) (sm_scale : option R) (h : host)
    (B H M D Bk Hk N Bv Hv Nv : Z) (sq sk sv : strides) :
  t_shape q = [B; H; M; D] ->
  t_shape k = [Bk; Hk; N; D] ->
  t_shape v = [Bv; Hv; Nv; D] ->
  t_stride q = [s0 sq; s1 sq; s2 sq; s3 sq] ->
  t_stride k = [s0 sk; s1 sk; s2 sk; s3 sk] ->
  t_stride v = [s0 sv; s1 sv; s2 sv; s3 sv] ->
  supported_head_dim D = true ->
  let BLOCK_M := fst (fst (fst (fwd_config (cap (t_device q)) causal D M))) in
  let grid := (cdiv M BLOCK_M, H, B) in
  let o := mkTensor [B; H; M; D] (like_stride [B; H; M; D] (t_stride q))
                    (t_device q) (next_storage h) in
  let L := mkTensor [B; H; M] [H * (M * 1); M * 1; 1] (t_device q)
                    (S (next_storage h)) in
  let scale := match sm_scale with
               | Some s => s
               | None => (1 / sqrt (IZR D))%R
               end in
  exists hp : nat -> mem,
    forward cap uninit q k v causal sm_scale h
    = ({| current_device := current_device h;
          heap := hp;
          next_storage := S (S (next_storage h));
          trace := trace h ++
                   [EvSetDevice (t_device q);
                    EvAlloc (next_storage h) [B; H; M; D];
                    EvAlloc (S (next_storage h)) [B; H; M];
                    EvLaunch K_fwd grid;
                    EvSetDevice (current_device h)] |},
       inr (o, mkCtx q k v o L grid scale D (N - M) causal))
    /\ forall id, (id < next_storage h)%nat -> hp id = heap h id.
Proof.
  intros Eq Ek Ev Sq Sk Sv HD BLOCK_M grid o L scale.
  subst BLOCK_M grid o L scale.
  destruct sq as [q0 q1 q2 q3], sk as [k0 k1 k2 k3], sv as [v0 v1 v2 v3].
  cbn [s0 s1 s2 s3] in *.
  unfold forward, bind, cuda_current_device, cuda_set_device,
    shape_last, shape_at, unpack4, of_option, ret.
  rewrite Eq, Ek, Ev. cbn [rev app nth_error fst snd].
  rewrite !Z.eqb_refl. cbn [andb py_assert]. unfold py_assert, ret.
  rewrite HD.
  destruct (fwd_config (cap (t_device q)) causal D M)
    as [[[BLOCK_M BLOCK_N] num_stages] num_warps].
  unfold empty_like, empty, alloc, strides4, read_heap, launched, bind,
    of_option, ret.
  cbn [t_shape t_stride t_device t_storage current_device heap next_storage
       trace fst snd nth_error contiguous_stride fold_right].
  rewrite Sq, Sk, Sv, Eq.
  rewrite (like_stride_four B H M D q0 q1 q2 q3). cbn [nth_error].
  cbn [t_shape t_stride t_device t_storage current_device heap next_storage
       trace fst snd nth_error fold_left].
  rewrite <- !app_assoc. cbn [app].
  eexists. split; [reflexivity|].
  intros id Hid. cbn beta.
  assert (Hne : forall a b : nat, (a < b)%nat -> Nat.eqb a b = false)
    by (intros a b Hab; apply Nat.eqb_neq; lia).
  rewrite (Hne id (next_storage h)), (Hne id (S (next_storage h))) by lia.
  reflexivity.
Qed.

Lemma forward_effects_witness :
  exists hp : nat -> mem,
    forward a100 (fun _ => F 0)
            (contiguous_tensor [2; 3; 100; 16] 0 0)
            (contiguous_tensor [1; 1; 7; 16] 0 1)
            (contiguous_tensor [5; 2; 9; 16] 0 2) true None host0
    = ({| current_device := 0;
          heap := hp;
          next_storage := 5;
          trace := [EvSetDevice 0;
                    EvAlloc 3 [2; 3; 100; 16];
                    EvAlloc 4 [2; 3; 100];
                    EvLaunch K_fwd (1, 3, 2);
                    EvSetDevice 0] |},
       inr (mkTensor [2; 3; 100; 16] [4800; 1600; 16; 1] 0 3,
            mkCtx (contiguous_tensor [2; 3; 100; 16] 0 0)
                  (contiguous_tensor [1; 1; 7; 16] 0 1)
                  (contiguous_tensor [5; 2; 9; 16] 0 2)
                  (mkTensor [2; 3; 100; 16] [4800; 1600; 16; 1] 0 3)
                  (mkTensor [2; 3; 100] [300; 100; 1] 0 4)
                  (1, 3, 2) (1 / sqrt 16) 16 (7 - 100) true))
    /\ forall id, (id < 3)%nat -> hp id = heap host0 id.
Proof.
  exact (forward_effects a100 (fun _ => F 0)
           (contiguous_tensor [2; 3; 100; 16] 0 0)
           (contiguous_tensor [1; 1; 7; 16] 0 1)
           (contiguous_tensor [5; 2; 9; 16] 0 2) true None host0
           2 3 100 16 1 1 7 5 2 9
           (mkStrides 4800 1600 16 1) (mkStrides 112 112 16 1)
           (mkStrides 288 144 16 1)
           eq_refl eq_refl eq_refl eq_refl eq_refl eq_refl eq_refl).
Defined.

(** ** [backward]: what a call does *)

(** [backward] has no assertion.  On a context whose q is 4-d, whose k has
    a third axis and whose tensors have the strides their kernels are
    passed, it runs to the end; the storages of delta, dk, dv and dq hold
    what the three launches store, each kernel reading the storages as
    they were before the call and the delta of the first launch.  delta,
    dk, dv and dq have the strides that [torch.empty_like] and
    [torch.zeros_like] give them. *)
Lemma backward_runs (cap : Z -> Z * Z) (uninit : mem)
    (ctx : context) (do : tensor) (h : host)
    (B H M D N : Z)
    (sq sk sv so sdo sdq sdk sdv : strides) (l0 l1 l2 : Z)
    (lrest : list Z) :
  t_shape (ctx_q ctx) = [B; H; M; D] ->
  nth_error (t_shape (ctx_k ctx)) 2 = Some N ->
  t_stride (ctx_q ctx) = [s0 sq; s1 sq; s2 sq; s3 sq] ->
  t_stride (ctx_k ctx) = [s0 sk; s1 sk; s2 sk; s3 sk] ->
  t_stride (ctx_v ctx) = [s0 sv; s1 sv; s2 sv; s3 sv] ->
  t_stride (ctx_o ctx) = [s0 so; s1 so; s2 so; s3 so] ->
  t_stride do = [s0 sdo; s1 sdo; s2 sdo; s3 sdo] ->
  like_stride (t_shape (ctx_L ctx)) (t_stride (ctx_L ctx))
  = l0 :: l1 :: l2 :: lrest ->
  like_stride (t_shape (ctx_q ctx)) (t_stride (ctx_q ctx))
  = [s0 sdq; s1 sdq; s2 sdq; s3 sdq] ->
  like_stride (t_shape (ctx_k ctx)) (t_stride (ctx_k ctx))
  = [s0 sdk; s1 sdk; s2 sdk; s3 sdk] ->
  like_stride (t_shape (ctx_v ctx)) (t_stride (ctx_v ctx))
  = [s0 sdv; s1 sdv; s2 sdv; s3 sdv] ->
  (t_storage (ctx_q ctx) < next_storage h)%nat ->
  (t_storage (ctx_k ctx) < next_storage h)%nat ->
  (t_storage (ctx_v ctx) < next_storage h)%nat ->
  (t_storage (ctx_o ctx) < next_storage h)%nat ->
  (t_storage (ctx_L ctx) < next_storage h)%nat ->
  (t_storage do < next_storage h)%nat ->
  let q := ctx_q ctx in
  let k := ctx_k ctx in
  let v := ctx_v ctx in
  let n := next_storage h in
  let cfg := bwd_config (cap (t_device q)) (ctx_causal ctx) D in
  let BLOCK_M := fst (fst (fst cfg)) in
  let BLOCK_N := snd (fst (fst cfg)) in
  let divisible_m := M mod BLOCK_M =? 0 in
  let divisible_n := N mod BLOCK_N =? 0 in
  let delta_mem :=
    apply_writes uninit
      (pre_launch (heap h (t_storage (ctx_o ctx))) (heap h (t_storage do))
                  so sdo (l0, l1, l2) M BLOCK_M D divisible_m
                  (cdiv M BLOCK_M, H, B)) in
  let w := kv_launch (heap h (t_storage q)) (heap h (t_storage k))
                     (heap h (t_storage v)) (ctx_sm_scale ctx)
                     (heap h (t_storage do)) (heap h (t_storage (ctx_L ctx)))
                     delta_mem sq sk sv sdo sdk sdv H M (N - M)
                     BLOCK_M BLOCK_N D (ctx_causal ctx)
                     divisible_m divisible_n (cdiv N BLOCK_N, H, B) in
  let wq := q_launch (heap h (t_storage q)) (heap h (t_storage k))
                     (heap h (t_storage v)) (ctx_sm_scale ctx)
                     (heap h (t_storage do)) (heap h (t_storage (ctx_L ctx)))
                     delta_mem sq sk sv sdo sdq H M (N - M)
                     BLOCK_M BLOCK_N D (ctx_causal ctx)
                     divisible_m divisible_n (cdiv M BLOCK_M, H, B) in
  exists hp : nat -> mem,
    backward cap uninit ctx do h
    = ({| current_device := current_device h;
          heap := hp;
          next_storage := S (S (S (S n)));
          trace := trace h ++
                   [EvSetDevice (t_device q);
                    EvAlloc n (t_shape (ctx_L ctx));
                    EvLaunch K_bwd_preprocess (cdiv M BLOCK_M, H, B);
                    EvAlloc (S n) (t_shape k);
                    EvAlloc (S (S n)) (t_shape v);
                    EvLaunch K_bwd_kv (cdiv N BLOCK_N, H, B);
                    EvAlloc (S (S (S n))) (t_shape q);
                    EvLaunch K_bwd_q (cdiv M BLOCK_M, H, B);
                    EvSetDevice (current_device h)] |},
       inr (mkTensor (t_shape q) [s0 sdq; s1 sdq; s2 sdq; s3 sdq]
                     (t_device q) (S (S (S n))),
            mkTensor (t_shape k) [s0 sdk; s1 sdk; s2 sdk; s3 sdk]
                     (t_device k) (S n),
            mkTensor (t_shape v) [s0 sdv; s1 sdv; s2 sdv; s3 sdv]
                     (t_device v) (S (S n))))
    /\ (forall id, (id < n)%nat -> hp id = heap h id)
    /\ hp n = delta_mem
    /\ hp (S n) = apply_writes uninit (fst w)
    /\ hp (S (S n)) = apply_writes uninit (snd w)
    /\ hp (S (S (S n))) = apply_writes (fun _ => F 0) wq.
Proof.
  intros Eq Ek Sq Sk Sv So Sdo SL Sdq Sdk Sdv Lq Lk Lv Lo LL Ldo.
  intros q k v n cfg BLOCK_M BLOCK_N divisible_m divisible_n delta_mem w wq.
  subst delta_mem w wq divisible_m divisible_n BLOCK_M BLOCK_N cfg q k v n.
  destruct sq as [q0 q1 q2 q3], sk as [k0 k1 k2 k3], sv as [v0 v1 v2 v3],
    so as [o0 o1 o2 o3], sdo as [d0 d1 d2 d3], sdq as [a0 a1 a2 a3],
    sdk as [b0 b1 b2 b3], sdv as [c0 c1 c2 c3].
  cbn [s0 s1 s2 s3] in *.
  assert (Hne : forall a b : nat, (a < b)%nat -> Nat.eqb a b = false)
    by (intros a b Hab; apply Nat.eqb_neq; lia).
  unfold backward, empty_like, zeros_like. rewrite SL, Sdq, Sdk, Sdv.
  unfold bind, cuda_current_device, cuda_set_device,
    shape_at, unpack4, of_option, ret.
  rewrite Eq. cbn [current_device heap next_storage trace fst snd].
  rewrite Ek.
  destruct (bwd_config (cap (t_device (ctx_q ctx))) (ctx_causal ctx) D)
    as [[[BLOCK_M BLOCK_N] num_stages] num_warps].
  unfold alloc, strides4, strides3, read_heap,
    launched, bind, of_option, ret.
  cbn [t_shape t_stride t_device t_storage current_device heap next_storage
       trace fst snd nth_error fold_left].
  repeat (progress (rewrite ?Sq, ?Sk, ?Sv, ?So, ?Sdo;
                    cbn [t_shape t_stride t_device t_storage current_device
                         heap next_storage trace fst snd nth_error
                         fold_left])).
  rewrite <- !app_assoc. cbn [app].
  set (n := next_storage h) in *.
  rewrite ?Nat.eqb_refl.
  rewrite ?(Hne (t_storage (ctx_q ctx)) n), ?(Hne (t_storage (ctx_k ctx)) n),
    ?(Hne (t_storage (ctx_v ctx)) n), ?(Hne (t_storage (ctx_o ctx)) n),
    ?(Hne (t_storage (ctx_L ctx)) n), ?(Hne (t_storage do) n) by lia.
  rewrite ?(Hne (t_storage (ctx_q ctx)) (S n)),
    ?(Hne (t_storage (ctx_k ctx)) (S n)),
    ?(Hne (t_storage (ctx_v ctx)) (S n)),
    ?(Hne (t_storage (ctx_o ctx)) (S n)),
    ?(Hne (t_storage (ctx_L ctx)) (S n)), ?(Hne (t_storage do) (S n)) by lia.
  rewrite ?(Hne (t_storage (ctx_q ctx)) (S (S n))),
    ?(Hne (t_storage (ctx_k ctx)) (S (S n))),
    ?(Hne (t_storage (ctx_v ctx)) (S (S n))),
    ?(Hne (t_storage (ctx_o ctx)) (S (S n))),
    ?(Hne (t_storage (ctx_L ctx)) (S (S n))),
    ?(Hne (t_storage do) (S (S n))) by lia.
  rewrite ?(Hne (t_storage (ctx_q ctx)) (S (S (S n)))),
    ?(Hne (t_storage (ctx_k ctx)) (S (S (S n)))),
    ?(Hne (t_storage (ctx_v ctx)) (S (S (S n)))),
    ?(Hne (t_storage (ctx_o ctx)) (S (S (S n)))),
    ?(Hne (t_storage (ctx_L ctx)) (S (S (S n)))),
    ?(Hne (t_storage do) (S (S (S n)))) by lia.
  rewrite ?(Hne n (S n)), ?(Hne n (S (S n))), ?(Hne (S n) (S (S n))),
    ?(Hne n (S (S (S n)))) by lia.
  rewrite ?Eq.
  eexists. split; [refine (f_equal2 pair _ eq_refl); reflexivity|].
  cbn beta.
  assert (Hgt : forall a b : nat, (b < a)%nat -> Nat.eqb a b = false)
    by (intros a b Hab; apply Nat.eqb_neq; lia).
  split; [|split; [|split; [|split]]].
  - intros id Hid.
    rewrite (Hne id n), (Hne id (S n)), (Hne id (S (S n))),
      (Hne id (S (S (S n)))) by lia.
    reflexivity.
  - rewrite (Hne n (S (S (S n)))), (Hne n (S (S n))), (Hne n (S n)) by lia.
    rewrite Nat.eqb_refl. reflexivity.
  - rewrite (Hne (S n) (S (S (S n)))) by lia.
    rewrite ?(Hgt (S n) n), ?(Hne (S n) (S (S n))) by lia.
    rewrite ?Nat.eqb_refl. reflexivity.
  - rewrite (Hne (S (S n)) (S (S (S n)))) by lia.
    rewrite ?Nat.eqb_refl, ?(Hgt (S (S n)) (S n)), ?(Hgt (S (S n)) n) by lia.
    reflexivity.
  - rewrite ?Nat.eqb_refl. reflexivity.
Qed.

(** X2.  [backward] never raises on a context whose q, k and v are 4-d
    and whose L is 3-d, whatever the sizes of [do] are: they are not
    compared with those of o.  It allocates delta, dk, dv and dq in
    this order, launches [_bwd_preprocess], [_bwd_kv_kernel] and
    [_bwd_q_kernel] in this order on the grids [(cdiv(M, BLOCK_M), H, B)],
    [(cdiv(N, BLOCK_N), H, B)] and [(cdiv(M, BLOCK_M), H, B)], returns dq,
    dk and dv with the shapes and devices of q, k and v and with the
    strides that [torch.zeros_like] and [torch.empty_like] give them
    (those of q, k, v where these are non-overlapping and dense, the
    contiguous ones otherwise), leaves the current device as it found it
    and leaves every storage that existed before the call (q, k, v, o, L
    and do among them) unchanged. *)
Theorem backward_effects (cap : Z -> Z * Z) (uninit : mem)
    (ctx : context) (do : tensor) (h : host)
    (B H M D Bk Hk N Dk Bv Hv Nv Dv L0 L1 L2 : Z)
    (sq sk sv so sdo : strides) (l0 l1 l2 : Z) :
  t_shape (ctx_q ctx) = [B; H; M; D] ->
  t_shape (ctx_k ctx) = [Bk; Hk; N; Dk] ->
  t_shape (ctx_v ctx) = [Bv; Hv; Nv; Dv] ->
  t_shape (ctx_L ctx) = [L0; L1; L2] ->
  t_stride (ctx_q ctx) = [s0 sq; s1 sq; s2 sq; s3 sq] ->
  t_stride (ctx_k ctx) = [s0 sk; s1 sk; s2 sk; s3 sk] ->
  t_stride (ctx_v ctx) = [s0 sv; s1 sv; s2 sv; s3 sv] ->
  t_stride (ctx_o ctx) = [s0 so; s1 so; s2 so; s3 so] ->
  t_stride do = [s0 sdo; s1 sdo; s2 sdo; s3 sdo] ->
  t_stride (ctx_L ctx) = [l0; l1; l2] ->
  (t_storage (ctx_q ctx) < next_storage h)%nat ->
  (t_storage (ctx_k ctx) < next_storage h)%nat ->
  (t_storage (ctx_v ctx) < next_storage h)%nat ->
  (t_storage (ctx_o ctx) < next_storage h)%nat ->
  (t_storage (ctx_L ctx) < next_storage h)%nat ->
  (t_storage do < next_storage h)%nat ->
  let q := ctx_q ctx in
  let k := ctx_k ctx in
  let v := ctx_v ctx in
  let n := next_storage h in
  let cfg := bwd_config (cap (t_device q)) (ctx_causal ctx) D in
  let BLOCK_M := fst (fst (fst cfg)) in
  let BLOCK_N := snd (fst (fst cfg)) in
  exists hp : nat -> mem,
    backward cap uninit ctx do h
    = ({| current_device := current_device h;
          heap := hp;
          next_storage := S (S (S (S n)));
          trace := trace h ++
                   [EvSetDevice (t_device q);
                    EvAlloc n (t_shape (ctx_L ctx));
                    EvLaunch K_bwd_preprocess (cdiv M BLOCK_M, H, B);
                    EvAlloc (S n) (t_shape k);
                    EvAlloc (S (S n)) (t_shape v);
                    EvLaunch K_bwd_kv (cdiv N BLOCK_N, H, B);
                    EvAlloc (S (S (S n))) (t_shape q);
                    EvLaunch K_bwd_q (cdiv M BLOCK_M, H, B);
                    EvSetDevice (current_device h)] |},
       inr (mkTensor (t_shape q) (like_stride (t_shape q) (t_stride q))
                     (t_device q) (S (S (S n))),
            mkTensor (t_shape k) (like_stride (t_shape k) (t_stride k))
                     (t_device k) (S n),
            mkTensor (t_shape v) (like_stride (t_shape v) (t_stride v))
                     (t_device v) (S (S n))))
    /\ forall id, (id < n)%nat -> hp id = heap h id.
Proof.
  intros Eq Ek Ev EL Sq Sk Sv So Sdo SL Lq Lk Lv Lo LL Ldo.
  intros q k v n cfg BLOCK_M BLOCK_N.
  pose proof (like_stride_four B H M D (s0 sq) (s1 sq) (s2 sq) (s3 sq))
    as Hq.
  pose proof (like_stride_four Bk Hk N Dk (s0 sk) (s1 sk) (s2 sk) (s3 sk))
    as Hk'.
  pose proof (like_stride_four Bv Hv Nv Dv (s0 sv) (s1 sv) (s2 sv) (s3 sv))
    as Hv'.
  destruct (like_stride_three L0 L1 L2 l0 l1 l2) as (d0 & d1 & d2 & HL).
  cbv zeta in Hq, Hk', Hv'. rewrite <- Eq, <- Sq in Hq.
  rewrite <- Ek, <- Sk in Hk'. rewrite <- Ev, <- Sv in Hv'.
  rewrite <- EL, <- SL in HL.
  destruct (backward_runs cap uninit ctx do h B H M D N sq sk sv so sdo
              _ _ _ d0 d1 d2 [] Eq ltac:(now rewrite Ek) Sq Sk Sv So Sdo
              HL Hq Hk' Hv' Lq Lk Lv Lo LL Ldo)
    as (hp & E & Hframe & _).
  exists hp. split; [|exact Hframe].
  rewrite E. unfold q, k, v. now rewrite <- Hq, <- Hk', <- Hv'.
Qed.

Lemma backward_effects_witness :
  exists hp : nat -> mem,
    backward a100 (fun _ => F 0) ctx_example
             (contiguous_tensor [1; 1; 50; 16] 0 5)
             host_example
    = ({| current_device := 0;
          heap := hp;
          next_storage := 10;
          trace := [EvSetDevice 0;
                    EvAlloc 6 [1; 1; 100];
                    EvLaunch K_bwd_preprocess (2, 1, 1);
                    EvAlloc 7 [1; 1; 130; 16];
                    EvAlloc 8 [1; 1; 130; 16];
                    EvLaunch K_bwd_kv (3, 1, 1);
                    EvAlloc 9 [1; 1; 100; 16];
                    EvLaunch K_bwd_q (2, 1, 1);
                    EvSetDevice 0] |},
       inr (mkTensor [1; 1; 100; 16] [1600; 1600; 16; 1] 0 9,
            mkTensor [1; 1; 130; 16] [2080; 2080; 16; 1] 0 7,
            mkTensor [1; 1; 130; 16] [2080; 2080; 16; 1] 0 8))
    /\ forall id, (id < 6)%nat -> hp id = heap host_example id.
Proof.
  exact (backward_effects a100 (fun _ => F 0) ctx_example
           (contiguous_tensor [1; 1; 50; 16] 0 5) host_example
           1 1 100 16 1 1 130 16 1 1 130 16 1 1 100
           (mkStrides 1600 1600 16 1) (mkStrides 2080 2080 16 1)
           (mkStrides 2080 2080 16 1) (mkStrides 1600 1600 16 1)
           (mkStrides 800 800 16 1) 100 100 1
           eq_refl eq_refl eq_refl eq_refl eq_refl eq_refl eq_refl eq_refl
           eq_refl eq_refl
           ltac:(simpl; lia) ltac:(simpl; lia) ltac:(simpl; lia)
           ltac:(simpl; lia) ltac:(simpl; lia) ltac:(simpl; lia)).
Defined.

(** ** [_bwd_kv_kernel]: what the sweep over the query tiles adds up *)

Lemma kv_lo_tile (P_SEQ BLOCK_M BLOCK_N start_n : Z) (causal : bool) :
  0 < BLOCK_M ->
  exists c, 0 <= c /\ kv_lo P_SEQ BLOCK_M BLOCK_N causal start_n = c * BLOCK_M.
Proof.
  intros HBM. unfold kv_lo. destruct causal.
  - exists (Z.max (start_n * BLOCK_N - P_SEQ) 0 / BLOCK_M).
    split; [apply Z.div_pos; lia | reflexivity].
  - exists 0. lia.
Qed.

Section KvSums.
(** q, k, v and do hold finite numbers; so do the rows of L and of delta
    that belong to the head of the instance. *)
Variables (Qr Kr Vr DOr Lr Dr : Z -> R) (sm_scale : R).
Variables (L Dl : mem).
Variables (sq sk sv sdo : strides).
Variables (H M N BLOCK_M BLOCK_DMODEL BLOCK_N : Z).
Variables (causal : bool).
Variables (start_n off_h off_z : Z).

Local Abbreviation Q := (finite_mem Qr).
Local Abbreviation K := (finite_mem Kr).
Local Abbreviation V := (finite_mem Vr).
Local Abbreviation DO := (finite_mem DOr).
Local Abbreviation P_SEQ := (N - M).
Local Abbreviation DIVISIBLE_M := (M mod BLOCK_M =? 0).
Local Abbreviation DIVISIBLE_N := (N mod BLOCK_N =? 0).
Local Abbreviation lo := (kv_lo P_SEQ BLOCK_M BLOCK_N causal start_n).
Local Abbreviation state_at :=
  (kv_state_at Q K V sm_scale DO L Dl sq sk sv sdo H M P_SEQ BLOCK_M
               BLOCK_DMODEL BLOCK_N causal DIVISIBLE_M DIVISIBLE_N
               start_n off_h off_z).
Local Abbreviation body :=
  (kv_body Q K V sm_scale DO L Dl sq sk sv sdo H M P_SEQ BLOCK_M
           BLOCK_DMODEL BLOCK_N causal DIVISIBLE_M DIVISIBLE_N
           start_n off_h off_z).
Local Abbreviation p :=
  (p_ref Qr Kr Lr sq sk sm_scale causal H M N BLOCK_DMODEL off_z off_h).
Local Abbreviation ds :=
  (ds_ref Qr Kr Vr DOr Lr Dr sq sk sv sdo sm_scale causal H M N BLOCK_DMODEL
          off_z off_h).

Hypothesis BLOCK_M_pos : 0 < BLOCK_M.
Hypothesis L_rows : forall m, 0 <= m < M ->
  L (offset3 H M off_z off_h m) = F (Lr (offset3 H M off_z off_h m)).
Hypothesis D_rows : forall m, 0 <= m < M ->
  Dl (offset3 H M off_z off_h m) = F (Dr (offset3 H M off_z off_h m)).

(** The column [n = start_n * BLOCK_N + j] of the instance is a column
    of k. *)
Variable j : Z.
Hypothesis lane : 0 <= j.
Hypothesis tile_nonneg : 0 <= start_n.
Hypothesis col_in_range : start_n * BLOCK_N + j < N.
Hypothesis BLOCK_N_nonneg : 0 <= BLOCK_N.
Local Abbreviation n := (start_n * BLOCK_N + j).

(** What the row [m] adds to [dv[n,k]] and to [dk[n,k]]. *)
Local Abbreviation v_term k :=
  (fun m => if m <? M then p m n * DOr (offset4 sdo off_z off_h m k)
            else 0)%R.
Local Abbreviation k_term k :=
  (fun m => if m <? M then ds m n * Qr (offset4 sq off_z off_h m k)
            else 0)%R.

Lemma kv_do_ptrs_at (t : nat) :
  kv_do_ptrs (state_at (Z.of_nat t))
  = fun i k => kv_do_ptrs_init sdo off_h off_z lo i k
               + Z.of_nat t * (BLOCK_M * s2 sdo).
Proof.
  induction t as [|t IH].
  - unfold kv_state_at. simpl. extensionality i. extensionality k. lia.
  - replace (Z.of_nat (S t)) with (Z.of_nat t + 1) by lia.
    unfold kv_state_at in *. cbv zeta in *.
    rewrite arange_succ by lia. rewrite map_app, fold_left_app.
    cbn [map fold_left]. unfold kv_body at 1. cbn [kv_do_ptrs].
    rewrite IH. extensionality i. extensionality k. lia.
Qed.

(** The lanes of the query tile that starts at [lo + t * BLOCK_M]: a lane
    is loaded exactly when its row is a row of q. *)
Lemma kv_row_lane (t i : Z) :
  0 <= t -> lo + t * BLOCK_M < M -> 0 <= i < BLOCK_M ->
  lane_ok (kv_mask_m M BLOCK_M DIVISIBLE_M (lo + t * BLOCK_M)) i
  = (lo + t * BLOCK_M + i <? M).
Proof.
  intros Ht Hs Hi. unfold kv_mask_m, kv_offs_m.
  destruct (kv_lo_tile P_SEQ BLOCK_M BLOCK_N start_n causal BLOCK_M_pos)
    as (c & Hc & Elo).
  destruct (Z.eqb_spec (M mod BLOCK_M) 0) as [E0|E0]; cbn [negb].
  - symmetry. apply Z.ltb_lt.
    pose proof (Z.div_mod M BLOCK_M ltac:(lia)) as E.
    rewrite E0, Z.add_0_r in E.
    assert (c + t < M / BLOCK_M) by nia.
    assert ((c + t + 1) * BLOCK_M <= BLOCK_M * (M / BLOCK_M)) by nia.
    lia.
  - destruct (Z.gtb_spec (lo + t * BLOCK_M + BLOCK_M) M); cbn [lane_ok].
    + reflexivity.
    + symmetry. apply Z.ltb_lt. lia.
Qed.

Lemma kv_col_lane :
  lane_ok (kv_mask_n M P_SEQ BLOCK_N DIVISIBLE_N start_n) j = true.
Proof.
  unfold kv_mask_n, kv_offs_n. destruct (negb DIVISIBLE_N); [|reflexivity].
  destruct (_ >? _); [|reflexivity]. simpl. apply Z.ltb_lt. lia.
Qed.

Lemma kv_q_lane (t i k : Z) :
  0 <= t -> lo + t * BLOCK_M < M -> 0 <= i < BLOCK_M ->
  kv_q Q M BLOCK_M DIVISIBLE_M (state_at t) (lo + t * BLOCK_M) i k
  = F (if lo + t * BLOCK_M + i <? M
       then Qr (offset4 sq off_z off_h (lo + t * BLOCK_M + i) k) else 0).
Proof.
  intros Ht Hs Hi. unfold kv_q. rewrite kv_row_lane by assumption.
  pose proof (kv_ptrs_at Qr Kr Vr sm_scale DOr L Dl sq sk sv sdo H M N
                BLOCK_M BLOCK_DMODEL BLOCK_N causal DIVISIBLE_M DIVISIBLE_N
                start_n off_h off_z (Z.to_nat t)) as Hq.
  rewrite Z2Nat.id in Hq by lia. rewrite Hq.
  destruct (_ <? M); [|reflexivity]. unfold tl_load, finite_mem. f_equal.
  f_equal. unfold kv_q_ptrs_init, kv_Q_base, kv_offs_m_init, offset4. lia.
Qed.

Lemma kv_do_lane (t i k : Z) :
  0 <= t -> lo + t * BLOCK_M < M -> 0 <= i < BLOCK_M ->
  tl_load DO (kv_do_ptrs (state_at t) i k)
          (lane_ok (kv_mask_m M BLOCK_M DIVISIBLE_M (lo + t * BLOCK_M)) i)
  = F (if lo + t * BLOCK_M + i <? M
       then DOr (offset4 sdo off_z off_h (lo + t * BLOCK_M + i) k) else 0).
Proof.
  intros Ht Hs Hi. rewrite kv_row_lane by assumption.
  pose proof (kv_do_ptrs_at (Z.to_nat t)) as Hd.
  rewrite Z2Nat.id in Hd by lia. rewrite Hd.
  destruct (_ <? M); [|reflexivity]. unfold tl_load, finite_mem. f_equal.
  f_equal. unfold kv_do_ptrs_init, kv_DO_base, kv_offs_m_init, offset4. lia.
Qed.

Lemma kv_v_lane (k : Z) :
  kv_v V sv M P_SEQ BLOCK_N DIVISIBLE_N start_n off_h off_z j k
  = F (Vr (offset4 sv off_z off_h n k)).
Proof.
  unfold kv_v. rewrite kv_col_lane. unfold tl_load, finite_mem. f_equal.
  f_equal. unfold kv_v_ptrs, kv_V_base, kv_offs_n, offset4. lia.
Qed.

Lemma kv_delta_lane (t i : Z) :
  0 <= t -> lo + t * BLOCK_M < M -> 0 <= i < BLOCK_M ->
  tl_load Dl (kv_D_base H M off_h off_z + kv_offs_m (lo + t * BLOCK_M) i)
          (lane_ok (kv_mask_m M BLOCK_M DIVISIBLE_M (lo + t * BLOCK_M)) i)
  = F (if lo + t * BLOCK_M + i <? M
       then Dr (offset3 H M off_z off_h (lo + t * BLOCK_M + i)) else 0).
Proof.
  intros Ht Hs Hi. rewrite kv_row_lane by assumption.
  destruct (kv_lo_tile P_SEQ BLOCK_M BLOCK_N start_n causal BLOCK_M_pos)
    as (c & Hc & Elo).
  destruct (Z.ltb_spec (lo + t * BLOCK_M + i) M) as [Hm|Hm]; [|reflexivity].
  unfold tl_load. rewrite <- D_rows by nia. reflexivity.
Qed.

(** The block [p] of iteration [t]. *)
Lemma kv_p_lane (t i : Z) :
  0 <= t -> lo + t * BLOCK_M < M -> 0 <= i < BLOCK_M ->
  kv_p_at Q K V sm_scale DO L Dl sq sk sv sdo H M P_SEQ BLOCK_M
          BLOCK_DMODEL BLOCK_N causal DIVISIBLE_M DIVISIBLE_N
          start_n off_h off_z t i j
  = F (if lo + t * BLOCK_M + i <? M then p (lo + t * BLOCK_M + i) n else 0).
Proof.
  intros Ht Hs Hi.
  destruct (Z.ltb_spec (lo + t * BLOCK_M + i) M) as [Hm|Hm].
  - rewrite (kv_p_row Qr Kr Vr sm_scale DOr L Dl sq sk sv sdo H M N BLOCK_M
               BLOCK_DMODEL BLOCK_N causal DIVISIBLE_M DIVISIBLE_N
               start_n off_h off_z t i j
               (Lr (offset3 H M off_z off_h (lo + t * BLOCK_M + i)))
               Ht Hm col_in_range).
    + reflexivity.
    + destruct (kv_lo_tile P_SEQ BLOCK_M BLOCK_N start_n causal BLOCK_M_pos)
        as (c & Hc & Elo).
      apply L_rows. nia.
  - pose proof (kv_row_lane t i Ht Hs Hi) as Hlane.
    replace (lo + t * BLOCK_M + i <? M) with false in Hlane
      by (symmetry; apply Z.ltb_ge; lia).
    unfold kv_p_at, kv_p, kv_apply_masks. cbv zeta.
    unfold kv_valid_mask. unfold kv_mask_m in Hlane.
    destruct (negb DIVISIBLE_M); [|discriminate Hlane].
    destruct (_ >? M); [|discriminate Hlane].
    cbn [lane_ok] in Hlane. cbv beta iota. unfold tl_where.
    destruct causal; cbv beta; rewrite Hlane;
      [destruct (kv_causal_mask _ _ _ _ _ _)|]; reflexivity.
Qed.

(** The two [tl.where] of an iteration, on the lane of a row of q and on
    the lane of a row past the last one. *)
Lemma kv_masks_row (t i : Z) (x : Z -> Z -> fp) :
  0 <= t -> lo + t * BLOCK_M < M -> 0 <= i < BLOCK_M ->
  kv_apply_masks M P_SEQ BLOCK_M BLOCK_N causal DIVISIBLE_M DIVISIBLE_N
                 start_n (lo + t * BLOCK_M) x i j
  = if lo + t * BLOCK_M + i <? M
    then if visible causal M N (lo + t * BLOCK_M + i) n then x i j else F 0
    else F 0.
Proof.
  intros Ht Hs Hi.
  pose proof (kv_row_lane t i Ht Hs Hi) as Hlane.
  pose proof kv_col_lane as Hcol.
  assert (Hc : kv_causal_mask P_SEQ BLOCK_N start_n (lo + t * BLOCK_M) i j
               = (n <=? N - M + (lo + t * BLOCK_M + i))).
  { unfold kv_causal_mask, kv_offs_m, kv_offs_n. now rewrite Z.geb_leb. }
  unfold kv_apply_masks, kv_valid_mask, visible.
  unfold kv_mask_m in Hlane. unfold kv_mask_n in *. unfold tl_where.
  destruct (lo + t * BLOCK_M + i <? M) eqn:Em.
  - destruct (negb DIVISIBLE_M), (negb DIVISIBLE_N);
      repeat (destruct (_ >? _)); cbn [option_map lane_ok] in *;
      destruct causal; cbv beta; rewrite ?Hlane, ?Hcol, ?Hc;
      try destruct (_ <=? _); reflexivity.
  - destruct (negb DIVISIBLE_M); [|discriminate Hlane].
    destruct (_ >? M); [|discriminate Hlane].
    cbn [lane_ok] in Hlane.
    destruct causal; cbv beta; rewrite Hlane;
      [destruct (kv_causal_mask _ _ _ _ _ _)|]; reflexivity.
Qed.

Lemma kv_ds_lane (t i : Z) :
  0 <= t -> lo + t * BLOCK_M < M -> 0 <= i < BLOCK_M ->
  let st := state_at t in
  let start_m := lo + t * BLOCK_M in
  let mask_m := kv_mask_m M BLOCK_M DIVISIBLE_M start_m in
  let do := fun i k => tl_load DO (kv_do_ptrs st i k) (lane_ok mask_m i) in
  kv_apply_masks M P_SEQ BLOCK_M BLOCK_N causal DIVISIBLE_M DIVISIBLE_N
    start_n start_m
    (fun i j =>
       fmul (kv_p Q K sm_scale L sk H M P_SEQ BLOCK_M BLOCK_DMODEL BLOCK_N
                  causal DIVISIBLE_M DIVISIBLE_N start_n off_h off_z
                  st start_m i j)
            (fsub (fadd (F 0)
                        (tl_dot BLOCK_DMODEL do
                           (tl_trans (kv_v V sv M P_SEQ BLOCK_N DIVISIBLE_N
                                           start_n off_h off_z)) i j))
                  (tl_load Dl (kv_D_base H M off_h off_z
                               + kv_offs_m start_m i)
                           (lane_ok mask_m i)))) i j
  = F (if lo + t * BLOCK_M + i <? M then ds (lo + t * BLOCK_M + i) n else 0).
Proof.
  intros Ht Hs Hi st start_m mask_m do. subst start_m mask_m.
  rewrite kv_masks_row by assumption.
  destruct (Z.ltb_spec (lo + t * BLOCK_M + i) M) as [Hm|Hm]; [|reflexivity].
  pose proof (kv_p_lane t i Ht Hs Hi) as Hp. unfold kv_p_at in Hp.
  cbv zeta in Hp. fold st in Hp.
  replace (lo + t * BLOCK_M + i <? M) with true in Hp
    by (symmetry; apply Z.ltb_lt; lia).
  unfold ds_ref.
  destruct (visible causal M N (lo + t * BLOCK_M + i) n) eqn:Ev.
  - cbv beta. rewrite Hp.
    rewrite (kv_delta_lane t i Ht Hs Hi).
    replace (lo + t * BLOCK_M + i <? M) with true
      by (symmetry; apply Z.ltb_lt; lia).
    assert (Hdp : tl_dot BLOCK_DMODEL do
                    (tl_trans (kv_v V sv M P_SEQ BLOCK_N DIVISIBLE_N
                                    start_n off_h off_z)) i j
                  = F (dp_ref Vr DOr sv sdo BLOCK_DMODEL off_z off_h
                              (lo + t * BLOCK_M + i) n)).
    { unfold tl_dot, dp_ref. apply fsum_F_in. intros d _.
      unfold tl_trans, do, st. rewrite kv_v_lane.
      rewrite (kv_do_lane t i d Ht Hs Hi).
      replace (lo + t * BLOCK_M + i <? M) with true
        by (symmetry; apply Z.ltb_lt; lia).
      reflexivity. }
    rewrite Hdp, fadd_0_l. cbn [fsub fneg fadd fmul]. reflexivity.
  - f_equal. unfold p_ref. rewrite Ev. ring.
Qed.

(** One iteration adds the rows of its tile. *)
Lemma kv_step_sums (t k : Z) :
  0 <= t -> lo + t * BLOCK_M < M ->
  kv_dv (state_at (t + 1)) j k
  = fadd (kv_dv (state_at t) j k)
         (F (rsum (fun i => v_term k (lo + t * BLOCK_M + i))
                  (arange BLOCK_M)))
  /\ kv_dk (state_at (t + 1)) j k
     = fadd (kv_dk (state_at t) j k)
            (F (rsum (fun i => k_term k (lo + t * BLOCK_M + i))
                     (arange BLOCK_M))).
Proof.
  intros Ht Hs. rewrite kv_state_next by assumption.
  unfold kv_body. cbv beta zeta. cbn [kv_dv kv_dk]. split.
  - f_equal. unfold tl_dot at 1, tl_trans at 1, to_dtype at 1.
    apply fsum_F_in. intros i Hi. apply In_arange in Hi. cbv beta.
    pose proof (kv_p_lane t i Ht Hs Hi) as Hp. unfold kv_p_at in Hp.
    cbv zeta in Hp. rewrite Hp.
    rewrite (kv_do_lane t i k Ht Hs Hi).
    destruct (_ <? M); cbn [fmul]; f_equal; ring.
  - f_equal. unfold tl_dot at 1, tl_trans at 1, to_dtype at 1.
    apply fsum_F_in. intros i Hi. apply In_arange in Hi. cbv beta.
    pose proof (kv_ds_lane t i Ht Hs Hi) as Hds. cbv beta zeta in Hds.
    rewrite Hds. rewrite (kv_q_lane t i k Ht Hs Hi).
    destruct (_ <? M); cbn [fmul]; f_equal; ring.
Qed.

(** The sweep after [t] iterations has added the rows
    [lo .. lo + t * BLOCK_M - 1]. *)
Lemma kv_sums_at (t : nat) (k : Z) :
  (t = 0%nat \/ lo + (Z.of_nat t - 1) * BLOCK_M < M) ->
  kv_dv (state_at (Z.of_nat t)) j k
  = F (rsum (fun r => v_term k (lo + r)) (arange (Z.of_nat t * BLOCK_M)))
  /\ kv_dk (state_at (Z.of_nat t)) j k
     = F (rsum (fun r => k_term k (lo + r)) (arange (Z.of_nat t * BLOCK_M))).
Proof.
  induction t as [|t IH]; intros Hb.
  - split; reflexivity.
  - destruct Hb as [Hb|Hb]; [discriminate|].
    replace (Z.of_nat (S t)) with (Z.of_nat t + 1) in * by lia.
    replace (Z.of_nat t + 1 - 1) with (Z.of_nat t) in Hb by lia.
    destruct IH as [IHv IHk]; [destruct t; [now left|right; nia]|].
    destruct (kv_step_sums (Z.of_nat t) k ltac:(lia) Hb) as [Ev Ek].
    rewrite Ev, Ek, IHv, IHk.
    replace ((Z.of_nat t + 1) * BLOCK_M)
      with (Z.of_nat t * BLOCK_M + BLOCK_M) by lia.
    rewrite arange_app by nia. rewrite !rsum_app, !rsum_map.
    cbn [fadd]. split; f_equal; f_equal; apply rsum_ext; intros i _;
      cbv beta;
      replace (lo + (Z.of_nat t * BLOCK_M + i))
        with (lo + Z.of_nat t * BLOCK_M + i) by lia;
      reflexivity.
Qed.

(** Rows below [lo] add nothing. *)
Lemma kv_below_lo_zero (m : Z) :
  0 <= m < lo -> p m n = 0%R.
Proof.
  intros Hm. unfold p_ref, visible. unfold kv_lo in Hm.
  destruct causal; [|lia].
  pose proof (kv_below_lo_masked P_SEQ BLOCK_M BLOCK_N start_n BLOCK_M_pos
                m n Hm ltac:(lia)) as Hmask.
  replace (n <=? N - M + m) with false; [reflexivity|].
  symmetry. apply Z.leb_gt. lia.
Qed.

Lemma kv_rows_sum (g term : Z -> R) (T : Z) :
  0 <= T -> M <= lo + T * BLOCK_M -> 0 <= M ->
  (forall m, 0 <= m < M -> g m = term m) ->
  (forall m, M <= m -> g m = 0%R) ->
  (forall m, 0 <= m < lo -> m < M -> term m = 0%R) ->
  rsum (fun r => g (lo + r)) (arange (T * BLOCK_M)) = rsum term (arange M).
Proof.
  intros HT Hcover HM Hin Hout Hlow.
  destruct (kv_lo_tile P_SEQ BLOCK_M BLOCK_N start_n causal BLOCK_M_pos)
    as (c & Hc & Elo).
  assert (Hlo : 0 <= lo) by nia.
  assert (E1 : rsum g (arange (lo + T * BLOCK_M))
               = rsum (fun r => g (lo + r)) (arange (T * BLOCK_M))).
  { rewrite arange_app by nia. rewrite rsum_app, rsum_map.
    rewrite (rsum_zero g (arange lo)); [lra|].
    intros m Hm. apply In_arange in Hm.
    destruct (Z_lt_ge_dec m M) as [HmM|HmM].
    - rewrite Hin by lia. apply Hlow; lia.
    - apply Hout. lia. }
  rewrite <- E1.
  rewrite (rsum_arange_extend g M (lo + T * BLOCK_M)).
  - apply rsum_ext. intros m Hm. apply In_arange in Hm. now apply Hin.
  - lia.
  - intros m Hm. apply Hout. lia.
Qed.

(** What the instance writes back for the column [n]. *)
Lemma kv_out_sums (k : Z) :
  kv_dv_out Q K V sm_scale DO L Dl sq sk sv sdo H M P_SEQ BLOCK_M
            BLOCK_DMODEL BLOCK_N causal DIVISIBLE_M DIVISIBLE_N
            start_n off_h off_z j k
  = F (dv_ref Qr Kr DOr Lr sq sk sdo sm_scale causal H M N BLOCK_DMODEL
              off_z off_h n k)
  /\ kv_dk_out Q K V sm_scale DO L Dl sq sk sv sdo H M P_SEQ BLOCK_M
               BLOCK_DMODEL BLOCK_N causal DIVISIBLE_M DIVISIBLE_N
               start_n off_h off_z j k
     = F (dk_ref Qr Kr Vr DOr Lr Dr sq sk sv sdo sm_scale causal H M N
                 BLOCK_DMODEL off_z off_h n k).
Proof.
  unfold kv_dv_out, kv_dk_out, to_dtype. rewrite kv_state_last.
  set (T := cdiv (M - lo) BLOCK_M).
  destruct (kv_lo_tile P_SEQ BLOCK_M BLOCK_N start_n causal BLOCK_M_pos)
    as (c & Hc & Elo).
  assert (Hlo : 0 <= lo) by nia.
  destruct (Z_le_gt_dec T 0) as [HT|HT].
  - (* the sweep is empty: every row of q lies below [lo] *)
    assert (HM : M <= lo).
    { destruct (Z_le_gt_dec M lo); [assumption|].
      assert (0 < T); [|lia]. apply cdiv_gt; lia. }
    unfold kv_state_at. cbv zeta. rewrite (arange_nonpos T) by lia.
    cbn [map fold_left kv_init kv_dv kv_dk fmul].
    unfold dv_ref, dk_ref.
    rewrite (rsum_zero _ (arange M)).
    2:{ intros m Hm. apply In_arange in Hm.
        rewrite kv_below_lo_zero by lia. ring. }
    rewrite (rsum_zero _ (arange M)).
    2:{ intros m Hm. apply In_arange in Hm. unfold ds_ref.
        rewrite kv_below_lo_zero by lia. ring. }
    split; f_equal; ring.
  - assert (Hlast : lo + (T - 1) * BLOCK_M < M).
    { assert (T - 1 < cdiv (M - lo) BLOCK_M) by (fold T; lia).
      apply cdiv_gt in H0; lia. }
    assert (Hcover : M <= lo + T * BLOCK_M).
    { pose proof (cdiv_mul_ge (M - lo) BLOCK_M BLOCK_M_pos). fold T in H0.
      lia. }
    assert (HM : 0 <= M) by nia.
    destruct (kv_sums_at (Z.to_nat T) k) as [Ev Ek].
    { right. rewrite Z2Nat.id by lia. exact Hlast. }
    rewrite Z2Nat.id in Ev, Ek by lia. rewrite Ev, Ek. cbn [fmul].
    unfold dv_ref, dk_ref. split; f_equal; [|f_equal].
    + apply (kv_rows_sum (v_term k)); try lia.
      * intros m Hm. replace (m <? M) with true; [reflexivity|].
        symmetry. apply Z.ltb_lt. lia.
      * intros m Hm. replace (m <? M) with false; [reflexivity|].
        symmetry. apply Z.ltb_ge. lia.
      * intros m Hm _. rewrite kv_below_lo_zero by lia. ring.
    + apply (kv_rows_sum (k_term k)); try lia.
      * intros m Hm. replace (m <? M) with true; [reflexivity|].
        symmetry. apply Z.ltb_lt. lia.
      * intros m Hm. replace (m <? M) with false; [reflexivity|].
        symmetry. apply Z.ltb_ge. lia.
      * intros m Hm _. unfold ds_ref. rewrite kv_below_lo_zero by lia. ring.
Qed.

End KvSums.

(** ** The launch of [_bwd_kv_kernel]: the stores into [dk] and [dv] *)

Lemma kv_col_lane_ok (M N BLOCK_N t j : Z) :
  0 < BLOCK_N -> 0 <= t < cdiv N BLOCK_N -> 0 <= j < BLOCK_N ->
  (lane_ok (kv_mask_n M (N - M) BLOCK_N (N mod BLOCK_N =? 0) t) j = true
   <-> t * BLOCK_N + j < N).
Proof.
  intros HBN [Ht0 Ht] Hj. apply cdiv_gt in Ht; [|assumption].
  unfold kv_mask_n, kv_offs_n.
  destruct (Z.eqb_spec (N mod BLOCK_N) 0) as [E|E]; simpl.
  - split; [intros _|reflexivity].
    apply Z.mod_divide in E; [|lia]. destruct E as [q ->].
    assert (t < q) by nia. nia.
  - destruct (Z.gtb_spec (t * BLOCK_N + BLOCK_N) (M + (N - M))); simpl.
    + rewrite Z.ltb_lt. lia.
    + split; [lia|reflexivity].
Qed.

Section KvLaunch.
Variables (Qr Kr Vr DOr Lr Dr : Z -> R) (sm_scale : R).
Variables (L Dl : mem).
Variables (sq sk sv sdo sdk sdv : strides).
Variables (B H M N BLOCK_M BLOCK_DMODEL BLOCK_N : Z).
Variables (causal : bool).

Local Abbreviation launch :=
  (kv_launch (finite_mem Qr) (finite_mem Kr) (finite_mem Vr) sm_scale
             (finite_mem DOr) L Dl
             sq sk sv sdo sdk sdv H M (N - M) BLOCK_M BLOCK_N BLOCK_DMODEL
             causal (M mod BLOCK_M =? 0) (N mod BLOCK_N =? 0)
             (cdiv N BLOCK_N, H, B)).
Local Abbreviation dv :=
  (dv_ref Qr Kr DOr Lr sq sk sdo sm_scale causal H M N BLOCK_DMODEL).
Local Abbreviation dk :=
  (dk_ref Qr Kr Vr DOr Lr Dr sq sk sv sdo sm_scale causal H M N
          BLOCK_DMODEL).

Hypothesis BLOCK_M_pos : 0 < BLOCK_M.
Hypothesis BLOCK_N_pos : 0 < BLOCK_N.
Hypothesis L_rows : forall z h m, 0 <= z < B -> 0 <= h < H -> 0 <= m < M ->
  L (offset3 H M z h m) = F (Lr (offset3 H M z h m)).
Hypothesis D_rows : forall z h m, 0 <= z < B -> 0 <= h < H -> 0 <= m < M ->
  Dl (offset3 H M z h m) = F (Dr (offset3 H M z h m)).

Lemma kv_launch_rows (w : write) :
  (In w (fst launch) <->
   exists z h n k, 0 <= z < B /\ 0 <= h < H /\ 0 <= n < N
     /\ 0 <= k < BLOCK_DMODEL
     /\ w = (offset4 sdk z h n k, F (dk z h n k)))
  /\ (In w (snd launch) <->
      exists z h n k, 0 <= z < B /\ 0 <= h < H /\ 0 <= n < N
        /\ 0 <= k < BLOCK_DMODEL
        /\ w = (offset4 sdv z h n k, F (dv z h n k))).
Proof.
  assert (Hout : forall t h z j k, 0 <= z < B -> 0 <= h < H ->
            0 <= t -> 0 <= j -> t * BLOCK_N + j < N ->
            kv_dv_out (finite_mem Qr) (finite_mem Kr) (finite_mem Vr)
                      sm_scale (finite_mem DOr) L
                      Dl sq sk sv sdo H M (N - M) BLOCK_M
                      BLOCK_DMODEL BLOCK_N causal (M mod BLOCK_M =? 0)
                      (N mod BLOCK_N =? 0) t h z j k
            = F (dv z h (t * BLOCK_N + j) k)
            /\ kv_dk_out (finite_mem Qr) (finite_mem Kr) (finite_mem Vr)
                         sm_scale (finite_mem DOr) L
                         Dl sq sk sv sdo H M (N - M) BLOCK_M
                         BLOCK_DMODEL BLOCK_N causal (M mod BLOCK_M =? 0)
                         (N mod BLOCK_N =? 0) t h z j k
               = F (dk z h (t * BLOCK_N + j) k)).
  { intros t h z j k Hz Hh Ht Hj Hn.
    apply (kv_out_sums Qr Kr Vr DOr Lr Dr sm_scale L Dl sq sk sv sdo H M N
             BLOCK_M BLOCK_DMODEL BLOCK_N causal t h z BLOCK_M_pos);
      try assumption; try lia; intros m Hm; auto. }
  assert (Hdm : forall t j, 0 <= j < BLOCK_N ->
            (t * BLOCK_N + j) / BLOCK_N = t
            /\ (t * BLOCK_N + j) mod BLOCK_N = j).
  { intros t j Hj. split.
    - rewrite Z.add_comm, Z.div_add by lia. rewrite Z.div_small; lia.
    - rewrite Z.add_comm, Z.mod_add by lia. rewrite Z.mod_small; lia. }
  unfold kv_launch. cbn [fst snd]. rewrite !in_flat_map. split; split.
  - intros ([[t h] z] & Hg & Hw). apply In_grid_ids in Hg as (Ht & Hh & Hz).
    unfold _bwd_kv_kernel in Hw. cbn [fst] in Hw.
    apply In_tl_store2 in Hw as (j & k & Hj & Hok & Hk & ->).
    apply kv_col_lane_ok in Hok; [|assumption..].
    exists z, h, (t * BLOCK_N + j), k. repeat split; try lia.
    destruct (Hout t h z j k) as [_ ->]; try lia. f_equal.
    unfold kv_dk_ptrs, kv_DK_base, kv_offs_n, offset4. lia.
  - intros (z & h & n & k & Hz & Hh & Hn & Hk & ->).
    pose proof (Z.div_mod n BLOCK_N ltac:(lia)) as E.
    pose proof (Z.mod_pos_bound n BLOCK_N BLOCK_N_pos) as Hb.
    assert (Ht : 0 <= n / BLOCK_N < cdiv N BLOCK_N).
    { split; [apply Z.div_pos; lia|]. apply cdiv_gt; [assumption|]. nia. }
    exists (n / BLOCK_N, h, z). split; [apply In_grid_ids; auto|].
    unfold _bwd_kv_kernel. cbn [fst]. apply In_tl_store2.
    exists (n mod BLOCK_N), k. repeat split; try lia.
    + apply kv_col_lane_ok; [assumption..|]. lia.
    + destruct (Hout (n / BLOCK_N) h z (n mod BLOCK_N) k) as [_ ->];
        try lia.
      replace (n / BLOCK_N * BLOCK_N + n mod BLOCK_N) with n by lia.
      f_equal. unfold kv_dk_ptrs, kv_DK_base, kv_offs_n, offset4. nia.
  - intros ([[t h] z] & Hg & Hw). apply In_grid_ids in Hg as (Ht & Hh & Hz).
    unfold _bwd_kv_kernel in Hw. cbn [snd] in Hw.
    apply In_tl_store2 in Hw as (j & k & Hj & Hok & Hk & ->).
    apply kv_col_lane_ok in Hok; [|assumption..].
    exists z, h, (t * BLOCK_N + j), k. repeat split; try lia.
    destruct (Hout t h z j k) as [-> _]; try lia. f_equal.
    unfold kv_dv_ptrs, kv_DV_base, kv_offs_n, offset4. lia.
  - intros (z & h & n & k & Hz & Hh & Hn & Hk & ->).
    pose proof (Z.div_mod n BLOCK_N ltac:(lia)) as E.
    pose proof (Z.mod_pos_bound n BLOCK_N BLOCK_N_pos) as Hb.
    assert (Ht : 0 <= n / BLOCK_N < cdiv N BLOCK_N).
    { split; [apply Z.div_pos; lia|]. apply cdiv_gt; [assumption|]. nia. }
    exists (n / BLOCK_N, h, z). split; [apply In_grid_ids; auto|].
    unfold _bwd_kv_kernel. cbn [snd]. apply In_tl_store2.
    exists (n mod BLOCK_N), k. repeat split; try lia.
    + apply kv_col_lane_ok; [assumption..|]. lia.
    + destruct (Hout (n / BLOCK_N) h z (n mod BLOCK_N) k) as [-> _];
        try lia.
      replace (n / BLOCK_N * BLOCK_N + n mod BLOCK_N) with n by lia.
      f_equal. unfold kv_dv_ptrs, kv_DV_base, kv_offs_n, offset4. nia.
Qed.

(** What the launch leaves in [dk] and in [dv]. *)
Lemma kv_launch_mem (init : mem) (z h n k : Z) :
  0 <= z < B -> 0 <= h < H -> 0 <= n < N -> 0 <= k < BLOCK_DMODEL ->
  (layout_injective sdk B H N BLOCK_DMODEL ->
   apply_writes init (fst launch) (offset4 sdk z h n k) = F (dk z h n k))
  /\ (layout_injective sdv B H N BLOCK_DMODEL ->
      apply_writes init (snd launch) (offset4 sdv z h n k) = F (dv z h n k)).
Proof.
  intros Hz Hh Hn Hk. split; intros Hinj.
  - apply apply_writes_determined.
    + apply in_map_iff. exists (offset4 sdk z h n k, F (dk z h n k)).
      split; [reflexivity|]. apply kv_launch_rows. exists z, h, n, k. auto.
    + intros w Hw Ew.
      apply kv_launch_rows in Hw
        as (z' & h' & n' & k' & Hz' & Hh' & Hn' & Hk' & ->).
      cbn [fst snd] in *.
      destruct (Hinj z' h' n' k' z h n k) as (-> & -> & -> & ->); auto.
  - apply apply_writes_determined.
    + apply in_map_iff. exists (offset4 sdv z h n k, F (dv z h n k)).
      split; [reflexivity|]. apply kv_launch_rows. exists z, h, n, k. auto.
    + intros w Hw Ew.
      apply kv_launch_rows in Hw
        as (z' & h' & n' & k' & Hz' & Hh' & Hn' & Hk' & ->).
      cbn [fst snd] in *.
      destruct (Hinj z' h' n' k' z h n k) as (-> & -> & -> & ->); auto.
Qed.

(** X3.  The launch of [_bwd_kv_kernel] stores into dv, for every batch,
    head, column [n < N] and feature, the sum over all rows [m < M] of
    [p[m,n] * do[m,:]], with [p[m,n] = exp(q[m] . k[n] * sm_scale - L[m])]
    on the visible positions and [0] on the masked ones: the tiles of the
    sweep, the rows skipped below [lo] and the lanes past the last row add
    up to exactly this sum.  It stores into no other element of dv. *)
Theorem bwd_kv_dv_sums :
  (forall w, In w (snd launch) ->
     exists z h n k, 0 <= z < B /\ 0 <= h < H /\ 0 <= n < N
       /\ 0 <= k < BLOCK_DMODEL
       /\ w = (offset4 sdv z h n k, F (dv z h n k)))
  /\ (forall z h n k,
        0 <= z < B -> 0 <= h < H -> 0 <= n < N -> 0 <= k < BLOCK_DMODEL ->
        In (offset4 sdv z h n k, F (dv z h n k)) (snd launch)
        /\ (layout_injective sdv B H N BLOCK_DMODEL ->
            forall init : mem,
              apply_writes init (snd launch) (offset4 sdv z h n k)
              = F (dv z h n k))).
Proof.
  split.
  - intros w Hw. now apply kv_launch_rows in Hw.
  - intros z h n k Hz Hh Hn Hk. split.
    + apply kv_launch_rows. exists z, h, n, k. auto.
    + intros Hinj init. now apply kv_launch_mem.
Qed.

(** X4.  The launch of [_bwd_kv_kernel] stores into dk, for every batch,
    head, column [n < N] and feature, [sm_scale] times the sum over all
    rows [m < M] of [ds[m,n] * q[m,:]], with
    [ds[m,n] = p[m,n] * (do[m] . v[n] - delta[m])].  It stores into no
    other element of dk. *)
Theorem bwd_kv_dk_sums :
  (forall w, In w (fst launch) ->
     exists z h n k, 0 <= z < B /\ 0 <= h < H /\ 0 <= n < N
       /\ 0 <= k < BLOCK_DMODEL
       /\ w = (offset4 sdk z h n k, F (dk z h n k)))
  /\ (forall z h n k,
        0 <= z < B -> 0 <= h < H -> 0 <= n < N -> 0 <= k < BLOCK_DMODEL ->
        In (offset4 sdk z h n k, F (dk z h n k)) (fst launch)
        /\ (layout_injective sdk B H N BLOCK_DMODEL ->
            forall init : mem,
              apply_writes init (fst launch) (offset4 sdk z h n k)
              = F (dk z h n k))).
Proof.
  split.
  - intros w Hw. now apply kv_launch_rows in Hw.
  - intros z h n k Hz Hh Hn Hk. split.
    + apply kv_launch_rows. exists z, h, n, k. auto.
    + intros Hinj init. now apply kv_launch_mem.
Qed.

End KvLaunch.

Lemma bwd_kv_dv_sums_witness :
  In (offset4 (mkStrides 2080 2080 16 1) 0 0 129 15,
      F (dv_ref (fun _ => 1%R) (fun _ => 1%R) (fun _ => 1%R) (fun _ => 0%R)
                (mkStrides 1600 1600 16 1) (mkStrides 2080 2080 16 1)
                (mkStrides 1600 1600 16 1) 1 true 1 100 130 16 0 0 129 15))
     (snd (kv_launch (finite_mem (fun _ => 1%R)) (finite_mem (fun _ => 1%R))
                     (finite_mem (fun _ => 1%R)) 1
                     (finite_mem (fun _ => 1%R)) (fun _ => F 0)
                     (fun _ => F 0)
                     (mkStrides 1600 1600 16 1) (mkStrides 2080 2080 16 1)
                     (mkStrides 2080 2080 16 1) (mkStrides 1600 1600 16 1)
                     (mkStrides 2080 2080 16 1) (mkStrides 2080 2080 16 1)
                     1 100 (130 - 100) 64 64 16 true
                     (100 mod 64 =? 0) (130 mod 64 =? 0)
                     (cdiv 130 64, 1, 1))).
Proof.
  refine (proj1 (proj2
    (bwd_kv_dv_sums (fun _ => 1%R) (fun _ => 1%R) (fun _ => 1%R)
       (fun _ => 1%R) (fun _ => 0%R) (fun _ => 0%R) 1
       (fun _ => F 0) (fun _ => F 0)
       (mkStrides 1600 1600 16 1) (mkStrides 2080 2080 16 1)
       (mkStrides 2080 2080 16 1) (mkStrides 1600 1600 16 1)
       (mkStrides 2080 2080 16 1) (mkStrides 2080 2080 16 1)
       1 1 100 130 64 16 64 true _ _ _ _) 0 0 129 15 _ _ _ _));
    try lia; intros; reflexivity.
Defined.

Lemma bwd_kv_dk_sums_witness :
  In (offset4 (mkStrides 2080 2080 16 1) 0 0 129 15,
      F (dk_ref (fun _ => 1%R) (fun _ => 1%R) (fun _ => 1%R) (fun _ => 1%R)
                (fun _ => 0%R) (fun _ => 0%R)
                (mkStrides 1600 1600 16 1) (mkStrides 2080 2080 16 1)
                (mkStrides 2080 2080 16 1) (mkStrides 1600 1600 16 1)
                1 true 1 100 130 16 0 0 129 15))
     (fst (kv_launch (finite_mem (fun _ => 1%R)) (finite_mem (fun _ => 1%R))
                     (finite_mem (fun _ => 1%R)) 1
                     (finite_mem (fun _ => 1%R)) (fun _ => F 0)
                     (fun _ => F 0)
                     (mkStrides 1600 1600 16 1) (mkStrides 2080 2080 16 1)
                     (mkStrides 2080 2080 16 1) (mkStrides 1600 1600 16 1)
                     (mkStrides 2080 2080 16 1) (mkStrides 2080 2080 16 1)
                     1 100 (130 - 100) 64 64 16 true
                     (100 mod 64 =? 0) (130 mod 64 =? 0)
                     (cdiv 130 64, 1, 1))).
Proof.
  refine (proj1 (proj2
    (bwd_kv_dk_sums (fun _ => 1%R) (fun _ => 1%R) (fun _ => 1%R)
       (fun _ => 1%R) (fun _ => 0%R) (fun _ => 0%R) 1
       (fun _ => F 0) (fun _ => F 0)
       (mkStrides 1600 1600 16 1) (mkStrides 2080 2080 16 1)
       (mkStrides 2080 2080 16 1) (mkStrides 1600 1600 16 1)
       (mkStrides 2080 2080 16 1) (mkStrides 2080 2080 16 1)
       1 1 100 130 64 16 64 true _ _ _ _) 0 0 129 15 _ _ _ _));
    try lia; intros; reflexivity.
Defined.

(** ** [_bwd_q_kernel]: what the loop over the key tiles adds up *)

(** The rows and the columns that the masks let through: all of them when
    the length is a multiple of the block size or smaller than one block,
    and otherwise those before the last, partial tile. *)
Lemma bq_row_kept_spec (M BLOCK_M m : Z) :
  0 < BLOCK_M -> 0 <= m < M ->
  bq_row_kept M BLOCK_M m
  = (M mod BLOCK_M =? 0) || (m <? M / BLOCK_M * BLOCK_M) || (M <? BLOCK_M).
Proof.
  intros HB Hm. unfold bq_row_kept, bq_mask_m, bq_offs_m.
  pose proof (Z.div_mod m BLOCK_M ltac:(lia)) as Em.
  pose proof (Z.mod_pos_bound m BLOCK_M HB) as Hbm.
  pose proof (Z.div_mod M BLOCK_M ltac:(lia)) as EM.
  pose proof (Z.mod_pos_bound M BLOCK_M HB) as HbM.
  assert (0 <= m / BLOCK_M) by (apply Z.div_pos; lia).
  assert (0 <= M / BLOCK_M) by (apply Z.div_pos; lia).
  destruct (Z.eqb_spec (M mod BLOCK_M) 0) as [E0|E0]; [reflexivity|].
  cbn [negb orb].
  destruct (Z.gtb_spec (m / BLOCK_M * BLOCK_M + BLOCK_M) M) as [Hl|Hl];
    cbn [lane_ok].
  - (* the row lies in the last, partial tile *)
    assert (Et : m / BLOCK_M = M / BLOCK_M) by nia.
    replace (m <? M / BLOCK_M * BLOCK_M) with false
      by (symmetry; apply Z.ltb_ge; nia).
    cbn [orb].
    replace (m / BLOCK_M * BLOCK_M + m mod BLOCK_M) with m by lia.
    destruct (Z.ltb_spec M BLOCK_M) as [Hs|Hs].
    + apply Z.ltb_lt. rewrite (Z.mod_small M BLOCK_M) by lia. lia.
    + apply Z.ltb_ge. assert (1 <= M / BLOCK_M) by nia. nia.
  - replace (m <? M / BLOCK_M * BLOCK_M) with true; [reflexivity|].
    symmetry. apply Z.ltb_lt.
    assert (m / BLOCK_M + 1 <= M / BLOCK_M)
      by (apply Z.div_le_lower_bound; lia).
    nia.
Qed.

Lemma bq_col_kept_spec (M N BLOCK_N n : Z) :
  0 < BLOCK_N -> 0 <= n < N ->
  bq_col_kept M N BLOCK_N n
  = (N mod BLOCK_N =? 0) || (n <? N / BLOCK_N * BLOCK_N) || (N <? BLOCK_N).
Proof.
  intros HB Hn. unfold bq_col_kept, bq_mask_n.
  replace (M + (N - M)) with N by lia.
  pose proof (Z.div_mod n BLOCK_N ltac:(lia)) as Em.
  pose proof (Z.mod_pos_bound n BLOCK_N HB) as Hbm.
  pose proof (Z.div_mod N BLOCK_N ltac:(lia)) as EM.
  pose proof (Z.mod_pos_bound N BLOCK_N HB) as HbM.
  assert (0 <= n / BLOCK_N) by (apply Z.div_pos; lia).
  assert (0 <= N / BLOCK_N) by (apply Z.div_pos; lia).
  destruct (Z.eqb_spec (N mod BLOCK_N) 0) as [E0|E0]; [reflexivity|].
  cbn [negb orb].
  destruct (Z.gtb_spec (n / BLOCK_N * BLOCK_N + BLOCK_N) N) as [Hl|Hl];
    cbn [lane_ok].
  - assert (Et : n / BLOCK_N = N / BLOCK_N) by nia.
    replace (n <? N / BLOCK_N * BLOCK_N) with false
      by (symmetry; apply Z.ltb_ge; nia).
    cbn [orb].
    replace (n / BLOCK_N * BLOCK_N + n mod BLOCK_N) with n by lia.
    destruct (Z.ltb_spec N BLOCK_N) as [Hs|Hs].
    + apply Z.ltb_lt. rewrite (Z.mod_small N BLOCK_N) by lia. lia.
    + apply Z.ltb_ge. assert (1 <= N / BLOCK_N) by nia. nia.
  - replace (n <? N / BLOCK_N * BLOCK_N) with true; [reflexivity|].
    symmetry. apply Z.ltb_lt.
    assert (n / BLOCK_N + 1 <= N / BLOCK_N)
      by (apply Z.div_le_lower_bound; lia).
    nia.
Qed.

Section BqSums.
(** q, k, v and do hold finite numbers; so do the rows of L and of delta
    that belong to the head of the instance. *)
Variables (Qr Kr Vr DOr Lr Dr : Z -> R) (sm_scale : R).
Variables (L Dl : mem).
Variables (sq sk sv sdo : strides).
Variables (H M N BLOCK_M BLOCK_DMODEL BLOCK_N : Z).
Variables (causal : bool).
Variables (start_m off_h off_z : Z).

Local Abbreviation Q := (finite_mem Qr).
Local Abbreviation K := (finite_mem Kr).
Local Abbreviation V := (finite_mem Vr).
Local Abbreviation DO := (finite_mem DOr).
Local Abbreviation P_SEQ := (N - M).
Local Abbreviation DIVISIBLE_M := (M mod BLOCK_M =? 0).
Local Abbreviation DIVISIBLE_N := (N mod BLOCK_N =? 0).
Local Abbreviation hi := (bq_hi M P_SEQ BLOCK_M causal start_m).
Local Abbreviation state_at :=
  (bq_state_at Q K V sm_scale DO L Dl sq sk sv sdo H M P_SEQ BLOCK_M
               BLOCK_DMODEL BLOCK_N causal DIVISIBLE_M DIVISIBLE_N
               start_m off_h off_z).
Local Abbreviation kept := (bq_col_kept M N BLOCK_N).
Local Abbreviation ds :=
  (ds_ref Qr Kr Vr DOr Lr Dr sq sk sv sdo sm_scale causal H M N BLOCK_DMODEL
          off_z off_h).

Hypothesis BLOCK_N_pos : 0 < BLOCK_N.
Hypothesis N_nonneg : 0 <= N.
Hypothesis L_rows : forall m, 0 <= m < M ->
  L (offset3 H M off_z off_h m) = F (Lr (offset3 H M off_z off_h m)).
Hypothesis D_rows : forall m, 0 <= m < M ->
  Dl (offset3 H M off_z off_h m) = F (Dr (offset3 H M off_z off_h m)).

(** The row [m = start_m * BLOCK_M + i] of the instance is a row of q that
    the row mask lets through. *)
Variable i : Z.
Hypothesis row_kept :
  lane_ok (bq_mask_m M BLOCK_M DIVISIBLE_M start_m) i = true.
Hypothesis row_in_range : 0 <= start_m * BLOCK_M + i < M.
Local Abbreviation m := (start_m * BLOCK_M + i).

(** What the column [n] adds to [dq[m,k]]. *)
Local Abbreviation q_term k :=
  (fun n => if (n <? N) && kept n
            then ds m n * Kr (offset4 sk off_z off_h n k) else 0)%R.

Lemma bq_ptrs_at (t : nat) :
  q_k_ptrs (state_at (Z.of_nat t))
  = (fun j k => bq_k_ptrs_init sk off_h off_z j k
                + Z.of_nat t * (BLOCK_N * s2 sk))
  /\ q_v_ptrs (state_at (Z.of_nat t))
     = (fun j k => bq_v_ptrs_init sv off_h off_z j k
                   + Z.of_nat t * (BLOCK_N * s2 sv)).
Proof.
  induction t as [|t [IHk IHv]].
  - unfold bq_state_at. simpl.
    split; extensionality j; extensionality k; lia.
  - replace (Z.of_nat (S t)) with (Z.of_nat t + 1) by lia.
    unfold bq_state_at, tile_starts in *.
    rewrite arange_succ by lia. rewrite map_app, fold_left_app.
    cbn [map fold_left]. unfold bq_body at 1 3. cbn [q_k_ptrs q_v_ptrs].
    rewrite IHk, IHv. split; extensionality j; extensionality k; lia.
Qed.

Lemma bq_state_next (t : Z) :
  0 <= t -> state_at (t + 1)
            = bq_body Q K V sm_scale DO L Dl sq sk sv sdo H M P_SEQ BLOCK_M
                      BLOCK_DMODEL BLOCK_N causal DIVISIBLE_M DIVISIBLE_N
                      start_m off_h off_z (state_at t) (t * BLOCK_N).
Proof.
  intros Ht. unfold bq_state_at, tile_starts.
  rewrite arange_succ by lia. now rewrite map_app, fold_left_app.
Qed.

Lemma bq_q_lane (k : Z) :
  bq_q Q sq M BLOCK_M DIVISIBLE_M start_m off_h off_z i k
  = F (Qr (offset4 sq off_z off_h m k)).
Proof.
  unfold bq_q. rewrite row_kept. unfold tl_load, finite_mem. f_equal.
  f_equal. unfold bq_q_ptrs, bq_Q_base, bq_offs_m, offset4. lia.
Qed.

Lemma bq_do_lane (k : Z) :
  bq_do DO sdo M BLOCK_M DIVISIBLE_M start_m off_h off_z i k
  = F (DOr (offset4 sdo off_z off_h m k)).
Proof.
  unfold bq_do. rewrite row_kept. unfold tl_load, finite_mem. f_equal.
  f_equal. unfold bq_do_ptrs, bq_DO_base, bq_offs_m, offset4. lia.
Qed.

Lemma bq_delta_lane :
  bq_delta Dl H M BLOCK_M DIVISIBLE_M start_m off_h off_z i
  = F (Dr (offset3 H M off_z off_h m)).
Proof.
  unfold bq_delta. rewrite row_kept. unfold tl_load.
  rewrite <- D_rows by lia. reflexivity.
Qed.

Lemma bq_l_lane :
  bq_l L H M BLOCK_M DIVISIBLE_M start_m off_h off_z i
  = F (Lr (offset3 H M off_z off_h m)).
Proof.
  unfold bq_l. rewrite row_kept. unfold tl_load.
  rewrite <- L_rows by lia. reflexivity.
Qed.

Lemma bq_col_lane (t j : Z) :
  0 <= j < BLOCK_N ->
  lane_ok (bq_mask_n M P_SEQ BLOCK_N DIVISIBLE_N (t * BLOCK_N)) j
  = kept (t * BLOCK_N + j).
Proof.
  intros Hj. unfold bq_col_kept.
  destruct (tile_div_mod BLOCK_N BLOCK_N_pos t j Hj) as [-> ->].
  reflexivity.
Qed.

Lemma bq_k_lane (t j k : Z) :
  0 <= t -> 0 <= j < BLOCK_N ->
  bq_k K M P_SEQ BLOCK_N DIVISIBLE_N (state_at t) (t * BLOCK_N) j k
  = F (if kept (t * BLOCK_N + j)
       then Kr (offset4 sk off_z off_h (t * BLOCK_N + j) k) else 0).
Proof.
  intros Ht Hj. unfold bq_k. rewrite bq_col_lane by assumption.
  destruct (bq_ptrs_at (Z.to_nat t)) as [Hk _].
  rewrite Z2Nat.id in Hk by lia. rewrite Hk.
  destruct (kept _); [|reflexivity]. unfold tl_load, finite_mem. f_equal.
  f_equal. unfold bq_k_ptrs_init, bq_K_base, offset4. lia.
Qed.

Lemma bq_v_lane (t j k : Z) :
  0 <= t -> 0 <= j < BLOCK_N ->
  bq_v V M P_SEQ BLOCK_N DIVISIBLE_N (state_at t) (t * BLOCK_N) j k
  = F (if kept (t * BLOCK_N + j)
       then Vr (offset4 sv off_z off_h (t * BLOCK_N + j) k) else 0).
Proof.
  intros Ht Hj. unfold bq_v. rewrite bq_col_lane by assumption.
  destruct (bq_ptrs_at (Z.to_nat t)) as [_ Hv].
  rewrite Z2Nat.id in Hv by lia. rewrite Hv.
  destruct (kept _); [|reflexivity]. unfold tl_load, finite_mem. f_equal.
  f_equal. unfold bq_v_ptrs_init, bq_V_base, offset4. lia.
Qed.

(** In a tile that the loop visits, a column past the last one is cut off
    by the column mask or, under the causal mask, by that one. *)
Lemma bq_past_last (t j : Z) :
  0 <= t -> t * BLOCK_N < hi -> 0 <= j < BLOCK_N -> N <= t * BLOCK_N + j ->
  causal = true \/ kept (t * BLOCK_N + j) = false.
Proof.
  intros Ht Hv Hj Hn. destruct causal eqn:Ec; [now left|right].
  rewrite <- bq_col_lane by assumption.
  unfold bq_hi in Hv. unfold bq_mask_n.
  replace (M + (N - M)) with N in * by lia.
  pose proof (Z.div_mod N BLOCK_N ltac:(lia)) as EN.
  pose proof (Z.mod_pos_bound N BLOCK_N BLOCK_N_pos) as HbN.
  destruct (Z.eqb_spec (N mod BLOCK_N) 0) as [E0|E0].
  - exfalso. assert (t < N / BLOCK_N) by nia. nia.
  - cbn [negb].
    destruct (Z.gtb_spec (t * BLOCK_N + BLOCK_N) N) as [Hl|Hl]; [|lia].
    cbn [lane_ok]. apply Z.ltb_ge.
    pose proof (Z.mod_le N BLOCK_N N_nonneg BLOCK_N_pos). lia.
Qed.

(** [ds] of iteration [t] on the lane of the row. *)
Lemma bq_ds_lane (t j : Z) :
  0 <= t -> t * BLOCK_N < hi -> 0 <= j < BLOCK_N ->
  bq_ds Q K V sm_scale DO L Dl sq sdo H M P_SEQ BLOCK_M BLOCK_DMODEL BLOCK_N
        causal DIVISIBLE_M DIVISIBLE_N start_m off_h off_z
        (state_at t) (t * BLOCK_N) i j
  = F (if (t * BLOCK_N + j <? N) && kept (t * BLOCK_N + j)
       then ds m (t * BLOCK_N + j) else 0).
Proof.
  intros Ht Hv Hj.
  set (n := t * BLOCK_N + j).
  pose proof (bq_col_lane t j Hj) as Hlane. fold n in Hlane.
  assert (Hc : bq_causal_mask P_SEQ BLOCK_M start_m (t * BLOCK_N) i j
               = (n <=? N - M + m)).
  { unfold bq_causal_mask, bq_offs_m. now rewrite Z.geb_leb. }
  (* the three factors, when the column is let through *)
  assert (Hs : kept n = true ->
            bq_p Q K sm_scale L sq H M P_SEQ BLOCK_M BLOCK_DMODEL BLOCK_N
                 DIVISIBLE_M DIVISIBLE_N start_m off_h off_z
                 (state_at t) (t * BLOCK_N) i j
            = F (exp (logit Qr Kr sq sk BLOCK_DMODEL off_z off_h m n
                      * sm_scale - Lr (offset3 H M off_z off_h m)))).
  { intros Hk. unfold bq_p. cbv zeta. rewrite fadd_0_l.
    assert (E : tl_dot BLOCK_DMODEL
                  (bq_q Q sq M BLOCK_M DIVISIBLE_M start_m off_h off_z)
                  (tl_trans (bq_k K M P_SEQ BLOCK_N DIVISIBLE_N (state_at t)
                                  (t * BLOCK_N))) i j
                = F (logit Qr Kr sq sk BLOCK_DMODEL off_z off_h m n)).
    { unfold tl_dot, logit. apply fsum_F_in. intros d _. unfold tl_trans.
      rewrite bq_q_lane, bq_k_lane by assumption. fold n. rewrite Hk.
      reflexivity. }
    rewrite E, bq_l_lane. unfold bq_qk_scale, log2e. simpl. f_equal. f_equal.
    pose proof ln2_pos. field. lra. }
  assert (Hdp : kept n = true ->
            tl_dot BLOCK_DMODEL
              (fun i k => to_dtype (bq_do DO sdo M BLOCK_M DIVISIBLE_M
                                          start_m off_h off_z i k))
              (tl_trans (bq_v V M P_SEQ BLOCK_N DIVISIBLE_N (state_at t)
                              (t * BLOCK_N))) i j
            = F (dp_ref Vr DOr sv sdo BLOCK_DMODEL off_z off_h m n)).
  { intros Hk. unfold tl_dot, dp_ref. apply fsum_F_in. intros d _.
    unfold tl_trans, to_dtype.
    rewrite bq_do_lane, bq_v_lane by assumption. fold n. rewrite Hk.
    reflexivity. }
  unfold bq_ds. cbv zeta. unfold tl_where.
  destruct (Z.ltb_spec n N) as [HnN|HnN]; cbn [andb].
  - destruct (kept n) eqn:Hk.
    + assert (Eval :
        fmul (bq_p Q K sm_scale L sq H M P_SEQ BLOCK_M BLOCK_DMODEL BLOCK_N
                   DIVISIBLE_M DIVISIBLE_N start_m off_h off_z
                   (state_at t) (t * BLOCK_N) i j)
             (fsub (fadd (F 0)
                      (tl_dot BLOCK_DMODEL
                         (fun i k => to_dtype
                            (bq_do DO sdo M BLOCK_M DIVISIBLE_M start_m
                                   off_h off_z i k))
                         (tl_trans (bq_v V M P_SEQ BLOCK_N DIVISIBLE_N
                                         (state_at t) (t * BLOCK_N))) i j))
                   (bq_delta Dl H M BLOCK_M DIVISIBLE_M start_m off_h off_z
                             i))
        = F (exp (logit Qr Kr sq sk BLOCK_DMODEL off_z off_h m n * sm_scale
                  - Lr (offset3 H M off_z off_h m))
             * (dp_ref Vr DOr sv sdo BLOCK_DMODEL off_z off_h m n
                - Dr (offset3 H M off_z off_h m)))).
      { rewrite (Hs eq_refl), (Hdp eq_refl), fadd_0_l, bq_delta_lane.
        reflexivity. }
      assert (Eds : ds m n
                    = if n <=? N - M + m
                      then (exp (logit Qr Kr sq sk BLOCK_DMODEL off_z off_h
                                       m n * sm_scale
                                 - Lr (offset3 H M off_z off_h m))
                            * (dp_ref Vr DOr sv sdo BLOCK_DMODEL off_z off_h
                                      m n
                               - Dr (offset3 H M off_z off_h m)))%R
                      else if causal then 0%R
                      else (exp (logit Qr Kr sq sk BLOCK_DMODEL off_z off_h
                                       m n * sm_scale
                                 - Lr (offset3 H M off_z off_h m))
                            * (dp_ref Vr DOr sv sdo BLOCK_DMODEL off_z off_h
                                      m n
                               - Dr (offset3 H M off_z off_h m)))%R).
      { unfold ds_ref, p_ref, visible.
        destruct causal; destruct (_ <=? _); try reflexivity. ring. }
      rewrite Eds.
      destruct (bq_mask_n M P_SEQ BLOCK_N DIVISIBLE_N (t * BLOCK_N))
        as [vm|] eqn:Emask; cbn [lane_ok] in Hlane.
      * destruct causal; cbv beta; rewrite ?Hlane, ?Hc, Eval;
          destruct (n <=? N - M + m); reflexivity.
      * destruct causal; cbv beta; rewrite ?Hc, Eval;
          destruct (n <=? N - M + m); reflexivity.
    + destruct (bq_mask_n M P_SEQ BLOCK_N DIVISIBLE_N (t * BLOCK_N))
        as [vm|] eqn:Emask; cbn [lane_ok] in Hlane; [|discriminate Hlane].
      destruct causal; cbv beta; rewrite Hlane;
        [destruct (bq_causal_mask _ _ _ _ _ _)|]; reflexivity.
  - destruct (bq_past_last t j Ht Hv Hj HnN) as [Ec|Hk].
    + rewrite Ec. cbv beta. rewrite Hc.
      replace (n <=? N - M + m) with false; [reflexivity|].
      symmetry. apply Z.leb_gt. lia.
    + fold n in Hk. rewrite Hk in Hlane.
      destruct (bq_mask_n M P_SEQ BLOCK_N DIVISIBLE_N (t * BLOCK_N))
        as [vm|] eqn:Emask; cbn [lane_ok] in Hlane; [|discriminate Hlane].
      destruct causal; cbv beta; rewrite Hlane;
        [destruct (bq_causal_mask _ _ _ _ _ _)|]; reflexivity.
Qed.

(** One iteration adds the columns of its tile. *)
Lemma bq_step_sums (t k : Z) :
  0 <= t -> t * BLOCK_N < hi ->
  q_dq (state_at (t + 1)) i k
  = fadd (q_dq (state_at t) i k)
         (F (rsum (fun j => q_term k (t * BLOCK_N + j)) (arange BLOCK_N))).
Proof.
  intros Ht Hv. rewrite bq_state_next by assumption.
  unfold bq_body. cbv beta zeta. cbn [q_dq]. f_equal.
  unfold tl_dot at 1, to_dtype at 1. apply fsum_F_in.
  intros j Hj. apply In_arange in Hj. cbv beta.
  rewrite (bq_ds_lane t j Ht Hv Hj), (bq_k_lane t j k Ht Hj).
  destruct (_ <? N); cbn [andb fmul]; [|f_equal; ring].
  destruct (kept _); f_equal; ring.
Qed.

(** The loop after [t] iterations has added the columns
    [0 .. t * BLOCK_N - 1]. *)
Lemma bq_sums_at (t : nat) (k : Z) :
  (t = 0%nat \/ (Z.of_nat t - 1) * BLOCK_N < hi) ->
  q_dq (state_at (Z.of_nat t)) i k
  = F (rsum (q_term k) (arange (Z.of_nat t * BLOCK_N))).
Proof.
  induction t as [|t IH]; intros Hb; [reflexivity|].
  destruct Hb as [Hb|Hb]; [discriminate|].
  replace (Z.of_nat (S t)) with (Z.of_nat t + 1) in * by lia.
  replace (Z.of_nat t + 1 - 1) with (Z.of_nat t) in Hb by lia.
  rewrite (bq_step_sums (Z.of_nat t) k ltac:(lia) Hb).
  rewrite IH by (destruct t; [now left|right; nia]).
  replace ((Z.of_nat t + 1) * BLOCK_N)
    with (Z.of_nat t * BLOCK_N + BLOCK_N) by lia.
  rewrite arange_app by nia. rewrite rsum_app, rsum_map. reflexivity.
Qed.

(** A column that the loop does not reach is masked for the row. *)
Lemma bq_unvisited_zero (n : Z) :
  i < BLOCK_M -> hi <= n -> n < N -> ds m n = 0%R.
Proof.
  intros Hi Hn HnN. unfold ds_ref, p_ref, visible, bq_hi in *.
  destruct causal; [|lia].
  replace (n <=? N - M + m) with false; [ring|].
  symmetry. apply Z.leb_gt. nia.
Qed.

(** What the instance writes back for the row [m]. *)
Lemma bq_out_sums (k : Z) :
  0 <= start_m -> 0 <= i < BLOCK_M ->
  bq_dq_out Q K V sm_scale DO L Dl sq sk sv sdo H M P_SEQ BLOCK_M
            BLOCK_DMODEL BLOCK_N causal DIVISIBLE_M DIVISIBLE_N
            start_m off_h off_z i k
  = F (dq_kept_ref Qr Kr Vr DOr Lr Dr sq sk sv sdo sm_scale causal H M N
                   BLOCK_DMODEL BLOCK_N off_z off_h m k).
Proof.
  intros Hsm Hi. unfold bq_dq_out, to_dtype.
  assert (Eloop : bq_loop Q K V sm_scale DO L Dl sq sk sv sdo H M P_SEQ
                          BLOCK_M BLOCK_DMODEL BLOCK_N causal DIVISIBLE_M
                          DIVISIBLE_N start_m off_h off_z
                  = state_at (cdiv hi BLOCK_N)).
  { unfold bq_loop, bq_state_at, py_range, tile_starts.
    now rewrite Z.sub_0_r. }
  rewrite Eloop. set (T := cdiv hi BLOCK_N).
  assert (Eref : forall X, N <= X ->
            rsum (fun n => if kept n
                           then ds m n * Kr (offset4 sk off_z off_h n k)
                           else 0)%R (arange N)
            = rsum (q_term k) (arange X)).
  { intros X HX. rewrite (rsum_arange_extend (q_term k) N X).
    - apply rsum_ext. intros n Hn. apply In_arange in Hn.
      replace (n <? N) with true; [reflexivity|].
      symmetry. apply Z.ltb_lt. lia.
    - lia.
    - intros n Hn. replace (n <? N) with false; [reflexivity|].
      symmetry. apply Z.ltb_ge. lia. }
  unfold dq_kept_ref.
  destruct (Z_le_gt_dec T 0) as [HT|HT].
  - (* the loop is empty: every column is masked for the row *)
    assert (Hhi : hi <= 0).
    { destruct (Z_le_gt_dec hi 0); [assumption|].
      assert (0 < T); [|lia]. apply cdiv_gt; lia. }
    unfold bq_state_at, tile_starts. rewrite (arange_nonpos T) by lia.
    cbn [map fold_left bq_init q_dq fmul]. f_equal.
    rewrite (rsum_zero _ (arange N)); [ring|].
    intros n Hn. apply In_arange in Hn.
    rewrite bq_unvisited_zero by lia. destruct (kept n); ring.
  - assert (Hlast : (T - 1) * BLOCK_N < hi).
    { assert (T - 1 < cdiv hi BLOCK_N) by (fold T; lia).
      apply cdiv_gt in H0; lia. }
    assert (Hcover : hi <= T * BLOCK_N) by (apply cdiv_mul_ge; lia).
    rewrite <- (Z2Nat.id T) at 1 by lia.
    rewrite bq_sums_at by (right; rewrite Z2Nat.id by lia; exact Hlast).
    rewrite Z2Nat.id by lia. cbn [fmul]. f_equal. f_equal.
    rewrite (Eref (Z.max (T * BLOCK_N) N)) by lia.
    symmetry. apply rsum_arange_extend; [nia|].
    intros n Hn. destruct (Z.ltb_spec n N) as [HnN|HnN]; [|reflexivity].
    cbn [andb]. rewrite bq_unvisited_zero by lia. destruct (kept n); ring.
Qed.

End BqSums.

(** ** The launch of [_bwd_q_kernel]: the stores into [dq] *)

(** A lane that the row mask of a tile of the grid lets through holds a
    row of q. *)
Lemma bq_kept_in_range (M BLOCK_M t i : Z) :
  0 < BLOCK_M -> 0 <= t < cdiv M BLOCK_M -> 0 <= i < BLOCK_M ->
  lane_ok (bq_mask_m M BLOCK_M (M mod BLOCK_M =? 0) t) i = true ->
  t * BLOCK_M + i < M.
Proof.
  intros HB [Ht0 Ht] Hi. apply cdiv_gt in Ht; [|assumption].
  unfold bq_mask_m, bq_offs_m.
  destruct (Z.eqb_spec (M mod BLOCK_M) 0) as [E|E]; cbn [negb].
  - intros _. apply Z.mod_divide in E; [|lia]. destruct E as [q ->].
    assert (t < q) by nia. nia.
  - destruct (Z.gtb_spec (t * BLOCK_M + BLOCK_M) M); cbn [lane_ok].
    + intros Hl. apply Z.ltb_lt in Hl.
      pose proof (Z.mod_le M BLOCK_M ltac:(nia) HB). lia.
    + intros _. lia.
Qed.

Section BqLaunch.
Variables (Qr Kr Vr DOr Lr Dr : Z -> R) (sm_scale : R).
Variables (L Dl : mem).
Variables (sq sk sv sdo sdq : strides).
Variables (B H M N BLOCK_M BLOCK_DMODEL BLOCK_N : Z).
Variables (causal : bool).

Local Abbreviation launch :=
  (q_launch (finite_mem Qr) (finite_mem Kr) (finite_mem Vr) sm_scale
            (finite_mem DOr) L Dl sq sk sv sdo sdq H M (N - M)
            BLOCK_M BLOCK_N BLOCK_DMODEL causal
            (M mod BLOCK_M =? 0) (N mod BLOCK_N =? 0)
            (cdiv M BLOCK_M, H, B)).
Local Abbreviation dq :=
  (dq_kept_ref Qr Kr Vr DOr Lr Dr sq sk sv sdo sm_scale causal H M N
               BLOCK_DMODEL BLOCK_N).
Local Abbreviation row_kept := (bq_row_kept M BLOCK_M).

Hypothesis BLOCK_M_pos : 0 < BLOCK_M.
Hypothesis BLOCK_N_pos : 0 < BLOCK_N.
Hypothesis N_nonneg : 0 <= N.
Hypothesis L_rows : forall z h m, 0 <= z < B -> 0 <= h < H -> 0 <= m < M ->
  L (offset3 H M z h m) = F (Lr (offset3 H M z h m)).
Hypothesis D_rows : forall z h m, 0 <= z < B -> 0 <= h < H -> 0 <= m < M ->
  Dl (offset3 H M z h m) = F (Dr (offset3 H M z h m)).

Lemma q_launch_rows (w : write) :
  In w launch <->
  exists z h m k, 0 <= z < B /\ 0 <= h < H /\ 0 <= m < M
    /\ 0 <= k < BLOCK_DMODEL /\ row_kept m = true
    /\ w = (offset4 sdq z h m k, F (dq z h m k)).
Proof.
  assert (Hdm : forall t i, 0 <= i < BLOCK_M ->
            (t * BLOCK_M + i) / BLOCK_M = t
            /\ (t * BLOCK_M + i) mod BLOCK_M = i).
  { intros t i Hi. split.
    - rewrite Z.add_comm, Z.div_add by lia. rewrite Z.div_small; lia.
    - rewrite Z.add_comm, Z.mod_add by lia. rewrite Z.mod_small; lia. }
  unfold q_launch. rewrite in_flat_map. split.
  - intros ([[t h] z] & Hg & Hw). apply In_grid_ids in Hg as (Ht & Hh & Hz).
    unfold _bwd_q_kernel in Hw.
    apply In_tl_store2 in Hw as (i & k & Hi & Hok & Hk & ->).
    pose proof (bq_kept_in_range M BLOCK_M t i BLOCK_M_pos Ht Hi Hok) as Hm.
    exists z, h, (t * BLOCK_M + i), k.
    destruct (Hdm t i Hi) as [Ed Em].
    repeat split; try lia.
    + unfold bq_row_kept. now rewrite Ed, Em.
    + rewrite (bq_out_sums Qr Kr Vr DOr Lr Dr sm_scale L Dl sq sk sv sdo
                 H M N BLOCK_M BLOCK_DMODEL BLOCK_N causal t h z
                 BLOCK_N_pos N_nonneg);
        try assumption; try lia; try (intros; auto).
      f_equal. unfold bq_dq_ptrs, bq_DQ_base, bq_offs_m, offset4. lia.
  - intros (z & h & m & k & Hz & Hh & Hm & Hk & Hkept & ->).
    pose proof (Z.div_mod m BLOCK_M ltac:(lia)) as E.
    pose proof (Z.mod_pos_bound m BLOCK_M BLOCK_M_pos) as Hb.
    assert (Ht : 0 <= m / BLOCK_M < cdiv M BLOCK_M).
    { split; [apply Z.div_pos; lia|]. apply cdiv_gt; [assumption|]. nia. }
    exists (m / BLOCK_M, h, z). split; [apply In_grid_ids; auto|].
    unfold _bwd_q_kernel. apply In_tl_store2.
    exists (m mod BLOCK_M), k. repeat split; try lia.
    + exact Hkept.
    + rewrite (bq_out_sums Qr Kr Vr DOr Lr Dr sm_scale L Dl sq sk sv sdo
                 H M N BLOCK_M BLOCK_DMODEL BLOCK_N causal (m / BLOCK_M) h z
                 BLOCK_N_pos N_nonneg);
        try assumption; try lia; try (intros; auto).
      replace (m / BLOCK_M * BLOCK_M + m mod BLOCK_M) with m by lia.
      f_equal. unfold bq_dq_ptrs, bq_DQ_base, bq_offs_m, offset4. nia.
Qed.

(** What the launch leaves in [dq], which [backward] hands over full of
    zeros. *)
Lemma q_launch_mem (z h m k : Z) :
  layout_injective sdq B H M BLOCK_DMODEL ->
  0 <= z < B -> 0 <= h < H -> 0 <= m < M -> 0 <= k < BLOCK_DMODEL ->
  apply_writes (fun _ => F 0) launch (offset4 sdq z h m k)
  = if row_kept m then F (dq z h m k) else F 0.
Proof.
  intros Hinj Hz Hh Hm Hk. destruct (row_kept m) eqn:Hkept.
  - apply apply_writes_determined.
    + apply in_map_iff. exists (offset4 sdq z h m k, F (dq z h m k)).
      split; [reflexivity|]. apply q_launch_rows. exists z, h, m, k. auto 6.
    + intros w Hw Ew.
      apply q_launch_rows in Hw
        as (z' & h' & m' & k' & Hz' & Hh' & Hm' & Hk' & _ & ->).
      cbn [fst snd] in *.
      destruct (Hinj z' h' m' k' z h m k) as (-> & -> & -> & ->); auto.
  - rewrite apply_writes_notin; [reflexivity|].
    intros Hin. apply in_map_iff in Hin as (w & Ew & Hw).
    apply q_launch_rows in Hw
      as (z' & h' & m' & k' & Hz' & Hh' & Hm' & Hk' & Hkept' & ->).
    cbn [fst] in Ew.
    destruct (Hinj z' h' m' k' z h m k) as (_ & _ & -> & _); auto.
    congruence.
Qed.

(** X5.  q, k, v and do hold finite numbers throughout their storages, L
    and delta hold finite numbers on the rows of every batch and head, and
    [0 <= N].  The launch of [_bwd_q_kernel] stores into dq, for every row
    [m < M] that the row mask lets through, [sm_scale] times the sum of
    [ds[m,n] * k[n,:]] over the columns [n < N] that the column mask lets
    through, and stores nothing else; with the elements of dq at distinct
    offsets this is what the launch leaves in dq, and the other rows keep
    the zeros that [backward] put there.  The masks let through every row
    (column) when the length is a multiple of the block size or shorter
    than one block, and otherwise only those before the last tile.  When M
    and N are multiples of the block sizes, dq holds the sum over all the
    columns. *)
Theorem bwd_q_dq_sums :
  (forall w, In w launch ->
     exists z h m k, 0 <= z < B /\ 0 <= h < H /\ 0 <= m < M
       /\ 0 <= k < BLOCK_DMODEL /\ row_kept m = true
       /\ w = (offset4 sdq z h m k, F (dq z h m k)))
  /\ (forall z h m k,
        0 <= z < B -> 0 <= h < H -> 0 <= m < M -> 0 <= k < BLOCK_DMODEL ->
        (row_kept m = true ->
         In (offset4 sdq z h m k, F (dq z h m k)) launch)
        /\ (layout_injective sdq B H M BLOCK_DMODEL ->
            apply_writes (fun _ => F 0) launch (offset4 sdq z h m k)
            = if row_kept m then F (dq z h m k) else F 0)
        /\ row_kept m
           = (M mod BLOCK_M =? 0) || (m <? M / BLOCK_M * BLOCK_M)
             || (M <? BLOCK_M)
        /\ (M mod BLOCK_M = 0 -> N mod BLOCK_N = 0 ->
            layout_injective sdq B H M BLOCK_DMODEL ->
            apply_writes (fun _ => F 0) launch (offset4 sdq z h m k)
            = F (dq_ref Qr Kr Vr DOr Lr Dr sq sk sv sdo sm_scale causal
                        H M N BLOCK_DMODEL z h m k)))
  /\ (forall n, 0 <= n < N ->
        bq_col_kept M N BLOCK_N n
        = (N mod BLOCK_N =? 0) || (n <? N / BLOCK_N * BLOCK_N)
          || (N <? BLOCK_N)).
Proof.
  split; [|split].
  - intros w Hw. now apply q_launch_rows in Hw.
  - intros z h m k Hz Hh Hm Hk.
    pose proof (bq_row_kept_spec M BLOCK_M m BLOCK_M_pos Hm) as Hspec.
    split; [|split; [|split]].
    + intros Hkept. apply q_launch_rows. exists z, h, m, k. auto 6.
    + intros Hinj. now apply q_launch_mem.
    + exact Hspec.
    + intros EM EN Hinj. rewrite q_launch_mem by assumption.
      rewrite Hspec. replace (M mod BLOCK_M =? 0) with true
        by (symmetry; now apply Z.eqb_eq).
      cbn [orb]. f_equal. unfold dq_kept_ref, dq_ref. f_equal.
      apply rsum_ext. intros n Hn. apply In_arange in Hn.
      rewrite (bq_col_kept_spec M N BLOCK_N n BLOCK_N_pos Hn).
      replace (N mod BLOCK_N =? 0) with true
        by (symmetry; now apply Z.eqb_eq).
      reflexivity.
  - intros n Hn. now apply bq_col_kept_spec.
Qed.

End BqLaunch.

Lemma bwd_q_dq_sums_witness :
  In (offset4 (mkStrides 1600 1600 16 1) 0 0 10 15,
      F (dq_kept_ref (fun _ => 1%R) (fun _ => 1%R) (fun _ => 1%R)
                     (fun _ => 1%R) (fun _ => 0%R) (fun _ => 0%R)
                     (mkStrides 1600 1600 16 1) (mkStrides 2080 2080 16 1)
                     (mkStrides 2080 2080 16 1) (mkStrides 1600 1600 16 1)
                     1 true 1 100 130 16 64 0 0 10 15))
     (q_launch (finite_mem (fun _ => 1%R)) (finite_mem (fun _ => 1%R))
               (finite_mem (fun _ => 1%R)) 1 (finite_mem (fun _ => 1%R))
               (fun _ => F 0) (fun _ => F 0)
               (mkStrides 1600 1600 16 1) (mkStrides 2080 2080 16 1)
               (mkStrides 2080 2080 16 1) (mkStrides 1600 1600 16 1)
               (mkStrides 1600 1600 16 1)
               1 100 (130 - 100) 64 64 16 true
               (100 mod 64 =? 0) (130 mod 64 =? 0) (cdiv 100 64, 1, 1)).
Proof.
  refine (proj1 (proj1 (proj2
    (bwd_q_dq_sums (fun _ => 1%R) (fun _ => 1%R) (fun _ => 1%R)
       (fun _ => 1%R) (fun _ => 0%R) (fun _ => 0%R) 1
       (fun _ => F 0) (fun _ => F 0)
       (mkStrides 1600 1600 16 1) (mkStrides 2080 2080 16 1)
       (mkStrides 2080 2080 16 1) (mkStrides 1600 1600 16 1)
       (mkStrides 1600 1600 16 1)
       1 1 100 130 64 16 64 true _ _ _ _ _)) 0 0 10 15 _ _ _ _) _);
    try lia; try reflexivity; intros; reflexivity.
Defined.

(** ** [forward], then [backward] *)

Lemma bwd_config_pos (cap : Z * Z) (causal : bool) (D : Z) :
  0 < fst (fst (fst (bwd_config cap causal D)))
  /\ 0 < snd (fst (fst (bwd_config cap causal D))).
Proof.
  unfold bwd_config.
  destruct (cap_eqb cap (8, 0)), (cap_eqb cap (8, 6)), (negb causal),
    (D <=? 64); simpl; lia.
Qed.

(** The state in which a call of [forward] that passes the assertions
    ends, the tensors it returns and what the storages of o and L hold. *)
Lemma forward_state (cap : Z -> Z * Z) (uninit : mem)
    (q k v : tensor) (causal : bool) (sm_scale : option R) (h : host)
    (B H M D Bk Hk N Bv Hv Nv : Z) (sq sk sv so : strides) :
  t_shape q = [B; H; M; D] ->
  t_shape k = [Bk; Hk; N; D] ->
  t_shape v = [Bv; Hv; Nv; D] ->
  t_stride q = [s0 sq; s1 sq; s2 sq; s3 sq] ->
  t_stride k = [s0 sk; s1 sk; s2 sk; s3 sk] ->
  t_stride v = [s0 sv; s1 sv; s2 sv; s3 sv] ->
  like_stride [B; H; M; D] (t_stride q) = [s0 so; s1 so; s2 so; s3 so] ->
  supported_head_dim D = true ->
  (t_storage q < next_storage h)%nat ->
  (t_storage k < next_storage h)%nat ->
  (t_storage v < next_storage h)%nat ->
  let BLOCK_M := fst (fst (fst (fwd_config (cap (t_device q)) causal D M))) in
  let BLOCK_N := snd (fst (fst (fwd_config (cap (t_device q)) causal D M))) in
  let grid := (cdiv M BLOCK_M, H, B) in
  let o := mkTensor [B; H; M; D] [s0 so; s1 so; s2 so; s3 so] (t_device q)
                    (next_storage h) in
  let L := mkTensor [B; H; M] [H * (M * 1); M * 1; 1] (t_device q)
                    (S (next_storage h)) in
  let scale := match sm_scale with
               | Some s => s
               | None => (1 / sqrt (IZR D))%R
               end in
  let w := fwd_launch (heap h (t_storage q)) (heap h (t_storage k))
                      (heap h (t_storage v)) scale sq sk sv so
                      B H M (N - M) BLOCK_M BLOCK_N D causal
                      (M mod BLOCK_M =? 0) (N mod BLOCK_N =? 0) grid in
  exists h' : host,
    forward cap uninit q k v causal sm_scale h
    = (h', inr (o, mkCtx q k v o L grid scale D (N - M) causal))
    /\ current_device h' = current_device h
    /\ next_storage h' = S (S (next_storage h))
    /\ (forall id, (id < next_storage h)%nat -> heap h' id = heap h id)
    /\ heap h' (next_storage h) = apply_writes uninit (snd w)
    /\ heap h' (S (next_storage h)) = apply_writes uninit (fst w).
Proof.
  intros Eq Ek Ev Sq Sk Sv Hso HD Lq Lk Lv BLOCK_M BLOCK_N grid o L scale w.
  subst w BLOCK_M BLOCK_N grid o L scale.
  destruct sq as [q0 q1 q2 q3], sk as [k0 k1 k2 k3], sv as [v0 v1 v2 v3],
    so as [o0 o1 o2 o3].
  cbn [s0 s1 s2 s3] in *.
  unfold forward, bind, cuda_current_device, cuda_set_device,
    shape_last, shape_at, unpack4, of_option, ret.
  rewrite Eq, Ek, Ev. cbn [rev app nth_error fst snd].
  rewrite !Z.eqb_refl. cbn [andb py_assert]. unfold py_assert, ret.
  rewrite HD.
  destruct (fwd_config (cap (t_device q)) causal D M)
    as [[[BLOCK_M BLOCK_N] num_stages] num_warps].
  unfold empty_like, empty, alloc, strides4, read_heap, launched, bind,
    of_option, ret.
  cbn [t_shape t_stride t_device t_storage current_device heap next_storage
       trace fst snd nth_error contiguous_stride fold_right].
  rewrite Eq, Hso, Sq, Sk, Sv. cbn [nth_error].
  cbn [t_shape t_stride t_device t_storage current_device heap next_storage
       trace fst snd nth_error fold_left].
  assert (Hne : forall a b : nat, (a < b)%nat -> Nat.eqb a b = false)
    by (intros a b Hab; apply Nat.eqb_neq; lia).
  rewrite !(Hne (t_storage q) (S (next_storage h))),
          !(Hne (t_storage k) (S (next_storage h))),
          !(Hne (t_storage v) (S (next_storage h))),
          !(Hne (t_storage q) (next_storage h)),
          !(Hne (t_storage k) (next_storage h)),
          !(Hne (t_storage v) (next_storage h)) by lia.
  eexists. split; [reflexivity|].
  cbn [current_device next_storage heap].
  split; [reflexivity|]. split; [reflexivity|]. split; [|split].
  - intros id Hid.
    rewrite (Hne id (next_storage h)), (Hne id (S (next_storage h))) by lia.
    reflexivity.
  - rewrite Nat.eqb_refl.
    rewrite (Hne (next_storage h) (S (next_storage h))) by lia.
    reflexivity.
  - rewrite Nat.eqb_refl.
    replace (Nat.eqb (S (next_storage h)) (next_storage h)) with false
      by (symmetry; apply Nat.eqb_neq; lia).
    reflexivity.
Qed.

Section GradientBridge.
Variables (Qr Kr Vr DOr Lr Dr : Z -> R) (sq sk sv sdo : strides).
Variables (sm_scale : R) (causal : bool) (H M N D z h : Z).

(** L holds the log-normalizer of the forward pass, delta holds
    [o[m] . do[m]]. *)
Hypothesis L_lse : forall m, 0 <= m < M ->
  Lr (offset3 H M z h m) = lse_ref Qr Kr sq sk sm_scale causal M N D z h m
  /\ (0 < rsum (weight Qr Kr sq sk sm_scale causal M N D z h m)
               (arange N))%R.
Hypothesis D_delta : forall m, 0 <= m < M ->
  Dr (offset3 H M z h m)
  = delta_attn Qr Kr Vr DOr sq sk sv sdo sm_scale causal M N D z h m.

Lemma p_ref_softmax (m n : Z) :
  0 <= m < M ->
  p_ref Qr Kr Lr sq sk sm_scale causal H M N D z h m n
  = softmax Qr Kr sq sk sm_scale causal M N D z h m n.
Proof.
  intros Hm. destruct (L_lse m Hm) as [EL HZ].
  unfold p_ref, softmax, weight. rewrite EL. unfold lse_ref.
  destruct (visible causal M N m n).
  - unfold Rminus. rewrite exp_plus, exp_Ropp, exp_ln by exact HZ.
    reflexivity.
  - unfold Rdiv. ring.
Qed.

Lemma ds_ref_attn (m n : Z) :
  0 <= m < M ->
  ds_ref Qr Kr Vr DOr Lr Dr sq sk sv sdo sm_scale causal H M N D z h m n
  = ds_attn Qr Kr Vr DOr sq sk sv sdo sm_scale causal M N D z h m n.
Proof.
  intros Hm. unfold ds_ref, ds_attn.
  now rewrite p_ref_softmax, D_delta.
Qed.

Lemma refs_attn (n d : Z) :
  dv_ref Qr Kr DOr Lr sq sk sdo sm_scale causal H M N D z h n d
  = dv_attn Qr Kr DOr sq sk sdo sm_scale causal M N D z h n d
  /\ dk_ref Qr Kr Vr DOr Lr Dr sq sk sv sdo sm_scale causal H M N D z h n d
     = dk_attn Qr Kr Vr DOr sq sk sv sdo sm_scale causal M N D z h n d.
Proof.
  unfold dv_ref, dv_attn, dk_ref, dk_attn. split; [|f_equal];
    apply rsum_ext; intros m Hm; apply In_arange in Hm.
  - now rewrite p_ref_softmax.
  - now rewrite ds_ref_attn.
Qed.

Lemma dq_ref_attn (m d : Z) :
  0 <= m < M ->
  dq_ref Qr Kr Vr DOr Lr Dr sq sk sv sdo sm_scale causal H M N D z h m d
  = dq_attn Qr Kr Vr DOr sq sk sv sdo sm_scale causal M N D z h m d.
Proof.
  intros Hm. unfold dq_ref, dq_attn. f_equal.
  apply rsum_ext. intros n _. now rewrite ds_ref_attn.
Qed.

End GradientBridge.

(** What the launch of [_fwd_kernel] leaves in o. *)
Lemma fwd_O_attention (Qr Kr Vr : Z -> R) (sm_scale : R)
    (sq sk sv so : strides) (B H M N BLOCK_M BLOCK_DMODEL BLOCK_N : Z)
    (causal : bool) (init : mem) (z h m d : Z) :
  (0 < sm_scale)%R -> 0 < BLOCK_M -> 0 < BLOCK_N -> M <= N ->
  s2 sk = s2 sv -> s3 sk = s3 sv ->
  layout_injective so B H M BLOCK_DMODEL ->
  0 <= z < B -> 0 <= h < H -> 0 <= m < M -> 0 <= d < BLOCK_DMODEL ->
  apply_writes init
    (snd (fwd_launch (finite_mem Qr) (finite_mem Kr) (finite_mem Vr)
                     sm_scale sq sk sv so B H M (N - M) BLOCK_M BLOCK_N
                     BLOCK_DMODEL causal (M mod BLOCK_M =? 0)
                     (N mod BLOCK_N =? 0) (cdiv M BLOCK_M, H, B)))
    (offset4 so z h m d)
  = F (attention_ref Qr Kr Vr sq sk sv sm_scale causal M N BLOCK_DMODEL
                     z h m d).
Proof.
  intros Hs HBM HBN HMN Hs2 Hs3 Hinj Hz Hh Hm Hd.
  apply (fwd_launch_O_mem _ _ _ _ _ _ _ _ _ _ _ _ _ _ _ _ HBM
           (fun z h m d =>
              F (attention_ref Qr Kr Vr sq sk sv sm_scale causal M N
                               BLOCK_DMODEL z h m d))); auto.
  clear z h m d Hz Hh Hm Hd. intros z h m d Hz Hh Hm Hd.
  pose proof (Z.div_mod m BLOCK_M ltac:(lia)) as Em.
  pose proof (Z.mod_pos_bound m BLOCK_M HBM) as Hb.
  assert (Er : m / BLOCK_M * BLOCK_M + m mod BLOCK_M = m) by lia.
  destruct (fwd_row_attention Qr Kr Vr sm_scale sq sk sv M N BLOCK_M
              BLOCK_DMODEL BLOCK_N causal (m / BLOCK_M) h z Hs HBM HBN HMN
              Hs2 Hs3 (m mod BLOCK_M)) as (Hacc & _).
  - apply Z.div_pos; lia.
  - assumption.
  - lia.
  - rewrite Hacc, Er. reflexivity.
Qed.

(** What the launch of [_bwd_preprocess] leaves in delta. *)
Lemma pre_launch_mem (Out DO : mem) (so sdo : strides)
    (B H M BLOCK_M D : Z) (init : mem) (z h m : Z) :
  0 < BLOCK_M -> 0 <= z < B -> 0 <= h < H -> 0 <= m < M ->
  apply_writes init
    (pre_launch Out DO so sdo (H * M, M, 1) M BLOCK_M D
                (M mod BLOCK_M =? 0) (cdiv M BLOCK_M, H, B))
    (offset3 H M z h m)
  = delta_ref Out DO so sdo D z h m.
Proof.
  intros HBM Hz Hh Hm.
  pose (vals := fun t h z => pre_delta Out DO so sdo M BLOCK_M D
                                       (M mod BLOCK_M =? 0) t h z).
  pose proof (In_row_log B H M BLOCK_M vals HBM) as HIn.
  pose proof (NoDup_row_log B H M BLOCK_M vals HBM) as Hnd.
  unfold vals in HIn, Hnd. cbv beta in HIn, Hnd.
  rewrite <- (pre_launch_rows Out DO so sdo B H M BLOCK_M D) in HIn, Hnd.
  apply apply_writes_in_nodup; [exact Hnd|].
  apply HIn. exists z, h, m. repeat split; try lia.
  now rewrite pre_delta_row.
Qed.

(** X6.  [forward], then [backward] on the saved context, for q, k, v
    and do whose storages hold finite numbers throughout, a positive
    scale, [0 <= M <= N], and k and v sharing their sequence and feature
    strides.  Both calls return dq, dk and dv with the strides that
    [torch.zeros_like] and [torch.empty_like] give them, the current
    device is as before, and with [p] the softmax of
    the forward pass, [delta[m] = o[m] . do[m]] and
    [ds[m,n] = p[m,n] * (do[m] . v[n] - delta[m])]:
    [dv[n,:] = sum over m of p[m,n] * do[m,:]],
    [dk[n,:] = sm_scale * sum over m of ds[m,n] * q[m,:]], and, when M and
    N are multiples of the block sizes of [backward],
    [dq[m,:] = sm_scale * sum over n of ds[m,n] * k[n,:]]. *)
Theorem forward_backward_gradients (cap : Z -> Z * Z) (uninit : mem)
    (q k v do : tensor) (causal : bool) (sm_scale : option R) (h : host)
    (B H M N D : Z) (sq sk sv sdo : strides) (Qr Kr Vr DOr : Z -> R) :
  t_shape q = [B; H; M; D] ->
  t_shape k = [B; H; N; D] ->
  t_shape v = [B; H; N; D] ->
  t_stride q = [s0 sq; s1 sq; s2 sq; s3 sq] ->
  t_stride k = [s0 sk; s1 sk; s2 sk; s3 sk] ->
  t_stride v = [s0 sv; s1 sv; s2 sv; s3 sv] ->
  t_stride do = [s0 sdo; s1 sdo; s2 sdo; s3 sdo] ->
  supported_head_dim D = true ->
  (t_storage q < next_storage h)%nat ->
  (t_storage k < next_storage h)%nat ->
  (t_storage v < next_storage h)%nat ->
  (t_storage do < next_storage h)%nat ->
  heap h (t_storage q) = finite_mem Qr ->
  heap h (t_storage k) = finite_mem Kr ->
  heap h (t_storage v) = finite_mem Vr ->
  heap h (t_storage do) = finite_mem DOr ->
  0 <= M <= N ->
  s2 sk = s2 sv -> s3 sk = s3 sv ->
  match sm_scale with Some s => (0 < s)%R | None => True end ->
  let scale := match sm_scale with
               | Some s => s
               | None => (1 / sqrt (IZR D))%R
               end in
  let BLOCK_M := fst (fst (fst (bwd_config (cap (t_device q)) causal D))) in
  let BLOCK_N := snd (fst (fst (bwd_config (cap (t_device q)) causal D))) in
  let sdq := strides_of_list (like_stride [B; H; M; D] (t_stride q)) in
  let sdk := strides_of_list (like_stride [B; H; N; D] (t_stride k)) in
  let sdv := strides_of_list (like_stride [B; H; N; D] (t_stride v)) in
  exists (o : tensor) (ctx : context) (h1 : host)
         (dq dk dv : tensor) (h2 : host),
    forward cap uninit q k v causal sm_scale h = (h1, inr (o, ctx))
    /\ backward cap uninit ctx do h1 = (h2, inr (dq, dk, dv))
    /\ current_device h2 = current_device h
    /\ t_stride dq = like_stride [B; H; M; D] (t_stride q)
    /\ t_stride dk = like_stride [B; H; N; D] (t_stride k)
    /\ t_stride dv = like_stride [B; H; N; D] (t_stride v)
    /\ (forall z hd n d,
          0 <= z < B -> 0 <= hd < H -> 0 <= n < N -> 0 <= d < D ->
          heap h2 (t_storage dv) (offset4 sdv z hd n d)
          = F (dv_attn Qr Kr DOr sq sk sdo scale causal M N D z hd n d)
          /\ heap h2 (t_storage dk) (offset4 sdk z hd n d)
             = F (dk_attn Qr Kr Vr DOr sq sk sv sdo scale causal M N D
                          z hd n d))
    /\ (M mod BLOCK_M = 0 -> N mod BLOCK_N = 0 ->
        forall z hd m d,
          0 <= z < B -> 0 <= hd < H -> 0 <= m < M -> 0 <= d < D ->
          heap h2 (t_storage dq) (offset4 sdq z hd m d)
          = F (dq_attn Qr Kr Vr DOr sq sk sv sdo scale causal M N D
                       z hd m d)).
Proof.
  intros Eq Ek Ev Sq Sk Sv Sdo HD Lq Lk Lv Ldo HQ HK HV HDO
         HMN Hs2 Hs3 Hsc scale BLOCK_M BLOCK_N sdq sdk sdv.
  assert (Hpos : (0 < scale)%R).
  { unfold scale. destruct sm_scale; [exact Hsc|now apply default_scale_pos]. }
  assert (Hso : like_stride [B; H; M; D] (t_stride q)
                = [s0 sdq; s1 sdq; s2 sdq; s3 sdq])
    by (unfold sdq; rewrite Sq; apply like_stride_four).
  assert (Hsk : like_stride [B; H; N; D] (t_stride k)
                = [s0 sdk; s1 sdk; s2 sdk; s3 sdk])
    by (unfold sdk; rewrite Sk; apply like_stride_four).
  assert (Hsv : like_stride [B; H; N; D] (t_stride v)
                = [s0 sdv; s1 sdv; s2 sdv; s3 sdv])
    by (unfold sdv; rewrite Sv; apply like_stride_four).
  assert (Hiq : layout_injective sdq B H M D)
    by (unfold sdq; rewrite Sq; apply like_stride_injective).
  assert (Hik : layout_injective sdk B H N D)
    by (unfold sdk; rewrite Sk; apply like_stride_injective).
  assert (Hiv : layout_injective sdv B H N D)
    by (unfold sdv; rewrite Sv; apply like_stride_injective).
  clearbody sdq sdk sdv.
  (* forward *)
  destruct (forward_state cap uninit q k v causal sm_scale h
              B H M D B H N B H N sq sk sv sdq Eq Ek Ev Sq Sk Sv Hso HD
              Lq Lk Lv)
    as (h1 & Efwd & Edev1 & En1 & Hframe1 & HO & HL).
  cbv zeta in Efwd, HO, HL. fold scale in Efwd, HO, HL.
  pose proof (fwd_config_pos (cap (t_device q)) causal D M) as [HFM HFN].
  set (FWD_M := fst (fst (fst (fwd_config (cap (t_device q)) causal D M))))
    in *.
  set (FWD_N := snd (fst (fst (fwd_config (cap (t_device q)) causal D M))))
    in *.
  rewrite HQ, HK, HV in HO, HL.
  set (n0 := next_storage h) in *.
  set (o := mkTensor [B; H; M; D] [s0 sdq; s1 sdq; s2 sdq; s3 sdq]
                     (t_device q) n0) in *.
  set (Lt := mkTensor [B; H; M] [H * (M * 1); M * 1; 1] (t_device q) (S n0))
    in *.
  set (ctx := mkCtx q k v o Lt (cdiv M FWD_M, H, B) scale D (N - M) causal)
    in *.
  (* backward *)
  destruct (backward_runs cap uninit ctx do h1 B H M D N sq sk sv sdq sdo
              sdq sdk sdv (H * (M * 1)) (M * 1) 1 [])
    as (hp & Ebwd & Hframe2 & Hdelta & Hdk & Hdv & Hdq);
    try (cbn [ctx_q ctx_k ctx_v ctx_o ctx_L ctx o Lt t_shape t_stride
              t_storage]; first [assumption | reflexivity | lia]).
  { cbn [ctx_k ctx]. rewrite Ek. reflexivity. }
  { cbn [ctx_L ctx Lt t_shape t_stride]. unfold like_stride.
    destruct (non_overlapping_and_dense [B; H; M] _); reflexivity. }
  { cbn [ctx_q ctx]. now rewrite Eq. }
  { cbn [ctx_k ctx]. now rewrite Ek. }
  { cbn [ctx_v ctx]. now rewrite Ev. }
  cbv zeta in Ebwd, Hdelta, Hdk, Hdv, Hdq.
  cbn [ctx_q ctx_k ctx_v ctx_o ctx_L ctx_sm_scale ctx_causal ctx o Lt
       t_storage] in Ebwd, Hdelta, Hdk, Hdv, Hdq.
  fold ctx o Lt in Ebwd.
  pose proof (bwd_config_pos (cap (t_device q)) causal D) as [HBM HBN].
  fold BLOCK_M BLOCK_N in HBM, HBN, Ebwd, Hdelta, Hdk, Hdv, Hdq.
  rewrite (Hframe1 (t_storage do) Ldo), HDO in Hdelta, Hdk, Hdv, Hdq.
  rewrite (Hframe1 (t_storage q) Lq), (Hframe1 (t_storage k) Lk),
    (Hframe1 (t_storage v) Lv), HQ, HK, HV in Hdk, Hdv, Hdq.
  rewrite En1 in Hdelta, Hdk, Hdv, Hdq, Ebwd.
  rewrite !Z.mul_1_r in Hdelta, Hdk, Hdv, Hdq.
  rewrite <- Hdelta in Hdk, Hdv, Hdq.
  (* the contents of L and of delta *)
  set (Lmem := heap h1 (S n0)) in *.
  set (Omem := heap h1 n0) in *.
  set (Dmem := hp (S (S n0))) in *.
  assert (HLrows : forall z hd m, 0 <= z < B -> 0 <= hd < H -> 0 <= m < M ->
            Lmem (offset3 H M z hd m)
            = F (lse_ref Qr Kr sq sk scale causal M N D z hd m)
            /\ (0 < rsum (weight Qr Kr sq sk scale causal M N D z hd m)
                         (arange N))%R).
  { intros z hd m Hz Hh Hm. rewrite HL.
    apply fwd_saved_L; try assumption; lia. }
  assert (HOrows : forall z hd m d, 0 <= z < B -> 0 <= hd < H ->
            0 <= m < M -> 0 <= d < D ->
            Omem (offset4 sdq z hd m d)
            = F (attention_ref Qr Kr Vr sq sk sv scale causal M N D
                               z hd m d)).
  { intros z hd m d Hz Hh Hm Hd. rewrite HO.
    apply fwd_O_attention; try assumption; lia. }
  assert (HDrows : forall z hd m, 0 <= z < B -> 0 <= hd < H -> 0 <= m < M ->
            Dmem (offset3 H M z hd m)
            = F (delta_attn Qr Kr Vr DOr sq sk sv sdo scale causal M N D
                            z hd m)).
  { intros z hd m Hz Hh Hm. rewrite Hdelta.
    rewrite pre_launch_mem by assumption.
    unfold delta_ref, delta_attn. apply fsum_F_in. intros d Hd.
    apply In_arange in Hd. rewrite HOrows by assumption. reflexivity. }
  set (Lr := fun a => value_of (Lmem a)).
  set (Dr := fun a => value_of (Dmem a)).
  assert (HL' : forall z hd m, 0 <= z < B -> 0 <= hd < H -> 0 <= m < M ->
            Lmem (offset3 H M z hd m) = F (Lr (offset3 H M z hd m))).
  { intros z hd m Hz Hh Hm. unfold Lr.
    destruct (HLrows z hd m Hz Hh Hm) as [-> _]. reflexivity. }
  assert (HD' : forall z hd m, 0 <= z < B -> 0 <= hd < H -> 0 <= m < M ->
            Dmem (offset3 H M z hd m) = F (Dr (offset3 H M z hd m))).
  { intros z hd m Hz Hh Hm. unfold Dr.
    rewrite (HDrows z hd m Hz Hh Hm). reflexivity. }
  assert (HLlse : forall z hd, 0 <= z < B -> 0 <= hd < H ->
            forall m, 0 <= m < M ->
              Lr (offset3 H M z hd m)
              = lse_ref Qr Kr sq sk scale causal M N D z hd m
              /\ (0 < rsum (weight Qr Kr sq sk scale causal M N D z hd m)
                           (arange N))%R).
  { intros z hd Hz Hh m Hm. unfold Lr.
    destruct (HLrows z hd m Hz Hh Hm) as [-> HZ]. split; [reflexivity|].
    exact HZ. }
  assert (HDdelta : forall z hd, 0 <= z < B -> 0 <= hd < H ->
            forall m, 0 <= m < M ->
              Dr (offset3 H M z hd m)
              = delta_attn Qr Kr Vr DOr sq sk sv sdo scale causal M N D
                           z hd m).
  { intros z hd Hz Hh m Hm. unfold Dr.
    rewrite (HDrows z hd m Hz Hh Hm). reflexivity. }
  eexists o, ctx, h1, _, _, _, _.
  split; [exact Efwd|]. split; [exact Ebwd|].
  cbn [current_device heap t_storage].
  split; [exact Edev1|].
  split; [now rewrite Hso|]. split; [now rewrite Hsk|].
  split; [now rewrite Hsv|]. split.
  - intros z hd n d Hz Hh Hn Hd.
    destruct (kv_launch_mem Qr Kr Vr DOr Lr Dr scale Lmem Dmem
                sq sk sv sdo sdk sdv B H M N BLOCK_M D BLOCK_N causal
                HBM HBN HL' HD' uninit z hd n d Hz Hh Hn Hd) as [Ek' Ev'].
    destruct (refs_attn Qr Kr Vr DOr Lr Dr sq sk sv sdo scale causal
                H M N D z hd (HLlse z hd Hz Hh) (HDdelta z hd Hz Hh) n d)
      as [Rv Rk].
    rewrite Hdv, Hdk, (Ev' Hiv), (Ek' Hik), Rv, Rk. auto.
  - intros EM EN z hd m d Hz Hh Hm Hd. rewrite Hdq.
    rewrite (q_launch_mem Qr Kr Vr DOr Lr Dr scale Lmem Dmem
               sq sk sv sdo sdq B H M N BLOCK_M D BLOCK_N causal
               HBM HBN ltac:(lia) HL' HD' z hd m d Hiq Hz Hh Hm Hd).
    rewrite (bq_row_kept_spec M BLOCK_M m HBM Hm).
    replace (M mod BLOCK_M =? 0) with true
      by (symmetry; now apply Z.eqb_eq).
    cbn [orb]. f_equal.
    rewrite <- (dq_ref_attn Qr Kr Vr DOr Lr Dr sq sk sv sdo scale causal
                  H M N D z hd (HLlse z hd Hz Hh) (HDdelta z hd Hz Hh) m d
                  Hm).
    unfold dq_kept_ref, dq_ref. f_equal.
    apply rsum_ext. intros n Hn. apply In_arange in Hn.
    rewrite (bq_col_kept_spec M N BLOCK_N n HBN Hn).
    replace (N mod BLOCK_N =? 0) with true
      by (symmetry; now apply Z.eqb_eq).
    reflexivity.
Qed.

Lemma forward_backward_gradients_witness :
  exists (o : tensor) (ctx : context) (h1 : host)
         (dq dk dv : tensor) (h2 : host),
    forward a100 (fun _ => F 0)
            (contiguous_tensor [1; 1; 64; 16] 0 0)
            (contiguous_tensor [1; 1; 64; 16] 0 1)
            (contiguous_tensor [1; 1; 64; 16] 0 2) true (Some 1%R)
            host_example
    = (h1, inr (o, ctx))
    /\ backward a100 (fun _ => F 0) ctx
                (contiguous_tensor [1; 1; 64; 16] 0 5) h1
       = (h2, inr (dq, dk, dv))
    /\ current_device h2 = 0
    /\ (forall z hd n d,
          0 <= z < 1 -> 0 <= hd < 1 -> 0 <= n < 64 -> 0 <= d < 16 ->
          heap h2 (t_storage dv)
               (offset4 (mkStrides 1024 1024 16 1) z hd n d)
          = F (dv_attn (fun _ => 1%R) (fun _ => 1%R) (fun _ => 1%R)
                 (mkStrides 1024 1024 16 1) (mkStrides 1024 1024 16 1)
                 (mkStrides 1024 1024 16 1) 1 true 64 64 16 z hd n d)
          /\ heap h2 (t_storage dk)
                  (offset4 (mkStrides 1024 1024 16 1) z hd n d)
             = F (dk_attn (fun _ => 1%R) (fun _ => 1%R) (fun _ => 1%R)
                    (fun _ => 1%R)
                    (mkStrides 1024 1024 16 1) (mkStrides 1024 1024 16 1)
                    (mkStrides 1024 1024 16 1) (mkStrides 1024 1024 16 1)
                    1 true 64 64 16 z hd n d))
    /\ (64 mod 64 = 0 -> 64 mod 64 = 0 ->
        forall z hd m d,
          0 <= z < 1 -> 0 <= hd < 1 -> 0 <= m < 64 -> 0 <= d < 16 ->
          heap h2 (t_storage dq)
               (offset4 (mkStrides 1024 1024 16 1) z hd m d)
          = F (dq_attn (fun _ => 1%R) (fun _ => 1%R) (fun _ => 1%R)
                 (fun _ => 1%R)
                 (mkStrides 1024 1024 16 1) (mkStrides 1024 1024 16 1)
                 (mkStrides 1024 1024 16 1) (mkStrides 1024 1024 16 1)
                 1 true 64 64 16 z hd m d)).
Proof.
  pose (s := mkStrides 1024 1024 16 1).
  destruct (forward_backward_gradients a100 (fun _ => F 0)
              (contiguous_tensor [1; 1; 64; 16] 0 0)
              (contiguous_tensor [1; 1; 64; 16] 0 1)
              (contiguous_tensor [1; 1; 64; 16] 0 2)
              (contiguous_tensor [1; 1; 64; 16] 0 5)
              true (Some 1%R) host_example 1 1 64 64 16 s s s s
              (fun _ => 1%R) (fun _ => 1%R) (fun _ => 1%R) (fun _ => 1%R)
              eq_refl eq_refl eq_refl eq_refl eq_refl eq_refl eq_refl eq_refl
              ltac:(simpl; lia) ltac:(simpl; lia) ltac:(simpl; lia)
              ltac:(simpl; lia) eq_refl eq_refl eq_refl eq_refl
              ltac:(lia) eq_refl eq_refl Rlt_0_1)
    as (o & ctx & h1 & dq & dk & dv & h2 & E1 & E2 & Ed & _ & _ & _
        & Hkv & Hq).
  exists o, ctx, h1, dq, dk, dv, h2.
  split; [exact E1|]. split; [exact E2|]. split; [exact Ed|].
  split; [exact Hkv | exact Hq].
Defined.

(** ** The key tile past the last key row

    With [IS_CAUSAL] the loops of [_fwd_kernel] and [_bwd_q_kernel] run up
    to [hi = P_SEQ + (start_m + 1) * BLOCK_M], which is beyond the number
    [N] of key rows on a query tile that M does not fill.  When [N] is a
    multiple of [BLOCK_N] the loads carry no mask, and the tile that
    starts at [N] is loaded from the storages of k and v as it is. *)

Lemma fadd_NaN_r (x : fp) : fadd x NaN = NaN.
Proof. destruct x; reflexivity. Qed.

Lemma fsum_NaN_acc (l : list fp) : fold_left fadd l NaN = NaN.
Proof. induction l as [|x l IH]; [reflexivity|]. simpl. exact IH. Qed.

Lemma fsum_NaN_in (l : list fp) : In NaN l -> fsum l = NaN.
Proof.
  unfold fsum. generalize (F 0).
  induction l as [|x l IH]; intros a Hin; [destruct Hin|].
  destruct Hin as [E | Hin].
  - subst x. simpl. rewrite fadd_NaN_r. apply fsum_NaN_acc.
  - simpl. now apply IH.
Qed.

(** A product with a NaN right operand on the lane [j] of a [tl.dot]. *)
Lemma tl_dot_NaN (n : Z) (a b : Z -> Z -> fp) (i j k : Z) :
  0 <= j < n -> b j k = NaN -> tl_dot n a b i k = NaN.
Proof.
  intros Hj E. unfold tl_dot. apply fsum_NaN_in. apply in_map_iff.
  exists j. split; [now rewrite E, fmul_NaN_r|]. now apply In_arange.
Qed.

(** The pointers into k and v when [_fwd_kernel] enters its iteration
    [t]. *)
Lemma fwd_state_ptrs (Q K V : mem) (sm_scale : R) (sq sk sv : strides)
    (N_CTX P_SEQ BLOCK_M BLOCK_DMODEL BLOCK_N : Z)
    (IS_CAUSAL DIVISIBLE_M DIVISIBLE_N : bool)
    (start_m off_h off_z : Z) (t : nat) :
  let st := fwd_state_at Q K V sm_scale sq sk sv N_CTX P_SEQ BLOCK_M
                         BLOCK_DMODEL BLOCK_N IS_CAUSAL DIVISIBLE_M
                         DIVISIBLE_N start_m off_h off_z (Z.of_nat t) in
  k_ptrs st = (fun d j => fwd_k_ptrs_init sk sv off_h off_z d j
                          + Z.of_nat t * (BLOCK_N * s2 sk))
  /\ v_ptrs st = (fun j d => fwd_v_ptrs_init sk sv off_h off_z j d
                             + Z.of_nat t * (BLOCK_N * s2 sv)).
Proof.
  cbv zeta. induction t as [|t [IHk IHv]].
  - unfold fwd_state_at. simpl.
    split; extensionality a; extensionality b; lia.
  - replace (Z.of_nat (S t)) with (Z.of_nat t + 1) by lia.
    rewrite fwd_state_next by lia. unfold fwd_body at 1 2.
    cbn [k_ptrs v_ptrs]. rewrite IHk, IHv.
    split; extensionality a; extensionality b; lia.
Qed.

Section FwdPastLastKey.
Variables (Q K V : mem) (sm_scale : R).
Variables (sq sk sv : strides).
Variables (N_CTX P_SEQ BLOCK_M BLOCK_DMODEL BLOCK_N : Z).
Variables (IS_CAUSAL DIVISIBLE_M : bool).
Variables (start_m off_h off_z : Z).

Local Abbreviation body :=
  (fwd_body Q K V sm_scale sq sk sv N_CTX P_SEQ BLOCK_M BLOCK_DMODEL
            BLOCK_N IS_CAUSAL DIVISIBLE_M true start_m off_h off_z).
Local Abbreviation state_at :=
  (fwd_state_at Q K V sm_scale sq sk sv N_CTX P_SEQ BLOCK_M BLOCK_DMODEL
                BLOCK_N IS_CAUSAL DIVISIBLE_M true start_m off_h off_z).

(** An iteration that loads a NaN of v leaves NaN in that column of the
    accumulator, on every row. *)
Lemma fwd_body_acc_nan (st : fwd_state) (start_n i j d : Z) :
  0 <= j < BLOCK_N -> V (v_ptrs st j d) = NaN ->
  acc (body st start_n) i d = NaN.
Proof.
  intros Hj E. unfold fwd_body. cbn [acc].
  rewrite (tl_dot_NaN BLOCK_N _ _ i j d Hj); [apply fadd_NaN_r|].
  unfold fwd_mask_n. cbn [negb lane_ok]. unfold tl_load. exact E.
Qed.

Lemma fwd_body_acc_nan_stays (st : fwd_state) (start_n i d : Z) :
  acc st i d = NaN -> acc (body st start_n) i d = NaN.
Proof.
  intros E. unfold fwd_body. cbn [acc].
  now rewrite E, fmul_NaN_l, fadd_NaN_l.
Qed.

Lemma fwd_acc_nan_from (t : Z) (k : nat) (i d : Z) :
  0 <= t -> acc (state_at t) i d = NaN ->
  acc (state_at (t + Z.of_nat k)) i d = NaN.
Proof.
  intros Ht E. induction k as [|k IH].
  - now rewrite Z.add_0_r.
  - replace (t + Z.of_nat (S k)) with (t + Z.of_nat k + 1) by lia.
    rewrite fwd_state_next by lia. now apply fwd_body_acc_nan_stays.
Qed.

(** If the loop reaches the tile [t] and the storage of v holds a NaN in
    the column [d] of one of its rows, the instance leaves NaN in the
    column [d] of every row of its output. *)
Lemma fwd_acc_out_poisoned (t i j d : Z) :
  0 <= t -> 0 < BLOCK_N -> 0 <= j < BLOCK_N ->
  t * BLOCK_N < fwd_hi N_CTX P_SEQ BLOCK_M IS_CAUSAL start_m ->
  V (fwd_v_ptrs_init sk sv off_h off_z j d + t * (BLOCK_N * s2 sv)) = NaN ->
  fwd_acc_out Q K V sm_scale sq sk sv N_CTX P_SEQ BLOCK_M BLOCK_DMODEL
              BLOCK_N IS_CAUSAL DIVISIBLE_M true start_m off_h off_z i d
  = NaN.
Proof.
  intros Ht HBN Hj Hhi E. unfold fwd_acc_out.
  rewrite fwd_state_last.
  set (T := cdiv (fwd_hi N_CTX P_SEQ BLOCK_M IS_CAUSAL start_m) BLOCK_N).
  assert (HT : t + 1 <= T).
  { unfold T, cdiv.
    enough (t < (fwd_hi N_CTX P_SEQ BLOCK_M IS_CAUSAL start_m
                 + BLOCK_N - 1) / BLOCK_N) by lia.
    apply Z.lt_le_trans with ((t * BLOCK_N + BLOCK_N) / BLOCK_N).
    - rewrite Z.div_add_l by lia. rewrite Z.div_same by lia. lia.
    - apply Z.div_le_mono; lia. }
  replace T with (t + 1 + Z.of_nat (Z.to_nat (T - (t + 1)))) by lia.
  rewrite fwd_acc_nan_from; [apply fmul_NaN_l|lia|].
  rewrite fwd_state_next by lia.
  apply (fwd_body_acc_nan _ _ i j d Hj).
  replace t with (Z.of_nat (Z.to_nat t)) at 1 by lia.
  destruct (fwd_state_ptrs Q K V sm_scale sq sk sv N_CTX P_SEQ BLOCK_M
              BLOCK_DMODEL BLOCK_N IS_CAUSAL DIVISIBLE_M true start_m off_h
              off_z (Z.to_nat t)) as [_ ->].
  rewrite Z2Nat.id by lia. exact E.
Qed.
End FwdPastLastKey.

(** X7.  Causal [_fwd_kernel] reads v beyond its last row.  When the
    number N of key rows is a multiple of BLOCK_N and M is not a multiple of
    BLOCK_M, the instance of the last query tile runs its loop over the
    tile of the rows [N .. N + BLOCK_N - 1], which v does not have, and
    loads it without a mask: if the storage of v holds a NaN at the offset
    of such a row [n], column [d], the launch leaves NaN in [o[z, h, m, d]]
    for every row [m] of the last query tile, whatever q, k and the rest
    of v are. *)
Theorem fwd_causal_reads_past_last_key (Q K V : mem) (sm_scale : R)
    (sq sk sv so : strides) (B H M N BLOCK_M BLOCK_DMODEL BLOCK_N : Z)
    (init : mem) (z h m n d : Z) :
  0 < BLOCK_M -> 0 < BLOCK_N ->
  0 <= M -> 0 <= N -> N mod BLOCK_N = 0 ->
  s2 sk = s2 sv -> s3 sk = s3 sv ->
  layout_injective so B H M BLOCK_DMODEL ->
  0 <= z < B -> 0 <= h < H -> 0 <= d < BLOCK_DMODEL ->
  M / BLOCK_M * BLOCK_M <= m < M ->
  N <= n < N + BLOCK_N ->
  V (offset4 sv z h n d) = NaN ->
  apply_writes init
    (snd (fwd_launch Q K V sm_scale sq sk sv so B H M (N - M)
            BLOCK_M BLOCK_N BLOCK_DMODEL true
            (M mod BLOCK_M =? 0) (N mod BLOCK_N =? 0)
            (cdiv M BLOCK_M, H, B)))
    (offset4 so z h m d)
  = NaN.
Proof.
  intros HBM HBN HM HN EN Hs2 Hs3 Hinj Hz Hh Hd Hm Hn E.
  assert (H0 : 0 <= M / BLOCK_M) by (apply Z.div_pos; lia).
  pose proof (Z.div_mod M BLOCK_M ltac:(lia)) as EM.
  pose proof (Z.mod_pos_bound M BLOCK_M HBM) as HbM.
  assert (Et : m / BLOCK_M = M / BLOCK_M).
  { symmetry. apply Z.div_unique with (m - M / BLOCK_M * BLOCK_M); lia. }
  pose proof (Z.div_mod N BLOCK_N ltac:(lia)) as EN'.
  rewrite EN, Z.add_0_r in EN'.
  rewrite (fwd_launch_O_mem Q K V sm_scale sq sk sv so B H M N BLOCK_M
             BLOCK_DMODEL BLOCK_N true HBM
             (fun z h m d =>
                fwd_acc_out Q K V sm_scale sq sk sv M (N - M) BLOCK_M
                            BLOCK_DMODEL BLOCK_N true (M mod BLOCK_M =? 0)
                            (N mod BLOCK_N =? 0) (m / BLOCK_M) h z
                            (m mod BLOCK_M) d)
             init Hinj (fun _ _ _ _ _ _ _ _ => eq_refl) z h m d Hz Hh
             ltac:(lia) Hd).
  replace (N mod BLOCK_N =? 0) with true by (symmetry; now apply Z.eqb_eq).
  apply (fwd_acc_out_poisoned Q K V sm_scale sq sk sv M (N - M) BLOCK_M
           BLOCK_DMODEL BLOCK_N true (M mod BLOCK_M =? 0) (m / BLOCK_M) h z
           (N / BLOCK_N) (m mod BLOCK_M) (n - N) d).
  - apply Z.div_pos; lia.
  - exact HBN.
  - lia.
  - unfold fwd_hi. rewrite Et. nia.
  - rewrite <- E. f_equal.
    unfold fwd_v_ptrs_init, fwd_V_base, offset4. rewrite Hs2, Hs3. nia.
Qed.

Lemma fwd_causal_reads_past_last_key_witness :
  apply_writes (fun _ => F 0)
    (snd (fwd_launch (fun _ => F 1) (fun _ => F 1)
            (fun a => if a <? 1024 then F 1 else NaN) 1
            (mkStrides 16 16 16 1) (mkStrides 1024 1024 16 1)
            (mkStrides 1024 1024 16 1) (mkStrides 16 16 16 1)
            1 1 1 (64 - 1) 128 64 16 true
            (1 mod 128 =? 0) (64 mod 64 =? 0) (cdiv 1 128, 1, 1)))
    (offset4 (mkStrides 16 16 16 1) 0 0 0 3)
  = NaN.
Proof.
  assert (Hinj : layout_injective (mkStrides 16 16 16 1) 1 1 1 16).
  { unfold layout_injective, offset4. simpl. intros. lia. }
  exact (fwd_causal_reads_past_last_key (fun _ => F 1) (fun _ => F 1)
           (fun a => if a <? 1024 then F 1 else NaN) 1
           (mkStrides 16 16 16 1) (mkStrides 1024 1024 16 1)
           (mkStrides 1024 1024 16 1) (mkStrides 16 16 16 1)
           1 1 1 64 128 16 64 (fun _ => F 0) 0 0 0 64 3
           ltac:(lia) ltac:(lia) ltac:(lia) ltac:(lia) eq_refl
           eq_refl eq_refl Hinj ltac:(lia) ltac:(lia) ltac:(lia)
           ltac:(simpl; lia) ltac:(lia) eq_refl).
Defined.

Section BqPastLastKey.
Variables (Q K V : mem) (sm_scale : R) (DO L Dl : mem).
Variables (sq sk sv sdo : strides).
Variables (H N_CTX P_SEQ BLOCK_M BLOCK_DMODEL BLOCK_N : Z).
Variables (CAUSAL DIVISIBLE_M : bool).
Variables (start_m off_h off_z : Z).

Local Abbreviation body :=
  (bq_body Q K V sm_scale DO L Dl sq sk sv sdo H N_CTX P_SEQ BLOCK_M
           BLOCK_DMODEL BLOCK_N CAUSAL DIVISIBLE_M true start_m off_h off_z).
Local Abbreviation state_at :=
  (bq_state_at Q K V sm_scale DO L Dl sq sk sv sdo H N_CTX P_SEQ BLOCK_M
               BLOCK_DMODEL BLOCK_N CAUSAL DIVISIBLE_M true start_m off_h
               off_z).

Lemma bq_state_step (t : Z) :
  0 <= t -> state_at (t + 1) = body (state_at t) (t * BLOCK_N).
Proof.
  intros Ht. unfold bq_state_at, tile_starts.
  rewrite arange_succ by lia. now rewrite map_app, fold_left_app.
Qed.

Lemma bq_k_ptrs_at (t : nat) :
  q_k_ptrs (state_at (Z.of_nat t))
  = fun j k => bq_k_ptrs_init sk off_h off_z j k
               + Z.of_nat t * (BLOCK_N * s2 sk).
Proof.
  induction t as [|t IH].
  - unfold bq_state_at. simpl. extensionality j. extensionality k. lia.
  - replace (Z.of_nat (S t)) with (Z.of_nat t + 1) by lia.
    rewrite bq_state_step by lia. unfold bq_body at 1. cbn [q_k_ptrs].
    rewrite IH. extensionality j. extensionality k. lia.
Qed.

(** An iteration that loads a NaN of k leaves NaN in that column of [dq],
    on every row. *)
Lemma bq_body_dq_nan (st : q_state) (start_n i j k : Z) :
  0 <= j < BLOCK_N -> K (q_k_ptrs st j k) = NaN ->
  q_dq (body st start_n) i k = NaN.
Proof.
  intros Hj E. unfold bq_body. cbn [q_dq].
  rewrite (tl_dot_NaN BLOCK_N _ _ i j k Hj); [apply fadd_NaN_r|].
  unfold bq_k, bq_mask_n. cbn [negb lane_ok]. unfold tl_load. exact E.
Qed.

Lemma bq_body_dq_nan_stays (st : q_state) (start_n i k : Z) :
  q_dq st i k = NaN -> q_dq (body st start_n) i k = NaN.
Proof.
  intros E. unfold bq_body. cbn [q_dq]. now rewrite E, fadd_NaN_l.
Qed.

Lemma bq_dq_nan_from (t : Z) (c : nat) (i k : Z) :
  0 <= t -> q_dq (state_at t) i k = NaN ->
  q_dq (state_at (t + Z.of_nat c)) i k = NaN.
Proof.
  intros Ht E. induction c as [|c IH].
  - now rewrite Z.add_0_r.
  - replace (t + Z.of_nat (S c)) with (t + Z.of_nat c + 1) by lia.
    rewrite bq_state_step by lia. now apply bq_body_dq_nan_stays.
Qed.

(** If the loop reaches the tile [t] and the storage of k holds a NaN in
    the column [k] of one of its rows, the instance leaves NaN in the
    column [k] of every row of its [dq]. *)
Lemma bq_dq_out_nan (t i j k : Z) :
  0 <= t -> 0 < BLOCK_N -> 0 <= j < BLOCK_N ->
  t * BLOCK_N < bq_hi N_CTX P_SEQ BLOCK_M CAUSAL start_m ->
  K (bq_k_ptrs_init sk off_h off_z j k + t * (BLOCK_N * s2 sk)) = NaN ->
  bq_dq_out Q K V sm_scale DO L Dl sq sk sv sdo H N_CTX P_SEQ BLOCK_M
            BLOCK_DMODEL BLOCK_N CAUSAL DIVISIBLE_M true start_m off_h off_z
            i k
  = NaN.
Proof.
  intros Ht HBN Hj Hhi E. unfold bq_dq_out, to_dtype, bq_loop, py_range.
  rewrite Z.sub_0_r.
  change (fold_left _ _ _)
    with (state_at (cdiv (bq_hi N_CTX P_SEQ BLOCK_M CAUSAL start_m)
                         BLOCK_N)).
  set (T := cdiv (bq_hi N_CTX P_SEQ BLOCK_M CAUSAL start_m) BLOCK_N).
  assert (HT : t + 1 <= T).
  { unfold T, cdiv.
    enough (t < (bq_hi N_CTX P_SEQ BLOCK_M CAUSAL start_m
                 + BLOCK_N - 1) / BLOCK_N) by lia.
    apply Z.lt_le_trans with ((t * BLOCK_N + BLOCK_N) / BLOCK_N).
    - rewrite Z.div_add_l by lia. rewrite Z.div_same by lia. lia.
    - apply Z.div_le_mono; lia. }
  replace T with (t + 1 + Z.of_nat (Z.to_nat (T - (t + 1)))) by lia.
  rewrite bq_dq_nan_from; [apply fmul_NaN_l|lia|].
  rewrite bq_state_step by lia.
  apply (bq_body_dq_nan _ _ i j k Hj).
  replace t with (Z.of_nat (Z.to_nat t)) at 1 by lia.
  rewrite bq_k_ptrs_at. rewrite Z2Nat.id by lia. exact E.
Qed.
End BqPastLastKey.

(** The stores of the launch of [_bwd_q_kernel]: one per element of every
    row that the row mask lets through. *)
Lemma q_launch_stores (Q K V : mem) (sm_scale : R) (DO L Dl : mem)
    (sq sk sv sdo sdq : strides) (B H M P_SEQ BLOCK_M BLOCK_N D : Z)
    (causal divisible_n : bool) (w : write) :
  0 < BLOCK_M ->
  In w (q_launch Q K V sm_scale DO L Dl sq sk sv sdo sdq H M P_SEQ BLOCK_M
                 BLOCK_N D causal (M mod BLOCK_M =? 0) divisible_n
                 (cdiv M BLOCK_M, H, B)) <->
  exists z h m k, 0 <= z < B /\ 0 <= h < H /\ 0 <= m < M /\ 0 <= k < D
    /\ bq_row_kept M BLOCK_M m = true
    /\ w = (offset4 sdq z h m k,
            bq_dq_out Q K V sm_scale DO L Dl sq sk sv sdo H M P_SEQ BLOCK_M
                      D BLOCK_N causal (M mod BLOCK_M =? 0) divisible_n
                      (m / BLOCK_M) h z (m mod BLOCK_M) k).
Proof.
  intros HBM.
  assert (Hdm : forall t i, 0 <= i < BLOCK_M ->
            (t * BLOCK_M + i) / BLOCK_M = t
            /\ (t * BLOCK_M + i) mod BLOCK_M = i).
  { intros t i Hi. split.
    - rewrite Z.add_comm, Z.div_add by lia. rewrite Z.div_small; lia.
    - rewrite Z.add_comm, Z.mod_add by lia. rewrite Z.mod_small; lia. }
  unfold q_launch. rewrite in_flat_map. split.
  - intros ([[t h] z] & Hg & Hw). apply In_grid_ids in Hg as (Ht & Hh & Hz).
    unfold _bwd_q_kernel in Hw.
    apply In_tl_store2 in Hw as (i & k & Hi & Hok & Hk & ->).
    pose proof (bq_kept_in_range M BLOCK_M t i HBM Ht Hi Hok) as Hm.
    exists z, h, (t * BLOCK_M + i), k.
    destruct (Hdm t i Hi) as [Ed Em].
    repeat split; try lia.
    + unfold bq_row_kept. now rewrite Ed, Em.
    + rewrite Ed, Em. f_equal.
      unfold bq_dq_ptrs, bq_DQ_base, bq_offs_m, offset4. lia.
  - intros (z & h & m & k & Hz & Hh & Hm & Hk & Hkept & ->).
    pose proof (Z.div_mod m BLOCK_M ltac:(lia)) as E.
    pose proof (Z.mod_pos_bound m BLOCK_M HBM) as Hb.
    assert (Ht : 0 <= m / BLOCK_M < cdiv M BLOCK_M).
    { split; [apply Z.div_pos; lia|]. apply cdiv_gt; [assumption|]. nia. }
    exists (m / BLOCK_M, h, z). split; [apply In_grid_ids; auto|].
    unfold _bwd_q_kernel. apply In_tl_store2.
    exists (m mod BLOCK_M), k. repeat split; try lia.
    + exact Hkept.
    + f_equal. unfold bq_dq_ptrs, bq_DQ_base, bq_offs_m, offset4. nia.
Qed.

(** X8.  Causal [_bwd_q_kernel] reads k beyond its last row.  When the
    number N of key rows is a multiple of BLOCK_N and there are fewer than
    BLOCK_M query rows, the loop runs over the tile of the rows
    [N .. N + BLOCK_N - 1], which k does not have, and loads it without a
    mask: if the storage of k holds a NaN at the offset of such a row [n],
    column [d], the launch leaves NaN in [dq[z, h, m, d]] for every row
    [m], whatever q, v, do, L, delta and the rest of k are. *)
Theorem bwd_q_causal_reads_past_last_key (Q K V : mem) (sm_scale : R)
    (DO L Dl : mem) (sq sk sv sdo sdq : strides)
    (B H M N BLOCK_M BLOCK_DMODEL BLOCK_N : Z) (z h m n d : Z) :
  0 < BLOCK_N ->
  0 <= N -> N mod BLOCK_N = 0 ->
  layout_injective sdq B H M BLOCK_DMODEL ->
  0 <= z < B -> 0 <= h < H -> 0 <= d < BLOCK_DMODEL ->
  0 <= m < M -> M < BLOCK_M ->
  N <= n < N + BLOCK_N ->
  K (offset4 sk z h n d) = NaN ->
  apply_writes (fun _ => F 0)
    (q_launch Q K V sm_scale DO L Dl sq sk sv sdo sdq H M (N - M)
              BLOCK_M BLOCK_N BLOCK_DMODEL true
              (M mod BLOCK_M =? 0) (N mod BLOCK_N =? 0)
              (cdiv M BLOCK_M, H, B))
    (offset4 sdq z h m d)
  = NaN.
Proof.
  intros HBN HN EN Hinj Hz Hh Hd Hm HM Hn E.
  assert (HBM : 0 < BLOCK_M) by lia.
  assert (Ed : m / BLOCK_M = 0) by (apply Z.div_small; lia).
  assert (Em : m mod BLOCK_M = m) by (apply Z.mod_small; lia).
  pose proof (Z.div_mod N BLOCK_N ltac:(lia)) as EN'.
  rewrite EN, Z.add_0_r in EN'.
  assert (Hkept : bq_row_kept M BLOCK_M m = true).
  { rewrite bq_row_kept_spec by lia.
    replace (M <? BLOCK_M) with true by (symmetry; apply Z.ltb_lt; lia).
    apply orb_true_r. }
  assert (Hval :
            bq_dq_out Q K V sm_scale DO L Dl sq sk sv sdo H M (N - M)
                      BLOCK_M BLOCK_DMODEL BLOCK_N true (M mod BLOCK_M =? 0)
                      (N mod BLOCK_N =? 0) (m / BLOCK_M) h z
                      (m mod BLOCK_M) d = NaN).
  { replace (N mod BLOCK_N =? 0) with true
      by (symmetry; now apply Z.eqb_eq).
    apply (bq_dq_out_nan Q K V sm_scale DO L Dl sq sk sv sdo H M (N - M)
             BLOCK_M BLOCK_DMODEL BLOCK_N true (M mod BLOCK_M =? 0)
             (m / BLOCK_M) h z (N / BLOCK_N) (m mod BLOCK_M) (n - N) d).
    - apply Z.div_pos; lia.
    - exact HBN.
    - lia.
    - unfold bq_hi. rewrite Ed. nia.
    - rewrite <- E. f_equal.
      unfold bq_k_ptrs_init, bq_K_base, offset4. nia. }
  apply apply_writes_determined.
  - apply in_map_iff.
    eexists (offset4 sdq z h m d, _). split; [reflexivity|].
    apply q_launch_stores; [exact HBM|].
    exists z, h, m, d. rewrite Hval. auto 7.
  - intros w Hw Ew.
    apply q_launch_stores in Hw; [|exact HBM].
    destruct Hw as (z' & h' & m' & d' & Hz' & Hh' & Hm' & Hd' & _ & ->).
    cbn [fst snd] in *.
    destruct (Hinj z' h' m' d' z h m d) as (-> & -> & -> & ->); auto.
Qed.

Lemma bwd_q_causal_reads_past_last_key_witness :
  apply_writes (fun _ => F 0)
    (q_launch (fun _ => F 1) (fun a => if a <? 1024 then F 1 else NaN)
              (fun _ => F 1) 1 (fun _ => F 1) (fun _ => F 1) (fun _ => F 1)
              (mkStrides 16 16 16 1) (mkStrides 1024 1024 16 1)
              (mkStrides 1024 1024 16 1) (mkStrides 16 16 16 1)
              (mkStrides 16 16 16 1) 1 1 (64 - 1) 64 64 16 true
              (1 mod 64 =? 0) (64 mod 64 =? 0) (cdiv 1 64, 1, 1))
    (offset4 (mkStrides 16 16 16 1) 0 0 0 3)
  = NaN.
Proof.
  assert (Hinj : layout_injective (mkStrides 16 16 16 1) 1 1 1 16).
  { unfold layout_injective, offset4. simpl. intros. lia. }
  exact (bwd_q_causal_reads_past_last_key (fun _ => F 1)
           (fun a => if a <? 1024 then F 1 else NaN)
           (fun _ => F 1) 1 (fun _ => F 1) (fun _ => F 1) (fun _ => F 1)
           (mkStrides 16 16 16 1) (mkStrides 1024 1024 16 1)
           (mkStrides 1024 1024 16 1) (mkStrides 16 16 16 1)
           (mkStrides 16 16 16 1) 1 1 1 64 64 16 64 0 0 0 64 3
           ltac:(lia) ltac:(lia) eq_refl Hinj ltac:(lia) ltac:(lia)
           ltac:(lia) ltac:(lia) ltac:(lia) ltac:(lia) eq_refl).
Defined.

(** ** What [_fwd_kernel] reads

    Without [IS_CAUSAL], or when M is a multiple of BLOCK_M, or when N is
    not a multiple of BLOCK_N (the loads of k and v carry a mask), the
    kernel reads q, k and v at the offsets of their elements only. *)

Section FwdFootprint.
Variables (Q K V Q' K' V' : mem) (sm_scale : R).
Variables (sq sk sv so : strides).
Variables (H M N BLOCK_M BLOCK_DMODEL BLOCK_N : Z).
Variables (causal : bool).
Variables (start_m off_h off_z : Z).

Local Abbreviation P_SEQ := (N - M).
Local Abbreviation DIVISIBLE_M := (M mod BLOCK_M =? 0).
Local Abbreviation DIVISIBLE_N := (N mod BLOCK_N =? 0).

Hypothesis BLOCK_M_pos : 0 < BLOCK_M.
Hypothesis BLOCK_N_pos : 0 < BLOCK_N.
Hypothesis same_row_stride : s2 sk = s2 sv.
Hypothesis same_col_stride : s3 sk = s3 sv.
Hypothesis tile_in_grid : 0 <= start_m < cdiv M BLOCK_M.
(** The query tile is full when the loop bound depends on it and the loads
    of k and v carry no mask; or else the storages of k and v are the same
    throughout. *)
Hypothesis full_tile :
  causal = false \/ (start_m + 1) * BLOCK_M <= M \/ N mod BLOCK_N <> 0
  \/ (K = K' /\ V = V').
Hypothesis Q_elements : forall m d, 0 <= m < M -> 0 <= d < BLOCK_DMODEL ->
  Q (offset4 sq off_z off_h m d) = Q' (offset4 sq off_z off_h m d).
Hypothesis K_elements : forall n d, 0 <= n < N -> 0 <= d < BLOCK_DMODEL ->
  K (offset4 sk off_z off_h n d) = K' (offset4 sk off_z off_h n d).
Hypothesis V_elements : forall n d, 0 <= n < N -> 0 <= d < BLOCK_DMODEL ->
  V (offset4 sv off_z off_h n d) = V' (offset4 sv off_z off_h n d).

Local Abbreviation st_at t :=
  (fwd_state_at Q K V sm_scale sq sk sv M P_SEQ BLOCK_M BLOCK_DMODEL
                BLOCK_N causal DIVISIBLE_M DIVISIBLE_N start_m off_h off_z t).
Local Abbreviation st_at' t :=
  (fwd_state_at Q' K' V' sm_scale sq sk sv M P_SEQ BLOCK_M BLOCK_DMODEL
                BLOCK_N causal DIVISIBLE_M DIVISIBLE_N start_m off_h off_z t).
Local Abbreviation hi := (fwd_hi M P_SEQ BLOCK_M causal start_m).
Local Abbreviation mask_n t :=
  (fwd_mask_n M P_SEQ BLOCK_N DIVISIBLE_N (t * BLOCK_N)).

Lemma fwd_q_footprint (i d : Z) :
  0 <= i < BLOCK_M -> 0 <= d < BLOCK_DMODEL ->
  fwd_q Q sq M BLOCK_M BLOCK_DMODEL DIVISIBLE_M start_m off_h off_z i d
  = fwd_q Q' sq M BLOCK_M BLOCK_DMODEL DIVISIBLE_M start_m off_h off_z i d.
Proof.
  intros Hi Hd.
  assert (Hl : forall k, 0 <= k < BLOCK_DMODEL ->
            fwd_q_loaded Q sq M BLOCK_M DIVISIBLE_M start_m off_h off_z i k
            = fwd_q_loaded Q' sq M BLOCK_M DIVISIBLE_M start_m off_h off_z
                           i k).
  { intros k Hk. unfold fwd_q_loaded, tl_load.
    destruct (lane_ok _ i) eqn:Hok; [|reflexivity].
    apply (row_lane_ok M BLOCK_M BLOCK_M_pos) in Hok; [|assumption..].
    assert (0 <= start_m * BLOCK_M + i) by nia.
    replace (fwd_q_ptrs sq BLOCK_M start_m off_h off_z i k)
      with (offset4 sq off_z off_h (start_m * BLOCK_M + i) k)
      by (unfold fwd_q_ptrs, fwd_Q_base, fwd_offs_m, offset4; lia).
    apply Q_elements; lia. }
  unfold fwd_q. destruct (BLOCK_DMODEL <? 128); [|now apply Hl].
  unfold to_dtype. apply tl_dot_ext; [exact Hl|reflexivity].
Qed.

(** A lane of a key tile that the loop visits and the mask lets through
    is a row of k and v. *)
Lemma fwd_key_row_in_range (t j : Z) :
  causal = false \/ (start_m + 1) * BLOCK_M <= M \/ N mod BLOCK_N <> 0 ->
  0 <= t -> t * BLOCK_N < hi -> 0 <= j < BLOCK_N ->
  lane_ok (mask_n t) j = true ->
  0 <= t * BLOCK_N + j < N.
Proof.
  intros Hfull Ht Hhi Hj Hok. split; [nia|].
  unfold fwd_mask_n in Hok.
  replace (M + (N - M)) with N in Hok by lia.
  destruct (Z.eqb_spec (N mod BLOCK_N) 0) as [E|E]; cbn [negb] in Hok.
  - assert (Hhi' : t * BLOCK_N < N).
    { unfold fwd_hi in Hhi.
      destruct Hfull as [-> | [Hf | Hn]]; [lia| |contradiction].
      destruct causal; nia. }
    apply Z.mod_divide in E; [|lia]. destruct E as [c ->].
    assert (t < c) by nia. nia.
  - destruct (Z.gtb_spec (t * BLOCK_N + BLOCK_N) N); cbn [lane_ok] in Hok.
    + now apply Z.ltb_lt.
    + lia.
Qed.

Lemma fwd_loads_footprint (t : nat) (j d : Z) :
  Z.of_nat t * BLOCK_N < hi -> 0 <= j < BLOCK_N -> 0 <= d < BLOCK_DMODEL ->
  tl_load K (k_ptrs (st_at (Z.of_nat t)) d j)
          (lane_ok (mask_n (Z.of_nat t)) j)
  = tl_load K' (k_ptrs (st_at' (Z.of_nat t)) d j)
            (lane_ok (mask_n (Z.of_nat t)) j)
  /\ tl_load V (v_ptrs (st_at (Z.of_nat t)) j d)
             (lane_ok (mask_n (Z.of_nat t)) j)
     = tl_load V' (v_ptrs (st_at' (Z.of_nat t)) j d)
               (lane_ok (mask_n (Z.of_nat t)) j).
Proof.
  intros Hhi Hj Hd.
  destruct (fwd_state_ptrs Q K V sm_scale sq sk sv M P_SEQ BLOCK_M BLOCK_DMODEL
              BLOCK_N causal DIVISIBLE_M DIVISIBLE_N start_m off_h off_z t)
    as [-> ->].
  destruct (fwd_state_ptrs Q' K' V' sm_scale sq sk sv M P_SEQ BLOCK_M
              BLOCK_DMODEL BLOCK_N causal DIVISIBLE_M DIVISIBLE_N start_m
              off_h off_z t) as [-> ->].
  assert (Hfull : (causal = false \/ (start_m + 1) * BLOCK_M <= M
                   \/ N mod BLOCK_N <> 0) \/ (K = K' /\ V = V'))
    by (pose proof full_tile; tauto).
  destruct Hfull as [Hfull | [EK EV]]; [|now rewrite EK, EV].
  unfold tl_load. destruct (lane_ok _ j) eqn:Hok; [|split; reflexivity].
  pose proof (fwd_key_row_in_range (Z.of_nat t) j Hfull ltac:(lia) Hhi Hj
                Hok) as Hn.
  replace (fwd_k_ptrs_init sk sv off_h off_z d j
           + Z.of_nat t * (BLOCK_N * s2 sk))
    with (offset4 sk off_z off_h (Z.of_nat t * BLOCK_N + j) d)
    by (unfold fwd_k_ptrs_init, fwd_K_base, offset4;
        rewrite <- same_row_stride, <- same_col_stride; lia).
  replace (fwd_v_ptrs_init sk sv off_h off_z j d
           + Z.of_nat t * (BLOCK_N * s2 sv))
    with (offset4 sv off_z off_h (Z.of_nat t * BLOCK_N + j) d)
    by (unfold fwd_v_ptrs_init, fwd_V_base, offset4;
        rewrite same_row_stride, same_col_stride; lia).
  split; [apply K_elements | apply V_elements]; lia.
Qed.

(** The running maximum, the running sum and the accumulator agree on the
    lanes of the tile. *)
Local Abbreviation fwd_agree st st' :=
  ((forall i, 0 <= i < BLOCK_M -> m_i st i = m_i st' i)
   /\ (forall i, 0 <= i < BLOCK_M -> l_i st i = l_i st' i)
   /\ (forall i d, 0 <= i < BLOCK_M -> 0 <= d < BLOCK_DMODEL ->
         acc st i d = acc st' i d)).

Lemma fwd_s_footprint (t : nat) (i j : Z) :
  Z.of_nat t * BLOCK_N < hi -> 0 <= i < BLOCK_M -> 0 <= j < BLOCK_N ->
  fwd_s Q K sq M P_SEQ BLOCK_M BLOCK_DMODEL BLOCK_N causal DIVISIBLE_M
        DIVISIBLE_N start_m off_h off_z (st_at (Z.of_nat t))
        (Z.of_nat t * BLOCK_N) i j
  = fwd_s Q' K' sq M P_SEQ BLOCK_M BLOCK_DMODEL BLOCK_N causal DIVISIBLE_M
          DIVISIBLE_N start_m off_h off_z (st_at' (Z.of_nat t))
          (Z.of_nat t * BLOCK_N) i j.
Proof.
  intros Hhi Hi Hj.
  assert (Hdot :
    tl_dot BLOCK_DMODEL
      (fwd_q Q sq M BLOCK_M BLOCK_DMODEL DIVISIBLE_M start_m off_h off_z)
      (fun d j => tl_load K (k_ptrs (st_at (Z.of_nat t)) d j)
                          (lane_ok (mask_n (Z.of_nat t)) j)) i j
    = tl_dot BLOCK_DMODEL
        (fwd_q Q' sq M BLOCK_M BLOCK_DMODEL DIVISIBLE_M start_m off_h off_z)
        (fun d j => tl_load K' (k_ptrs (st_at' (Z.of_nat t)) d j)
                            (lane_ok (mask_n (Z.of_nat t)) j)) i j).
  { apply tl_dot_ext.
    - intros d Hd. now apply fwd_q_footprint.
    - intros d Hd. now apply fwd_loads_footprint. }
  unfold fwd_s. cbv zeta.
  destruct causal, (fwd_mask_n M P_SEQ BLOCK_N DIVISIBLE_N
                               (Z.of_nat t * BLOCK_N));
    unfold tl_where; cbv beta;
    repeat match goal with |- context [if ?c then _ else _] =>
             destruct c; try reflexivity end;
    now rewrite Hdot.
Qed.

Lemma fwd_states_footprint (t : nat) :
  (Z.of_nat t - 1) * BLOCK_N < hi ->
  fwd_agree (st_at (Z.of_nat t)) (st_at' (Z.of_nat t)).
Proof.
  induction t as [|t IH]; intros Hhi.
  - unfold fwd_state_at. simpl. auto.
  - replace (Z.of_nat (S t)) with (Z.of_nat t + 1) in * by lia.
    replace (Z.of_nat t + 1 - 1) with (Z.of_nat t) in Hhi by lia.
    destruct IH as (Hm & Hl & Ha); [nia|].
    rewrite !fwd_state_next by lia.
    assert (Hs : forall i j, 0 <= i < BLOCK_M -> 0 <= j < BLOCK_N ->
              fwd_s Q K sq M P_SEQ BLOCK_M BLOCK_DMODEL BLOCK_N causal
                    DIVISIBLE_M DIVISIBLE_N start_m off_h off_z
                    (st_at (Z.of_nat t)) (Z.of_nat t * BLOCK_N) i j
              = fwd_s Q' K' sq M P_SEQ BLOCK_M BLOCK_DMODEL BLOCK_N causal
                      DIVISIBLE_M DIVISIBLE_N start_m off_h off_z
                      (st_at' (Z.of_nat t)) (Z.of_nat t * BLOCK_N) i j).
    { intros i j Hi Hj. now apply fwd_s_footprint. }
    assert (Hmax : forall i, 0 <= i < BLOCK_M ->
              tl_max1 BLOCK_N
                (fwd_s Q K sq M P_SEQ BLOCK_M BLOCK_DMODEL BLOCK_N causal
                       DIVISIBLE_M DIVISIBLE_N start_m off_h off_z
                       (st_at (Z.of_nat t)) (Z.of_nat t * BLOCK_N)) i
              = tl_max1 BLOCK_N
                  (fwd_s Q' K' sq M P_SEQ BLOCK_M BLOCK_DMODEL BLOCK_N
                         causal DIVISIBLE_M DIVISIBLE_N start_m off_h off_z
                         (st_at' (Z.of_nat t)) (Z.of_nat t * BLOCK_N)) i).
    { intros i Hi. apply tl_max1_ext. intros j Hj. now apply Hs. }
    unfold fwd_body. cbn [m_i l_i acc].
    split; [|split].
    + intros i Hi. now rewrite Hm, Hmax.
    + intros i Hi. rewrite Hl, Hm, Hmax by assumption. f_equal.
      apply tl_sum1_ext. intros j Hj. now rewrite Hs, Hm, Hmax.
    + intros i d Hi Hd. rewrite Ha, Hm, Hmax by assumption. f_equal.
      apply tl_dot_ext.
      * intros j Hj. now rewrite Hs, Hm, Hmax.
      * intros j Hj. now apply fwd_loads_footprint.
Qed.

Lemma fwd_loop_footprint :
  fwd_agree
    (fwd_loop Q K V sm_scale sq sk sv M P_SEQ BLOCK_M BLOCK_DMODEL
              BLOCK_N causal DIVISIBLE_M DIVISIBLE_N start_m off_h off_z)
    (fwd_loop Q' K' V' sm_scale sq sk sv M P_SEQ BLOCK_M
              BLOCK_DMODEL BLOCK_N causal DIVISIBLE_M DIVISIBLE_N
              start_m off_h off_z).
Proof.
  rewrite !fwd_state_last.
  destruct (Z_le_gt_dec (cdiv hi BLOCK_N) 0) as [Hle|Hgt].
  - unfold fwd_state_at, tile_starts, arange.
    replace (Z.to_nat (cdiv hi BLOCK_N)) with 0%nat by lia.
    simpl. auto.
  - replace (cdiv hi BLOCK_N)
      with (Z.of_nat (Z.to_nat (cdiv hi BLOCK_N))) by lia.
    apply fwd_states_footprint. rewrite Z2Nat.id by lia.
    apply cdiv_gt; [assumption|lia].
Qed.

Lemma fwd_kernel_footprint :
  _fwd_kernel Q K V sm_scale sq sk sv so H M P_SEQ BLOCK_M BLOCK_DMODEL
              BLOCK_N causal DIVISIBLE_M DIVISIBLE_N start_m off_h off_z
  = _fwd_kernel Q' K' V' sm_scale sq sk sv so H M P_SEQ BLOCK_M BLOCK_DMODEL
                BLOCK_N causal DIVISIBLE_M DIVISIBLE_N start_m off_h off_z.
Proof.
  destruct fwd_loop_footprint as (Hm & Hl & Ha).
  unfold _fwd_kernel. f_equal.
  - apply tl_store1_vals_ext. intros i Hi _. unfold fwd_l_out.
    now rewrite Hm, Hl.
  - apply tl_store2_vals_ext. intros i d Hi _ Hd. unfold fwd_acc_out.
    now rewrite Ha, Hl.
Qed.
End FwdFootprint.

(** X9.  Without causal masking, or when M is a multiple of BLOCK_M, or
    when N is not a multiple of BLOCK_N, the launch of [_fwd_kernel]
    depends on the storages of q, k and v through the elements of the
    three tensors only (k and v sharing their sequence and feature
    strides): two launches whose storages agree on
    [q[z, h, m, d]], [k[z, h, n, d]] and [v[z, h, n, d]] for [m < M] and
    [n < N] make the same stores into L and into o. *)
Theorem fwd_launch_footprint (Q K V Q' K' V' : mem) (sm_scale : R)
    (sq sk sv so : strides) (B H M N BLOCK_M BLOCK_DMODEL BLOCK_N : Z)
    (causal : bool) :
  0 < BLOCK_M -> 0 < BLOCK_N ->
  s2 sk = s2 sv -> s3 sk = s3 sv ->
  causal = false \/ M mod BLOCK_M = 0 \/ N mod BLOCK_N <> 0 ->
  (forall z h m d, 0 <= z < B -> 0 <= h < H -> 0 <= m < M ->
     0 <= d < BLOCK_DMODEL ->
     Q (offset4 sq z h m d) = Q' (offset4 sq z h m d)) ->
  (forall z h n d, 0 <= z < B -> 0 <= h < H -> 0 <= n < N ->
     0 <= d < BLOCK_DMODEL ->
     K (offset4 sk z h n d) = K' (offset4 sk z h n d)) ->
  (forall z h n d, 0 <= z < B -> 0 <= h < H -> 0 <= n < N ->
     0 <= d < BLOCK_DMODEL ->
     V (offset4 sv z h n d) = V' (offset4 sv z h n d)) ->
  fwd_launch Q K V sm_scale sq sk sv so B H M (N - M) BLOCK_M BLOCK_N
             BLOCK_DMODEL causal (M mod BLOCK_M =? 0) (N mod BLOCK_N =? 0)
             (cdiv M BLOCK_M, H, B)
  = fwd_launch Q' K' V' sm_scale sq sk sv so B H M (N - M) BLOCK_M BLOCK_N
               BLOCK_DMODEL causal (M mod BLOCK_M =? 0) (N mod BLOCK_N =? 0)
               (cdiv M BLOCK_M, H, B).
Proof.
  intros HBM HBN Hs2 Hs3 Hsafe HQ HK HV.
  assert (Hrun : forall id, In id (grid_ids (cdiv M BLOCK_M, H, B)) ->
            (let '(t, h, z) := id in
             _fwd_kernel Q K V sm_scale sq sk sv so H M (N - M) BLOCK_M
                         BLOCK_DMODEL BLOCK_N causal (M mod BLOCK_M =? 0)
                         (N mod BLOCK_N =? 0) t h z)
            = (let '(t, h, z) := id in
               _fwd_kernel Q' K' V' sm_scale sq sk sv so H M (N - M) BLOCK_M
                           BLOCK_DMODEL BLOCK_N causal (M mod BLOCK_M =? 0)
                           (N mod BLOCK_N =? 0) t h z)).
  { intros [[t h] z] Hg. apply In_grid_ids in Hg as (Ht & Hh & Hz).
    apply fwd_kernel_footprint; auto.
    destruct Hsafe as [E | [E | E]]; [now left | right; left | tauto].
    apply Z.mod_divide in E; [|lia]. destruct E as [c ->].
    destruct Ht as [_ Ht]. apply cdiv_gt in Ht; [|assumption].
    assert (t < c) by nia. nia. }
  unfold fwd_launch. f_equal; apply flat_map_ext_in; intros id Hg;
    now rewrite (Hrun id Hg).
Qed.

Lemma fwd_launch_footprint_witness :
  fwd_launch (fun _ => F 1) (fun _ => F 1) (fun _ => F 1) 1
             (mkStrides 1024 1024 16 1) (mkStrides 1024 1024 16 1)
             (mkStrides 1024 1024 16 1) (mkStrides 1024 1024 16 1)
             1 1 64 (64 - 64) 64 64 16 true
             (64 mod 64 =? 0) (64 mod 64 =? 0) (cdiv 64 64, 1, 1)
  = fwd_launch (fun a => if a <? 1024 then F 1 else NaN)
               (fun a => if a <? 1024 then F 1 else NaN)
               (fun a => if a <? 1024 then F 1 else NaN) 1
               (mkStrides 1024 1024 16 1) (mkStrides 1024 1024 16 1)
               (mkStrides 1024 1024 16 1) (mkStrides 1024 1024 16 1)
               1 1 64 (64 - 64) 64 64 16 true
               (64 mod 64 =? 0) (64 mod 64 =? 0) (cdiv 64 64, 1, 1).
Proof.
  assert (Hin : forall z h m d, 0 <= z < 1 -> 0 <= h < 1 -> 0 <= m < 64 ->
            0 <= d < 16 ->
            F 1 = (if offset4 (mkStrides 1024 1024 16 1) z h m d <? 1024
                   then F 1 else NaN)).
  { intros z h m d Hz Hh Hm Hd.
    destruct (Z.ltb_spec (offset4 (mkStrides 1024 1024 16 1) z h m d) 1024)
      as [_|Hge]; [reflexivity|].
    unfold offset4 in Hge. simpl in Hge. lia. }
  exact (fwd_launch_footprint (fun _ => F 1) (fun _ => F 1) (fun _ => F 1)
           (fun a => if a <? 1024 then F 1 else NaN)
           (fun a => if a <? 1024 then F 1 else NaN)
           (fun a => if a <? 1024 then F 1 else NaN) 1
           (mkStrides 1024 1024 16 1) (mkStrides 1024 1024 16 1)
           (mkStrides 1024 1024 16 1) (mkStrides 1024 1024 16 1)
           1 1 64 64 64 16 64 true
           ltac:(lia) ltac:(lia) eq_refl eq_refl
           (or_intror (or_introl eq_refl)) Hin Hin Hin).
Defined.

(** ** The forward launch on finite elements

    q, k and v hold finite numbers at their elements.  When the loop of
    [_fwd_kernel] stays within the N rows of k and v, the launch is that on
    storages that are finite throughout; when the loop loads the key tile
    past row N, the same holds if the storages of k and v are finite
    throughout. *)

(** The row [m = start_m * BLOCK_M + i] sees the key 0: the loop runs and
    the column 0 of its first tile is unmasked. *)
Lemma fwd_row_sees_first (Qr Kr : Z -> R) (sq sk sv : strides)
    (M N BLOCK_M BLOCK_DMODEL BLOCK_N : Z) (causal : bool)
    (start_m off_h off_z i : Z) :
  0 < BLOCK_M -> 0 < BLOCK_N -> 0 <= i < BLOCK_M ->
  0 < N -> (causal = true -> M - N <= start_m * BLOCK_M + i) ->
  0 < cdiv (fwd_hi M (N - M) BLOCK_M causal start_m) BLOCK_N
  /\ fwd_row_max Qr Kr sq sk sv M (N - M) BLOCK_M BLOCK_DMODEL BLOCK_N
                 causal (N mod BLOCK_N =? 0) start_m off_h off_z i BLOCK_N
     <> None.
Proof.
  intros HBM HBN Hi HN Hsee. split.
  - apply cdiv_gt; [assumption|]. unfold fwd_hi.
    destruct causal; [specialize (Hsee eq_refl); nia | lia].
  - intros Hnone. unfold fwd_row_max in Hnone.
    pose proof (proj1 (omax_list_none _) Hnone
                  (fwd_row_s Qr Kr sq sk sv M (N - M) BLOCK_M BLOCK_DMODEL
                             BLOCK_N causal (N mod BLOCK_N =? 0) start_m
                             off_h off_z i 0)) as Hc.
    assert (Hin : In (fwd_row_s Qr Kr sq sk sv M (N - M) BLOCK_M BLOCK_DMODEL
                                BLOCK_N causal (N mod BLOCK_N =? 0) start_m
                                off_h off_z i 0)
                     (map (fwd_row_s Qr Kr sq sk sv M (N - M) BLOCK_M
                                     BLOCK_DMODEL BLOCK_N causal
                                     (N mod BLOCK_N =? 0) start_m off_h
                                     off_z i)
                          (arange BLOCK_N))).
    { apply in_map. apply In_arange. lia. }
    specialize (Hc Hin). revert Hc.
    unfold fwd_row_s, fwd_col_unmasked, fwd_col_loaded, fwd_mask_n,
      fwd_causal_mask, fwd_offs_m.
    change (0 / BLOCK_N) with 0. change (0 mod BLOCK_N) with 0.
    replace (M + (N - M)) with N by lia.
    assert (Hl : lane_ok (if negb (N mod BLOCK_N =? 0)
                          then if 0 * BLOCK_N + BLOCK_N >? N
                               then Some (fun j => 0 * BLOCK_N + j <? N)
                               else None
                          else None) 0 = true).
    { destruct (negb _); [|reflexivity].
      destruct (_ >? _); [|reflexivity]. simpl. apply Z.ltb_lt. lia. }
    rewrite Hl. cbn [andb].
    destruct causal; [|discriminate].
    replace (N - M + (start_m * BLOCK_M + i) >=? 0 * BLOCK_N + 0) with true;
      [discriminate|].
    symmetry. rewrite Z.geb_leb. apply Z.leb_le.
    specialize (Hsee eq_refl). lia.
Qed.

Section FwdFinite.
Variables (Q K V : mem) (Qr Kr Vr : Z -> R) (sm_scale : R).
Variables (sq sk sv so : strides).
Variables (B H M N BLOCK_M BLOCK_DMODEL BLOCK_N : Z).
Variables (causal : bool).

Local Abbreviation P_SEQ := (N - M).
Local Abbreviation DIVISIBLE_M := (M mod BLOCK_M =? 0).
Local Abbreviation DIVISIBLE_N := (N mod BLOCK_N =? 0).
Local Abbreviation launch :=
  (fwd_launch Q K V sm_scale sq sk sv so B H M P_SEQ BLOCK_M BLOCK_N
              BLOCK_DMODEL causal DIVISIBLE_M DIVISIBLE_N
              (cdiv M BLOCK_M, H, B)).
Local Abbreviation loop t h z :=
  (fwd_loop Q K V sm_scale sq sk sv M P_SEQ BLOCK_M BLOCK_DMODEL BLOCK_N
            causal DIVISIBLE_M DIVISIBLE_N t h z).
Local Abbreviation finite_loop t h z :=
  (fwd_loop (finite_mem Qr) (finite_mem Kr) (finite_mem Vr) sm_scale
            sq sk sv M P_SEQ BLOCK_M BLOCK_DMODEL BLOCK_N
            causal DIVISIBLE_M DIVISIBLE_N t h z).

Hypothesis BLOCK_M_pos : 0 < BLOCK_M.
Hypothesis BLOCK_N_pos : 0 < BLOCK_N.
Hypothesis same_row_stride : s2 sk = s2 sv.
Hypothesis same_col_stride : s3 sk = s3 sv.
Hypothesis Q_finite : forall z h m d,
  0 <= z < B -> 0 <= h < H -> 0 <= m < M -> 0 <= d < BLOCK_DMODEL ->
  Q (offset4 sq z h m d) = F (Qr (offset4 sq z h m d)).
Hypothesis K_finite : forall z h n d,
  0 <= z < B -> 0 <= h < H -> 0 <= n < N -> 0 <= d < BLOCK_DMODEL ->
  K (offset4 sk z h n d) = F (Kr (offset4 sk z h n d)).
Hypothesis V_finite : forall z h n d,
  0 <= z < B -> 0 <= h < H -> 0 <= n < N -> 0 <= d < BLOCK_DMODEL ->
  V (offset4 sv z h n d) = F (Vr (offset4 sv z h n d)).
(** The loop stays within the N rows of k and v, or the storages of k and
    v are finite throughout. *)
Hypothesis key_tiles :
  causal = false \/ M mod BLOCK_M = 0 \/ N mod BLOCK_N <> 0
  \/ (K = finite_mem Kr /\ V = finite_mem Vr).

Lemma fwd_finite_tile (t : Z) :
  0 <= t < cdiv M BLOCK_M ->
  causal = false \/ (t + 1) * BLOCK_M <= M \/ N mod BLOCK_N <> 0
  \/ (K = finite_mem Kr /\ V = finite_mem Vr).
Proof.
  intros Ht. destruct key_tiles as [E | [E | E]]; [now left | | tauto].
  right; left. apply Z.mod_divide in E; [|lia]. destruct E as [c ->].
  destruct Ht as [_ Ht]. apply cdiv_gt in Ht; [|assumption].
  assert (t < c) by nia. nia.
Qed.

Lemma fwd_loop_finite (t h z i : Z) :
  0 <= t < cdiv M BLOCK_M -> 0 <= h < H -> 0 <= z < B ->
  0 <= i < BLOCK_M ->
  m_i (loop t h z) i = m_i (finite_loop t h z) i
  /\ l_i (loop t h z) i = l_i (finite_loop t h z) i.
Proof.
  intros Ht Hh Hz Hi.
  destruct (fwd_loop_footprint Q K V (finite_mem Qr) (finite_mem Kr)
              (finite_mem Vr) sm_scale sq sk sv M N BLOCK_M BLOCK_DMODEL
              BLOCK_N causal t h z BLOCK_M_pos BLOCK_N_pos same_row_stride
              same_col_stride Ht (fwd_finite_tile t Ht)
              ltac:(intros; unfold finite_mem; auto)
              ltac:(intros; unfold finite_mem; auto)
              ltac:(intros; unfold finite_mem; auto))
    as (Hm & Hl & _).
  split; [now apply Hm | now apply Hl].
Qed.

Lemma fwd_launch_finite :
  launch
  = fwd_launch (finite_mem Qr) (finite_mem Kr) (finite_mem Vr) sm_scale
               sq sk sv so B H M P_SEQ BLOCK_M BLOCK_N BLOCK_DMODEL causal
               DIVISIBLE_M DIVISIBLE_N (cdiv M BLOCK_M, H, B).
Proof.
  assert (Hrun : forall id, In id (grid_ids (cdiv M BLOCK_M, H, B)) ->
            (let '(t, h, z) := id in
             _fwd_kernel Q K V sm_scale sq sk sv so H M P_SEQ BLOCK_M
                         BLOCK_DMODEL BLOCK_N causal DIVISIBLE_M
                         DIVISIBLE_N t h z)
            = (let '(t, h, z) := id in
               _fwd_kernel (finite_mem Qr) (finite_mem Kr) (finite_mem Vr)
                           sm_scale sq sk sv so H M P_SEQ BLOCK_M
                           BLOCK_DMODEL BLOCK_N causal DIVISIBLE_M
                           DIVISIBLE_N t h z)).
  { intros [[t h] z] Hg. apply In_grid_ids in Hg as (Ht & Hh & Hz).
    apply fwd_kernel_footprint; auto using fwd_finite_tile;
      intros; unfold finite_mem; auto. }
  unfold fwd_launch. f_equal; apply flat_map_ext_in; intros id Hg;
    now rewrite (Hrun id Hg).
Qed.

(** The logits of a tile that the loop visits. *)
Lemma fwd_s_finite (start_m h z t i j : Z) :
  0 <= start_m < cdiv M BLOCK_M -> 0 <= h < H -> 0 <= z < B ->
  0 <= t < cdiv (fwd_hi M P_SEQ BLOCK_M causal start_m) BLOCK_N ->
  0 <= i < BLOCK_M -> 0 <= j < BLOCK_N ->
  fwd_s Q K sq M P_SEQ BLOCK_M BLOCK_DMODEL BLOCK_N causal DIVISIBLE_M
        DIVISIBLE_N start_m h z
        (fold_left (fwd_body Q K V sm_scale sq sk sv M P_SEQ BLOCK_M
                             BLOCK_DMODEL BLOCK_N causal DIVISIBLE_M
                             DIVISIBLE_N start_m h z)
                   (tile_starts BLOCK_N t) (fwd_init sk sv h z))
        (t * BLOCK_N) i j
  = fwd_s (finite_mem Qr) (finite_mem Kr) sq M P_SEQ BLOCK_M BLOCK_DMODEL
          BLOCK_N causal DIVISIBLE_M DIVISIBLE_N start_m h z
          (fold_left (fwd_body (finite_mem Qr) (finite_mem Kr)
                               (finite_mem Vr) sm_scale sq sk sv M P_SEQ
                               BLOCK_M BLOCK_DMODEL BLOCK_N causal
                               DIVISIBLE_M DIVISIBLE_N start_m h z)
                     (tile_starts BLOCK_N t) (fwd_init sk sv h z))
          (t * BLOCK_N) i j.
Proof.
  intros Hs Hh Hz Ht Hi Hj.
  pose proof (fwd_s_footprint Q K V (finite_mem Qr) (finite_mem Kr)
                (finite_mem Vr) sm_scale sq sk sv M N BLOCK_M BLOCK_DMODEL
                BLOCK_N causal start_m h z BLOCK_M_pos BLOCK_N_pos
                same_row_stride same_col_stride Hs (fwd_finite_tile _ Hs))
    as E.
  specialize (E ltac:(intros; unfold finite_mem; auto)
                ltac:(intros; unfold finite_mem; auto)
                ltac:(intros; unfold finite_mem; auto)
                (Z.to_nat t) i j).
  rewrite Z2Nat.id in E by lia.
  apply E; [|assumption|assumption].
  apply cdiv_gt; [assumption|lia].
Qed.


(** [exp(s . scale - m . scale) / l] on a tile that the loop visits. *)
Lemma fwd_prob_finite (start_m h z t i j : Z) :
  0 <= start_m < cdiv M BLOCK_M -> 0 <= h < H -> 0 <= z < B ->
  0 <= t < cdiv (fwd_hi M P_SEQ BLOCK_M causal start_m) BLOCK_N ->
  0 <= i < BLOCK_M -> 0 <= j < BLOCK_N ->
  fwd_prob Q K V sm_scale sq sk sv M P_SEQ BLOCK_M BLOCK_DMODEL BLOCK_N
           causal DIVISIBLE_M DIVISIBLE_N start_m h z t i j
  = fwd_prob (finite_mem Qr) (finite_mem Kr) (finite_mem Vr) sm_scale
             sq sk sv M P_SEQ BLOCK_M BLOCK_DMODEL BLOCK_N
             causal DIVISIBLE_M DIVISIBLE_N start_m h z t i j.
Proof.
  intros Hs Hh Hz Ht Hi Hj. unfold fwd_prob. cbv zeta.
  destruct (fwd_loop_finite start_m h z i Hs Hh Hz Hi) as [-> ->].
  unfold fwd_state_at.
  now rewrite (fwd_s_finite start_m h z t i j Hs Hh Hz Ht Hi Hj).
Qed.

(** *** The stores into [L] *)

Hypothesis scale_pos : (0 < sm_scale)%R.

Lemma fwd_launch_L_log :
  fst launch
  = flat_map (fun id : Z * Z * Z =>
                tl_store1 BLOCK_M
                  (fun i => offset3 H M (snd id) (snd (fst id))
                                    (fst (fst id) * BLOCK_M + i))
                  (fwd_l_out Q K V sm_scale sq sk sv M P_SEQ BLOCK_M
                             BLOCK_DMODEL BLOCK_N causal DIVISIBLE_M
                             DIVISIBLE_N (fst (fst id)) (snd (fst id))
                             (snd id))
                  (fwd_mask_m M BLOCK_M DIVISIBLE_M (fst (fst id))))
             (grid_ids (cdiv M BLOCK_M, H, B)).
Proof.
  unfold fwd_launch. cbn [fst]. apply flat_map_ext. intros [[t h] z].
  reflexivity.
Qed.

(** C8, as the code has it.  The scale is positive, q, k and v hold finite
    numbers at their elements, k and v share their sequence and feature
    strides, and the loop stays within the N rows of k and v (no causal
    mask, or M a multiple of BLOCK_M, or N not a multiple of BLOCK_N) or
    else the storages of k and v are finite throughout.  For every batch,
    head and row [m < M] the launch of the forward kernel stores
    [L = m_i * sm_scale + log(l_i)], with [m_i] and [l_i] the running
    maximum and the running sum of the row when the loop of its instance
    ends; it stores to that element of [L] exactly once and stores nothing
    else into [L].  On a row that sees a key ([0 < N] and, under the causal
    mask, [M - N <= m]), [m_i] is the maximum [mu] of the unmasked logits
    of all visited columns, [l_i] the sum of their weights
    [exp((s - mu) * sm_scale)], and the stored number is
    [mu * sm_scale + ln(sum)]; when [M <= N] it is the logarithm of the
    sum of [exp(logit * sm_scale)] over all the keys [n < N] that the row
    sees.  No backward kernel stores into [L]:
    [backward] leaves the storage of [L] as it found it. *)
Theorem forward_L_statistics :
  (forall z h m, 0 <= z < B -> 0 <= h < H -> 0 <= m < M ->
     let st := loop (m / BLOCK_M) h z in
     let i := m mod BLOCK_M in
     let v := fadd (fmul (m_i st i) (F sm_scale)) (flog (l_i st i)) in
     let T := cdiv (fwd_hi M P_SEQ BLOCK_M causal (m / BLOCK_M)) BLOCK_N in
     In (offset3 H M z h m, v) (fst launch)
     /\ count_occ Z.eq_dec (map fst (fst launch)) (offset3 H M z h m) = 1%nat
     /\ (forall init : mem,
           apply_writes init (fst launch) (offset3 H M z h m) = v)
     /\ (0 < N -> (causal = true -> M - N <= m) ->
         exists mu,
           fwd_row_max Qr Kr sq sk sv M P_SEQ BLOCK_M BLOCK_DMODEL BLOCK_N
                       causal DIVISIBLE_N (m / BLOCK_M) h z i (T * BLOCK_N)
           = Some mu
           /\ m_i st i = F mu
           /\ l_i st i
              = F (fwd_row_sum Qr Kr sm_scale sq sk sv M P_SEQ BLOCK_M
                               BLOCK_DMODEL BLOCK_N causal DIVISIBLE_N
                               (m / BLOCK_M) h z i (T * BLOCK_N))
           /\ v = F (mu * sm_scale
                     + ln (fwd_row_sum Qr Kr sm_scale sq sk sv M P_SEQ
                                       BLOCK_M BLOCK_DMODEL BLOCK_N causal
                                       DIVISIBLE_N (m / BLOCK_M) h z i
                                       (T * BLOCK_N))))
     /\ (M <= N ->
         v = F (lse_ref Qr Kr sq sk sm_scale causal M N BLOCK_DMODEL
                        z h m)))
  /\ (forall w, In w (fst launch) ->
        exists z h m, 0 <= z < B /\ 0 <= h < H /\ 0 <= m < M /\
          w = (offset3 H M z h m,
               fadd (fmul (m_i (loop (m / BLOCK_M) h z) (m mod BLOCK_M))
                          (F sm_scale))
                    (flog (l_i (loop (m / BLOCK_M) h z) (m mod BLOCK_M)))))
  /\ (forall (cap : Z -> Z * Z) (uninit : mem) (ctx : context)
             (do : tensor) (h : host),
        (t_storage (ctx_L ctx) < next_storage h)%nat ->
        heap (fst (backward cap uninit ctx do h)) (t_storage (ctx_L ctx))
        = heap h (t_storage (ctx_L ctx))).
Proof.
  pose proof (In_row_log B H M BLOCK_M
                (fun t h z => fwd_l_out Q K V sm_scale sq sk sv M P_SEQ
                                BLOCK_M BLOCK_DMODEL BLOCK_N causal
                                DIVISIBLE_M DIVISIBLE_N t h z)
                BLOCK_M_pos) as HIn.
  pose proof (NoDup_row_log B H M BLOCK_M
                (fun t h z => fwd_l_out Q K V sm_scale sq sk sv M P_SEQ
                                BLOCK_M BLOCK_DMODEL BLOCK_N causal
                                DIVISIBLE_M DIVISIBLE_N t h z)
                BLOCK_M_pos) as Hnd.
  pose proof (row_log_once B H M BLOCK_M
                (fun t h z => fwd_l_out Q K V sm_scale sq sk sv M P_SEQ
                                BLOCK_M BLOCK_DMODEL BLOCK_N causal
                                DIVISIBLE_M DIVISIBLE_N t h z)
                BLOCK_M_pos) as Hone.
  cbv beta in HIn, Hnd, Hone.
  rewrite <- fwd_launch_L_log in HIn, Hnd, Hone.
  split; [|split].
  - intros z h m Hz Hh Hm st i v T.
    assert (Hin : In (offset3 H M z h m, v) (fst launch)).
    { apply HIn. exists z, h, m. repeat split; try lia. }
    split; [exact Hin|]. split; [now apply Hone|]. split; [|split].
    + intros init. now apply apply_writes_in_nodup.
    + intros HN Hsee.
      pose proof (Z.div_mod m BLOCK_M ltac:(lia)) as E.
      pose proof (Z.mod_pos_bound m BLOCK_M BLOCK_M_pos) as Hb.
      assert (Ht : 0 <= m / BLOCK_M < cdiv M BLOCK_M).
      { split; [apply Z.div_pos; lia|]. apply cdiv_gt; [assumption|]. nia. }
      assert (Hok : lane_ok (fwd_mask_m M BLOCK_M DIVISIBLE_M (m / BLOCK_M))
                            i = true).
      { apply (row_lane_ok M BLOCK_M BLOCK_M_pos);
          [assumption|assumption|unfold i; lia]. }
      destruct (fwd_row_sees_first Qr Kr sq sk sv M N BLOCK_M BLOCK_DMODEL
                  BLOCK_N causal (m / BLOCK_M) h z i BLOCK_M_pos BLOCK_N_pos
                  Hb HN) as [HT Hfirst].
      { intros Ec. specialize (Hsee Ec). unfold i. lia. }
      destruct (fwd_row_result Qr Kr Vr sm_scale sq sk sv M P_SEQ BLOCK_M
                  BLOCK_DMODEL BLOCK_N causal DIVISIBLE_M DIVISIBLE_N
                  (m / BLOCK_M) h z scale_pos BLOCK_N_pos i Hok HT Hfirst)
        as (mu & Emax & _ & Em & El & _ & Eout).
      destruct (fwd_loop_finite (m / BLOCK_M) h z i Ht Hh Hz Hb)
        as [E1 E2].
      exists mu. fold T in Emax, Em, El, Eout.
      split; [exact Emax|]. unfold v, st. rewrite E1, E2.
      split; [exact Em|]. split; [exact El|]. exact Eout.
    + intros HMN.
      pose proof (Z.div_mod m BLOCK_M ltac:(lia)) as E.
      pose proof (Z.mod_pos_bound m BLOCK_M BLOCK_M_pos) as Hb.
      assert (Ht : 0 <= m / BLOCK_M < cdiv M BLOCK_M).
      { split; [apply Z.div_pos; lia|]. apply cdiv_gt; [assumption|]. nia. }
      destruct (fwd_row_attention Qr Kr Vr sm_scale sq sk sv M N BLOCK_M
                  BLOCK_DMODEL BLOCK_N causal (m / BLOCK_M) h z scale_pos
                  BLOCK_M_pos BLOCK_N_pos HMN same_row_stride
                  same_col_stride i (proj1 Ht) Hb ltac:(unfold i; lia))
        as (_ & Else & _).
      destruct (fwd_loop_finite (m / BLOCK_M) h z i Ht Hh Hz Hb)
        as [E1 E2].
      unfold v, st. rewrite E1, E2.
      replace (m / BLOCK_M * BLOCK_M + i) with m in Else
        by (unfold i; lia).
      exact Else.
  - intros w Hw. apply HIn in Hw as (z & h & m & Hz & Hh & Hm & ->).
    exists z, h, m. repeat split; try lia.
  - intros cap uninit ctx do h Hid. now apply backward_frame.
Qed.

End FwdFinite.

Lemma forward_L_statistics_witness :
  exists mu,
    fwd_row_max (fun _ => 1%R) (fun _ => 1%R)
                (mkStrides 1600 1600 16 1) (mkStrides 1600 1600 16 1)
                (mkStrides 1600 1600 16 1) 100 (100 - 100) 64 16 64 false
                (100 mod 64 =? 0) (99 / 64) 0 0 (99 mod 64)
                (cdiv (fwd_hi 100 (100 - 100) 64 false (99 / 64)) 64 * 64)
    = Some mu
    /\ apply_writes (fun _ => NaN)
         (fst (fwd_launch (fun _ => F 1) (fun _ => F 1) (fun _ => F 1) 1
                          (mkStrides 1600 1600 16 1)
                          (mkStrides 1600 1600 16 1)
                          (mkStrides 1600 1600 16 1)
                          (mkStrides 1600 1600 16 1)
                          1 1 100 (100 - 100) 64 64 16 false
                          (100 mod 64 =? 0) (100 mod 64 =? 0)
                          (cdiv 100 64, 1, 1)))
         (offset3 1 100 0 0 99)
       = F (mu * 1
            + ln (fwd_row_sum (fun _ => 1%R) (fun _ => 1%R) 1
                    (mkStrides 1600 1600 16 1) (mkStrides 1600 1600 16 1)
                    (mkStrides 1600 1600 16 1) 100 (100 - 100) 64 16 64
                    false (100 mod 64 =? 0) (99 / 64) 0 0 (99 mod 64)
                    (cdiv (fwd_hi 100 (100 - 100) 64 false (99 / 64)) 64
                     * 64))).
Proof.
  destruct (forward_L_statistics (fun _ => F 1) (fun _ => F 1) (fun _ => F 1)
              (fun _ => 1%R) (fun _ => 1%R) (fun _ => 1%R) 1
              (mkStrides 1600 1600 16 1) (mkStrides 1600 1600 16 1)
              (mkStrides 1600 1600 16 1) (mkStrides 1600 1600 16 1)
              1 1 100 100 64 16 64 false
              ltac:(lia) ltac:(lia) eq_refl eq_refl
              ltac:(reflexivity) ltac:(reflexivity) ltac:(reflexivity)
              (or_introl eq_refl) Rlt_0_1) as (Hrow & _).
  destruct (Hrow 0 0 99 ltac:(lia) ltac:(lia) ltac:(lia))
    as (_ & _ & Hmem & Hstat & _).
  destruct (Hstat ltac:(lia) ltac:(discriminate))
    as (mu & Emax & _ & _ & Ev).
  exists mu. split; [exact Emax|]. rewrite Hmem. exact Ev.
Defined.

(** C8 as the spec states it fails: forward accepts the scale -1, and then
    on row 0 of a causal call on q, k, v of shape (1, 1, 2, 16), all ones,
    the unmasked logits of the visited columns have a maximum, yet the
    running sum of the loop is NaN and so is the stored [L]. *)
Lemma forward_L_statistics_counterexample :
  fwd_row_max (fun _ => 1%R) (fun _ => 1%R)
              (mkStrides 32 32 16 1) (mkStrides 32 32 16 1)
              (mkStrides 32 32 16 1) 2 (2 - 2) 128 16 64 true
              (2 mod 64 =? 0) 0 0 0 0
              (cdiv (fwd_hi 2 (2 - 2) 128 true 0) 64 * 64)
  <> None
  /\ l_i (fwd_loop (finite_mem (fun _ => 1%R)) (finite_mem (fun _ => 1%R))
                   (finite_mem (fun _ => 1%R)) (-1)
                   (mkStrides 32 32 16 1) (mkStrides 32 32 16 1)
                   (mkStrides 32 32 16 1)
                   2 (2 - 2) 128 16 64 true
                   (2 mod 128 =? 0) (2 mod 64 =? 0) 0 0 0) 0
     = NaN
  /\ apply_writes (fun _ => F 0)
       (fst (fwd_launch (finite_mem (fun _ => 1%R))
                        (finite_mem (fun _ => 1%R))
                        (finite_mem (fun _ => 1%R)) (-1)
                        (mkStrides 32 32 16 1) (mkStrides 32 32 16 1)
                        (mkStrides 32 32 16 1) (mkStrides 32 32 16 1)
                        1 1 2 (2 - 2) 128 64 16 true
                        (2 mod 128 =? 0) (2 mod 64 =? 0)
                        (cdiv 2 128, 1, 1)))
       (offset3 1 2 0 0 0)
     = NaN.
Proof.
  assert (El : l_i (fwd_loop (finite_mem (fun _ => 1%R))
                             (finite_mem (fun _ => 1%R))
                             (finite_mem (fun _ => 1%R)) (-1)
                             (mkStrides 32 32 16 1) (mkStrides 32 32 16 1)
                             (mkStrides 32 32 16 1)
                             2 (2 - 2) 128 16 64 true
                             (2 mod 128 =? 0) (2 mod 64 =? 0) 0 0 0) 0
               = NaN).
  { apply fwd_l_nan; [lra | reflexivity | reflexivity]. }
  split; [|split; [exact El|]].
  - destruct (fwd_row_sees_first (fun _ => 1%R) (fun _ => 1%R)
                (mkStrides 32 32 16 1) (mkStrides 32 32 16 1)
                (mkStrides 32 32 16 1) 2 2 128 16 64 true 0 0 0 0)
      as [_ Hfirst]; try lia.
    revert Hfirst.
    apply (row_max_grows (fun _ => 1%R) (fun _ => 1%R)
             (mkStrides 32 32 16 1) (mkStrides 32 32 16 1)
             (mkStrides 32 32 16 1) 2 (2 - 2) 128 16 64 true
             (2 mod 64 =? 0) 0 0 0 0 64).
    change (cdiv (fwd_hi 2 (2 - 2) 128 true 0) 64 * 64) with 128. lia.
  - pose proof (In_row_log 1 1 2 128
                  (fun t h z =>
                     fwd_l_out (finite_mem (fun _ => 1%R))
                               (finite_mem (fun _ => 1%R))
                               (finite_mem (fun _ => 1%R)) (-1)
                               (mkStrides 32 32 16 1) (mkStrides 32 32 16 1)
                               (mkStrides 32 32 16 1) 2 (2 - 2) 128 16 64
                               true (2 mod 128 =? 0) (2 mod 64 =? 0) t h z)
                  ltac:(lia)) as HIn.
    pose proof (NoDup_row_log 1 1 2 128
                  (fun t h z =>
                     fwd_l_out (finite_mem (fun _ => 1%R))
                               (finite_mem (fun _ => 1%R))
                               (finite_mem (fun _ => 1%R)) (-1)
                               (mkStrides 32 32 16 1) (mkStrides 32 32 16 1)
                               (mkStrides 32 32 16 1) 2 (2 - 2) 128 16 64
                               true (2 mod 128 =? 0) (2 mod 64 =? 0) t h z)
                  ltac:(lia)) as Hnd.
    cbv beta in HIn, Hnd.
    rewrite <- (fwd_launch_L_rows (fun _ => 1%R) (fun _ => 1%R)
                  (fun _ => 1%R) (-1) (mkStrides 32 32 16 1)
                  (mkStrides 32 32 16 1) (mkStrides 32 32 16 1)
                  (mkStrides 32 32 16 1) 1 1 2 2 128 16 64 true)
      in HIn, Hnd.
    apply apply_writes_in_nodup; [exact Hnd|].
    apply HIn. exists 0, 0, 0. repeat split; try lia.
    f_equal. unfold fwd_l_out.
    change (0 / 128) with 0. change (0 mod 128) with 0.
    rewrite El. unfold flog. symmetry. apply fadd_NaN_r.
Qed.

(** ** The forward pass on finite elements *)

(** C1, as the code has it.  For q of shape (B, H, M, D) and k, v of shape
    (B, H, N, D) with [M <= N] (P_SEQ = N - M >= 0) that hold finite
    numbers at their elements, k and v laid out with the same sequence and
    feature strides, and a positive scale (the default [1 / sqrt D] is
    positive); the loop of the kernel stays within the N rows of k and v
    (the mask is not causal, or M is a multiple of BLOCK_M, or N is not a
    multiple of BLOCK_N), or else the storages of k and v hold finite
    numbers throughout.  Then [forward] returns [o], with the strides that
    [torch.empty_like] gives it, with
    [o[z,h,m,d] = sum over n of softmax_n(masked(q.k) * scale) * v[z,h,n,d]]
    for every batch, head, row and feature; and in every iteration of every
    instance the logit of a column is -inf exactly when the column is out
    of range or the mask is causal and [n > P_SEQ + m]. *)
Theorem forward_attention (cap : Z -> Z * Z) (uninit : mem)
    (q k v : tensor) (causal : bool) (sm_scale : option R) (h : host)
    (B H M N D : Z) (sq sk sv : strides) (Qr Kr Vr : Z -> R) :
  t_shape q = [B; H; M; D] ->
  t_shape k = [B; H; N; D] ->
  t_shape v = [B; H; N; D] ->
  t_stride q = [s0 sq; s1 sq; s2 sq; s3 sq] ->
  t_stride k = [s0 sk; s1 sk; s2 sk; s3 sk] ->
  t_stride v = [s0 sv; s1 sv; s2 sv; s3 sv] ->
  supported_head_dim D = true ->
  (t_storage q < next_storage h)%nat ->
  (t_storage k < next_storage h)%nat ->
  (t_storage v < next_storage h)%nat ->
  (forall z hd m d,
     0 <= z < B -> 0 <= hd < H -> 0 <= m < M -> 0 <= d < D ->
     heap h (t_storage q) (offset4 sq z hd m d)
     = F (Qr (offset4 sq z hd m d))) ->
  (forall z hd n d,
     0 <= z < B -> 0 <= hd < H -> 0 <= n < N -> 0 <= d < D ->
     heap h (t_storage k) (offset4 sk z hd n d)
     = F (Kr (offset4 sk z hd n d))) ->
  (forall z hd n d,
     0 <= z < B -> 0 <= hd < H -> 0 <= n < N -> 0 <= d < D ->
     heap h (t_storage v) (offset4 sv z hd n d)
     = F (Vr (offset4 sv z hd n d))) ->
  M <= N ->
  s2 sk = s2 sv -> s3 sk = s3 sv ->
  match sm_scale with Some s => (0 < s)%R | None => True end ->
  let scale := match sm_scale with
               | Some s => s
               | None => (1 / sqrt (IZR D))%R
               end in
  let BLOCK_M := fst (fst (fst (fwd_config (cap (t_device q)) causal D M))) in
  let BLOCK_N := snd (fst (fst (fwd_config (cap (t_device q)) causal D M))) in
  causal = false \/ M mod BLOCK_M = 0 \/ N mod BLOCK_N <> 0
  \/ (heap h (t_storage k) = finite_mem Kr
      /\ heap h (t_storage v) = finite_mem Vr) ->
  let so := strides_of_list (like_stride [B; H; M; D] (t_stride q)) in
  exists (o : tensor) (ctx : context) (h' : host),
    forward cap uninit q k v causal sm_scale h = (h', inr (o, ctx))
    /\ t_stride o = like_stride [B; H; M; D] (t_stride q)
    /\ (forall z hd m d,
          0 <= z < B -> 0 <= hd < H -> 0 <= m < M -> 0 <= d < D ->
          heap h' (t_storage o) (offset4 so z hd m d)
          = F (attention_ref Qr Kr Vr sq sk sv scale causal M N D z hd m d))
    /\ (forall start_m hd z i t j,
          0 <= start_m -> 0 <= hd < H -> 0 <= z < B ->
          0 <= i < BLOCK_M -> start_m * BLOCK_M + i < M ->
          0 <= t < cdiv (fwd_hi M (N - M) BLOCK_M causal start_m) BLOCK_N ->
          0 <= j < BLOCK_N ->
          fwd_s (heap h (t_storage q)) (heap h (t_storage k)) sq M (N - M)
                BLOCK_M D BLOCK_N causal (M mod BLOCK_M =? 0)
                (N mod BLOCK_N =? 0) start_m hd z
                (fold_left
                   (fwd_body (heap h (t_storage q)) (heap h (t_storage k))
                             (heap h (t_storage v)) scale sq sk sv M (N - M)
                             BLOCK_M D BLOCK_N causal (M mod BLOCK_M =? 0)
                             (N mod BLOCK_N =? 0) start_m hd z)
                   (tile_starts BLOCK_N t) (fwd_init sk sv hd z))
                (t * BLOCK_N) i j
          = if (t * BLOCK_N + j <? N)
               && visible causal M N (start_m * BLOCK_M + i)
                          (t * BLOCK_N + j)
            then F (logit Qr Kr sq sk D z hd (start_m * BLOCK_M + i)
                          (t * BLOCK_N + j))
            else NInf).
Proof.
  intros Eq Ek Ev Sq Sk Sv HD Lq Lk Lv HQ HK HV HMN Hs2 Hs3 Hsc
         scale BLOCK_M BLOCK_N Htiles so.
  assert (Hpos : (0 < scale)%R).
  { unfold scale. destruct sm_scale; [exact Hsc|now apply default_scale_pos]. }
  assert (Hso : like_stride [B; H; M; D] (t_stride q)
                = [s0 so; s1 so; s2 so; s3 so]).
  { unfold so. rewrite Sq. apply like_stride_four. }
  assert (Hinj : layout_injective so B H M D).
  { unfold so. rewrite Sq. apply like_stride_injective. }
  destruct (forward_state cap uninit q k v causal sm_scale h
              B H M D B H N B H N sq sk sv so Eq Ek Ev Sq Sk Sv Hso HD
              Lq Lk Lv)
    as (h' & E & _ & _ & _ & HO & _).
  pose proof (fwd_config_pos (cap (t_device q)) causal D M) as [HBM HBN].
  fold BLOCK_M BLOCK_N in HBM, HBN, HO, E. fold scale in HO, E.
  rewrite (fwd_launch_finite _ _ _ Qr Kr Vr scale sq sk sv so B H M N
             BLOCK_M D BLOCK_N causal HBM HBN Hs2 Hs3 HQ HK HV Htiles)
    in HO.
  eexists _, _, h'. split; [exact E|]. split; [now rewrite Hso|]. split.
  - intros z hd m d Hz Hh Hm Hd. cbn [t_storage]. rewrite HO.
    apply (fwd_launch_O_mem _ _ _ _ _ _ _ _ _ _ _ _ _ _ _ _ HBM
             (fun z hd m d =>
                F (attention_ref Qr Kr Vr sq sk sv scale causal M N D
                                 z hd m d))); auto.
    clear z hd m d Hz Hh Hm Hd. intros z hd m d Hz Hh Hm Hd.
    pose proof (Z.div_mod m BLOCK_M ltac:(lia)) as Em.
    pose proof (Z.mod_pos_bound m BLOCK_M HBM) as Hb.
    assert (Er : m / BLOCK_M * BLOCK_M + m mod BLOCK_M = m) by lia.
    destruct (fwd_row_attention Qr Kr Vr scale sq sk sv M N BLOCK_M D
                BLOCK_N causal (m / BLOCK_M) hd z Hpos HBM HBN HMN Hs2 Hs3
                (m mod BLOCK_M)) as (Hacc & _).
    + apply Z.div_pos; lia.
    + assumption.
    + lia.
    + rewrite Hacc, Er. reflexivity.
  - intros start_m hd z i t j Hsm Hh Hz Hi Hrow Ht Hj.
    rewrite (fwd_s_finite _ _ _ Qr Kr Vr scale sq sk sv B H M N BLOCK_M D
               BLOCK_N causal HBM HBN Hs2 Hs3 HQ HK HV Htiles);
      try assumption.
    + now apply fwd_mask_exact.
    + split; [assumption|]. apply cdiv_gt; [assumption|]. nia.
Qed.

Lemma forward_attention_witness :
  exists (o : tensor) (ctx : context) (h' : host),
    forward a100 (fun _ => F 0)
            (contiguous_tensor [1; 1; 2; 16] 0 0)
            (contiguous_tensor [1; 1; 2; 16] 0 1)
            (contiguous_tensor [1; 1; 2; 16] 0 2) true None host0
    = (h', inr (o, ctx))
    /\ forall z hd m d,
         0 <= z < 1 -> 0 <= hd < 1 -> 0 <= m < 2 -> 0 <= d < 16 ->
         heap h' (t_storage o) (offset4 (mkStrides 32 32 16 1) z hd m d)
         = F (attention_ref (fun _ => 1%R) (fun _ => 1%R) (fun _ => 1%R)
                (mkStrides 32 32 16 1) (mkStrides 32 32 16 1)
                (mkStrides 32 32 16 1) (1 / sqrt (IZR 16)) true 2 2 16
                z hd m d).
Proof.
  destruct (forward_attention a100 (fun _ => F 0)
              (contiguous_tensor [1; 1; 2; 16] 0 0)
              (contiguous_tensor [1; 1; 2; 16] 0 1)
              (contiguous_tensor [1; 1; 2; 16] 0 2) true None host0
              1 1 2 2 16
              (mkStrides 32 32 16 1) (mkStrides 32 32 16 1)
              (mkStrides 32 32 16 1)
              (fun _ => 1%R) (fun _ => 1%R) (fun _ => 1%R))
    as (o & ctx & h' & E & _ & Hv & _);
    try reflexivity; try (simpl; lia); try exact I.
  - right; right; left. vm_compute. discriminate.
  - exists o, ctx, h'. split; [exact E|]. exact Hv.
Defined.

(** ** Rows that see no key *)

Lemma fmax_list_NInf (l : list Z) (s : Z -> fp) :
  (forall j, In j l -> s j = NInf) -> fmax_list (map s l) = NInf.
Proof.
  destruct l as [|a l]; [reflexivity|]. intros E. unfold fmax_list.
  cbn [map]. rewrite (E a) by now left.
  assert (E' : forall j, In j l -> s j = NInf) by (intros; apply E; now right).
  clear E. induction l as [|b l IH]; [reflexivity|].
  cbn [map fold_left]. rewrite (E' b) by now left.
  apply IH. intros. apply E'. now right.
Qed.

Section FwdUnseenRow.
Variables (Q K V : mem) (sm_scale : R).
Variables (sq sk sv : strides).
Variables (N_CTX P_SEQ BLOCK_M BLOCK_DMODEL BLOCK_N : Z).
Variables (DIVISIBLE_M DIVISIBLE_N : bool).
Variables (start_m off_h off_z : Z).
Variable i : Z.

(** The row on lane [i] lies before the first column: the causal mask cuts
    off every column of every key tile. *)
Hypothesis row_unseen : P_SEQ + (start_m * BLOCK_M + i) < 0.
Hypothesis BLOCK_N_pos : 0 < BLOCK_N.

Local Abbreviation body :=
  (fwd_body Q K V sm_scale sq sk sv N_CTX P_SEQ BLOCK_M BLOCK_DMODEL
            BLOCK_N true DIVISIBLE_M DIVISIBLE_N start_m off_h off_z).
Local Abbreviation state_at :=
  (fwd_state_at Q K V sm_scale sq sk sv N_CTX P_SEQ BLOCK_M BLOCK_DMODEL
                BLOCK_N true DIVISIBLE_M DIVISIBLE_N start_m off_h off_z).

Lemma fwd_unseen_max (st : fwd_state) (start_n : Z) :
  0 <= start_n ->
  tl_max1 BLOCK_N
    (fwd_s Q K sq N_CTX P_SEQ BLOCK_M BLOCK_DMODEL BLOCK_N true DIVISIBLE_M
           DIVISIBLE_N start_m off_h off_z st start_n) i
  = NInf.
Proof.
  intros Hs. unfold tl_max1. apply fmax_list_NInf.
  intros j Hj. apply In_arange in Hj. unfold fwd_s. cbv zeta.
  unfold tl_where at 1. unfold fwd_causal_mask, fwd_offs_m.
  destruct (Z.geb_spec (P_SEQ + (start_m * BLOCK_M + i)) (start_n + j));
    [lia|reflexivity].
Qed.

(** The running maximum of the row stays at minus infinity, and from the
    first iteration on its accumulator is NaN. *)
Lemma fwd_unseen_states (t : nat) (d : Z) :
  m_i (state_at (Z.of_nat t)) i = NInf
  /\ (0 < Z.of_nat t -> acc (state_at (Z.of_nat t)) i d = NaN).
Proof.
  induction t as [|t [IHm IHa]].
  - split; [reflexivity|lia].
  - replace (Z.of_nat (S t)) with (Z.of_nat t + 1) by lia.
    rewrite fwd_state_next by lia. unfold fwd_body. cbn [m_i acc].
    rewrite IHm, fwd_unseen_max by nia. split; [reflexivity|].
    intros _. cbn [fmax fsub fneg fadd].
    unfold fwd_qk_scale, log2e. cbn [fmul fexp2].
    now rewrite fmul_NaN_r, fadd_NaN_l.
Qed.

Lemma fwd_unseen_out (d : Z) :
  fwd_acc_out Q K V sm_scale sq sk sv N_CTX P_SEQ BLOCK_M BLOCK_DMODEL
              BLOCK_N true DIVISIBLE_M DIVISIBLE_N start_m off_h off_z i d
  = NaN.
Proof.
  unfold fwd_acc_out. rewrite fwd_state_last.
  set (T := cdiv (fwd_hi N_CTX P_SEQ BLOCK_M true start_m) BLOCK_N).
  destruct (Z_le_gt_dec T 0) as [Hle|Hgt].
  - unfold fwd_state_at, tile_starts, arange.
    replace (Z.to_nat T) with 0%nat by lia. cbn.
    destruct (Req_dec_T 0 0) as [_|Hne]; [|now destruct Hne].
    cbn. unfold inf_times.
    destruct (Rlt_dec 0 0) as [Hlt|_]; [exfalso; lra|reflexivity].
  - replace T with (Z.of_nat (Z.to_nat T)) by lia.
    destruct (fwd_unseen_states (Z.to_nat T) d) as [_ Ha].
    rewrite Ha by lia. apply fmul_NaN_l.
Qed.
End FwdUnseenRow.

(** Without keys the loop of [_fwd_kernel] does not run. *)
Lemma fwd_no_key_out (Q K V : mem) (sm_scale : R) (sq sk sv : strides)
    (N_CTX P_SEQ BLOCK_M BLOCK_DMODEL BLOCK_N : Z)
    (DIVISIBLE_M DIVISIBLE_N : bool) (start_m off_h off_z i d : Z) :
  0 < BLOCK_N -> N_CTX + P_SEQ = 0 ->
  fwd_acc_out Q K V sm_scale sq sk sv N_CTX P_SEQ BLOCK_M BLOCK_DMODEL
              BLOCK_N false DIVISIBLE_M DIVISIBLE_N start_m off_h off_z i d
  = NaN.
Proof.
  intros HBN E. unfold fwd_acc_out, fwd_loop, fwd_hi, py_range.
  rewrite E. unfold cdiv.
  replace ((0 - 0 + BLOCK_N - 1) / BLOCK_N) with 0
    by (symmetry; apply Z.div_small; lia).
  cbn. destruct (Req_dec_T 0 0) as [_|Hne]; [|now destruct Hne].
  cbn. unfold inf_times.
  destruct (Rlt_dec 0 0) as [Hlt|_]; [exfalso; lra|reflexivity].
Qed.

(** X10.  A query row that sees no key gets NaN.  When there is no key
    row ([N = 0]), or with causal masking for the rows [m < M - N] that lie
    before the first key, the launch of [_fwd_kernel] leaves NaN in every
    [o[z, h, m, d]] of the row, whatever q, k, v and the scale are. *)
Theorem fwd_unseen_rows_nan (Q K V : mem) (sm_scale : R)
    (sq sk sv so : strides) (B H M N BLOCK_M BLOCK_DMODEL BLOCK_N : Z)
    (causal : bool) (init : mem) (z h m d : Z) :
  0 < BLOCK_M -> 0 < BLOCK_N ->
  layout_injective so B H M BLOCK_DMODEL ->
  0 <= z < B -> 0 <= h < H -> 0 <= m < M -> 0 <= d < BLOCK_DMODEL ->
  N = 0 \/ (causal = true /\ m < M - N) ->
  apply_writes init
    (snd (fwd_launch Q K V sm_scale sq sk sv so B H M (N - M)
            BLOCK_M BLOCK_N BLOCK_DMODEL causal
            (M mod BLOCK_M =? 0) (N mod BLOCK_N =? 0)
            (cdiv M BLOCK_M, H, B)))
    (offset4 so z h m d)
  = NaN.
Proof.
  intros HBM HBN Hinj Hz Hh Hm Hd Hcase.
  rewrite (fwd_launch_O_mem Q K V sm_scale sq sk sv so B H M N BLOCK_M
             BLOCK_DMODEL BLOCK_N causal HBM
             (fun z h m d =>
                fwd_acc_out Q K V sm_scale sq sk sv M (N - M) BLOCK_M
                            BLOCK_DMODEL BLOCK_N causal (M mod BLOCK_M =? 0)
                            (N mod BLOCK_N =? 0) (m / BLOCK_M) h z
                            (m mod BLOCK_M) d)
             init Hinj (fun _ _ _ _ _ _ _ _ => eq_refl) z h m d Hz Hh Hm Hd).
  pose proof (Z.div_mod m BLOCK_M ltac:(lia)) as Em.
  assert (Hrow : causal = true -> m < M - N ->
            fwd_acc_out Q K V sm_scale sq sk sv M (N - M) BLOCK_M
              BLOCK_DMODEL BLOCK_N causal (M mod BLOCK_M =? 0)
              (N mod BLOCK_N =? 0) (m / BLOCK_M) h z (m mod BLOCK_M) d
            = NaN).
  { intros -> Hlt. apply fwd_unseen_out; lia. }
  destruct Hcase as [-> | [Hc Hlt]]; [|now apply Hrow].
  destruct causal; [apply Hrow; [reflexivity|lia]|].
  apply fwd_no_key_out; [assumption|lia].
Qed.

Lemma fwd_unseen_rows_nan_witness :
  apply_writes (fun _ => F 0)
    (snd (fwd_launch (fun _ => F 1) (fun _ => F 1) (fun _ => F 1) 1
            (mkStrides 32 32 16 1) (mkStrides 16 16 16 1)
            (mkStrides 16 16 16 1) (mkStrides 32 32 16 1)
            1 1 2 (1 - 2) 128 64 16 true
            (2 mod 128 =? 0) (1 mod 64 =? 0) (cdiv 2 128, 1, 1)))
    (offset4 (mkStrides 32 32 16 1) 0 0 0 3)
  = NaN.
Proof.
  exact (fwd_unseen_rows_nan (fun _ => F 1) (fun _ => F 1) (fun _ => F 1) 1
           (mkStrides 32 32 16 1) (mkStrides 16 16 16 1)
           (mkStrides 16 16 16 1) (mkStrides 32 32 16 1)
           1 1 2 1 128 16 64 true (fun _ => F 0) 0 0 0 3
           ltac:(lia) ltac:(lia) c1_layout ltac:(lia) ltac:(lia)
           ltac:(lia) ltac:(lia) (or_intror (conj eq_refl eq_refl))).
Defined.

(** ** Causal masking, for k and v that share their strides *)

Lemma fwd_causal_noninterference_witness :
  (forall d, 0 <= d < 16 ->
     fwd_acc_out (finite_mem (fun _ => 1%R)) (finite_mem (fun _ => 0%R))
                 (finite_mem (fun _ => 1%R)) 1
                 (mkStrides 32 32 16 1) (mkStrides 32 32 16 1)
                 (mkStrides 32 32 16 1) 2 (2 - 2) 128 16 64 true
                 (2 mod 128 =? 0) (2 mod 64 =? 0) 0 0 0 0 d
     = fwd_acc_out (finite_mem (fun _ => 1%R))
                   (finite_mem (fun a => if a =? 16 then 1%R else 0%R))
                   (finite_mem (fun a => if a =? 19 then 5%R else 1%R)) 1
                   (mkStrides 32 32 16 1) (mkStrides 32 32 16 1)
                   (mkStrides 32 32 16 1) 2 (2 - 2) 128 16 64 true
                   (2 mod 128 =? 0) (2 mod 64 =? 0) 0 0 0 0 d)
  /\ fwd_l_out (finite_mem (fun _ => 1%R)) (finite_mem (fun _ => 0%R))
               (finite_mem (fun _ => 1%R)) 1
               (mkStrides 32 32 16 1) (mkStrides 32 32 16 1)
               (mkStrides 32 32 16 1) 2 (2 - 2) 128 16 64 true
               (2 mod 128 =? 0) (2 mod 64 =? 0) 0 0 0 0
     = fwd_l_out (finite_mem (fun _ => 1%R))
                 (finite_mem (fun a => if a =? 16 then 1%R else 0%R))
                 (finite_mem (fun a => if a =? 19 then 5%R else 1%R)) 1
                 (mkStrides 32 32 16 1) (mkStrides 32 32 16 1)
                 (mkStrides 32 32 16 1) 2 (2 - 2) 128 16 64 true
                 (2 mod 128 =? 0) (2 mod 64 =? 0) 0 0 0 0.
Proof.
  assert (Hagree : forall n d, 0 <= n < 2 -> n <> 1 -> 0 <= d < 16 ->
            0%R = (if offset4 (mkStrides 32 32 16 1) 0 0 n d =? 16
                   then 1%R else 0%R)
            /\ 1%R = (if offset4 (mkStrides 32 32 16 1) 0 0 n d =? 19
                      then 5%R else 1%R)).
  { intros n d Hn Hne Hd. unfold offset4. cbn [s0 s1 s2 s3].
    destruct (Z.eqb_spec (0 * 32 + 0 * 32 + n * 16 + d * 1) 16) as [E|_];
      [lia|].
    destruct (Z.eqb_spec (0 * 32 + 0 * 32 + n * 16 + d * 1) 19) as [E|_];
      [lia|].
    split; reflexivity. }
  exact (fwd_causal_noninterference (fun _ => 1%R) (fun _ => 0%R)
           (fun _ => 1%R) (fun a => if a =? 16 then 1%R else 0%R)
           (fun a => if a =? 19 then 5%R else 1%R) 1
           (mkStrides 32 32 16 1) (mkStrides 32 32 16 1)
           (mkStrides 32 32 16 1) 2 2 128 16 64 0 0 0 0 1
           Rlt_0_1 ltac:(lia) ltac:(lia) ltac:(lia) eq_refl eq_refl
           ltac:(lia) ltac:(lia) ltac:(lia) ltac:(lia) Hagree).
Defined.

(** ** What [_bwd_kv_kernel] reads

    The kernel reads q, k, v, do, L and delta at the offsets of their
    elements only, whatever the sizes are. *)

(** The pointers into q and do when [_bwd_kv_kernel] enters its iteration
    [t]. *)
Lemma kv_state_ptrs (Q K V : mem) (sm_scale : R) (DO L D : mem)
    (sq sk sv sdo : strides)
    (H N_CTX P_SEQ BLOCK_M BLOCK_DMODEL BLOCK_N : Z)
    (CAUSAL DIVISIBLE_M DIVISIBLE_N : bool) (start_n off_h off_z : Z)
    (t : nat) :
  let lo := kv_lo P_SEQ BLOCK_M BLOCK_N CAUSAL start_n in
  let st := kv_state_at Q K V sm_scale DO L D sq sk sv sdo H N_CTX P_SEQ
                        BLOCK_M BLOCK_DMODEL BLOCK_N CAUSAL DIVISIBLE_M
                        DIVISIBLE_N start_n off_h off_z (Z.of_nat t) in
  kv_q_ptrs st = (fun i k => kv_q_ptrs_init sq off_h off_z lo i k
                             + Z.of_nat t * (BLOCK_M * s2 sq))
  /\ kv_do_ptrs st = (fun i k => kv_do_ptrs_init sdo off_h off_z lo i k
                                 + Z.of_nat t * (BLOCK_M * s2 sdo)).
Proof.
  cbv zeta. induction t as [|t [IHq IHd]].
  - unfold kv_state_at. simpl.
    split; extensionality a; extensionality b; lia.
  - replace (Z.of_nat (S t)) with (Z.of_nat t + 1) by lia.
    rewrite kv_state_next by lia. unfold kv_body at 1 2.
    cbn [kv_q_ptrs kv_do_ptrs]. rewrite IHq, IHd.
    split; extensionality a; extensionality b; lia.
Qed.

Lemma kv_apply_masks_ext (N_CTX P_SEQ BLOCK_M BLOCK_N : Z)
    (CAUSAL DIVISIBLE_M DIVISIBLE_N : bool) (start_n start_m : Z)
    (x x' : Z -> Z -> fp) (i j : Z) :
  x i j = x' i j ->
  kv_apply_masks N_CTX P_SEQ BLOCK_M BLOCK_N CAUSAL DIVISIBLE_M DIVISIBLE_N
                 start_n start_m x i j
  = kv_apply_masks N_CTX P_SEQ BLOCK_M BLOCK_N CAUSAL DIVISIBLE_M
                   DIVISIBLE_N start_n start_m x' i j.
Proof.
  intros E. unfold kv_apply_masks. cbv zeta.
  destruct CAUSAL, (kv_valid_mask N_CTX P_SEQ BLOCK_M BLOCK_N DIVISIBLE_M
                                  DIVISIBLE_N start_n start_m);
    unfold tl_where; now rewrite E.
Qed.

Section KvFootprint.
Variables (Q K V DO L Dl Q' K' V' DO' L' Dl' : mem) (sm_scale : R).
Variables (sq sk sv sdo sdk sdv : strides).
Variables (H M N BLOCK_M BLOCK_DMODEL BLOCK_N : Z).
Variables (causal : bool).
Variables (start_n off_h off_z : Z).

Local Abbreviation P_SEQ := (N - M).
Local Abbreviation DIVISIBLE_M := (M mod BLOCK_M =? 0).
Local Abbreviation DIVISIBLE_N := (N mod BLOCK_N =? 0).
Local Abbreviation lo := (kv_lo P_SEQ BLOCK_M BLOCK_N causal start_n).

Hypothesis BLOCK_M_pos : 0 < BLOCK_M.
Hypothesis BLOCK_N_pos : 0 < BLOCK_N.
Hypothesis tile_in_grid : 0 <= start_n < cdiv N BLOCK_N.
(** The rows of q, do, L and delta from [lo] on, where the sweep starts. *)
Hypothesis Q_elements : forall m d, lo <= m < M -> 0 <= d < BLOCK_DMODEL ->
  Q (offset4 sq off_z off_h m d) = Q' (offset4 sq off_z off_h m d).
Hypothesis K_elements : forall n d, 0 <= n < N -> 0 <= d < BLOCK_DMODEL ->
  K (offset4 sk off_z off_h n d) = K' (offset4 sk off_z off_h n d).
Hypothesis V_elements : forall n d, 0 <= n < N -> 0 <= d < BLOCK_DMODEL ->
  V (offset4 sv off_z off_h n d) = V' (offset4 sv off_z off_h n d).
Hypothesis DO_elements : forall m d, lo <= m < M -> 0 <= d < BLOCK_DMODEL ->
  DO (offset4 sdo off_z off_h m d) = DO' (offset4 sdo off_z off_h m d).
Hypothesis L_elements : forall m, lo <= m < M ->
  L (offset3 H M off_z off_h m) = L' (offset3 H M off_z off_h m).
Hypothesis D_elements : forall m, lo <= m < M ->
  Dl (offset3 H M off_z off_h m) = Dl' (offset3 H M off_z off_h m).

Local Abbreviation st_at t :=
  (kv_state_at Q K V sm_scale DO L Dl sq sk sv sdo H M P_SEQ BLOCK_M
               BLOCK_DMODEL BLOCK_N causal DIVISIBLE_M DIVISIBLE_N
               start_n off_h off_z t).
Local Abbreviation st_at' t :=
  (kv_state_at Q' K' V' sm_scale DO' L' Dl' sq sk sv sdo H M P_SEQ BLOCK_M
               BLOCK_DMODEL BLOCK_N causal DIVISIBLE_M DIVISIBLE_N
               start_n off_h off_z t).
Local Abbreviation mask_m t :=
  (kv_mask_m M BLOCK_M DIVISIBLE_M (lo + t * BLOCK_M)).

Lemma kv_kv_footprint (j k : Z) :
  0 <= j < BLOCK_N -> 0 <= k < BLOCK_DMODEL ->
  kv_k K sk M P_SEQ BLOCK_N DIVISIBLE_N start_n off_h off_z j k
  = kv_k K' sk M P_SEQ BLOCK_N DIVISIBLE_N start_n off_h off_z j k
  /\ kv_v V sv M P_SEQ BLOCK_N DIVISIBLE_N start_n off_h off_z j k
     = kv_v V' sv M P_SEQ BLOCK_N DIVISIBLE_N start_n off_h off_z j k.
Proof.
  intros Hj Hk. unfold kv_k, kv_v, tl_load.
  destruct (lane_ok _ j) eqn:Hok; [|split; reflexivity].
  apply (kv_col_lane_ok M N BLOCK_N start_n j BLOCK_N_pos tile_in_grid Hj)
    in Hok.
  assert (0 <= start_n * BLOCK_N + j) by nia.
  replace (kv_k_ptrs sk BLOCK_N start_n off_h off_z j k)
    with (offset4 sk off_z off_h (start_n * BLOCK_N + j) k)
    by (unfold kv_k_ptrs, kv_K_base, kv_offs_n, offset4; lia).
  replace (kv_v_ptrs sv BLOCK_N start_n off_h off_z j k)
    with (offset4 sv off_z off_h (start_n * BLOCK_N + j) k)
    by (unfold kv_v_ptrs, kv_V_base, kv_offs_n, offset4; lia).
  split; [apply K_elements | apply V_elements]; lia.
Qed.

(** What iteration [t] loads on the lane [i] of its query tile. *)
Lemma kv_row_footprint (t : nat) (i : Z) :
  lo + Z.of_nat t * BLOCK_M < M -> 0 <= i < BLOCK_M ->
  (forall k, 0 <= k < BLOCK_DMODEL ->
     kv_q Q M BLOCK_M DIVISIBLE_M (st_at (Z.of_nat t))
          (lo + Z.of_nat t * BLOCK_M) i k
     = kv_q Q' M BLOCK_M DIVISIBLE_M (st_at' (Z.of_nat t))
            (lo + Z.of_nat t * BLOCK_M) i k)
  /\ (forall k, 0 <= k < BLOCK_DMODEL ->
        tl_load DO (kv_do_ptrs (st_at (Z.of_nat t)) i k)
                (lane_ok (mask_m (Z.of_nat t)) i)
        = tl_load DO' (kv_do_ptrs (st_at' (Z.of_nat t)) i k)
                  (lane_ok (mask_m (Z.of_nat t)) i))
  /\ tl_load L (kv_L_base H M off_h off_z
                + kv_offs_m (lo + Z.of_nat t * BLOCK_M) i)
             (lane_ok (mask_m (Z.of_nat t)) i)
     = tl_load L' (kv_L_base H M off_h off_z
                   + kv_offs_m (lo + Z.of_nat t * BLOCK_M) i)
               (lane_ok (mask_m (Z.of_nat t)) i)
  /\ tl_load Dl (kv_D_base H M off_h off_z
                 + kv_offs_m (lo + Z.of_nat t * BLOCK_M) i)
             (lane_ok (mask_m (Z.of_nat t)) i)
     = tl_load Dl' (kv_D_base H M off_h off_z
                    + kv_offs_m (lo + Z.of_nat t * BLOCK_M) i)
               (lane_ok (mask_m (Z.of_nat t)) i).
Proof.
  intros Ht Hi.
  destruct (kv_lo_tile P_SEQ BLOCK_M BLOCK_N start_n causal BLOCK_M_pos)
    as (c & Hc & Elo).
  unfold kv_q.
  destruct (kv_state_ptrs Q K V sm_scale DO L Dl sq sk sv sdo H M P_SEQ
              BLOCK_M BLOCK_DMODEL BLOCK_N causal DIVISIBLE_M DIVISIBLE_N
              start_n off_h off_z t) as [-> ->].
  destruct (kv_state_ptrs Q' K' V' sm_scale DO' L' Dl' sq sk sv sdo H M
              P_SEQ BLOCK_M BLOCK_DMODEL BLOCK_N causal DIVISIBLE_M
              DIVISIBLE_N start_n off_h off_z t) as [-> ->].
  rewrite (kv_row_lane M N BLOCK_M BLOCK_N causal start_n BLOCK_M_pos
             (Z.of_nat t) i ltac:(lia) Ht Hi).
  unfold tl_load.
  destruct (Z.ltb_spec (lo + Z.of_nat t * BLOCK_M + i) M) as [Hm|_];
    [|repeat split; reflexivity].
  assert (H0 : lo <= lo + Z.of_nat t * BLOCK_M + i) by nia.
  repeat split.
  - intros k Hk.
    replace (kv_q_ptrs_init sq off_h off_z lo i k
             + Z.of_nat t * (BLOCK_M * s2 sq))
      with (offset4 sq off_z off_h (lo + Z.of_nat t * BLOCK_M + i) k)
      by (unfold kv_q_ptrs_init, kv_Q_base, kv_offs_m_init, offset4; lia).
    apply Q_elements; lia.
  - intros k Hk.
    replace (kv_do_ptrs_init sdo off_h off_z lo i k
             + Z.of_nat t * (BLOCK_M * s2 sdo))
      with (offset4 sdo off_z off_h (lo + Z.of_nat t * BLOCK_M + i) k)
      by (unfold kv_do_ptrs_init, kv_DO_base, kv_offs_m_init, offset4; lia).
    apply DO_elements; lia.
  - replace (kv_L_base H M off_h off_z
             + kv_offs_m (lo + Z.of_nat t * BLOCK_M) i)
      with (offset3 H M off_z off_h (lo + Z.of_nat t * BLOCK_M + i))
      by (unfold kv_L_base, kv_offs_m, offset3; lia).
    apply L_elements; lia.
  - replace (kv_D_base H M off_h off_z
             + kv_offs_m (lo + Z.of_nat t * BLOCK_M) i)
      with (offset3 H M off_z off_h (lo + Z.of_nat t * BLOCK_M + i))
      by (unfold kv_D_base, kv_offs_m, offset3; lia).
    apply D_elements; lia.
Qed.

(** The two accumulators agree on the lanes of the key tile. *)
Local Abbreviation kv_agree st st' :=
  ((forall j k, 0 <= j < BLOCK_N -> 0 <= k < BLOCK_DMODEL ->
      kv_dk st j k = kv_dk st' j k)
   /\ (forall j k, 0 <= j < BLOCK_N -> 0 <= k < BLOCK_DMODEL ->
         kv_dv st j k = kv_dv st' j k)).

Lemma kv_states_footprint (t : nat) :
  lo + (Z.of_nat t - 1) * BLOCK_M < M ->
  kv_agree (st_at (Z.of_nat t)) (st_at' (Z.of_nat t)).
Proof.
  induction t as [|t IH]; intros Hhi.
  - unfold kv_state_at. simpl. auto.
  - replace (Z.of_nat (S t)) with (Z.of_nat t + 1) in * by lia.
    replace (Z.of_nat t + 1 - 1) with (Z.of_nat t) in Hhi by lia.
    destruct IH as (Hdk & Hdv); [nia|].
    rewrite !kv_state_next by lia.
    pose proof (fun i Hi => kv_row_footprint t i Hhi Hi) as Hrow.
    assert (Hs : forall i j, 0 <= i < BLOCK_M -> 0 <= j < BLOCK_N ->
              kv_s Q K sk M P_SEQ BLOCK_M BLOCK_DMODEL BLOCK_N DIVISIBLE_M
                   DIVISIBLE_N start_n off_h off_z (st_at (Z.of_nat t))
                   (lo + Z.of_nat t * BLOCK_M) i j
              = kv_s Q' K' sk M P_SEQ BLOCK_M BLOCK_DMODEL BLOCK_N
                     DIVISIBLE_M DIVISIBLE_N start_n off_h off_z
                     (st_at' (Z.of_nat t)) (lo + Z.of_nat t * BLOCK_M) i j).
    { intros i j Hi Hj. unfold kv_s. f_equal. apply tl_dot_ext.
      - intros k Hk. now apply (Hrow i Hi).
      - intros k Hk. unfold tl_trans. now apply kv_kv_footprint. }
    assert (Hp : forall i j, 0 <= i < BLOCK_M -> 0 <= j < BLOCK_N ->
              kv_p Q K sm_scale L sk H M P_SEQ BLOCK_M BLOCK_DMODEL BLOCK_N
                   causal DIVISIBLE_M DIVISIBLE_N start_n off_h off_z
                   (st_at (Z.of_nat t)) (lo + Z.of_nat t * BLOCK_M) i j
              = kv_p Q' K' sm_scale L' sk H M P_SEQ BLOCK_M BLOCK_DMODEL
                     BLOCK_N causal DIVISIBLE_M DIVISIBLE_N start_n off_h
                     off_z (st_at' (Z.of_nat t))
                     (lo + Z.of_nat t * BLOCK_M) i j).
    { intros i j Hi Hj. unfold kv_p. cbv zeta.
      apply kv_apply_masks_ext. rewrite (Hs i j Hi Hj).
      destruct (Hrow i Hi) as (_ & _ & -> & _). reflexivity. }
    unfold kv_body. cbn [kv_dk kv_dv]. split.
    + intros j k Hj Hk. rewrite (Hdk j k Hj Hk). f_equal.
      apply tl_dot_ext.
      * intros i Hi. unfold tl_trans, to_dtype.
        apply kv_apply_masks_ext. rewrite (Hp i j Hi Hj). f_equal. f_equal.
        -- f_equal. apply tl_dot_ext.
           ++ intros d Hd. now apply (Hrow i Hi).
           ++ intros d Hd. unfold tl_trans. now apply kv_kv_footprint.
        -- destruct (Hrow i Hi) as (_ & _ & _ & ->). reflexivity.
      * intros i Hi. now apply (Hrow i Hi).
    + intros j k Hj Hk. rewrite (Hdv j k Hj Hk). f_equal.
      apply tl_dot_ext.
      * intros i Hi. unfold tl_trans, to_dtype. now apply Hp.
      * intros i Hi. now apply (Hrow i Hi).
Qed.

Lemma kv_loop_footprint :
  kv_agree
    (kv_loop Q K V sm_scale DO L Dl sq sk sv sdo H M P_SEQ BLOCK_M
             BLOCK_DMODEL BLOCK_N causal DIVISIBLE_M DIVISIBLE_N
             start_n off_h off_z)
    (kv_loop Q' K' V' sm_scale DO' L' Dl' sq sk sv sdo H M P_SEQ
             BLOCK_M BLOCK_DMODEL BLOCK_N causal DIVISIBLE_M
             DIVISIBLE_N start_n off_h off_z).
Proof.
  rewrite !kv_state_last.
  destruct (Z_le_gt_dec (cdiv (M - lo) BLOCK_M) 0) as [Hle|Hgt].
  - unfold kv_state_at, arange.
    replace (Z.to_nat (cdiv (M - lo) BLOCK_M)) with 0%nat by lia.
    simpl. auto.
  - replace (cdiv (M - lo) BLOCK_M)
      with (Z.of_nat (Z.to_nat (cdiv (M - lo) BLOCK_M))) by lia.
    apply kv_states_footprint. rewrite Z2Nat.id by lia.
    assert (Hlt : cdiv (M - lo) BLOCK_M - 1 < cdiv (M - lo) BLOCK_M)
      by lia.
    apply cdiv_gt in Hlt; [lia|assumption].
Qed.

Lemma kv_kernel_footprint :
  _bwd_kv_kernel Q K V sm_scale DO L Dl sq sk sv sdo sdk sdv H M P_SEQ
                 BLOCK_M BLOCK_DMODEL BLOCK_N causal DIVISIBLE_M DIVISIBLE_N
                 start_n off_h off_z
  = _bwd_kv_kernel Q' K' V' sm_scale DO' L' Dl' sq sk sv sdo sdk sdv H M
                   P_SEQ BLOCK_M BLOCK_DMODEL BLOCK_N causal DIVISIBLE_M
                   DIVISIBLE_N start_n off_h off_z.
Proof.
  pose proof kv_loop_footprint as Hloop.
  destruct Hloop as (Hdk & Hdv).
  unfold _bwd_kv_kernel. f_equal.
  - apply tl_store2_vals_ext. intros j k Hj _ Hk. unfold kv_dk_out.
    now rewrite Hdk.
  - apply tl_store2_vals_ext. intros j k Hj _ Hk. unfold kv_dv_out.
    now rewrite Hdv.
Qed.
End KvFootprint.

(** X12.  The launch of [_bwd_kv_kernel] depends on the storages of q, k,
    v, do, L and delta through the elements of the six tensors only,
    whatever the sizes and the flags are: two launches whose storages
    agree on [q[z, h, m, d]], [do[z, h, m, d]], [L[z, h, m]],
    [delta[z, h, m]] for [m < M] and on [k[z, h, n, d]], [v[z, h, n, d]]
    for [n < N] make the same stores into dk and into dv. *)
Theorem bwd_kv_launch_footprint (Q K V DO L Dl Q' K' V' DO' L' Dl' : mem)
    (sm_scale : R) (sq sk sv sdo sdk sdv : strides)
    (B H M N BLOCK_M BLOCK_DMODEL BLOCK_N : Z) (causal : bool) :
  0 < BLOCK_M -> 0 < BLOCK_N ->
  (forall z h m d, 0 <= z < B -> 0 <= h < H -> 0 <= m < M ->
     0 <= d < BLOCK_DMODEL ->
     Q (offset4 sq z h m d) = Q' (offset4 sq z h m d)
     /\ DO (offset4 sdo z h m d) = DO' (offset4 sdo z h m d)) ->
  (forall z h n d, 0 <= z < B -> 0 <= h < H -> 0 <= n < N ->
     0 <= d < BLOCK_DMODEL ->
     K (offset4 sk z h n d) = K' (offset4 sk z h n d)
     /\ V (offset4 sv z h n d) = V' (offset4 sv z h n d)) ->
  (forall z h m, 0 <= z < B -> 0 <= h < H -> 0 <= m < M ->
     L (offset3 H M z h m) = L' (offset3 H M z h m)
     /\ Dl (offset3 H M z h m) = Dl' (offset3 H M z h m)) ->
  kv_launch Q K V sm_scale DO L Dl sq sk sv sdo sdk sdv H M (N - M)
            BLOCK_M BLOCK_N BLOCK_DMODEL causal
            (M mod BLOCK_M =? 0) (N mod BLOCK_N =? 0)
            (cdiv N BLOCK_N, H, B)
  = kv_launch Q' K' V' sm_scale DO' L' Dl' sq sk sv sdo sdk sdv H M (N - M)
              BLOCK_M BLOCK_N BLOCK_DMODEL causal
              (M mod BLOCK_M =? 0) (N mod BLOCK_N =? 0)
              (cdiv N BLOCK_N, H, B).
Proof.
  intros HBM HBN HQ HK HL.
  assert (Hrun : forall id, In id (grid_ids (cdiv N BLOCK_N, H, B)) ->
            (let '(t, h, z) := id in
             _bwd_kv_kernel Q K V sm_scale DO L Dl sq sk sv sdo sdk sdv
                            H M (N - M) BLOCK_M BLOCK_DMODEL BLOCK_N causal
                            (M mod BLOCK_M =? 0) (N mod BLOCK_N =? 0) t h z)
            = (let '(t, h, z) := id in
               _bwd_kv_kernel Q' K' V' sm_scale DO' L' Dl' sq sk sv sdo sdk
                              sdv H M (N - M) BLOCK_M BLOCK_DMODEL BLOCK_N
                              causal (M mod BLOCK_M =? 0)
                              (N mod BLOCK_N =? 0) t h z)).
  { intros [[t h] z] Hg. apply In_grid_ids in Hg as (Ht & Hh & Hz).
    destruct (kv_lo_tile (N - M) BLOCK_M BLOCK_N t causal HBM)
      as (c & Hc & Elo).
    assert (Hlo : 0 <= kv_lo (N - M) BLOCK_M BLOCK_N causal t) by nia.
    apply kv_kernel_footprint; auto; intros; try apply HQ; try apply HK;
      try apply HL; auto; lia. }
  unfold kv_launch. f_equal; apply flat_map_ext_in; intros id Hg;
    now rewrite (Hrun id Hg).
Qed.

Lemma bwd_kv_launch_footprint_witness :
  kv_launch (fun _ => F 1) (fun _ => F 1) (fun _ => F 1) 1
            (fun _ => F 1) (fun _ => F 1) (fun _ => F 1)
            (mkStrides 32 32 16 1) (mkStrides 32 32 16 1)
            (mkStrides 32 32 16 1) (mkStrides 32 32 16 1)
            (mkStrides 32 32 16 1) (mkStrides 32 32 16 1)
            1 2 (2 - 2) 64 64 16 true
            (2 mod 64 =? 0) (2 mod 64 =? 0) (cdiv 2 64, 1, 1)
  = kv_launch (fun a => if a <? 32 then F 1 else NaN)
              (fun a => if a <? 32 then F 1 else NaN)
              (fun a => if a <? 32 then F 1 else NaN) 1
              (fun a => if a <? 32 then F 1 else NaN)
              (fun a => if a <? 32 then F 1 else NaN)
              (fun a => if a <? 32 then F 1 else NaN)
              (mkStrides 32 32 16 1) (mkStrides 32 32 16 1)
              (mkStrides 32 32 16 1) (mkStrides 32 32 16 1)
              (mkStrides 32 32 16 1) (mkStrides 32 32 16 1)
              1 2 (2 - 2) 64 64 16 true
              (2 mod 64 =? 0) (2 mod 64 =? 0) (cdiv 2 64, 1, 1).
Proof.
  assert (H4 : forall z h m d, 0 <= z < 1 -> 0 <= h < 1 -> 0 <= m < 2 ->
            0 <= d < 16 ->
            F 1 = (if offset4 (mkStrides 32 32 16 1) z h m d <? 32
                   then F 1 else NaN)).
  { intros z h m d Hz Hh Hm Hd.
    destruct (Z.ltb_spec (offset4 (mkStrides 32 32 16 1) z h m d) 32)
      as [_|Hge]; [reflexivity|].
    unfold offset4 in Hge. simpl in Hge. lia. }
  assert (H3 : forall z h m, 0 <= z < 1 -> 0 <= h < 1 -> 0 <= m < 2 ->
            F 1 = (if offset3 1 2 z h m <? 32 then F 1 else NaN)).
  { intros z h m Hz Hh Hm.
    destruct (Z.ltb_spec (offset3 1 2 z h m) 32) as [_|Hge]; [reflexivity|].
    unfold offset3 in Hge. lia. }
  exact (bwd_kv_launch_footprint
           (fun _ => F 1) (fun _ => F 1) (fun _ => F 1)
           (fun _ => F 1) (fun _ => F 1) (fun _ => F 1)
           (fun a => if a <? 32 then F 1 else NaN)
           (fun a => if a <? 32 then F 1 else NaN)
           (fun a => if a <? 32 then F 1 else NaN)
           (fun a => if a <? 32 then F 1 else NaN)
           (fun a => if a <? 32 then F 1 else NaN)
           (fun a => if a <? 32 then F 1 else NaN) 1
           (mkStrides 32 32 16 1) (mkStrides 32 32 16 1)
           (mkStrides 32 32 16 1) (mkStrides 32 32 16 1)
           (mkStrides 32 32 16 1) (mkStrides 32 32 16 1)
           1 1 2 2 64 16 64 true ltac:(lia) ltac:(lia)
           (fun z h m d Hz Hh Hm Hd =>
              conj (H4 z h m d Hz Hh Hm Hd) (H4 z h m d Hz Hh Hm Hd))
           (fun z h m d Hz Hh Hm Hd =>
              conj (H4 z h m d Hz Hh Hm Hd) (H4 z h m d Hz Hh Hm Hd))
           (fun z h m Hz Hh Hm =>
              conj (H3 z h m Hz Hh Hm) (H3 z h m Hz Hh Hm))).
Defined.

(** ** The recomputed probabilities on finite elements *)

(** The block [p] of iteration [t] of [_bwd_kv_kernel], on the lanes of a
    row of q and of a column of k, depends on that row of q, on that
    column of k and on the element of L of the row. *)
Lemma kv_p_at_elements (Q K V DO L D Q' K' V' DO' L' D' : mem)
    (sm_scale : R) (sq sk sv sdo : strides)
    (H N_CTX P_SEQ BLOCK_M BLOCK_DMODEL BLOCK_N : Z)
    (CAUSAL DIVISIBLE_M DIVISIBLE_N : bool)
    (start_n off_h off_z t i j : Z) :
  let lo := kv_lo P_SEQ BLOCK_M BLOCK_N CAUSAL start_n in
  0 <= t ->
  (forall d, 0 <= d < BLOCK_DMODEL ->
     Q (offset4 sq off_z off_h (lo + t * BLOCK_M + i) d)
     = Q' (offset4 sq off_z off_h (lo + t * BLOCK_M + i) d)) ->
  (forall d, 0 <= d < BLOCK_DMODEL ->
     K (offset4 sk off_z off_h (start_n * BLOCK_N + j) d)
     = K' (offset4 sk off_z off_h (start_n * BLOCK_N + j) d)) ->
  L (offset3 H N_CTX off_z off_h (lo + t * BLOCK_M + i))
  = L' (offset3 H N_CTX off_z off_h (lo + t * BLOCK_M + i)) ->
  kv_p_at Q K V sm_scale DO L D sq sk sv sdo H N_CTX P_SEQ BLOCK_M
          BLOCK_DMODEL BLOCK_N CAUSAL DIVISIBLE_M DIVISIBLE_N
          start_n off_h off_z t i j
  = kv_p_at Q' K' V' sm_scale DO' L' D' sq sk sv sdo H N_CTX P_SEQ BLOCK_M
            BLOCK_DMODEL BLOCK_N CAUSAL DIVISIBLE_M DIVISIBLE_N
            start_n off_h off_z t i j.
Proof.
  intros lo Ht HQ HK HL.
  unfold kv_p_at, kv_p. cbv zeta. fold lo.
  destruct (kv_state_ptrs Q K V sm_scale DO L D sq sk sv sdo H N_CTX P_SEQ
              BLOCK_M BLOCK_DMODEL BLOCK_N CAUSAL DIVISIBLE_M DIVISIBLE_N
              start_n off_h off_z (Z.to_nat t)) as [Eq _].
  destruct (kv_state_ptrs Q' K' V' sm_scale DO' L' D' sq sk sv sdo H N_CTX
              P_SEQ BLOCK_M BLOCK_DMODEL BLOCK_N CAUSAL DIVISIBLE_M
              DIVISIBLE_N start_n off_h off_z (Z.to_nat t)) as [Eq' _].
  rewrite Z2Nat.id in Eq, Eq' by lia. fold lo in Eq, Eq'.
  apply kv_apply_masks_ext. f_equal. f_equal; f_equal.
  - unfold kv_s. f_equal. apply tl_dot_ext.
    + intros d Hd. unfold kv_q, tl_load. rewrite Eq, Eq'.
      destruct (lane_ok _ i); [|reflexivity].
      replace (kv_q_ptrs_init sq off_h off_z lo i d + t * (BLOCK_M * s2 sq))
        with (offset4 sq off_z off_h (lo + t * BLOCK_M + i) d)
        by (unfold kv_q_ptrs_init, kv_Q_base, kv_offs_m_init, offset4; lia).
      now apply HQ.
    + intros d Hd. unfold tl_trans, kv_k, tl_load.
      destruct (lane_ok _ j); [|reflexivity].
      replace (kv_k_ptrs sk BLOCK_N start_n off_h off_z j d)
        with (offset4 sk off_z off_h (start_n * BLOCK_N + j) d)
        by (unfold kv_k_ptrs, kv_K_base, kv_offs_n, offset4; lia).
      now apply HK.
  - unfold tl_load. destruct (lane_ok _ i); [|reflexivity].
    replace (kv_L_base H N_CTX off_h off_z + kv_offs_m (lo + t * BLOCK_M) i)
      with (offset3 H N_CTX off_z off_h (lo + t * BLOCK_M + i))
      by (unfold kv_L_base, kv_offs_m, offset3; lia).
    exact HL.
Qed.

Section RecomputeFinite.
Variables (Q K V DO D uninit : mem) (Qr Kr Vr : Z -> R) (sm_scale : R).
Variables (sq sk sv so sdo : strides).
Variables (B H M N BLOCK_DMODEL : Z).
Variable causal : bool.
(** The block sizes of the forward launch and of the backward launch. *)
Variables (FWD_M FWD_N BLOCK_M BLOCK_N : Z).

Local Abbreviation P_SEQ := (N - M).
(** What the launch of [_fwd_kernel] leaves in L. *)
Local Abbreviation saved_L :=
  (apply_writes uninit
     (fst (fwd_launch Q K V sm_scale sq sk sv so B H M P_SEQ FWD_M FWD_N
                      BLOCK_DMODEL causal (M mod FWD_M =? 0)
                      (N mod FWD_N =? 0) (cdiv M FWD_M, H, B)))).

Hypothesis scale_pos : (0 < sm_scale)%R.
Hypothesis FWD_M_pos : 0 < FWD_M.
Hypothesis FWD_N_pos : 0 < FWD_N.
Hypothesis BLOCK_M_pos : 0 < BLOCK_M.
Hypothesis prefix_nonneg : M <= N.
Hypothesis same_row_stride : s2 sk = s2 sv.
Hypothesis same_col_stride : s3 sk = s3 sv.
Hypothesis Q_finite : forall z h m d,
  0 <= z < B -> 0 <= h < H -> 0 <= m < M -> 0 <= d < BLOCK_DMODEL ->
  Q (offset4 sq z h m d) = F (Qr (offset4 sq z h m d)).
Hypothesis K_finite : forall z h n d,
  0 <= z < B -> 0 <= h < H -> 0 <= n < N -> 0 <= d < BLOCK_DMODEL ->
  K (offset4 sk z h n d) = F (Kr (offset4 sk z h n d)).
Hypothesis V_finite : forall z h n d,
  0 <= z < B -> 0 <= h < H -> 0 <= n < N -> 0 <= d < BLOCK_DMODEL ->
  V (offset4 sv z h n d) = F (Vr (offset4 sv z h n d)).
(** The forward loop stays within the N rows of k and v, or the storages
    of k and v are finite throughout. *)
Hypothesis key_tiles :
  causal = false \/ M mod FWD_M = 0 \/ N mod FWD_N <> 0
  \/ (K = finite_mem Kr /\ V = finite_mem Vr).

(** C2, as the code has it.  forward is run with a positive scale on
    q, k and v with [M <= N] that hold finite numbers at their elements, k
    and v sharing their sequence and feature strides, its loop staying
    within the N rows of k and v (no causal mask, or M a multiple of its
    BLOCK_M, or N not a multiple of its BLOCK_N) or else the storages of k
    and v being finite throughout; L is what its launch stored.  In
    [_bwd_kv_kernel], on the lanes of a row [m < M] of q and of a column
    [n < N] of k, the block [p = exp2(s * qk_scale - L * log2e)] of every
    iteration, after the two [tl.where] that zero it, is the softmax of
    the reference.  It is also [exp(s . scale - m . scale) / l] of the
    forward loop, with [s] the masked logit of the forward tile that holds
    the column and [m], [l] the statistics of the row when that loop ends;
    a column that the (causal) forward loop never visits has [p = 0].  No
    -inf is written into [s] on the way. *)
Theorem bwd_kv_recomputes_forward_probabilities
    (z h start_n t i j : Z) :
  let lo := kv_lo P_SEQ BLOCK_M BLOCK_N causal start_n in
  let m := lo + t * BLOCK_M + i in
  let n := start_n * BLOCK_N + j in
  let p := kv_p_at Q K V sm_scale DO saved_L D sq sk sv sdo
                   H M P_SEQ BLOCK_M BLOCK_DMODEL BLOCK_N causal
                   (M mod BLOCK_M =? 0) (N mod BLOCK_N =? 0)
                   start_n h z t i j in
  let T := cdiv (fwd_hi M P_SEQ FWD_M causal (m / FWD_M)) FWD_N in
  0 <= z < B -> 0 <= h < H -> 0 <= t -> 0 <= i -> m < M -> 0 <= n < N ->
  p = F (softmax Qr Kr sq sk sm_scale causal M N BLOCK_DMODEL z h m n)
  /\ (n / FWD_N < T ->
      p = fwd_prob Q K V sm_scale sq sk sv M P_SEQ FWD_M BLOCK_DMODEL FWD_N
                   causal (M mod FWD_M =? 0) (N mod FWD_N =? 0)
                   (m / FWD_M) h z (n / FWD_N) (m mod FWD_M) (n mod FWD_N))
  /\ (T <= n / FWD_N -> p = F 0).
Proof.
  intros lo m n p T Hz Hh Ht Hi Hm Hn.
  assert (Hlo : 0 <= lo).
  { unfold lo, kv_lo. destruct causal; [|lia].
    apply Z.mul_nonneg_nonneg; [|lia]. apply Z.div_pos; lia. }
  assert (Hm0 : 0 <= m) by (unfold m; nia).
  assert (Ep : p = kv_p_at (finite_mem Qr) (finite_mem Kr) (finite_mem Vr)
                     sm_scale (finite_mem (fun _ => 0%R))
                     (apply_writes uninit
                        (fst (fwd_launch (finite_mem Qr) (finite_mem Kr)
                                (finite_mem Vr) sm_scale sq sk sv so B H M
                                P_SEQ FWD_M FWD_N BLOCK_DMODEL causal
                                (M mod FWD_M =? 0) (N mod FWD_N =? 0)
                                (cdiv M FWD_M, H, B))))
                     D sq sk sv sdo H M P_SEQ BLOCK_M BLOCK_DMODEL BLOCK_N
                     causal (M mod BLOCK_M =? 0) (N mod BLOCK_N =? 0)
                     start_n h z t i j).
  { unfold p.
    rewrite (fwd_launch_finite Q K V Qr Kr Vr sm_scale sq sk sv so B H M N
               FWD_M BLOCK_DMODEL FWD_N causal FWD_M_pos FWD_N_pos
               same_row_stride same_col_stride Q_finite K_finite V_finite
               key_tiles).
    apply kv_p_at_elements; [assumption| | |reflexivity].
    - intros d Hd. fold lo. fold m. unfold finite_mem.
      apply Q_finite; lia.
    - intros d Hd. fold n. unfold finite_mem. apply K_finite; lia. }
  destruct (kv_recomputes_finite
              Qr Kr Vr (fun _ => 0%R) sm_scale D uninit sq sk sv so sdo
              B H M N BLOCK_DMODEL causal FWD_M FWD_N BLOCK_M BLOCK_N
              scale_pos FWD_M_pos FWD_N_pos BLOCK_M_pos prefix_nonneg
              same_row_stride same_col_stride z h start_n t i j
              Hz Hh Ht Hi Hm Hn) as (E1 & E2 & E3).
  fold lo m n T in E1, E2, E3. rewrite <- Ep in E1, E2, E3.
  split; [exact E1|]. split; [|exact E3].
  intros HT. rewrite (E2 HT). symmetry.
  pose proof (Z.mod_pos_bound m FWD_M FWD_M_pos) as Hbm.
  pose proof (Z.mod_pos_bound n FWD_N FWD_N_pos) as Hbn.
  pose proof (Z.div_mod m FWD_M ltac:(lia)) as Edm.
  apply (fwd_prob_finite Q K V Qr Kr Vr sm_scale sq sk sv B H M N FWD_M
           BLOCK_DMODEL FWD_N causal FWD_M_pos FWD_N_pos same_row_stride
           same_col_stride Q_finite K_finite V_finite key_tiles);
    try assumption.
  - split; [apply Z.div_pos; lia|]. apply cdiv_gt; [assumption|]. nia.
  - split; [apply Z.div_pos; lia|]. exact HT.
Qed.

End RecomputeFinite.

Lemma bwd_kv_recomputes_forward_probabilities_witness :
  kv_p_at (fun _ => F 1) (fun _ => F 1) (fun _ => F 1) 1 (fun _ => NaN)
          (apply_writes (fun _ => F 0)
             (fst (fwd_launch (fun _ => F 1) (fun _ => F 1) (fun _ => F 1) 1
                              (mkStrides 32 32 16 1) (mkStrides 32 32 16 1)
                              (mkStrides 32 32 16 1) (mkStrides 32 32 16 1)
                              1 1 2 (2 - 2) 128 64 16 true
                              (2 mod 128 =? 0) (2 mod 64 =? 0)
                              (cdiv 2 128, 1, 1))))
          (fun _ => F 0)
          (mkStrides 32 32 16 1) (mkStrides 32 32 16 1)
          (mkStrides 32 32 16 1) (mkStrides 32 32 16 1)
          1 2 (2 - 2) 64 16 64 true (2 mod 64 =? 0) (2 mod 64 =? 0)
          0 0 0 0 1 0
  = F (softmax (fun _ => 1%R) (fun _ => 1%R)
               (mkStrides 32 32 16 1) (mkStrides 32 32 16 1) 1 true 2 2 16
               0 0 1 0).
Proof.
  refine (proj1
    (bwd_kv_recomputes_forward_probabilities
       (fun _ => F 1) (fun _ => F 1) (fun _ => F 1) (fun _ => NaN)
       (fun _ => F 0) (fun _ => F 0)
       (fun _ => 1%R) (fun _ => 1%R) (fun _ => 1%R) 1
       (mkStrides 32 32 16 1) (mkStrides 32 32 16 1) (mkStrides 32 32 16 1)
       (mkStrides 32 32 16 1) (mkStrides 32 32 16 1)
       1 1 2 2 16 true 128 64 64 64 _ _ _ _ _ _ _ _ _ _ _
       0 0 0 0 1 0 _ _ _ _ _ _));
    try reflexivity; try lra; try lia;
    try (right; right; left; discriminate);
    cbv; intuition discriminate.
Defined.

(** ** A NaN in a skipped row of q

    q, k, v and do of shape (1, 1, 128, 16), contiguous, all ones but
    [q[0, 0, 0, 0] = NaN]; causal, [BLOCK_M = BLOCK_N = 64].  The instance
    of the key tile 1 starts its sweep at [lo = 64] and never loads row 0
    of q; the sweep from query tile 0 multiplies that row by the zero
    block [ds] and adds [0 * NaN = NaN] to dk. *)
Lemma bwd_kv_sweep_from_lo_counterexample :
  kv_dk (kv_sweep (fun a => if a =? 0 then NaN else F 1)
                  (fun _ => F 1) (fun _ => F 1) 1 (fun _ => F 1)
                  (fun _ => F 0) (fun _ => F 0)
                  (mkStrides 2048 2048 16 1) (mkStrides 2048 2048 16 1)
                  (mkStrides 2048 2048 16 1) (mkStrides 2048 2048 16 1)
                  1 128 0 64 16 64 true true true 1 0 0
                  (kv_lo 0 64 64 true 1)) 0 0
  <> kv_dk (kv_sweep (fun a => if a =? 0 then NaN else F 1)
                     (fun _ => F 1) (fun _ => F 1) 1 (fun _ => F 1)
                     (fun _ => F 0) (fun _ => F 0)
                     (mkStrides 2048 2048 16 1) (mkStrides 2048 2048 16 1)
                     (mkStrides 2048 2048 16 1) (mkStrides 2048 2048 16 1)
                     1 128 0 64 16 64 true true true 1 0 0 0) 0 0.
Proof.
  set (s := mkStrides 2048 2048 16 1).
  set (Qx := fun a : Z => if a =? 0 then NaN else F 1).
  (* the sweep from tile 0 *)
  assert (E0 : kv_dk (kv_sweep Qx (fun _ => F 1) (fun _ => F 1) 1
                               (fun _ => F 1) (fun _ => F 0) (fun _ => F 0)
                               s s s s 1 128 0 64 16 64 true true true
                               1 0 0 0) 0 0 = NaN).
  { unfold kv_sweep.
    replace (py_range 0 128 64) with [0; 64] by reflexivity.
    cbn [fold_left]. unfold kv_body at 1. cbn [kv_dk].
    replace (kv_dk _ 0 0) with NaN; [reflexivity|].
    symmetry. unfold kv_body. cbn [kv_dk kv_init kv_q_ptrs].
    rewrite fadd_0_l. apply (tl_dot_NaN 64 _ _ 0 0 0); [lia|].
    reflexivity. }
  rewrite E0.
  (* the sweep of the kernel *)
  change (kv_sweep Qx (fun _ => F 1) (fun _ => F 1) 1 (fun _ => F 1)
                   (fun _ => F 0) (fun _ => F 0) s s s s 1 128 0 64 16 64
                   true true true 1 0 0 (kv_lo 0 64 64 true 1))
    with (kv_loop Qx (fun _ => F 1) (fun _ => F 1) 1 (fun _ => F 1)
                  (fun _ => F 0) (fun _ => F 0) s s s s 1 128 (128 - 128)
                  64 16 64 true (128 mod 64 =? 0) (128 mod 64 =? 0) 1 0 0).
  destruct (kv_loop_footprint
              Qx (fun _ => F 1) (fun _ => F 1) (fun _ => F 1)
              (fun _ => F 0) (fun _ => F 0)
              (finite_mem (fun _ => 1%R)) (finite_mem (fun _ => 1%R))
              (finite_mem (fun _ => 1%R)) (finite_mem (fun _ => 1%R))
              (fun _ => F 0) (fun _ => F 0) 1 s s s s
              1 128 128 64 16 64 true 1 0 0) as [Hdk _];
    try reflexivity; try lia.
  { change (cdiv 128 64) with 2. lia. }
  { intros m d Hm Hd. unfold Qx, finite_mem.
    change (kv_lo (128 - 128) 64 64 true 1) with 64 in Hm.
    destruct (Z.eqb_spec (offset4 s 0 0 m d) 0) as [E|_]; [|reflexivity].
    unfold offset4, s in E. simpl in E. lia. }
  rewrite (Hdk 0 0) by lia.
  destruct (kv_out_sums (fun _ => 1%R) (fun _ => 1%R) (fun _ => 1%R)
              (fun _ => 1%R) (fun _ => 0%R) (fun _ => 0%R) 1
              (fun _ => F 0) (fun _ => F 0) s s s s
              1 128 128 64 16 64 true 1 0 0 ltac:(lia)
              ltac:(reflexivity) ltac:(reflexivity) 0 ltac:(lia)
              ltac:(lia) 0) as [_ Ek].
  unfold kv_dk_out, to_dtype in Ek.
  intros E. rewrite E in Ek. discriminate Ek.
Qed.

(** ** What [_bwd_q_kernel] reads

    Without [CAUSAL], or when M is a multiple of BLOCK_M, or when N is not
    a multiple of BLOCK_N, the kernel reads q, k, v, do, L and delta at
    the offsets of their elements only. *)

(** The pointers into k and v when [_bwd_q_kernel] enters its iteration
    [t]. *)
Lemma bq_state_ptrs (Q K V : mem) (sm_scale : R) (DO L D : mem)
    (sq sk sv sdo : strides)
    (H N_CTX P_SEQ BLOCK_M BLOCK_DMODEL BLOCK_N : Z)
    (CAUSAL DIVISIBLE_M DIVISIBLE_N : bool) (start_m off_h off_z : Z)
    (t : nat) :
  let st := bq_state_at Q K V sm_scale DO L D sq sk sv sdo H N_CTX P_SEQ
                        BLOCK_M BLOCK_DMODEL BLOCK_N CAUSAL DIVISIBLE_M
                        DIVISIBLE_N start_m off_h off_z (Z.of_nat t) in
  q_k_ptrs st = (fun j k => bq_k_ptrs_init sk off_h off_z j k
                            + Z.of_nat t * (BLOCK_N * s2 sk))
  /\ q_v_ptrs st = (fun j k => bq_v_ptrs_init sv off_h off_z j k
                               + Z.of_nat t * (BLOCK_N * s2 sv)).
Proof.
  cbv zeta. induction t as [|t [IHk IHv]].
  - unfold bq_state_at. simpl.
    split; extensionality a; extensionality b; lia.
  - replace (Z.of_nat (S t)) with (Z.of_nat t + 1) by lia.
    unfold bq_state_at, tile_starts in *.
    rewrite arange_succ by lia. rewrite map_app, fold_left_app.
    cbn [map fold_left]. unfold bq_body at 1 3. cbn [q_k_ptrs q_v_ptrs].
    rewrite IHk, IHv. split; extensionality a; extensionality b; lia.
Qed.

Section BqFootprint.
Variables (Q K V DO L Dl Q' K' V' DO' L' Dl' : mem) (sm_scale : R).
Variables (sq sk sv sdo sdq : strides).
Variables (H M N BLOCK_M BLOCK_DMODEL BLOCK_N : Z).
Variables (causal : bool).
Variables (start_m off_h off_z : Z).

Local Abbreviation P_SEQ := (N - M).
Local Abbreviation DIVISIBLE_M := (M mod BLOCK_M =? 0).
Local Abbreviation DIVISIBLE_N := (N mod BLOCK_N =? 0).

Hypothesis BLOCK_M_pos : 0 < BLOCK_M.
Hypothesis BLOCK_N_pos : 0 < BLOCK_N.
Hypothesis N_nonneg : 0 <= N.
Hypothesis tile_in_grid : 0 <= start_m < cdiv M BLOCK_M.
(** The query tile is full when the loop bound depends on it and the loads
    of k and v carry no mask. *)
Hypothesis full_tile :
  causal = false \/ (start_m + 1) * BLOCK_M <= M \/ N mod BLOCK_N <> 0.
Hypothesis Q_elements : forall m d, 0 <= m < M -> 0 <= d < BLOCK_DMODEL ->
  Q (offset4 sq off_z off_h m d) = Q' (offset4 sq off_z off_h m d).
Hypothesis K_elements : forall n d, 0 <= n < N -> 0 <= d < BLOCK_DMODEL ->
  K (offset4 sk off_z off_h n d) = K' (offset4 sk off_z off_h n d).
Hypothesis V_elements : forall n d, 0 <= n < N -> 0 <= d < BLOCK_DMODEL ->
  V (offset4 sv off_z off_h n d) = V' (offset4 sv off_z off_h n d).
Hypothesis DO_elements : forall m d, 0 <= m < M -> 0 <= d < BLOCK_DMODEL ->
  DO (offset4 sdo off_z off_h m d) = DO' (offset4 sdo off_z off_h m d).
Hypothesis L_elements : forall m, 0 <= m < M ->
  L (offset3 H M off_z off_h m) = L' (offset3 H M off_z off_h m).
Hypothesis D_elements : forall m, 0 <= m < M ->
  Dl (offset3 H M off_z off_h m) = Dl' (offset3 H M off_z off_h m).

Local Abbreviation st_at t :=
  (bq_state_at Q K V sm_scale DO L Dl sq sk sv sdo H M P_SEQ BLOCK_M
               BLOCK_DMODEL BLOCK_N causal DIVISIBLE_M DIVISIBLE_N
               start_m off_h off_z t).
Local Abbreviation st_at' t :=
  (bq_state_at Q' K' V' sm_scale DO' L' Dl' sq sk sv sdo H M P_SEQ BLOCK_M
               BLOCK_DMODEL BLOCK_N causal DIVISIBLE_M DIVISIBLE_N
               start_m off_h off_z t).
Local Abbreviation hi := (bq_hi M P_SEQ BLOCK_M causal start_m).
Local Abbreviation mask_n t :=
  (bq_mask_n M P_SEQ BLOCK_N DIVISIBLE_N (t * BLOCK_N)).

(** What the instance loads on the lane [i] of its query tile. *)
Lemma bq_row_footprint (i : Z) :
  0 <= i < BLOCK_M ->
  (forall k, 0 <= k < BLOCK_DMODEL ->
     bq_q Q sq M BLOCK_M DIVISIBLE_M start_m off_h off_z i k
     = bq_q Q' sq M BLOCK_M DIVISIBLE_M start_m off_h off_z i k)
  /\ (forall k, 0 <= k < BLOCK_DMODEL ->
        bq_do DO sdo M BLOCK_M DIVISIBLE_M start_m off_h off_z i k
        = bq_do DO' sdo M BLOCK_M DIVISIBLE_M start_m off_h off_z i k)
  /\ bq_l L H M BLOCK_M DIVISIBLE_M start_m off_h off_z i
     = bq_l L' H M BLOCK_M DIVISIBLE_M start_m off_h off_z i
  /\ bq_delta Dl H M BLOCK_M DIVISIBLE_M start_m off_h off_z i
     = bq_delta Dl' H M BLOCK_M DIVISIBLE_M start_m off_h off_z i.
Proof.
  intros Hi. unfold bq_q, bq_do, bq_l, bq_delta, tl_load.
  destruct (lane_ok _ i) eqn:Hok; [|repeat split; reflexivity].
  pose proof (bq_kept_in_range M BLOCK_M start_m i BLOCK_M_pos tile_in_grid
                Hi Hok) as Hm.
  assert (H0 : 0 <= start_m * BLOCK_M + i) by nia.
  repeat split.
  - intros k Hk.
    replace (bq_q_ptrs sq BLOCK_M start_m off_h off_z i k)
      with (offset4 sq off_z off_h (start_m * BLOCK_M + i) k)
      by (unfold bq_q_ptrs, bq_Q_base, bq_offs_m, offset4; lia).
    apply Q_elements; lia.
  - intros k Hk.
    replace (bq_do_ptrs sdo BLOCK_M start_m off_h off_z i k)
      with (offset4 sdo off_z off_h (start_m * BLOCK_M + i) k)
      by (unfold bq_do_ptrs, bq_DO_base, bq_offs_m, offset4; lia).
    apply DO_elements; lia.
  - replace (bq_l_ptrs H M BLOCK_M start_m off_h off_z i)
      with (offset3 H M off_z off_h (start_m * BLOCK_M + i))
      by (unfold bq_l_ptrs, bq_L_base, bq_offs_m, offset3; lia).
    apply L_elements; lia.
  - replace (bq_d_ptrs H M BLOCK_M start_m off_h off_z i)
      with (offset3 H M off_z off_h (start_m * BLOCK_M + i))
      by (unfold bq_d_ptrs, bq_D_base, bq_offs_m, offset3; lia).
    apply D_elements; lia.
Qed.

(** A lane of a key tile that the loop visits and the mask lets through
    is a row of k and v. *)
Lemma bq_key_row_in_range (t j : Z) :
  0 <= t -> t * BLOCK_N < hi -> 0 <= j < BLOCK_N ->
  lane_ok (mask_n t) j = true ->
  0 <= t * BLOCK_N + j < N.
Proof.
  intros Ht Hhi Hj Hok. split; [nia|].
  unfold bq_mask_n in Hok.
  replace (M + (N - M)) with N in Hok by lia.
  destruct (Z.eqb_spec (N mod BLOCK_N) 0) as [E|E]; cbn [negb] in Hok.
  - assert (Hhi' : t * BLOCK_N < N).
    { unfold bq_hi in Hhi.
      destruct full_tile as [-> | [Hf | Hn]]; [lia| |contradiction].
      destruct causal; nia. }
    apply Z.mod_divide in E; [|lia]. destruct E as [c ->].
    assert (t < c) by nia. nia.
  - pose proof (Z.mod_pos_bound N BLOCK_N BLOCK_N_pos) as Hb.
    pose proof (Z.div_mod N BLOCK_N ltac:(lia)) as EN.
    destruct (Z.gtb_spec (t * BLOCK_N + BLOCK_N) N); cbn [lane_ok] in Hok.
    + apply Z.ltb_lt in Hok.
      assert (0 <= N / BLOCK_N) by (apply Z.div_pos; lia). nia.
    + lia.
Qed.

Lemma bq_loads_footprint (t : nat) (j k : Z) :
  Z.of_nat t * BLOCK_N < hi -> 0 <= j < BLOCK_N -> 0 <= k < BLOCK_DMODEL ->
  bq_k K M P_SEQ BLOCK_N DIVISIBLE_N (st_at (Z.of_nat t))
       (Z.of_nat t * BLOCK_N) j k
  = bq_k K' M P_SEQ BLOCK_N DIVISIBLE_N (st_at' (Z.of_nat t))
         (Z.of_nat t * BLOCK_N) j k
  /\ bq_v V M P_SEQ BLOCK_N DIVISIBLE_N (st_at (Z.of_nat t))
          (Z.of_nat t * BLOCK_N) j k
     = bq_v V' M P_SEQ BLOCK_N DIVISIBLE_N (st_at' (Z.of_nat t))
            (Z.of_nat t * BLOCK_N) j k.
Proof.
  intros Hhi Hj Hk. unfold bq_k, bq_v.
  destruct (bq_state_ptrs Q K V sm_scale DO L Dl sq sk sv sdo H M P_SEQ
              BLOCK_M BLOCK_DMODEL BLOCK_N causal DIVISIBLE_M DIVISIBLE_N
              start_m off_h off_z t) as [-> ->].
  destruct (bq_state_ptrs Q' K' V' sm_scale DO' L' Dl' sq sk sv sdo H M
              P_SEQ BLOCK_M BLOCK_DMODEL BLOCK_N causal DIVISIBLE_M
              DIVISIBLE_N start_m off_h off_z t) as [-> ->].
  unfold tl_load. destruct (lane_ok _ j) eqn:Hok; [|split; reflexivity].
  pose proof (bq_key_row_in_range (Z.of_nat t) j ltac:(lia) Hhi Hj Hok)
    as Hn.
  replace (bq_k_ptrs_init sk off_h off_z j k
           + Z.of_nat t * (BLOCK_N * s2 sk))
    with (offset4 sk off_z off_h (Z.of_nat t * BLOCK_N + j) k)
    by (unfold bq_k_ptrs_init, bq_K_base, offset4; lia).
  replace (bq_v_ptrs_init sv off_h off_z j k
           + Z.of_nat t * (BLOCK_N * s2 sv))
    with (offset4 sv off_z off_h (Z.of_nat t * BLOCK_N + j) k)
    by (unfold bq_v_ptrs_init, bq_V_base, offset4; lia).
  split; [apply K_elements | apply V_elements]; lia.
Qed.

Lemma bq_ds_footprint (t : nat) (i j : Z) :
  Z.of_nat t * BLOCK_N < hi -> 0 <= i < BLOCK_M -> 0 <= j < BLOCK_N ->
  bq_ds Q K V sm_scale DO L Dl sq sdo H M P_SEQ BLOCK_M BLOCK_DMODEL BLOCK_N
        causal DIVISIBLE_M DIVISIBLE_N start_m off_h off_z
        (st_at (Z.of_nat t)) (Z.of_nat t * BLOCK_N) i j
  = bq_ds Q' K' V' sm_scale DO' L' Dl' sq sdo H M P_SEQ BLOCK_M BLOCK_DMODEL
          BLOCK_N causal DIVISIBLE_M DIVISIBLE_N start_m off_h off_z
          (st_at' (Z.of_nat t)) (Z.of_nat t * BLOCK_N) i j.
Proof.
  intros Hhi Hi Hj.
  destruct (bq_row_footprint i Hi) as (Hq & Hdo & Hl & Hd).
  assert (Hraw :
    fmul (bq_p Q K sm_scale L sq H M P_SEQ BLOCK_M BLOCK_DMODEL BLOCK_N
               DIVISIBLE_M DIVISIBLE_N start_m off_h off_z
               (st_at (Z.of_nat t)) (Z.of_nat t * BLOCK_N) i j)
         (fsub (fadd (F 0)
                  (tl_dot BLOCK_DMODEL
                     (fun i k =>
                        to_dtype (bq_do DO sdo M BLOCK_M DIVISIBLE_M start_m
                                        off_h off_z i k))
                     (tl_trans (bq_v V M P_SEQ BLOCK_N DIVISIBLE_N
                                     (st_at (Z.of_nat t))
                                     (Z.of_nat t * BLOCK_N))) i j))
               (bq_delta Dl H M BLOCK_M DIVISIBLE_M start_m off_h off_z i))
    = fmul (bq_p Q' K' sm_scale L' sq H M P_SEQ BLOCK_M BLOCK_DMODEL BLOCK_N
                 DIVISIBLE_M DIVISIBLE_N start_m off_h off_z
                 (st_at' (Z.of_nat t)) (Z.of_nat t * BLOCK_N) i j)
           (fsub (fadd (F 0)
                    (tl_dot BLOCK_DMODEL
                       (fun i k =>
                          to_dtype (bq_do DO' sdo M BLOCK_M DIVISIBLE_M
                                          start_m off_h off_z i k))
                       (tl_trans (bq_v V' M P_SEQ BLOCK_N DIVISIBLE_N
                                       (st_at' (Z.of_nat t))
                                       (Z.of_nat t * BLOCK_N))) i j))
                 (bq_delta Dl' H M BLOCK_M DIVISIBLE_M start_m off_h off_z
                           i))).
  { unfold bq_p. cbv zeta. rewrite Hl, Hd.
    rewrite (tl_dot_ext BLOCK_DMODEL
               (bq_q Q sq M BLOCK_M DIVISIBLE_M start_m off_h off_z)
               (bq_q Q' sq M BLOCK_M DIVISIBLE_M start_m off_h off_z)
               (tl_trans (bq_k K M P_SEQ BLOCK_N DIVISIBLE_N
                               (st_at (Z.of_nat t)) (Z.of_nat t * BLOCK_N)))
               (tl_trans (bq_k K' M P_SEQ BLOCK_N DIVISIBLE_N
                               (st_at' (Z.of_nat t))
                               (Z.of_nat t * BLOCK_N))) i j).
    2:{ intros k Hk. now apply Hq. }
    2:{ intros k Hk. unfold tl_trans. now apply bq_loads_footprint. }
    rewrite (tl_dot_ext BLOCK_DMODEL
               (fun i k =>
                  to_dtype (bq_do DO sdo M BLOCK_M DIVISIBLE_M start_m
                                  off_h off_z i k))
               (fun i k =>
                  to_dtype (bq_do DO' sdo M BLOCK_M DIVISIBLE_M start_m
                                  off_h off_z i k))
               (tl_trans (bq_v V M P_SEQ BLOCK_N DIVISIBLE_N
                               (st_at (Z.of_nat t)) (Z.of_nat t * BLOCK_N)))
               (tl_trans (bq_v V' M P_SEQ BLOCK_N DIVISIBLE_N
                               (st_at' (Z.of_nat t))
                               (Z.of_nat t * BLOCK_N))) i j).
    2:{ intros k Hk. unfold to_dtype. now apply Hdo. }
    2:{ intros k Hk. unfold tl_trans. now apply bq_loads_footprint. }
    reflexivity. }
  unfold bq_ds. cbv zeta.
  destruct causal, (bq_mask_n M P_SEQ BLOCK_N DIVISIBLE_N
                              (Z.of_nat t * BLOCK_N));
    unfold tl_where; now rewrite Hraw.
Qed.

Local Abbreviation bq_agree st st' :=
  (forall i k, 0 <= i < BLOCK_M -> 0 <= k < BLOCK_DMODEL ->
     q_dq st i k = q_dq st' i k).

Lemma bq_states_footprint (t : nat) :
  (Z.of_nat t - 1) * BLOCK_N < hi ->
  bq_agree (st_at (Z.of_nat t)) (st_at' (Z.of_nat t)).
Proof.
  induction t as [|t IH]; intros Hhi.
  - unfold bq_state_at. simpl. auto.
  - replace (Z.of_nat (S t)) with (Z.of_nat t + 1) in * by lia.
    replace (Z.of_nat t + 1 - 1) with (Z.of_nat t) in Hhi by lia.
    assert (Hdq := IH ltac:(nia)).
    assert (Enext : forall Q K V DO L Dl,
              bq_state_at Q K V sm_scale DO L Dl sq sk sv sdo H M P_SEQ
                          BLOCK_M BLOCK_DMODEL BLOCK_N causal DIVISIBLE_M
                          DIVISIBLE_N start_m off_h off_z (Z.of_nat t + 1)
              = bq_body Q K V sm_scale DO L Dl sq sk sv sdo H M P_SEQ
                        BLOCK_M BLOCK_DMODEL BLOCK_N causal DIVISIBLE_M
                        DIVISIBLE_N start_m off_h off_z
                        (bq_state_at Q K V sm_scale DO L Dl sq sk sv sdo H M
                                     P_SEQ BLOCK_M BLOCK_DMODEL BLOCK_N
                                     causal DIVISIBLE_M DIVISIBLE_N start_m
                                     off_h off_z (Z.of_nat t))
                        (Z.of_nat t * BLOCK_N)).
    { intros. unfold bq_state_at, tile_starts.
      rewrite arange_succ by lia. now rewrite map_app, fold_left_app. }
    rewrite !Enext. unfold bq_body. cbn [q_dq].
    intros i k Hi Hk. rewrite (Hdq i k Hi Hk). f_equal.
    apply tl_dot_ext.
    + intros j Hj. unfold to_dtype. now apply bq_ds_footprint.
    + intros j Hj. now apply bq_loads_footprint.
Qed.

Lemma bq_kernel_footprint :
  _bwd_q_kernel Q K V sm_scale DO L Dl sq sk sv sdo sdq H M P_SEQ BLOCK_M
                BLOCK_DMODEL BLOCK_N causal DIVISIBLE_M DIVISIBLE_N
                start_m off_h off_z
  = _bwd_q_kernel Q' K' V' sm_scale DO' L' Dl' sq sk sv sdo sdq H M P_SEQ
                  BLOCK_M BLOCK_DMODEL BLOCK_N causal DIVISIBLE_M
                  DIVISIBLE_N start_m off_h off_z.
Proof.
  assert (Hloop : bq_agree
            (bq_loop Q K V sm_scale DO L Dl sq sk sv sdo H M P_SEQ BLOCK_M
                     BLOCK_DMODEL BLOCK_N causal DIVISIBLE_M DIVISIBLE_N
                     start_m off_h off_z)
            (bq_loop Q' K' V' sm_scale DO' L' Dl' sq sk sv sdo H M P_SEQ
                     BLOCK_M BLOCK_DMODEL BLOCK_N causal DIVISIBLE_M
                     DIVISIBLE_N start_m off_h off_z)).
  { unfold bq_loop, py_range. rewrite Z.sub_0_r.
    change (bq_agree (st_at (cdiv hi BLOCK_N)) (st_at' (cdiv hi BLOCK_N))).
    destruct (Z_le_gt_dec (cdiv hi BLOCK_N) 0) as [Hle|Hgt].
    - unfold bq_state_at, tile_starts, arange.
      replace (Z.to_nat (cdiv hi BLOCK_N)) with 0%nat by lia.
      simpl. auto.
    - replace (cdiv hi BLOCK_N)
        with (Z.of_nat (Z.to_nat (cdiv hi BLOCK_N))) by lia.
      apply bq_states_footprint. rewrite Z2Nat.id by lia.
      apply cdiv_gt; [assumption|lia]. }
  unfold _bwd_q_kernel. apply tl_store2_vals_ext.
  intros i k Hi _ Hk. unfold bq_dq_out. now rewrite Hloop.
Qed.
End BqFootprint.

(** X13.  Without causal masking, or when M is a multiple of BLOCK_M, or
    when N is not a multiple of BLOCK_N, the launch of [_bwd_q_kernel]
    depends on the storages of q, k, v, do, L and delta through the
    elements of the six tensors only: two launches whose storages agree
    on [q[z, h, m, d]], [do[z, h, m, d]], [L[z, h, m]], [delta[z, h, m]]
    for [m < M] and on [k[z, h, n, d]], [v[z, h, n, d]] for [n < N] make
    the same stores into dq. *)
Theorem bwd_q_launch_footprint (Q K V DO L Dl Q' K' V' DO' L' Dl' : mem)
    (sm_scale : R) (sq sk sv sdo sdq : strides)
    (B H M N BLOCK_M BLOCK_DMODEL BLOCK_N : Z) (causal : bool) :
  0 < BLOCK_M -> 0 < BLOCK_N -> 0 <= N ->
  causal = false \/ M mod BLOCK_M = 0 \/ N mod BLOCK_N <> 0 ->
  (forall z h m d, 0 <= z < B -> 0 <= h < H -> 0 <= m < M ->
     0 <= d < BLOCK_DMODEL ->
     Q (offset4 sq z h m d) = Q' (offset4 sq z h m d)
     /\ DO (offset4 sdo z h m d) = DO' (offset4 sdo z h m d)) ->
  (forall z h n d, 0 <= z < B -> 0 <= h < H -> 0 <= n < N ->
     0 <= d < BLOCK_DMODEL ->
     K (offset4 sk z h n d) = K' (offset4 sk z h n d)
     /\ V (offset4 sv z h n d) = V' (offset4 sv z h n d)) ->
  (forall z h m, 0 <= z < B -> 0 <= h < H -> 0 <= m < M ->
     L (offset3 H M z h m) = L' (offset3 H M z h m)
     /\ Dl (offset3 H M z h m) = Dl' (offset3 H M z h m)) ->
  q_launch Q K V sm_scale DO L Dl sq sk sv sdo sdq H M (N - M)
           BLOCK_M BLOCK_N BLOCK_DMODEL causal
           (M mod BLOCK_M =? 0) (N mod BLOCK_N =? 0)
           (cdiv M BLOCK_M, H, B)
  = q_launch Q' K' V' sm_scale DO' L' Dl' sq sk sv sdo sdq H M (N - M)
             BLOCK_M BLOCK_N BLOCK_DMODEL causal
             (M mod BLOCK_M =? 0) (N mod BLOCK_N =? 0)
             (cdiv M BLOCK_M, H, B).
Proof.
  intros HBM HBN HN Hsafe HQ HK HL.
  unfold q_launch. apply flat_map_ext_in.
  intros [[t h] z] Hg. apply In_grid_ids in Hg as (Ht & Hh & Hz).
  apply bq_kernel_footprint; auto; intros; try apply HQ; try apply HK;
    try apply HL; auto.
  destruct Hsafe as [E | [E | E]]; [now left | right; left | auto].
  apply Z.mod_divide in E; [|lia]. destruct E as [c ->].
  destruct Ht as [_ Ht]. apply cdiv_gt in Ht; [|assumption].
  assert (t < c) by nia. nia.
Qed.

Lemma bwd_q_launch_footprint_witness :
  q_launch (fun _ => F 1) (fun _ => F 1) (fun _ => F 1) 1
           (fun _ => F 1) (fun _ => F 1) (fun _ => F 1)
           (mkStrides 32 32 16 1) (mkStrides 32 32 16 1)
           (mkStrides 32 32 16 1) (mkStrides 32 32 16 1)
           (mkStrides 32 32 16 1)
           1 2 (2 - 2) 64 64 16 true
           (2 mod 64 =? 0) (2 mod 64 =? 0) (cdiv 2 64, 1, 1)
  = q_launch (fun a => if a <? 32 then F 1 else NaN)
             (fun a => if a <? 32 then F 1 else NaN)
             (fun a => if a <? 32 then F 1 else NaN) 1
             (fun a => if a <? 32 then F 1 else NaN)
             (fun a => if a <? 32 then F 1 else NaN)
             (fun a => if a <? 32 then F 1 else NaN)
             (mkStrides 32 32 16 1) (mkStrides 32 32 16 1)
             (mkStrides 32 32 16 1) (mkStrides 32 32 16 1)
             (mkStrides 32 32 16 1)
             1 2 (2 - 2) 64 64 16 true
             (2 mod 64 =? 0) (2 mod 64 =? 0) (cdiv 2 64, 1, 1).
Proof.
  assert (H4 : forall z h m d, 0 <= z < 1 -> 0 <= h < 1 -> 0 <= m < 2 ->
            0 <= d < 16 ->
            F 1 = (if offset4 (mkStrides 32 32 16 1) z h m d <? 32
                   then F 1 else NaN)).
  { intros z h m d Hz Hh Hm Hd.
    destruct (Z.ltb_spec (offset4 (mkStrides 32 32 16 1) z h m d) 32)
      as [_|Hge]; [reflexivity|].
    unfold offset4 in Hge. simpl in Hge. lia. }
  assert (H3 : forall z h m, 0 <= z < 1 -> 0 <= h < 1 -> 0 <= m < 2 ->
            F 1 = (if offset3 1 2 z h m <? 32 then F 1 else NaN)).
  { intros z h m Hz Hh Hm.
    destruct (Z.ltb_spec (offset3 1 2 z h m) 32) as [_|Hge]; [reflexivity|].
    unfold offset3 in Hge. lia. }
  assert (Hne : 2 mod 64 <> 0) by (intros E; discriminate E).
  exact (bwd_q_launch_footprint
           (fun _ => F 1) (fun _ => F 1) (fun _ => F 1)
           (fun _ => F 1) (fun _ => F 1) (fun _ => F 1)
           (fun a => if a <? 32 then F 1 else NaN)
           (fun a => if a <? 32 then F 1 else NaN)
           (fun a => if a <? 32 then F 1 else NaN)
           (fun a => if a <? 32 then F 1 else NaN)
           (fun a => if a <? 32 then F 1 else NaN)
           (fun a => if a <? 32 then F 1 else NaN) 1
           (mkStrides 32 32 16 1) (mkStrides 32 32 16 1)
           (mkStrides 32 32 16 1) (mkStrides 32 32 16 1)
           (mkStrides 32 32 16 1)
           1 1 2 2 64 16 64 true ltac:(lia) ltac:(lia) ltac:(lia)
           (or_intror (or_intror Hne))
           (fun z h m d Hz Hh Hm Hd =>
              conj (H4 z h m d Hz Hh Hm Hd) (H4 z h m d Hz Hh Hm Hd))
           (fun z h m d Hz Hh Hm Hd =>
              conj (H4 z h m d Hz Hh Hm Hd) (H4 z h m d Hz Hh Hm Hd))
           (fun z h m Hz Hh Hm =>
              conj (H3 z h m Hz Hh Hm) (H3 z h m Hz Hh Hm))).
Defined.
